(** * vite-plugin-ruoyi-collect-api: the API collector of [src/index.ts]

    A shallow embedding of the plugin's source and the properties of its
    dependency walker, catalogue analysis, usage detection and result
    aggregation.

    Conventions of the embedding.
    - A JavaScript string is a Rocq [string]; a character is one code unit
      below 256.  The regular-expression matcher works on [list ascii].
    - [componentCache] (a [Map]) is a [gmap string (list ApiInfo)],
      [processingStack] and [visited] (two [Set]s) are [gset string].
    - [viewApiData] (an object of objects of [Set]s) is an association list
      in insertion order, as are the [Set]s it holds.
    - Exceptions are explicit: a file whose read or detection throws has
      the status [Failing]. *)

From Stdlib Require Import Ascii String List Arith Lia Bool ZArith Sorted.
From stdpp Require Import gmap strings list.

Import ListNotations.

#[global] Set Warnings "-clear-no-such-hyp,-level-tolerance".

(** ** Regular expressions

    The fragment of ECMAScript regular expressions the source uses, with the
    backtracking semantics of the language: ordered alternation, greedy and
    lazy repetition, capture groups, an iteration of a repetition that
    consumes nothing is rejected. *)

Module Regex.

Inductive regex : Type :=
| Empty
| Char (a : ascii)
| Class (p : ascii -> bool)
| Seq (r1 r2 : regex)
| Alt (r1 r2 : regex)
| Star (greedy : bool) (r : regex)
| Group (i : nat) (r : regex)
| EndOfInput.

(** A position in the subject: the characters already passed (nearest
    first), the characters ahead, and the captures made so far. *)
Record cursor : Type := Cursor {
  seen : list ascii;
  rest : list ascii;
  caps : list (nat * list ascii)
}.

Definition step (c : cursor) : option (ascii * cursor) :=
  match rest c with
  | [] => None
  | a :: t => Some (a, Cursor (a :: seen c) t (caps c))
  end.

(** The text between two cursors of one run. *)
Definition between (c c' : cursor) : list ascii :=
  firstn (length (rest c) - length (rest c')) (rest c).

Definition capture (i : nat) (c c' : cursor) : cursor :=
  Cursor (seen c') (rest c') ((i, between c c') :: caps c').

(** The iterations of a repetition whose body is matched by [body]: greedy
    tries one more iteration first, lazy tries the continuation first.  An
    iteration has to consume at least one character, so [n], the number of
    characters ahead, bounds the iterations. *)
Fixpoint star_loop {A : Type}
  (body : cursor -> (cursor -> option A) -> option A) (greedy : bool)
  (k : cursor -> option A) (n : nat) (c : cursor) {struct n} : option A :=
  match n with
  | O => k c
  | S n' =>
      let again (c' : cursor) :=
        if length (rest c') <? length (rest c)
        then star_loop body greedy k n' c' else None in
      if greedy then
        match body c again with
        | Some x => Some x
        | None => k c
        end
      else
        match k c with
        | Some x => Some x
        | None => body c again
        end
  end.

(** [run r c k] matches [r] at [c] and hands every way of matching it to the
    continuation [k], in the order of the language; the first success wins. *)
Fixpoint run {A : Type} (r : regex) (c : cursor) (k : cursor -> option A)
  {struct r} : option A :=
  match r with
  | Empty => k c
  | Char a =>
      match step c with
      | Some (x, c') => if Ascii.eqb x a then k c' else None
      | None => None
      end
  | Class p =>
      match step c with
      | Some (x, c') => if p x then k c' else None
      | None => None
      end
  | Seq r1 r2 => run r1 c (fun c' => run r2 c' k)
  | Alt r1 r2 =>
      match run r1 c k with
      | Some x => Some x
      | None => run r2 c k
      end
  | Star greedy r' =>
      star_loop (fun c' k' => run r' c' k') greedy k (length (rest c)) c
  | Group i r' => run r' c (fun c' => k (capture i c c'))
  | EndOfInput => match rest c with [] => k c | _ :: _ => None end
  end.

Definition Plus (greedy : bool) (r : regex) : regex := Seq r (Star greedy r).

Fixpoint Lit (s : list ascii) : regex :=
  match s with
  | [] => Empty
  | a :: t => Seq (Char a) (Lit t)
  end.

Definition lit (s : string) : regex := Lit (list_ascii_of_string s).

Fixpoint seqs (rs : list regex) : regex :=
  match rs with
  | [] => Empty
  | r :: t => Seq r (seqs t)
  end.

(** Character classes. *)
Definition code (a : ascii) : nat := nat_of_ascii a.

(** [\s]: tab, line feed, vertical tab, form feed, carriage return, space
    and the no-break space. *)
Definition is_space (a : ascii) : bool :=
  let n := code a in
  ((9 <=? n) && (n <=? 13)) || (n =? 32) || (n =? 160).

(** [\w]: letters, digits and the underscore. *)
Definition is_word (a : ascii) : bool :=
  let n := code a in
  ((48 <=? n) && (n <=? 57)) || ((65 <=? n) && (n <=? 90))
  || ((97 <=? n) && (n <=? 122)) || (n =? 95).

(** [.]: anything but a line terminator. *)
Definition is_dot (a : ascii) : bool :=
  let n := code a in negb ((n =? 10) || (n =? 13)).

Definition any (_ : ascii) : bool := true.

Definition one_of (l : list ascii) (a : ascii) : bool :=
  existsb (Ascii.eqb a) l.

Definition none_of (l : list ascii) (a : ascii) : bool := negb (one_of l a).

(** The characters with a special meaning in the source of a pattern. *)
Definition special : ascii -> bool :=
  one_of ["\"%char; "^"%char; "$"%char; "."%char; "*"%char; "+"%char;
          "?"%char; "("%char; ")"%char; "["%char; "]"%char; "{"%char;
          "}"%char; "|"%char].

(** The double quote, the single quote and the backtick. *)
Definition dquote : ascii := ascii_of_nat 34.
Definition squote : ascii := ascii_of_nat 39.
Definition backtick : ascii := ascii_of_nat 96.

Definition ws : regex := Star true (Class is_space).
Definition ws1 : regex := Plus true (Class is_space).
Definition word1 : regex := Plus true (Class is_word).

(** One attempt at one position: the length of the match and its captures. *)
Definition match_here (r : regex) (before after : list ascii)
  : option (nat * list (nat * list ascii)) :=
  run r (Cursor before after [])
      (fun c' => Some (length after - length (rest c'), caps c')).

(** The value of capture group [i]: the latest capture wins. *)
Fixpoint group (i : nat) (cs : list (nat * list ascii)) : option (list ascii) :=
  match cs with
  | [] => None
  | (j, s) :: t => if i =? j then Some s else group i t
  end.

(** A match: where it starts, the matched text, the captures. *)
Record found : Type := Found {
  at_index : nat;
  matched : list ascii;
  groups : list (nat * list ascii)
}.

(** [RegExp.prototype.exec] without the [g] flag: the leftmost match. *)
Fixpoint exec_from (r : regex) (before after : list ascii) : option found :=
  match match_here r before after with
  | Some (n, cs) => Some (Found (length before) (firstn n after) cs)
  | None =>
      match after with
      | [] => None
      | a :: t => exec_from r (a :: before) t
      end
  end.

Definition exec (r : regex) (s : list ascii) : option found := exec_from r [] s.

(** With the [g] flag: all matches from left to right, the search resuming
    where the last match ended, one character further after an empty match.
    [skip] counts the characters still covered by the last match. *)
Fixpoint scan (r : regex) (skip : nat) (before after : list ascii)
  : list found :=
  match skip with
  | S n =>
      match after with
      | [] => []
      | a :: t => scan r n (a :: before) t
      end
  | O =>
      match match_here r before after with
      | Some (n, cs) =>
          Found (length before) (firstn n after) cs ::
          match after with
          | [] => []
          | a :: t => scan r (pred n) (a :: before) t
          end
      | None =>
          match after with
          | [] => []
          | a :: t => scan r 0 (a :: before) t
          end
      end
  end.

Definition match_all (r : regex) (s : list ascii) : list found := scan r 0 [] s.

(** [String.prototype.replace] with a global pattern and a replacement text
    free of [$] patterns. *)
Fixpoint replace_scan (r : regex) (by_ : list ascii) (skip : nat)
  (before after : list ascii) : list ascii :=
  match skip with
  | S n =>
      match after with
      | [] => []
      | a :: t => replace_scan r by_ n (a :: before) t
      end
  | O =>
      match match_here r before after with
      | Some (n, _) =>
          by_ ++
          match after with
          | [] => []
          | a :: t =>
              match n with
              | O => a :: replace_scan r by_ 0 (a :: before) t
              | S n' => replace_scan r by_ n' (a :: before) t
              end
          end
      | None =>
          match after with
          | [] => []
          | a :: t => a :: replace_scan r by_ 0 (a :: before) t
          end
      end
  end.

Definition replace_all (r : regex) (by_ : list ascii) (s : list ascii)
  : list ascii := replace_scan r by_ 0 [] s.

(** [String.prototype.replace] with a pattern without the [g] flag: only the
    leftmost match is replaced. *)
Definition replace_first (r : regex) (by_ : list ascii) (s : list ascii)
  : list ascii :=
  match exec r s with
  | Some f =>
      firstn (at_index f) s ++ by_ ++ skipn (at_index f + length (matched f)) s
  | None => s
  end.

End Regex.

(** ** Endpoint descriptors *)

(** [interface ApiInfo]: [functionName] is optional. *)
Record ApiInfo : Type := mkApi {
  url : string;
  method : string;
  functionName : option string
}.

Global Instance ApiInfo_eq_dec : EqDecision ApiInfo.
Proof. solve_decision. Defined.

(** ** The API catalogue: [analyzeApiFile] *)

Module Catalog.
Import Regex.

Definition str (l : list ascii) : string := string_of_list_ascii l.
Definition chars (s : string) : list ascii := list_ascii_of_string s.

(** [String.prototype.toUpperCase] on the letters a to z. *)
Definition upper (a : ascii) : ascii :=
  let n := code a in
  if (97 <=? n) && (n <=? 122) then ascii_of_nat (n - 32) else a.

Definition toUpperCase (s : list ascii) : list ascii := map upper s.

(** [s.match(r)] without the [g] flag, read at capture group 1. *)
Definition match1 (r : regex) (s : list ascii) : option (list ascii) :=
  match exec r s with
  | Some f => group 1 (groups f)
  | None => None
  end.

Definition quote3 : ascii -> bool := one_of [squote; dquote; backtick].
Definition not_quote3 : ascii -> bool := none_of [squote; dquote; backtick].

(** [request\s*\(\s*\{[\s\S]*?\}\s*\)], the body captured or not. *)
Definition request_call (body : regex) : regex :=
  seqs [lit "request"; ws; Char "("; ws; Char "{"; body; Char "}"; ws; Char ")"].

Definition lazy_any : regex := Star false (Class any).

(** [/export\s+const\s+(\w+)\s*=[\s\S]*?request\s*\(\s*\{[\s\S]*?\}\s*\)/g] *)
Definition exportConstRe : regex :=
  seqs [lit "export"; ws1; lit "const"; ws1; Group 1 word1; ws; Char "=";
        lazy_any; request_call lazy_any].

(** [/export\s+const\s+(\w+)\s*=/] *)
Definition constNameRe : regex :=
  seqs [lit "export"; ws1; lit "const"; ws1; Group 1 word1; ws; Char "="].

(** [/export\s+function\s+(\w+)\s*\([^)]*\)[\s\S]*?request\s*\(\s*\{[\s\S]*?\}\s*\)/g] *)
Definition exportFunctionRe : regex :=
  seqs [lit "export"; ws1; lit "function"; ws1; Group 1 word1; ws; Char "(";
        Star true (Class (none_of [")"%char])); Char ")";
        lazy_any; request_call lazy_any].

(** [/export\s+function\s+(\w+)\s*\(/] *)
Definition functionNameRe : regex :=
  seqs [lit "export"; ws1; lit "function"; ws1; Group 1 word1; ws; Char "("].

(** [/request\s*\(\s*\{([\s\S]*?)\}\s*\)/] *)
Definition requestRe : regex := request_call (Group 1 lazy_any).

(** [/url:\s*['\x22`]([^'\x22`]+)['\x22`]/] and the same with [method]
    for [url]; [\x22] is the double quote. *)
Definition fieldRe (name : string) : regex :=
  seqs [lit name; Char ":"; ws; Class quote3;
        Group 1 (Plus true (Class not_quote3)); Class quote3].

Definition urlRe : regex := fieldRe "url".
Definition methodRe : regex := fieldRe "method".

(** [/\s*\+\s*\w+/g] *)
Definition concatRe : regex := seqs [ws; Char "+"; ws; word1].

(** [url.replace(/\s*\+\s*\w+/g, '/{id}')] *)
Definition cleanUrl (u : list ascii) : list ascii :=
  replace_all concatRe (chars "/{id}") u.

(** The body of either [forEach]: one match of the export pattern to at
    most one descriptor. *)
Definition analyzeMatch (nameRe : regex) (m : list ascii) : list ApiInfo :=
  match match1 nameRe m, match1 requestRe m with
  | Some functionName, Some requestBody =>
      match match1 urlRe requestBody with
      | Some u =>
          let method :=
            match match1 methodRe requestBody with
            | Some x => toUpperCase x
            | None => chars "GET"
            end in
          [mkApi (str (cleanUrl u)) (str method) (Some (str functionName))]
      | None => []
      end
  | _, _ => []
  end.

(** [analyzeApiFile] on the text of the file. *)
Definition analyzeApiCode (code : string) : list ApiInfo :=
  let c := chars code in
  flat_map (fun f => analyzeMatch constNameRe (matched f))
           (match_all exportConstRe c)
  ++
  flat_map (fun f => analyzeMatch functionNameRe (matched f))
           (match_all exportFunctionRe c).

(** [analyzeApiFile]: a read that throws is caught and gives no descriptor. *)
Definition analyzeApiFile (read : option string) : list ApiInfo :=
  match read with
  | Some code => analyzeApiCode code
  | None => []
  end.

(** [findApiByFunctionName]: the first descriptor declared under the name. *)
Fixpoint findApiByFunctionName (apis : list ApiInfo) (name : string)
  : option ApiInfo :=
  match apis with
  | [] => None
  | api :: t =>
      if decide (functionName api = Some name) then Some api
      else findApiByFunctionName t name
  end.

End Catalog.


(** ** Usage detection: the URL literals of [extractDirectApisWithConfig] *)

Module Usage.
Import Regex.

Definition quote2 : ascii -> bool := one_of [dquote; squote].
Definition not_quote2 : ascii -> bool := none_of [dquote; squote].

(** [/url:\s*[\x22'](\/[^\x22']+)[\x22']/g] *)
Definition urlLiteralRe : regex :=
  seqs [lit "url:"; ws; Class quote2;
        Group 1 (Seq (Char "/") (Plus true (Class not_quote2)));
        Class quote2].

(** [/url:\s*[\x22']|[\x22']/g] *)
Definition urlPrefixOrQuoteRe : regex :=
  Alt (seqs [lit "url:"; ws; Class quote2]) (Class quote2).

(** [match.replace(/url:\s*[\x22']|[\x22']/g, '')] *)
Definition stripUrl (m : list ascii) : list ascii :=
  replace_all urlPrefixOrQuoteRe [] m.

(** Detection 1 of [extractDirectApisWithConfig]: every match of the literal
    pattern gives a descriptor with the method [UNKNOWN] and no function
    name. *)
Definition extractUrlLiterals (code : string) : list ApiInfo :=
  map (fun f => mkApi (string_of_list_ascii (stripUrl (matched f))) "UNKNOWN" None)
      (match_all urlLiteralRe (list_ascii_of_string code)).

(** *** The vocabulary of the detection's properties *)

Definition chars (s : string) : list ascii := list_ascii_of_string s.

(** The text of a literal: [url:], white space, a quote, the path, a quote. *)
Definition urlLiteral (sp : list ascii) (q1 : ascii) (path : list ascii)
  (q2 : ascii) : list ascii :=
  chars "url:" ++ sp ++ q1 :: path ++ [q2].

End Usage.

(** ** The dependency walker: [extractApisFromComponentWithConfig] *)

Module Walker.

(** What the walker finds at a path that exists on disk: either
    [readFileSync] or one of the detection functions throws, or the file
    yields its direct descriptors ([extractDirectApisWithConfig]) and the
    component paths it imports ([findComponentImports]). *)
Inductive FileStatus : Type :=
| Failing
| Component (directApis : list ApiInfo) (componentImports : list string).

(** The disk: a path that is not in the map does not exist
    ([fs.existsSync] is false). *)
Abbreviation FileSystem := (gmap string FileStatus).

(** The module-level state of the walker; [reads] logs every call of
    [readFileSync], in order. *)
Record WalkState : Type := mkState {
  componentCache : gmap string (list ApiInfo);
  processingStack : gset string;
  reads : list string
}.

Definition initial : WalkState := mkState ∅ ∅ [].

Definition stackAdd (p : string) (st : WalkState) : WalkState :=
  mkState (componentCache st) ({[p]} ∪ processingStack st) (reads st).

Definition stackDelete (p : string) (st : WalkState) : WalkState :=
  mkState (componentCache st) (processingStack st ∖ {[p]}) (reads st).

Definition cacheSet (p : string) (apis : list ApiInfo) (st : WalkState)
  : WalkState :=
  mkState (<[p := apis]> (componentCache st)) (processingStack st) (reads st).

Definition readFileSync (p : string) (st : WalkState) : WalkState :=
  mkState (componentCache st) (processingStack st) (reads st ++ [p]).

Abbreviation Result := (option (list ApiInfo * WalkState)).

(** The [for] loop over [componentImports]: [rec] is the recursive call with
    its copy of [visited]. *)
Fixpoint forEachImport (rec : string -> WalkState -> Result)
  (imports : list string) (st : WalkState) : Result :=
  match imports with
  | [] => Some ([], st)
  | componentPath :: more =>
      match rec componentPath st with
      | None => None
      | Some (childApis, st1) =>
          match forEachImport rec more st1 with
          | None => None
          | Some (apis, st2) => Some (childApis ++ apis, st2)
          end
      end
  end.

(** [extractApisFromComponentWithConfig].  [None] only when [fuel] runs out;
    the returned list is the function's result, the returned state what it
    left in [componentCache] and [processingStack]. *)
Fixpoint extractApisFromComponentWithConfig (fs : FileSystem) (fuel : nat)
  (filePath : string) (visited : gset string) (st : WalkState) : Result :=
  match fuel with
  | O => None
  | S fuel' =>
      if decide (filePath ∈ visited ∨ filePath ∈ processingStack st) then
        Some ([], st)
      else
        match componentCache st !! filePath with
        | Some apis => Some (apis, st)
        | None =>
            let st1 := stackAdd filePath st in
            let visited1 := {[filePath]} ∪ visited in
            match fs !! filePath with
            | None => Some ([], st1)
            | Some Failing =>
                Some ([], stackDelete filePath (readFileSync filePath st1))
            | Some (Component directApis componentImports) =>
                match forEachImport
                        (fun componentPath s =>
                           extractApisFromComponentWithConfig
                             fs fuel' componentPath visited1 s)
                        componentImports (readFileSync filePath st1) with
                | None => None
                | Some (childApis, st2) =>
                    let apis := directApis ++ childApis in
                    Some (apis, stackDelete filePath (cacheSet filePath apis st2))
                end
            end
        end
  end.

(** Fuel that always suffices: one more than the number of files. *)
Definition enough (fs : FileSystem) : nat := S (size fs).

Definition walk (fs : FileSystem) (filePath : string) (st : WalkState)
  : Result :=
  extractApisFromComponentWithConfig fs (enough fs) filePath ∅ st.

(** *** The vocabulary of the walker's properties *)

Definition holdsDirect (g : string) (dg : list ApiInfo) (st : WalkState) : Prop :=
  ∀ a, componentCache st !! g = Some a → dg ⊆ a.

Definition cacheKept (st st' : WalkState) : Prop :=
  ∀ g m, componentCache st !! g = Some m → componentCache st' !! g = Some m.

(** How often [readFileSync] was called on a path. *)
Definition readCount (g : string) (st : WalkState) : nat :=
  length (filter (λ p, p = g) (reads st)).

Section Vocabulary.
Variable fs : FileSystem.

(** The files that exist and are not on the stack. *)
Definition offStack (st : WalkState) : nat :=
  size (dom fs ∖ processingStack st).

Definition imports (f c : string) : Prop :=
  ∃ d i, fs !! f = Some (Component d i) ∧ c ∈ i.

Definition isComponent (g : string) : Prop :=
  ∃ d i, fs !! g = Some (Component d i).

(** The descriptors declared in the files a file reaches through imports. *)
Definition declaredBelow (f : string) (x : ApiInfo) : Prop :=
  ∃ g dg ig, rtc imports f g ∧ fs !! g = Some (Component dg ig) ∧ x ∈ dg.

(** The walks of the entries of a pass, one after the other. *)
Inductive topLevel : WalkState → WalkState → Prop :=
| top_done st : topLevel st st
| top_walk st E a st1 st2 :
    walk fs E st = Some (a, st1) → topLevel st1 st2 → topLevel st st2.

(** An import graph without cycles: every import has a smaller rank. *)
Variable rank : string → nat.

Definition importsBelow (f : string) (x : FileStatus) : Prop :=
  match x with
  | Failing => True
  | Component _ i => Forall (λ c, rank c < rank f) i
  end.

Definition acyclic : Prop := map_Forall importsBelow fs.

(** No import cycle among the files that a file reaches: every import of
    such a file has a smaller rank. *)
Definition acyclicBelow (f : string) : Prop :=
  ∀ g d i, rtc imports f g → fs !! g = Some (Component d i) →
           Forall (λ c, rank c < rank g) i.

(** A part of the disk that imports lead into but not out of, and in which
    every import has a smaller rank. *)
Definition importsWithin (region : gset string) (f : string) (x : FileStatus)
  : Prop :=
  f ∈ region →
  match x with
  | Failing => True
  | Component _ i => Forall (λ c, rank c < rank f ∧ c ∈ region) i
  end.

(** Without cycles, what a file reaches is a function of the disk. *)
Fixpoint reachableApis (n : nat) (f : string) : list ApiInfo :=
  match n with
  | O => []
  | S m =>
      match fs !! f with
      | Some (Component d i) => d ++ flat_map (reachableApis m) i
      | _ => []
      end
  end.

Definition fullApis (f : string) : list ApiInfo := reachableApis (S (rank f)) f.

(** The state of a walk over a graph without cycles: the cache holds, for
    components only, what they reach; a component was read once when it is
    cached or on the stack and never otherwise; what a cached file reaches
    is cached. *)
Record consistent (st : WalkState) : Prop := Consistent {
  cached_full : ∀ g m, componentCache st !! g = Some m →
    isComponent g ∧ m = fullApis g ∧ g ∉ processingStack st;
  read_once : ∀ g, isComponent g →
    is_Some (componentCache st !! g) ∨ g ∈ processingStack st →
    readCount g st = 1;
  read_never : ∀ g, isComponent g →
    componentCache st !! g = None → g ∉ processingStack st →
    readCount g st = 0;
  cached_closed : ∀ g h, is_Some (componentCache st !! g) →
    rtc imports g h → isComponent h → is_Some (componentCache st !! h)
}.

(** Between two entries the stack holds nothing but missing paths. *)
Definition settled (st : WalkState) : Prop :=
  consistent st ∧ ∀ g, g ∈ processingStack st → fs !! g = None.

End Vocabulary.

Arguments cached_full {fs rank} st _.
Arguments read_once {fs rank} st _.
Arguments read_never {fs rank} st _.
Arguments cached_closed {fs rank} st _.

Global Instance importsBelow_dec rank f x : Decision (importsBelow rank f x).
Proof. destruct x; simpl; apply _. Defined.

Global Instance importsWithin_dec rank region f x :
  Decision (importsWithin rank region f x).
Proof. unfold importsWithin. destruct x; apply _. Defined.

End Walker.

(** ** JSON texts: [JSON.stringify] and [JSON.parse] on descriptors *)

Module Json.
Import Regex.

Definition backslash : ascii := ascii_of_nat 92.

Definition hexdigit (n : nat) : ascii :=
  ascii_of_nat (if n <? 10 then 48 + n else 87 + n).

(** [QuoteJSONString], one code unit: the quote and the backslash are
    escaped, the control characters get their short escape or [\u00xx]. *)
Definition escape (a : ascii) : list ascii :=
  let n := code a in
  if n =? 34 then [backslash; dquote]
  else if n =? 92 then [backslash; backslash]
  else if n =? 8 then [backslash; "b"%char]
  else if n =? 9 then [backslash; "t"%char]
  else if n =? 10 then [backslash; "n"%char]
  else if n =? 12 then [backslash; "f"%char]
  else if n =? 13 then [backslash; "r"%char]
  else if n <? 32 then
    [backslash; "u"%char; "0"%char; "0"%char; hexdigit (n / 16); hexdigit (n mod 16)]
  else [a].

Definition quote (s : list ascii) : list ascii :=
  dquote :: flat_map escape s ++ [dquote].

(** An object whose properties are strings, in property order. *)
Abbreviation fields := (list (string * string)).

Definition member (kv : string * string) : list ascii :=
  quote (list_ascii_of_string (fst kv)) ++ ":"%char
    :: quote (list_ascii_of_string (snd kv)).

Fixpoint members (fs : fields) : list ascii :=
  match fs with
  | [] => []
  | [kv] => member kv
  | kv :: more => member kv ++ ","%char :: members more
  end.

(** [JSON.stringify] of such an object, without indentation. *)
Definition stringifyFields (fs : fields) : string :=
  string_of_list_ascii ("{"%char :: members fs ++ ["}"%char]).

(** The own properties of a descriptor, in the order the source writes
    them; an absent [functionName] is no property. *)
Definition apiFields (api : ApiInfo) : fields :=
  [("url", url api); ("method", method api)] ++
  match functionName api with
  | Some f => [("functionName", f)]
  | None => []
  end.

(** [JSON.stringify(api)] *)
Definition stringify (api : ApiInfo) : string := stringifyFields (apiFields api).

(** What follows the first member: commas and members, then the brace. *)
Definition closing (fs : fields) : list ascii :=
  flat_map (fun kv => ","%char :: member kv) fs ++ ["}"%char].

Definition hexval (a : ascii) : option nat :=
  let n := code a in
  if (48 <=? n) && (n <=? 57) then Some (n - 48)
  else if (97 <=? n) && (n <=? 102) then Some (n - 87)
  else if (65 <=? n) && (n <=? 70) then Some (n - 55)
  else None.

Definition unescape (e : ascii) : option ascii :=
  let n := code e in
  if (n =? 34) || (n =? 92) || (n =? 47) then Some e
  else if n =? 98 then Some (ascii_of_nat 8)
  else if n =? 116 then Some (ascii_of_nat 9)
  else if n =? 110 then Some (ascii_of_nat 10)
  else if n =? 102 then Some (ascii_of_nat 12)
  else if n =? 114 then Some (ascii_of_nat 13)
  else None.

(** The characters of a JSON string after its opening quote: the string
    and what follows its closing quote.  An escape above [\u00ff] has no
    code unit in this model and is refused. *)
Fixpoint parseChars (l : list ascii) : option (list ascii * list ascii) :=
  match l with
  | [] => None
  | a :: t =>
      if code a =? 34 then Some ([], t)
      else if code a =? 92 then
        match t with
        | [] => None
        | e :: t' =>
            if code e =? 117 then
              match t' with
              | h1 :: h2 :: h3 :: h4 :: t'' =>
                  match hexval h1, hexval h2, hexval h3, hexval h4 with
                  | Some 0, Some 0, Some x, Some y =>
                      match parseChars t'' with
                      | Some (s, r) => Some (ascii_of_nat (16 * x + y) :: s, r)
                      | None => None
                      end
                  | _, _, _, _ => None
                  end
              | _ => None
              end
            else
              match unescape e, parseChars t' with
              | Some x, Some (s, r) => Some (x :: s, r)
              | _, _ => None
              end
        end
      else if code a <? 32 then None
      else
        match parseChars t with
        | Some (s, r) => Some (a :: s, r)
        | None => None
        end
  end.

Definition parseString (l : list ascii) : option (string * list ascii) :=
  match l with
  | a :: t =>
      if code a =? 34 then
        match parseChars t with
        | Some (s, r) => Some (string_of_list_ascii s, r)
        | None => None
        end
      else None
  | [] => None
  end.

Definition parseMember (l : list ascii) : option ((string * string) * list ascii) :=
  match parseString l with
  | Some (k, a :: r) =>
      if code a =? 58 then
        match parseString r with
        | Some (v, r') => Some ((k, v), r')
        | None => None
        end
      else None
  | _ => None
  end.

(** The members after the first one, up to the closing brace.  Every member
    consumes characters, so [n], the number of characters, bounds them. *)
Fixpoint parseMore (n : nat) (l : list ascii) : option fields :=
  match n with
  | O => None
  | S n' =>
      match l with
      | [a] => if code a =? 125 then Some [] else None
      | a :: t =>
          if code a =? 44 then
            match parseMember t with
            | Some (kv, r) =>
                match parseMore n' r with
                | Some more => Some (kv :: more)
                | None => None
                end
            | None => None
            end
          else None
      | [] => None
      end
  end.

(** [JSON.parse] on the texts [JSON.stringify] writes for an object of
    string properties (no white space between the tokens); [None] is the
    [SyntaxError]. *)
Definition parseFields (text : string) : option fields :=
  match list_ascii_of_string text with
  | a :: b :: t =>
      if code a =? 123 then
        if (code b =? 125) && (match t with [] => true | _ => false end)
        then Some []
        else
          match parseMember (b :: t) with
          | Some (kv, r) =>
              match parseMore (length r) r with
              | Some more => Some (kv :: more)
              | None => None
              end
          | None => None
          end
      else None
  | _ => None
  end.

(** Reading a property of a parsed object. *)
Fixpoint prop (name : string) (fs : fields) : option string :=
  match fs with
  | [] => None
  | (k, v) :: more => if decide (k = name) then Some v else prop name more
  end.

(** The documents the plugin writes. *)
#[warnings="-register-all"]
Inductive JSON : Type :=
| JString (s : string)
| JArray (items : list JSON)
| JObject (members : list (string * JSON)).

Definition ofFields (fs : fields) : JSON :=
  JObject (map (fun kv => (fst kv, JString (snd kv))) fs).

End Json.

(** ** JavaScript objects

    An object is the list of its own properties in the order they were
    created; an assignment to an existing property keeps its place.
    Property names are taken not to be names inherited from
    [Object.prototype]. *)

Module Obj.
Import Regex.

Section Object.
Context {V : Type}.

Fixpoint get (k : string) (o : list (string * V)) : option V :=
  match o with
  | [] => None
  | (k', v) :: more => if decide (k' = k) then Some v else get k more
  end.

(** [o[k] = v] *)
Fixpoint set (k : string) (v : V) (o : list (string * V)) : list (string * V) :=
  match o with
  | [] => [(k, v)]
  | (k', v') :: more =>
      if decide (k' = k) then (k, v) :: more else (k', v') :: set k v more
  end.

Fixpoint digits (l : list ascii) (acc : N) : option N :=
  match l with
  | [] => Some acc
  | a :: t =>
      let n := code a in
      if (48 <=? n) && (n <=? 57)
      then digits t (10 * acc + N.of_nat (n - 48))%N
      else None
  end.

(** An array index: the canonical decimal text of an integer below
    [2^32 - 1]. *)
Definition arrayIndex (k : string) : option N :=
  match list_ascii_of_string k with
  | [] => None
  | a :: t =>
      if (code a =? 48) && negb (match t with [] => true | _ => false end)
      then None
      else
        match digits (a :: t) 0%N with
        | Some n => if (n <? 4294967295)%N then Some n else None
        | None => None
        end
  end.

Fixpoint insertIndex (n : N) (k : string) (l : list (N * string))
  : list (N * string) :=
  match l with
  | [] => [(n, k)]
  | (m, k') :: more =>
      if (n <? m)%N then (n, k) :: l else (m, k') :: insertIndex n k more
  end.

Fixpoint indexKeys (o : list (string * V)) : list (N * string) :=
  match o with
  | [] => []
  | (k, _) :: more =>
      match arrayIndex k with
      | Some n => insertIndex n k (indexKeys more)
      | None => indexKeys more
      end
  end.

Fixpoint nameKeys (o : list (string * V)) : list string :=
  match o with
  | [] => []
  | (k, _) :: more =>
      match arrayIndex k with
      | Some _ => nameKeys more
      | None => k :: nameKeys more
      end
  end.

(** [Object.keys]: the array indices in ascending order, then the other
    names in the order of creation. *)
Definition keys (o : list (string * V)) : list string :=
  map snd (indexKeys o) ++ nameKeys o.

End Object.

(** The names that a plain object inherits from [Object.prototype]: for
    these [o[k]] is not [undefined] on an object without the key, and
    [get] and [set], which read and write own keys, stand for [o[k]] and
    [o[k] = v] on the other names only. *)
Definition inherited (k : string) : bool :=
  bool_decide
    (k ∈ ["constructor"; "__proto__"; "hasOwnProperty"; "isPrototypeOf";
          "propertyIsEnumerable"; "toLocaleString"; "toString"; "valueOf";
          "__defineGetter__"; "__defineSetter__"; "__lookupGetter__";
          "__lookupSetter__"]).
End Obj.

(** ** Result aggregation: [processFileWithConfig] and [generateApiFile] *)

Module Aggregator.
Import Regex Json Walker.

(** [viewApiData]: category, then page, then a [Set] of JSON texts in
    insertion order. *)
Abbreviation StringSet := (list string).
Abbreviation Pages := (list (string * StringSet)).
Abbreviation ViewApiData := (list (string * Pages)).

(** [Set.prototype.add] *)
Definition setAdd (x : string) (s : StringSet) : StringSet :=
  if decide (x ∈ s) then s else s ++ [x].

(** [String.prototype.split] with a one-character separator: the first
    part and the further parts. *)
Fixpoint split (sep : ascii) (l : list ascii) : list ascii * list (list ascii) :=
  match l with
  | [] => ([], [])
  | a :: t =>
      let (first, more) := split sep t in
      if Ascii.eqb a sep then ([], first :: more) else (a :: first, more)
  end.

Definition slashes : regex := Class (one_of ["/"%char; backslash]).

(** [viewsDir.replace('/', '[/\\\\]')] read as a pattern: the first slash
    stands for either separator.  The directory name is taken free of the
    special characters of regular expressions. *)
Fixpoint dirPattern (replaced : bool) (l : list ascii) : regex :=
  match l with
  | [] => Empty
  | a :: t =>
      if negb replaced && Ascii.eqb a "/"
      then Seq slashes (dirPattern true t)
      else Seq (Char a) (dirPattern replaced t)
  end.

(** What [processFileWithConfig] keeps true of [viewApiData]: every set is
    non-empty, without duplicates and made of texts [JSON.stringify] wrote;
    every category has a page; the category [/] has no page but [/]. *)
Definition wfSet (s : StringSet) : Prop :=
  s ≠ [] ∧ NoDup s ∧ Forall (λ t, ∃ api, t = stringify api) s.

Definition wfPages (c : string) (pages : Pages) : Prop :=
  pages ≠ [] ∧ Forall (λ ps, wfSet (snd ps) ∧ (c = "/" → fst ps = "/")) pages.

Definition wfData (v : ViewApiData) : Prop :=
  Forall (λ cp, wfPages (fst cp) (snd cp)) v.

(** The set of a category and a page holds a text. *)
Definition holds (v : ViewApiData) (c p t : string) : Prop :=
  ∃ pages s, Obj.get c v = Some pages ∧ Obj.get p pages = Some s ∧ t ∈ s.



Section Config.

(** [config.viewsDir] and the order [String.prototype.localeCompare]
    decides for the locale of the host. *)
Variable viewsDir : string.
Variable localeCompare : string -> string -> Z.
Variable fs : FileSystem.

(** [new RegExp(...)] of [processFileWithConfig]; an empty directory name
    falls back to [views]. *)
Definition viewsPattern : regex :=
  let dir :=
    match dirPattern false (list_ascii_of_string viewsDir) with
    | Empty => lit "views"
    | r => r
    end in
  seqs [slashes; dir; slashes; Group 1 (Plus true (Class is_dot))].

(** [/\.vue$/] *)
Definition vueSuffixRe : regex := seqs [Char "."; lit "vue"; EndOfInput].

Definition str (l : list ascii) : string := string_of_list_ascii l.

(** The category and the page of an entry file; [None] when the path is not
    under the views directory. *)
Definition labels (filePath : string) : option (string * string) :=
  match exec viewsPattern (list_ascii_of_string filePath) with
  | None => None
  | Some viewsMatch =>
      match group 1 (groups viewsMatch) with
      | None => None
      | Some m =>
          let fullPath :=
            map (fun a => if Ascii.eqb a backslash then "/"%char else a) m in
          match split "/" fullPath with
          | (fileName, []) =>
              if decide (str fileName = "index.vue"
                         ∨ str fileName = "defaultIndex.vue")
              then Some ("/", "/")
              else Some (str (replace_first vueSuffixRe [] fileName), "/")
          | (top, [_]) => Some (str top, str top)
          | (top, second :: _) =>
              Some (str top, str (top ++ "/"%char :: second))
          end
      end
  end.

(** The category of the file is no name that [viewApiData] inherits, so
    that [viewApiData[viewCategory]] is [undefined] until the file or an
    earlier one creates the category. *)
Definition ownCategory (filePath : string) : bool :=
  match labels filePath with
  | Some (c, _) => negb (Obj.inherited c)
  | None => true
  end.

(** [allApis.forEach(api => set.add(JSON.stringify(api)))] *)
Definition addAll (allApis : list ApiInfo) (s : StringSet) : StringSet :=
  fold_left (fun s api => setAdd (stringify api) s) allApis s.

(** [processFileWithConfig]: [None] only when the walk runs out of fuel. *)
Definition processFileWithConfig (filePath : string)
  (state : ViewApiData * WalkState) : option (ViewApiData * WalkState) :=
  let (viewApiData, st) := state in
  match labels filePath with
  | None => Some (viewApiData, st)
  | Some (viewCategory, pagePath) =>
      match walk fs filePath st with
      | None => None
      | Some (allApis, st') =>
          match allApis with
          | [] => Some (viewApiData, st')
          | _ :: _ =>
              let pages := default [] (Obj.get viewCategory viewApiData) in
              let set := default [] (Obj.get pagePath pages) in
              Some (Obj.set viewCategory
                      (Obj.set pagePath (addAll allApis set) pages)
                      viewApiData,
                    st')
          end
      end
  end.

(** [files.forEach(filePath => processFileWithConfig(filePath, ...))] *)
Fixpoint forEachFile (files : list string) (state : ViewApiData * WalkState)
  : option (ViewApiData * WalkState) :=
  match files with
  | [] => Some state
  | filePath :: more =>
      match processFileWithConfig filePath state with
      | None => None
      | Some state' => forEachFile more state'
      end
  end.

(** The collection of [buildStart]: the module state is cleared, then every
    file found under the views directory is processed. *)
Definition collect (files : list string) : option (ViewApiData * WalkState) :=
  forEachFile files ([], initial).

(** The comparator of the sort: [a.url.localeCompare(b.url)]. *)
Definition urlOf (o : fields) : string := default "" (prop "url" o).

Definition before (a b : fields) : bool :=
  (localeCompare (urlOf a) (urlOf b) <=? 0)%Z.

(** [Array.prototype.sort] is stable: an element goes in front of the first
    element it does not come after. *)
Fixpoint insertSorted (a : fields) (l : list fields) : list fields :=
  match l with
  | [] => [a]
  | b :: more => if before a b then a :: l else b :: insertSorted a more
  end.

Fixpoint stableSort (l : list fields) : list fields :=
  match l with
  | [] => []
  | a :: more => insertSorted a (stableSort more)
  end.

Definition hasUrl (o : fields) : bool :=
  match prop "url" o with Some _ => true | None => false end.

(** [.sort((a, b) => a.url.localeCompare(b.url))]: with two elements or more
    the comparator reads [url] of every element and throws where there is
    none. *)
Definition sortByUrl (l : list fields) : option (list fields) :=
  match l with
  | [] | [_] => Some l
  | _ => if forallb hasUrl l then Some (stableSort l) else None
  end.

(** [Array.from(set).map(str => JSON.parse(str))] *)
Fixpoint parseAll (s : StringSet) : option (list fields) :=
  match s with
  | [] => Some []
  | text :: more =>
      match parseFields text, parseAll more with
      | Some o, Some os => Some (o :: os)
      | _, _ => None
      end
  end.

Definition sortedApis (s : StringSet) : option (list fields) :=
  match parseAll s with
  | Some l => sortByUrl l
  | None => None
  end.

(** What [outputData] holds for a category. *)
Inductive CategoryOutput : Type :=
| Flat (apis : list fields)
| Nested (pages : list (string * list fields)).

Fixpoint nestedPages (pages : Pages) (pageKeys : list string)
  : option (list (string * list fields)) :=
  match pageKeys with
  | [] => Some []
  | pagePath :: more =>
      match Obj.get pagePath pages with
      | None => None
      | Some s =>
          match sortedApis s, nestedPages pages more with
          | Some apis, Some out => Some ((pagePath, apis) :: out)
          | _, _ => None
          end
      end
  end.

Definition shouldFlatten (viewCategory : string) (pageKeys : list string) : bool :=
  bool_decide (viewCategory = "/")
  || bool_decide (pageKeys = ["/"])
  || bool_decide (pageKeys = [viewCategory]).

(** The body of the outer [forEach] of [generateApiFile]; [None] is a thrown
    error. *)
Definition categoryOutput (viewCategory : string) (pages : Pages)
  : option CategoryOutput :=
  let pageKeys := Obj.keys pages in
  if shouldFlatten viewCategory pageKeys then
    match pageKeys with
    | [] => None
    | pagePath :: _ =>
        match Obj.get pagePath pages with
        | None => None
        | Some s =>
            match sortedApis s with
            | Some apis => Some (Flat apis)
            | None => None
            end
        end
    end
  else
    match nestedPages pages pageKeys with
    | Some out => Some (Nested out)
    | None => None
    end.

Fixpoint outputOf (viewApiData : ViewApiData) (categories : list string)
  : option (list (string * CategoryOutput)) :=
  match categories with
  | [] => Some []
  | viewCategory :: more =>
      match Obj.get viewCategory viewApiData with
      | None => None
      | Some pages =>
          match categoryOutput viewCategory pages, outputOf viewApiData more with
          | Some o, Some out => Some ((viewCategory, o) :: out)
          | _, _ => None
          end
      end
  end.

(** [generateApiFile]: the value of [outputData].  The call of
    [writeFileSync] that follows, and that may throw, is not part of it. *)
Definition generateApiFile (viewApiData : ViewApiData)
  : option (list (string * CategoryOutput)) :=
  outputOf viewApiData (Obj.keys viewApiData).

(** The document: [JSON.stringify(outputData, null, 2)] as a tree. *)
Definition apiArray (apis : list fields) : JSON := JArray (map ofFields apis).

Definition categoryJSON (o : CategoryOutput) : JSON :=
  match o with
  | Flat apis => apiArray apis
  | Nested pages => JObject (map (fun kv => (fst kv, apiArray (snd kv))) pages)
  end.

Definition document (outputData : list (string * CategoryOutput)) : JSON :=
  JObject (map (fun kv => (fst kv, categoryJSON (snd kv))) outputData).

(** Every array of descriptors of the output, flat or nested. *)
Definition arraysOf (o : CategoryOutput) : list (list fields) :=
  match o with
  | Flat apis => [apis]
  | Nested pages => map snd pages
  end.

Definition outputArrays (outputData : list (string * CategoryOutput))
  : list (list fields) :=
  flat_map (fun kv => arraysOf (snd kv)) outputData.

(** The array the output holds for a category and a page. *)
Definition outputArray (outputData : list (string * CategoryOutput))
  (viewCategory pagePath : string) : option (list fields) :=
  match Obj.get viewCategory outputData with
  | Some (Flat apis) => Some apis
  | Some (Nested pages) => Obj.get pagePath pages
  | None => None
  end.

(** [buildStart]: collect, then generate. *)
Definition buildStart (files : list string)
  : option (list (string * CategoryOutput)) :=
  match collect files with
  | Some (viewApiData, _) => generateApiFile viewApiData
  | None => None
  end.

(** *** The vocabulary of the aggregator's properties *)

(** What [processFileWithConfig] stores for a file that gave descriptors. *)
Definition stored (c p : string) (apis : list ApiInfo) (v : ViewApiData)
  : ViewApiData :=
  let pages := default [] (Obj.get c v) in
  Obj.set c (Obj.set p (addAll apis (default [] (Obj.get p pages))) pages) v.

(** The array an output holds for a page. *)
Definition arrayOf (o : CategoryOutput) (p : string) : option (list fields) :=
  match o with
  | Flat apis => Some apis
  | Nested pages => Obj.get p pages
  end.

(** Non-decreasing by [url], in the order of the comparator. *)
Definition byUrl (a b : fields) : Prop :=
  (localeCompare (urlOf a) (urlOf b) ≤ 0)%Z.

(** The entries of one url stand in [arr] in the order the set [s] received
    their texts. *)
Definition inSetOrder (s : StringSet) (arr : list fields) : Prop :=
  ∃ l, parseAll s = Some l
       ∧ ∀ u, filter (λ o, urlOf o = u) arr = filter (λ o, urlOf o = u) l.

(** The array comes from a set of the pages, of the data. *)
Definition fromSet (pages : Pages) (arr : list fields) : Prop :=
  ∃ p s, Obj.get p pages = Some s ∧ wfSet s ∧ sortedApis s = Some arr.

Definition fromData (v : ViewApiData) (arr : list fields) : Prop :=
  ∃ c pages, Obj.get c v = Some pages ∧ fromSet pages arr.

End Config.
End Aggregator.

(** ** The matches of a pattern *)

Module Semantics.
Import Regex.

(** [reach r c c']: one way of matching [r] at [c] ends at [c']. *)
Fixpoint reach (r : regex) (c c' : cursor) : Prop :=
  match r with
  | Empty => c' = c
  | Char a => step c = Some (a, c')
  | Class p => ∃ x, p x = true ∧ step c = Some (x, c')
  | Seq r1 r2 => ∃ c1, reach r1 c c1 ∧ reach r2 c1 c'
  | Alt r1 r2 => reach r1 c c' ∨ reach r2 c c'
  | Star _ r' => rtc (reach r') c c'
  | Group i r' => ∃ c1, reach r' c c1 ∧ c' = capture i c c1
  | EndOfInput => rest c = [] ∧ c' = c
  end.

(** A pattern without capture groups. *)
Fixpoint groupless (r : regex) : bool :=
  match r with
  | Seq r1 r2 | Alt r1 r2 => groupless r1 && groupless r2
  | Star _ r' => groupless r'
  | Group _ _ => false
  | _ => true
  end.

(** Every repetition is the repetition of a class. *)
Fixpoint classStars (r : regex) : bool :=
  match r with
  | Seq r1 r2 | Alt r1 r2 => classStars r1 && classStars r2
  | Star _ (Class _) => true
  | Star _ _ => false
  | Group _ r' => classStars r'
  | _ => true
  end.

(** [c'] lies [s] after [c] in one subject. *)
Definition ahead (s : list ascii) (c c' : cursor) : Prop :=
  rest c = s ++ rest c' ∧ seen c' = rev s ++ seen c.

End Semantics.

(** ** Strings: the methods of [String.prototype] the source calls *)

Module Str.
Import Regex.

(** [s.startsWith(p)] *)
Fixpoint startsWith (s p : list ascii) : bool :=
  match p, s with
  | [], _ => true
  | a :: p', b :: s' => Ascii.eqb b a && startsWith s' p'
  | _ :: _, [] => false
  end.

(** [s.endsWith(p)] *)
Definition endsWith (s p : list ascii) : bool := startsWith (rev s) (rev p).

(** The first and the last index at which [p] occurs in [s]. *)
Fixpoint firstAt (s p : list ascii) : option nat :=
  if startsWith s p then Some 0
  else match s with
       | [] => None
       | _ :: t => option_map S (firstAt t p)
       end.

Fixpoint lastAt (s p : list ascii) : option nat :=
  match s with
  | [] => if startsWith [] p then Some 0 else None
  | _ :: t =>
      match lastAt t p with
      | Some i => Some (S i)
      | None => if startsWith s p then Some 0 else None
      end
  end.

(** An index or [-1]. *)
Definition index (i : option nat) : Z :=
  match i with
  | Some n => Z.of_nat n
  | None => (-1)%Z
  end.

(** [s.indexOf(p)], [s.lastIndexOf(p)] and [s.includes(p)] *)
Definition indexOf (s p : list ascii) : Z := index (firstAt s p).
Definition lastIndexOf (s p : list ascii) : Z := index (lastAt s p).
Definition includes (s p : list ascii) : bool := (0 <=? indexOf s p)%Z.

(** [s.substring(start)]: a negative start counts as 0, a start beyond the
    end gives the empty string. *)
Definition substring (s : list ascii) (start : Z) : list ascii :=
  skipn (Z.to_nat start) s.

(** [GetSubstitution] for a pattern that is a string (no captures):
    [$$] is a dollar, [$&] the matched text, [$`] what precedes it, [$']
    what follows it; any other dollar stands for itself. *)
Fixpoint substitute (template matched pre post : list ascii) : list ascii :=
  match template with
  | [] => []
  | a :: t =>
      if Ascii.eqb a "$" then
        match t with
        | b :: t' =>
            if Ascii.eqb b "$" then "$"%char :: substitute t' matched pre post
            else if Ascii.eqb b "&" then matched ++ substitute t' matched pre post
            else if Ascii.eqb b backtick then pre ++ substitute t' matched pre post
            else if Ascii.eqb b squote then post ++ substitute t' matched pre post
            else a :: substitute t matched pre post
        | [] => [a]
        end
      else a :: substitute t matched pre post
  end.

(** [s.replace(p, by)] with a string [p]: the first occurrence only. *)
Definition replace (s p by_ : list ascii) : list ascii :=
  match firstAt s p with
  | None => s
  | Some i =>
      let pre := firstn i s in
      let post := skipn (i + length p) s in
      pre ++ substitute by_ p pre post ++ post
  end.

(** [s.trim()] *)
Fixpoint trimStart (s : list ascii) : list ascii :=
  match s with
  | a :: t => if is_space a then trimStart t else s
  | [] => []
  end.

Definition trim (s : list ascii) : list ascii := rev (trimStart (rev (trimStart s))).

End Str.

(** ** Import paths: [resolveApiPath] *)

Module Resolver.
Import Regex Str Catalog.

(** [Object.entries] *)
Definition entries {V} (o : list (string * V)) : list (string * V) :=
  omap (fun k => option_map (pair k) (Obj.get k o)) (Obj.keys o).

(** [config.apiDir.split('/').pop() || 'api'] *)
Definition apiDirName (apiDir : string) : list ascii :=
  let (first, more) := Aggregator.split "/" (chars apiDir) in
  match List.last (first :: more) [] with
  | [] => chars "api"
  | name => name
  end.

(** [`/${apiDirName}/`] *)
Definition segment (name : list ascii) : list ascii :=
  "/"%char :: name ++ ["/"%char].

(** [path.substring(path.lastIndexOf(`/${apiDirName}/`) + apiDirName.length + 2)] *)
Definition afterLastSegment (path name : list ascii) : list ascii :=
  substring path (lastIndexOf path (segment name) + Z.of_nat (length name) + 2)%Z.

(** Either [for] loop over the entries of an alias object; an entry whose
    value is not a string is [None] and is passed over. *)
Fixpoint aliasLoop (importPath name : list ascii)
  (aliases : list (string * option string)) : option (list ascii) :=
  match aliases with
  | [] => None
  | (alias, Some resolvedPath) :: more =>
      if startsWith importPath (chars alias) then
        let replacedPath := replace importPath (chars alias) (chars resolvedPath) in
        if includes replacedPath (segment name)
        then Some (afterLastSegment replacedPath name)
        else aliasLoop importPath name more
      else aliasLoop importPath name more
  | (_, None) :: more => aliasLoop importPath name more
  end.

(** The part of the configuration and of the configuration of Vite that
    [resolveApiPath] reads; [viteAlias] is [None] when there is no
    [viteConfig.resolve.alias]. *)
Record Aliases : Type := mkAliases {
  apiDir : string;
  alias : list (string * string);
  viteAlias : option (list (string * option string))
}.

(** [resolveApiPath]; [None] is [null]. *)
Definition resolveApiPath (importPath : list ascii) (config : Aliases)
  : option (list ascii) :=
  let name := apiDirName (apiDir config) in
  let prefix := "@"%char :: segment name in
  if startsWith importPath prefix then Some (replace importPath prefix [])
  else if includes importPath (segment name) then
    Some (afterLastSegment importPath name)
  else
    match aliasLoop importPath name
            (map (fun kv => (fst kv, Some (snd kv))) (entries (alias config))) with
    | Some apiPath => Some apiPath
    | None =>
        match viteAlias config with
        | Some aliases => aliasLoop importPath name (entries aliases)
        | None => None
        end
    end.

(** [defaultOptions], the part that [resolveApiPath] reads. *)
Definition defaultAliases : Aliases := mkAliases "src/api" [("@", "src")] None.

End Resolver.

(** ** Paths: the functions of [path] on a POSIX host *)

Module Path.
Import Regex Str.

Definition slash : ascii := "/"%char.
Definition dot : ascii := "."%char.

Definition segments (p : list ascii) : list (list ascii) :=
  let (first, more) := Aggregator.split slash p in first :: more.

Definition eqs (a b : list ascii) : bool := bool_decide (a = b).

(** [normalizeString]: empty segments and [.] are dropped, [..] removes the
    segment before it; above the root it is dropped, above a relative path
    it is kept.  [res] is the result so far, the last segment first. *)
Fixpoint normalizeSegments (allowAboveRoot : bool)
  (segs res : list (list ascii)) : list (list ascii) :=
  match segs with
  | [] => rev res
  | seg :: more =>
      if eqs seg [] || eqs seg [dot] then normalizeSegments allowAboveRoot more res
      else if eqs seg [dot; dot] then
        match res with
        | top :: below =>
            if eqs top [dot; dot]
            then normalizeSegments allowAboveRoot more
                   (if allowAboveRoot then seg :: res else res)
            else normalizeSegments allowAboveRoot more below
        | [] =>
            normalizeSegments allowAboveRoot more
              (if allowAboveRoot then [seg] else [])
        end
      else normalizeSegments allowAboveRoot more (seg :: res)
  end.

Fixpoint joinWith (sep : ascii) (segs : list (list ascii)) : list ascii :=
  match segs with
  | [] => []
  | [s] => s
  | s :: more => s ++ sep :: joinWith sep more
  end.

Definition normalizeString (p : list ascii) (allowAboveRoot : bool) : list ascii :=
  joinWith slash (normalizeSegments allowAboveRoot (segments p) []).

Definition isAbsolute (p : list ascii) : bool :=
  match p with a :: _ => Ascii.eqb a slash | [] => false end.

(** [path.normalize] *)
Definition normalize (p : list ascii) : list ascii :=
  match p with
  | [] => [dot]
  | _ =>
      let trailing := endsWith p [slash] in
      match normalizeString p (negb (isAbsolute p)) with
      | [] =>
          if isAbsolute p then [slash]
          else if trailing then [dot; slash] else [dot]
      | q =>
          let q' := if trailing then q ++ [slash] else q in
          if isAbsolute p then slash :: q' else q'
      end
  end.

(** [path.join]: the non-empty arguments joined by a slash, normalized. *)
Definition join (parts : list (list ascii)) : list ascii :=
  match filter (fun p => p ≠ []) parts with
  | [] => [dot]
  | ps => normalize (joinWith slash ps)
  end.

(** [path.resolve]: the arguments are taken from the right until one is
    absolute, then the working directory. *)
Fixpoint resolveFrom (parts : list (list ascii)) : list ascii * bool :=
  match parts with
  | [] => ([], false)
  | p :: more =>
      let (resolvedPath, resolvedAbsolute) := resolveFrom more in
      if resolvedAbsolute then (resolvedPath, true)
      else match p with
           | [] => (resolvedPath, false)
           | _ => (p ++ slash :: resolvedPath, isAbsolute p)
           end
  end.

Definition resolve (cwd : list ascii) (parts : list (list ascii)) : list ascii :=
  let (resolvedPath, resolvedAbsolute) := resolveFrom (cwd :: parts) in
  match normalizeString resolvedPath (negb resolvedAbsolute) with
  | q => if resolvedAbsolute then slash :: q
         else match q with [] => [dot] | _ => q end
  end.

(** [path.dirname]: up to the last slash that is followed by something
    other than slashes. *)
Fixpoint dropSlashes (r : list ascii) : list ascii :=
  match r with
  | a :: t => if Ascii.eqb a slash then dropSlashes t else r
  | [] => []
  end.

Fixpoint dropName (r : list ascii) : list ascii :=
  match r with
  | a :: t => if Ascii.eqb a slash then r else dropName t
  | [] => []
  end.

Definition dirname (p : list ascii) : list ascii :=
  match p with
  | [] => [dot]
  | _ :: _ =>
      (* the text before the slash at index [end], found from the right
         among the indices 1 and above *)
      match dropName (dropSlashes (rev p)) with
      | [] | [_] => if isAbsolute p then [slash] else [dot]
      | _ :: r =>
          match rev r with
          | [a] => if isAbsolute p then [slash; slash] else [a]
          | d => d
          end
      end
  end.

End Path.

(** ** The directory scan: [scanDirectory] *)

Module Scanner.
Import Regex Str Path.

(** What [readdirSync] and [statSync] show of a directory: the entries in
    the order [readdirSync] lists them, each a file or a directory.  A link
    is what it points to; the tree is finite. *)
#[warnings="-register-all"]
Inductive Tree : Type :=
| File
| Dir (items : list (list ascii * Tree)).

Section Scan.
Variables (extensions exclude include : list (list ascii)).

(** The two tests on [fullPath] that make the loop [continue]. *)
Definition excluded (fullPath : list ascii) : bool :=
  existsb (fun pattern => includes fullPath pattern) exclude.

Definition notIncluded (fullPath : list ascii) : bool :=
  (0 <? length include)
  && negb (existsb (fun pattern => includes fullPath pattern) include).

Definition hasExtension (item : list ascii) : bool :=
  existsb (fun ext => endsWith item ext) extensions.

(** The body of the [for] loop of [scan] for one entry; a directory is
    scanned in place. *)
Fixpoint scanItem (currentDir item : list ascii) (node : Tree) {struct node}
  : list (list ascii) :=
  let fullPath := join [currentDir; item] in
  if excluded fullPath then []
  else if notIncluded fullPath then []
  else
    match node with
    | Dir items =>
        (fix scan (items : list (list ascii * Tree)) : list (list ascii) :=
           match items with
           | [] => []
           | (i, n) :: more => scanItem fullPath i n ++ scan more
           end) items
    | File => if hasExtension item then [fullPath] else []
    end.

(** [scan(currentDir)] for a directory that exists. *)
Definition scan (currentDir : list ascii) (items : list (list ascii * Tree))
  : list (list ascii) :=
  flat_map (fun e => scanItem currentDir (fst e) (snd e)) items.

(** [scanDirectory]: [disk] is what [dir] names, if anything.  A [dir]
    that does not exist gives no file; on a [dir] that is a file
    [readdirSync] throws, which is [None]. *)
Definition scanDirectory (disk : option Tree) (dir : list ascii)
  : option (list (list ascii)) :=
  match disk with
  | None => Some []
  | Some (Dir items) => Some (scan dir items)
  | Some File => None
  end.

(** *** The vocabulary of the scan's properties *)

(** The path of the entry reached from [dir] by a chain of names. *)
Definition pathOf (dir : list ascii) (names : list (list ascii)) : list ascii :=
  fold_left (fun d item => join [d; item]) names dir.

(** The entry at a chain of names. *)
Fixpoint nodeAt (items : list (list ascii * Tree)) (names : list (list ascii))
  (node : Tree) : Prop :=
  match names with
  | [] => False
  | [item] => (item, node) ∈ items
  | item :: below =>
      ∃ sub, (item, Dir sub) ∈ items ∧ nodeAt sub below node
  end.

(** A path passes the exclude list and the include list. *)
Definition passes (fullPath : list ascii) : bool :=
  negb (excluded fullPath) && negb (notIncluded fullPath).

End Scan.
End Scanner.

(** ** Component imports: [findComponentImports] *)

Module Components.
Import Regex Str Path Usage Catalog.

(** [(.*?)] *)
Definition lazy_dots : regex := Star false (Class is_dot).

(** [from\s+[\x22']], what follows, a quote. *)
Definition fromRe (specifier : list regex) : regex :=
  seqs ([lit "from"; ws1; Class quote2] ++ specifier ++ [Class quote2]).

(** [import\s+\w+\s+], then the above. *)
Definition importFromRe (specifier : list regex) : regex :=
  seqs ([lit "import"; ws1; word1; ws1; lit "from"; ws1; Class quote2]
        ++ specifier ++ [Class quote2]).

(** [\.(.*?)\.vue] *)
Definition relativeSpecifier : list regex :=
  [Char "."; Group 1 lazy_dots; lit ".vue"].

(** [/import\s+\w+\s+from\s+[\x22']\.(.*?)\.vue[\x22']/g] and
    [/from\s+[\x22']\.(.*?)\.vue[\x22']/] *)
Definition relativeImportRe : regex := importFromRe relativeSpecifier.
Definition relativeFromRe : regex := fromRe relativeSpecifier.

(** [/import\s*\(\s*[\x22']\.(.*?)\.vue[\x22']\s*\)/g] *)
Definition dynamicImportRe : regex :=
  seqs ([lit "import"; ws; Char "("; ws; Class quote2]
        ++ relativeSpecifier ++ [Class quote2; ws; Char ")"]).

(** [${alias.replace('@', '\\@')}\/([^\x22']+)]: the alias is taken free
    of the special characters of regular expressions, so that it stands
    for itself ([\@] is the character [@]). *)
Definition aliasSpecifier (alias : string) : list regex :=
  [lit alias; Char "/"; Group 1 (Plus true (Class not_quote2))].

(** [@\/views\/(.*?)\.vue] *)
Definition viewsSpecifier : list regex :=
  [lit "@/views/"; Group 1 lazy_dots; lit ".vue"].

(** The part of the configuration that [findComponentImports] reads. *)
Record ComponentDir : Type := mkDir { path : string; alias : string }.

Record Config : Type := mkConfig {
  componentDirs : list ComponentDir;
  viewsDir : string
}.


Section Host.
(** [process.cwd()] and [fs.existsSync]. *)
Variable cwd : list ascii.
Variable existsSync : list ascii -> bool.

(** [code.match(re) || []] followed by [forEach]: for every match, the
    first capture of [pathRe] on the matched text is handed to [body]. *)
Definition forEachMatch (re pathRe : regex) (code : list ascii)
  (body : list ascii -> list (list ascii)) : list (list ascii) :=
  flat_map
    (fun m =>
       match exec pathRe (matched m) with
       | Some pathMatch =>
           match group 1 (groups pathMatch) with
           | Some c => body c
           | None => []
           end
       | None => []
       end)
    (match_all re code).

(** 1. [import xxx from ./xxx.vue] *)
Definition relativeImports (code currentDir : list ascii) : list (list ascii) :=
  forEachMatch relativeImportRe relativeFromRe code
    (fun c => [resolve cwd [currentDir; c ++ chars ".vue"]]).

(** 2. [import(./xxx.vue)] *)
Definition dynamicImports (code currentDir : list ascii) : list (list ascii) :=
  forEachMatch dynamicImportRe dynamicImportRe code
    (fun c => [resolve cwd [currentDir; c ++ chars ".vue"]]).

(** 3. The configured component directories. *)
Definition aliasImports (code : list ascii) (dir : ComponentDir)
  : list (list ascii) :=
  forEachMatch (importFromRe (aliasSpecifier (alias dir)))
    (fromRe (aliasSpecifier (alias dir))) code
    (fun componentPath =>
       if negb (endsWith componentPath (chars ".vue")) then
         let fullPath :=
           resolve cwd [chars (path dir); componentPath; chars "index.vue"] in
         if existsSync fullPath then [fullPath]
         else
           let fullPath :=
             resolve cwd [chars (path dir); componentPath ++ chars ".vue"] in
           if existsSync fullPath then [fullPath] else []
       else [resolve cwd [chars (path dir); componentPath]]).

(** 4. [import xxx from @/views/xxx.vue] *)
Definition viewImports (config : Config) (code : list ascii)
  : list (list ascii) :=
  forEachMatch (importFromRe viewsSpecifier) (fromRe viewsSpecifier) code
    (fun c => [resolve cwd [chars (viewsDir config); c ++ chars ".vue"]]).

(** [findComponentImports] *)
Definition findComponentImports (code currentFilePath : list ascii)
  (config : Config) : list (list ascii) :=
  let currentDir := dirname currentFilePath in
  relativeImports code currentDir
  ++ dynamicImports code currentDir
  ++ flat_map (aliasImports code) (componentDirs config)
  ++ viewImports config code.

End Host.
End Components.

(** ** Usage detection: the imports of [extractDirectApisWithConfig] *)

Module Detection.
Import Regex Str Usage Catalog Resolver.

(** [apiDefinitions]: an object from module keys to descriptors. *)
Abbreviation ApiDefinitions := (list (string * list ApiInfo)).

(** [([^\x22']*\/api\/[^\x22']+)] as group [i] *)
Definition apiPathGroup (i : nat) : regex :=
  Group i (seqs [Star true (Class not_quote2); lit "/api/";
                 Plus true (Class not_quote2)]).

(** [([^}]+)] *)
Definition bracesGroup : regex :=
  Group 1 (Plus true (Class (none_of ["}"%char]))).

(** [/import\s+\{([^}]+)\}\s+from\s+[\x22']([^\x22']*\/api\/[^\x22']+)[\x22']/g] *)
Definition importBracesRe : regex :=
  seqs [lit "import"; ws1; Char "{"; bracesGroup; Char "}"; ws1;
        lit "from"; ws1; Class quote2; apiPathGroup 2; Class quote2].

(** [/import\s+\{([^}]+)\}/] *)
Definition importsRe : regex :=
  seqs [lit "import"; ws1; Char "{"; bracesGroup; Char "}"].

(** [/from\s+[\x22']([^\x22']*\/api\/[^\x22']+)[\x22']/] *)
Definition apiFromRe : regex :=
  seqs [lit "from"; ws1; Class quote2; apiPathGroup 1; Class quote2].

(** [/import\s+(\w+)\s+from\s+[\x22']([^\x22']*\/api\/[^\x22']+)[\x22']/g] *)
Definition singleImportRe : regex :=
  seqs [lit "import"; ws1; Group 1 word1; ws1;
        lit "from"; ws1; Class quote2; apiPathGroup 2; Class quote2].

(** [/import\s+(\w+)\s+from/] *)
Definition funcNameRe : regex :=
  seqs [lit "import"; ws1; Group 1 word1; ws1; lit "from"].

(** A function name read as the source of a pattern: a character without
    special meaning stands for itself, a dollar is the end of the input, a
    dot any character of a line.  [None]: the name holds another special
    character. *)
Fixpoint namePattern (funcName : list ascii) : option regex :=
  match funcName with
  | [] => Some Empty
  | a :: t =>
      match namePattern t with
      | None => None
      | Some r =>
          if Ascii.eqb a "$" then Some (Seq EndOfInput r)
          else if Ascii.eqb a "." then Some (Seq (Class is_dot) r)
          else if special a then None
          else Some (Seq (Char a) r)
      end
  end.

(** [\b] between what was passed and what is ahead. *)
Definition wordBoundary (before after : list ascii) : bool :=
  xorb (match before with a :: _ => is_word a | [] => false end)
       (match after with a :: _ => is_word a | [] => false end).

(** [/\b r/.test(s)] for a pattern used once: is there a position at a
    word boundary where [r] matches. *)
Fixpoint testAtBoundary (r : regex) (before after : list ascii) : bool :=
  (wordBoundary before after
   && match match_here r before after with Some _ => true | None => false end)
  || match after with
     | [] => false
     | a :: t => testAtBoundary r (a :: before) t
     end.

Section Host.
(** [new RegExp(source).test(code)] on the host, for the function names
    that [namePattern] does not read; [None] when the host throws. *)
Variable hostTest : list ascii -> list ascii -> option bool.

(** [new RegExp(`\\b${funcName}\\s*\\(`, 'g').test(code)] *)
Definition funcCallTest (funcName code : list ascii) : option bool :=
  match namePattern funcName with
  | Some r => Some (testAtBoundary (seqs [r; ws; Char "("]) [] code)
  | None => hostTest funcName code
  end.

(** The body shared by detections 2 and 3 for one imported name: [None]
    when the host throws, else the descriptor pushed, if any.  The module
    is looked up among the keys of [apiDefinitions]'s own; under a name
    that the object inherits the code finds a value that is no array and
    throws. *)
Definition importedApi (apiDefinitions : ApiDefinitions)
  (apiPath funcName code : list ascii) : option (list ApiInfo) :=
  match funcCallTest funcName code with
  | None => None
  | Some false => Some []
  | Some true =>
      match Obj.get (str apiPath) apiDefinitions with
      | Some apis =>
          match findApiByFunctionName apis (str funcName) with
          | Some matchedApi => Some [matchedApi]
          | None => Some []
          end
      | None => Some []
      end
  end.

(** [forEach] with a body that may throw. *)
Fixpoint forEach {X} (body : X -> option (list ApiInfo)) (l : list X)
  : option (list ApiInfo) :=
  match l with
  | [] => Some []
  | x :: more =>
      match body x with
      | None => None
      | Some apis =>
          match forEach body more with
          | None => None
          | Some rest => Some (apis ++ rest)
          end
      end
  end.

(** [s.split(',').map(s => s.trim())] *)
Definition importedFunctions (s : list ascii) : list (list ascii) :=
  let (first, more) := Aggregator.split "," s in map trim (first :: more).

(** [if (apiPath)]: [null] and the empty string are not resolved. *)
Definition resolved (apiPath : option (list ascii)) : option (list ascii) :=
  match apiPath with
  | Some (a :: t) => Some (a :: t)
  | _ => None
  end.

Variable config : Aliases.
Variable apiDefinitions : ApiDefinitions.

(** 2. The imports with braces. *)
Definition bracesImports (code : list ascii) : option (list ApiInfo) :=
  forEach
    (fun m =>
       match exec importsRe (matched m), exec apiFromRe (matched m) with
       | Some importsMatch, Some pathMatch =>
           match group 1 (groups importsMatch), group 1 (groups pathMatch) with
           | Some names, Some importPath =>
               match resolved (resolveApiPath importPath config) with
               | Some apiPath =>
                   forEach
                     (fun funcName =>
                        importedApi apiDefinitions apiPath funcName code)
                     (importedFunctions names)
               | None => Some []
               end
           | _, _ => Some []
           end
       | _, _ => Some []
       end)
    (match_all importBracesRe code).

(** 3. The imports of one name. *)
Definition singleImports (code : list ascii) : option (list ApiInfo) :=
  forEach
    (fun m =>
       match exec funcNameRe (matched m), exec apiFromRe (matched m) with
       | Some funcNameMatch, Some pathMatch =>
           match group 1 (groups funcNameMatch), group 1 (groups pathMatch) with
           | Some funcName, Some importPath =>
               match resolved (resolveApiPath importPath config) with
               | Some apiPath =>
                   importedApi apiDefinitions apiPath funcName code
               | None => Some []
               end
           | _, _ => Some []
           end
       | _, _ => Some []
       end)
    (match_all singleImportRe code).

(** [extractDirectApisWithConfig]; [None] when it throws. *)
Definition extractDirectApisWithConfig (code : string)
  : option (list ApiInfo) :=
  match bracesImports (chars code), singleImports (chars code) with
  | Some braces, Some single => Some (extractUrlLiterals code ++ braces ++ single)
  | _, _ => None
  end.

End Host.

(** A host that is never asked. *)
Definition noHost (_ _ : list ascii) : option bool := None.

End Detection.

(** ** The catalogue of a project: [scanApiDefinitions] *)

Module ApiScan.
Import Regex Str Path Catalog Scanner Detection.

(** [new RegExp(`[/\\\\]${config.apiDir.replace('/', '[/\\\\]')}[/\\\\](.+)\\.(js|ts)$`)];
    the directory name is taken free of the special characters of regular
    expressions. *)
Definition apiModuleRe (apiDir : string) : regex :=
  seqs [Aggregator.slashes; Aggregator.dirPattern false (chars apiDir);
        Aggregator.slashes; Group 1 (Plus true (Class is_dot)); Char ".";
        Group 2 (Alt (lit "js") (lit "ts")); EndOfInput].

(** [apiMatch[1].replace(/\\/g, '/')] *)
Definition unixSeparators (m : list ascii) : list ascii :=
  map (fun a => if Ascii.eqb a Json.backslash then "/"%char else a) m.

(** The module key of an API file, if its path gives one. *)
Definition apiModule (apiDir : string) (filePath : list ascii)
  : option string :=
  match exec (apiModuleRe apiDir) filePath with
  | Some apiMatch =>
      match group 1 (groups apiMatch) with
      | Some m => Some (str (unixSeparators m))
      | None => None
      end
  | None => None
  end.

(** The part of the configuration that the scans read. *)
Record ScanConfig : Type := mkScan {
  apiDir : string;
  extensions : list (list ascii);
  exclude : list (list ascii);
  include : list (list ascii)
}.


Section Host.
(** [process.cwd()] and [fs.readFileSync]; a read that throws is [None]. *)
Variable cwd : list ascii.
Variable read : list ascii -> option string.

(** The body of [apiFiles.forEach]. *)
Definition register (config : ScanConfig) (apiDefinitions : ApiDefinitions)
  (filePath : list ascii) : ApiDefinitions :=
  match analyzeApiFile (read filePath) with
  | [] => apiDefinitions
  | apis =>
      match apiModule (apiDir config) filePath with
      | Some apiModule => Obj.set apiModule apis apiDefinitions
      | None => apiDefinitions
      end
  end.

(** [scanApiDefinitions]: [disk] is what the resolved API directory names,
    if anything; the result is [apiDefinitions] afterwards, [None] when
    [readdirSync] throws. *)
Definition scanApiDefinitions (config : ScanConfig) (disk : option Tree)
  (apiDefinitions : ApiDefinitions) : option ApiDefinitions :=
  let dir := resolve cwd [chars (apiDir config)] in
  match disk with
  | None => Some apiDefinitions
  | Some _ =>
      match scanDirectory (extensions config) (exclude config) (include config)
                          disk dir with
      | Some apiFiles => Some (fold_left (register config) apiFiles apiDefinitions)
      | None => None
      end
  end.

End Host.
End ApiScan.

(** ** A run of the plugin: [buildStart] *)

Module Plugin.
Import Regex Str Path Catalog Usage Walker Scanner Resolver Components
       Detection.

(** The merged options, the part that a run reads. *)
Record Options : Type := mkOptions {
  apiDir : string;
  viewsDir : string;
  componentDirs : list ComponentDir;
  extensions : list (list ascii);
  alias : list (string * string);
  exclude : list (list ascii);
  include : list (list ascii)
}.


(** The parts of [config] that the functions read. *)
Definition scanning (config : Options) : ApiScan.ScanConfig :=
  ApiScan.mkScan (apiDir config) (extensions config) (exclude config)
    (include config).

Definition importing (config : Options) : Config :=
  mkConfig (componentDirs config) (viewsDir config).

Definition aliases (config : Options)
  (viteAlias : option (list (string * option string))) : Aliases :=
  mkAliases (apiDir config) (alias config) viteAlias.

Section Run.
(** [process.cwd()], the regular expressions of the host, the paths that
    exist with their texts ([None] for a path whose read throws), the
    options, [viteConfig.resolve.alias] and the order of the locale. *)
Variable cwd : list ascii.
Variable hostTest : list ascii -> list ascii -> option bool.
Variable contents : gmap string (option string).
Variable config : Options.
Variable viteAlias : option (list (string * option string)).
Variable localeCompare : string -> string -> Z.

(** [fs.existsSync] *)
Definition existsSync (filePath : list ascii) : bool :=
  bool_decide (is_Some (contents !! str filePath)).

(** [fs.readFileSync]; [None] when it throws. *)
Definition readFileSync (filePath : list ascii) : option string :=
  match contents !! str filePath with
  | Some (Some code) => Some code
  | _ => None
  end.

(** What the walker finds at an existing path: the [try] block of
    [extractApisFromComponentWithConfig] up to the loop. *)
Definition statusOf (apiDefinitions : ApiDefinitions) (filePath : string)
  (content : option string) : FileStatus :=
  match content with
  | None => Failing
  | Some code =>
      match extractDirectApisWithConfig hostTest (aliases config viteAlias)
              apiDefinitions code with
      | None => Failing
      | Some directApis =>
          Component directApis
            (map str (findComponentImports cwd existsSync (chars code)
                        (chars filePath) (importing config)))
      end
  end.

Definition components (apiDefinitions : ApiDefinitions) : FileSystem :=
  map_imap (fun filePath content => Some (statusOf apiDefinitions filePath content))
    contents.

(** [buildStart]: [apiTree] and [viewsTree] are what the resolved API and
    views directories name, if anything; the result is the output data,
    [None] when a scan throws. *)
Definition buildStart (apiTree viewsTree : option Tree)
  : option (list (string * Aggregator.CategoryOutput)) :=
  match ApiScan.scanApiDefinitions cwd readFileSync (scanning config) apiTree [] with
  | None => None
  | Some apiDefinitions =>
      match scanDirectory (extensions config) (exclude config) (include config)
              viewsTree (resolve cwd [chars (viewsDir config)]) with
      | None => None
      | Some files =>
          Aggregator.buildStart (viewsDir config) localeCompare
            (components apiDefinitions) (map str files)
      end
  end.

End Run.
End Plugin.

(** ** The texts of declarations *)

Module Declarations.
Import Regex Catalog.

(** A field of a request: the name, a colon, white space and the value
    between quotes. *)
Definition fieldText (name : string) (sp : list ascii) (q : ascii)
  (v : list ascii) (q' : ascii) : list ascii :=
  chars name ++ ":"%char :: sp ++ q :: v ++ [q'].

(** A call of [request] on an object literal. *)
Definition callText (sp4 sp5 body sp6 : list ascii) : list ascii :=
  chars "request" ++ sp4 ++ "("%char :: sp5 ++ "{"%char :: body
  ++ "}"%char :: sp6 ++ [")"%char].

(** The head of an exported declaration up to the character after the
    name: [=] for a constant, the parenthesis for a function. *)
Definition declText (kw : string) (sp1 sp2 name sp3 : list ascii)
  (last : ascii) : list ascii :=
  chars "export" ++ sp1 ++ chars kw ++ sp2 ++ name ++ sp3 ++ [last].

(** An exported constant and an exported function that call [request]. *)
Definition constText (sp1 sp2 name sp3 mid call : list ascii) : list ascii :=
  declText "const" sp1 sp2 name sp3 "=" ++ mid ++ call.

Definition functionText (sp1 sp2 name sp3 params mid call : list ascii)
  : list ascii :=
  (declText "function" sp1 sp2 name sp3 "(" ++ params ++ [")"%char])
  ++ mid ++ call.

(** The pieces of the patterns of a declaration up to the character after
    the name, and up to the text in front of the call. *)
Definition declRe (kw : string) (last : ascii) : list regex :=
  [lit "export"; ws1; lit kw; ws1; Group 1 word1; ws; Char last].

Definition constHead : list regex := declRe "const" "=".

Definition functionHead : list regex :=
  declRe "function" "(" ++ [Star true (Class (none_of [")"%char])); Char ")"].

End Declarations.

(** ** Concrete source trees *)

Module Scenarios.
Import Walker.

(** A component whose read throws. *)
Definition brokenOnly : FileSystem :=
  {["/src/components/Broken.vue" := Failing]}.

Definition listOrders : ApiInfo := mkApi "/orders/list" "GET" (Some "listOrders").
Definition getOrder : ApiInfo := mkApi "/orders/detail" "GET" (Some "getOrder").

(** Two pages; [orders.vue] and the component [OrderList.vue] import each
    other, [cart.vue] imports the component as well. *)
Definition cyclePair : FileSystem :=
  <["/app/src/views/cart.vue" :=
      Component [] ["/app/src/components/OrderList.vue"]]>
  (<["/app/src/views/orders.vue" :=
      Component [getOrder] ["/app/src/components/OrderList.vue"]]>
  (<["/app/src/components/OrderList.vue" :=
      Component [listOrders] ["/app/src/views/orders.vue"]]> ∅)).

Definition getPrice : ApiInfo := mkApi "/price" "GET" (Some "getPrice").

(** Two pages that import one component; no cycle. *)
Definition shop : FileSystem :=
  <["/app/src/views/cart.vue" :=
      Component [] ["/app/src/components/Price.vue"]]>
  (<["/app/src/views/orders.vue" :=
      Component [mkApi "/orders" "UNKNOWN" None]
                ["/app/src/components/Price.vue"]]>
  (<["/app/src/components/Price.vue" := Component [getPrice] []]> ∅)).

Definition shopRank (p : string) : nat :=
  if decide (p = "/app/src/components/Price.vue") then 0 else 1.

(** The two pages and their component on a disk with an import cycle
    elsewhere. *)
Definition shopLoop : FileSystem :=
  <["/app/src/views/a.vue" := Component [] ["/app/src/components/B.vue"]]>
  (<["/app/src/components/B.vue" := Component [] ["/app/src/views/a.vue"]]>
   shop).

Definition shopRegion : gset string :=
  {["/app/src/views/cart.vue"; "/app/src/views/orders.vue";
    "/app/src/components/Price.vue"]}.

(** The same two pages when the component cannot be read. *)
Definition shopBroken : FileSystem :=
  <["/app/src/components/Price.vue" := Failing]> shop.

(** A comparator for the examples: the order of the code units. *)
Definition compareCodeUnits (a b : string) : Z :=
  match String.compare a b with
  | Lt => (-1)%Z
  | Eq => 0%Z
  | Gt => 1%Z
  end.

Definition saveCar : ApiInfo := mkApi "/car" "POST" (Some "saveCar").
Definition getCar : ApiInfo := mkApi "/car" "GET" (Some "getCar").

(** A page that calls two functions of the catalogue with one url and two
    methods, the [POST] first. *)
Definition carPage : FileSystem :=
  {["/app/src/views/car.vue" := Component [saveCar; getCar] []]}.


(** The API module of the specification's scenario and a page that imports
    and calls its function: the page's direct descriptor is the catalogue's
    entry for [getUser]. *)
Definition getUserModule : string :=
  "export function getUser() { request({ url: '/user/' + id, method: 'GET' }) }".

Definition userPage : FileSystem :=
  {["/app/src/views/user.vue" :=
      Component
        match Catalog.findApiByFunctionName
                (Catalog.analyzeApiCode getUserModule) "getUser" with
        | Some api => [api]
        | None => []
        end
        []]}.

(** A text with one literal url. *)
Definition sampleCode : string := "data: { url: '/api/list' }".

(** A page without any call next to a page with one. *)
Definition quietPage : FileSystem :=
  <["/app/src/views/about.vue" := Component [] []]> carPage.

End Scenarios.

(** ** Further examples *)

Module Samples.
Import Regex Str Path Catalog Usage Walker Scanner Resolver Components
       Detection ApiScan Scenarios.

(** The state a walk leaves. *)
Definition stateAfter (fs : FileSystem) (E : string) (st : WalkState)
  : WalkState :=
  match walk fs E st with
  | Some (_, st') => st'
  | None => st
  end.

(** A page that imports a sibling component. *)
Definition siblingImport : string := "import Price from './Price.vue'".

(** A catalogue of two modules. *)
Definition carCatalogue : ApiDefinitions :=
  [("system/user", [mkApi "/system/user/list" "GET" (Some "listUser");
                    mkApi "/system/user" "POST" (Some "addUser")]);
   ("car", [mkApi "/car/{id}" "GET" (Some "getCar")])].

(** A page that imports two functions and calls one of them. *)
Definition userList : string :=
  "import { listUser, addUser } from '@/api/system/user'; listUser(query)".

(** A host that finds no call. *)
Definition quietHost (_ _ : list ascii) : option bool := Some false.

(** An API directory with a module and a component. *)
Definition apiTree : Tree :=
  Dir [(chars "user.js", File); (chars "panel.vue", File)].






(** Two API modules, a function and a constant. *)
Definition listUserModule : string :=
  "export function listUser(query) { return request({ url: '/system/user/list', method: 'get', params: query }) }".

Definition getInfoModule : string :=
  "export const getInfo = () => request({ url: '/getInfo' })".

End Samples.

(** * Properties of the walker *)

Module WalkerFacts.
Import Walker Scenarios.

Abbreviation walkAt := extractApisFromComponentWithConfig.

(** The early exits of one call. *)
Lemma walk_blocked fs n f visited st :
  f ∈ visited ∨ f ∈ processingStack st →
  walkAt fs (S n) f visited st = Some ([], st).
Proof. intros H. simpl. by rewrite decide_True. Qed.

Lemma walk_cached fs n f visited st apis :
  f ∉ visited → f ∉ processingStack st →
  componentCache st !! f = Some apis →
  walkAt fs (S n) f visited st = Some (apis, st).
Proof.
  intros Hv Hs Hc. simpl. rewrite decide_False by tauto. by rewrite Hc.
Qed.

Lemma walk_missing fs n f visited st :
  f ∉ visited → f ∉ processingStack st →
  componentCache st !! f = None → fs !! f = None →
  walkAt fs (S n) f visited st = Some ([], stackAdd f st).
Proof.
  intros Hv Hs Hc Hf. simpl. rewrite decide_False by tauto.
  by rewrite Hc, Hf.
Qed.

Lemma walk_failing fs n f visited st :
  f ∉ visited → f ∉ processingStack st →
  componentCache st !! f = None → fs !! f = Some Failing →
  walkAt fs (S n) f visited st
  = Some ([], stackDelete f (readFileSync f (stackAdd f st))).
Proof.
  intros Hv Hs Hc Hf. simpl. rewrite decide_False by tauto.
  by rewrite Hc, Hf.
Qed.

Lemma walk_component fs n f visited st d i :
  f ∉ visited → f ∉ processingStack st →
  componentCache st !! f = None → fs !! f = Some (Component d i) →
  walkAt fs (S n) f visited st
  = match forEachImport (fun c s => walkAt fs n c ({[f]} ∪ visited) s) i
            (readFileSync f (stackAdd f st)) with
    | None => None
    | Some (childApis, st2) =>
        Some (d ++ childApis, stackDelete f (cacheSet f (d ++ childApis) st2))
    end.
Proof.
  intros Hv Hs Hc Hf. simpl. rewrite decide_False by tauto.
  by rewrite Hc, Hf.
Qed.

(** Adding a path that is not on the stack and deleting it again gives the
    stack back. *)
Lemma stack_add_delete (f : string) (s : gset string) :
  f ∉ s → ({[f]} ∪ s) ∖ {[f]} = s.
Proof. set_solver. Qed.

(** *** Termination

    A call that goes into the imports of a file has put that file, which
    exists and was not on the stack, on the stack: the files off the stack
    bound the depth of the recursion. *)

Lemma offStack_mono fs st st' :
  processingStack st ⊆ processingStack st' → offStack fs st' ≤ offStack fs st.
Proof. intros H. apply subseteq_size. set_solver. Qed.

Lemma offStack_add fs f st x :
  fs !! f = Some x → f ∉ processingStack st →
  offStack fs (readFileSync f (stackAdd f st)) < offStack fs st.
Proof.
  intros Hf Hs. apply subset_size. simpl.
  assert (f ∈ dom fs) by (apply elem_of_dom; eauto).
  apply strict_spec_alt. split; [set_solver|].
  intros Heq. assert (f ∈ dom fs ∖ processingStack st) as Hin by set_solver.
  rewrite <- Heq in Hin. set_solver.
Qed.

Lemma forEachImport_total fs n visited :
  (∀ f st, offStack fs st < n →
     ∃ apis st', walkAt fs n f visited st = Some (apis, st')
                 ∧ processingStack st ⊆ processingStack st') →
  ∀ imports st, offStack fs st < n →
    ∃ apis st',
      forEachImport (fun c s => walkAt fs n c visited s) imports st
      = Some (apis, st')
      ∧ processingStack st ⊆ processingStack st'.
Proof.
  intros IH imports. induction imports as [|c more IHm]; intros st Hn.
  - exists [], st. done.
  - destruct (IH c st Hn) as (a & st1 & Hw & Hsub).
    destruct (IHm st1) as (b & st2 & Hm & Hsub2).
    { pose proof (offStack_mono fs st st1 Hsub). lia. }
    exists (a ++ b), st2. simpl. rewrite Hw, Hm. split; [done|]. set_solver.
Qed.

Lemma walk_total fs n :
  ∀ f visited st, offStack fs st < n →
    ∃ apis st', walkAt fs n f visited st = Some (apis, st')
                ∧ processingStack st ⊆ processingStack st'.
Proof.
  induction n as [|n IH]; intros f visited st Hn; [lia|].
  destruct (decide (f ∈ visited ∨ f ∈ processingStack st)) as [Hb|Hb].
  { exists [], st. by rewrite walk_blocked. }
  assert (f ∉ visited ∧ f ∉ processingStack st) as [Hv Hs] by tauto.
  destruct (componentCache st !! f) as [apis|] eqn:Hc.
  { exists apis, st. by rewrite (walk_cached _ _ _ _ _ apis). }
  destruct (fs !! f) as [[|d i]|] eqn:Hf.
  - rewrite walk_failing by done. eexists _, _. split; [done|].
    simpl. set_solver.
  - rewrite (walk_component _ _ _ _ _ d i) by done.
    destruct (forEachImport_total fs n ({[f]} ∪ visited)
                (fun g s H => IH g _ s H) i
                (readFileSync f (stackAdd f st)))
      as (b & st2 & Hm & Hsub).
    { pose proof (offStack_add fs f st _ Hf Hs). lia. }
    rewrite Hm. eexists _, _. split; [done|].
    simpl in *. set_solver.
  - rewrite walk_missing by done. eexists _, _. split; [done|].
    simpl. set_solver.
Qed.

(** With the fuel [enough fs] the walk of any path from any state returns. *)
Lemma walk_returns fs f st : ∃ apis st', walk fs f st = Some (apis, st').
Proof.
  destruct (walk_total fs (enough fs) f ∅ st) as (a & st' & H & _).
  - unfold offStack, enough.
    pose proof (subseteq_size (dom fs ∖ processingStack st) (dom fs)) as Hle.
    rewrite size_dom in Hle. assert (size (dom fs ∖ processingStack st) ≤ size fs) by (apply Hle; set_solver).
    lia.
  - by exists a, st'.
Qed.

(** *** What a call leaves behind *)

(** A property of the state that every recursive call keeps is kept by the
    loop over the imports, and every import is walked from a state that has
    it; its result is part of the result of the loop. *)
Lemma forEachImport_inv (P : WalkState → Prop)
  (rec : string → WalkState → Result) :
  (∀ c s a s', P s → rec c s = Some (a, s') → P s') →
  ∀ imports st apis st',
    P st → forEachImport rec imports st = Some (apis, st') →
    P st'
    ∧ ∀ c, c ∈ imports →
        ∃ s a s', P s ∧ rec c s = Some (a, s') ∧ a ⊆ apis.
Proof.
  intros Hrec imports.
  induction imports as [|c more IH]; intros st apis st' HP Hrun; simpl in Hrun.
  - injection Hrun as <- <-. split; [done|]. intros c Hc. by apply elem_of_nil in Hc.
  - destruct (rec c st) as [[a s1]|] eqn:Hc; [|done].
    destruct (forEachImport rec more s1) as [[b s2]|] eqn:Hm; [|done].
    injection Hrun as <- <-.
    destruct (IH s1 b s2 (Hrec _ _ _ _ HP Hc) Hm) as [HP2 Hin].
    split; [done|]. intros c' Hc'. apply elem_of_cons in Hc' as [->|Hc'].
    + exists st, a, s1. split; [done|]. split; [done|].
      intros x Hx. apply elem_of_app. by left.
    + destruct (Hin c' Hc') as (s & a' & s' & ? & ? & Hsub).
      exists s, a', s'. split; [done|]. split; [done|].
      intros x Hx. apply elem_of_app. right. by apply Hsub.
Qed.

(** The walk of one path, case by case. *)
Lemma walk_cases fs n f visited st apis st' :
  walkAt fs n f visited st = Some (apis, st') →
  (apis = [] ∧ st' = st ∧ (f ∈ visited ∨ f ∈ processingStack st))
  ∨ (f ∉ visited ∧ f ∉ processingStack st ∧
     ((componentCache st !! f = Some apis ∧ st' = st)
      ∨ (componentCache st !! f = None ∧
         ((fs !! f = None ∧ apis = [] ∧ st' = stackAdd f st)
          ∨ (fs !! f = Some Failing ∧ apis = []
             ∧ st' = stackDelete f (readFileSync f (stackAdd f st)))
          ∨ (∃ m d i childApis st2,
               n = S m ∧ fs !! f = Some (Component d i)
               ∧ forEachImport (fun c s => walkAt fs m c ({[f]} ∪ visited) s)
                    i (readFileSync f (stackAdd f st))
                  = Some (childApis, st2)
               ∧ apis = d ++ childApis
               ∧ st' = stackDelete f (cacheSet f apis st2)))))).
Proof.
  destruct n as [|m]; [done|]. intros Hw.
  destruct (decide (f ∈ visited ∨ f ∈ processingStack st)) as [Hb|Hb].
  { rewrite walk_blocked in Hw by done. injection Hw as <- <-. by left. }
  assert (f ∉ visited ∧ f ∉ processingStack st) as [Hv Hs] by tauto.
  right. split; [done|]. split; [done|].
  destruct (componentCache st !! f) as [cached|] eqn:Hc.
  { rewrite (walk_cached _ _ _ _ _ cached) in Hw by done.
    injection Hw as <- <-. by left. }
  right. split; [done|].
  destruct (fs !! f) as [[|d i]|] eqn:Hf.
  - rewrite walk_failing in Hw by done. injection Hw as <- <-. right. by left.
  - rewrite (walk_component _ _ _ _ _ d i) in Hw by done.
    destruct (forEachImport _ i _) as [[childApis st2]|] eqn:Hm; [|done].
    injection Hw as <- <-. right. right.
    by exists m, d, i, childApis, st2.
  - rewrite walk_missing in Hw by done. injection Hw as <- <-. by left.
Qed.

(** A call adds to the stack only paths that are missing on disk. *)
Lemma walk_stack fs n :
  ∀ f visited st apis st',
    walkAt fs n f visited st = Some (apis, st') →
    ∀ g, g ∈ processingStack st' → g ∈ processingStack st ∨ fs !! g = None.
Proof.
  induction n as [|n IH]; intros f visited st apis st' Hw g Hg; [done|].
  apply walk_cases in Hw
    as [(_ & -> & _)|(Hv & Hs & [[_ ->]|(Hc & [(Hf & _ & ->)|[(Hf & _ & ->)|
         (m & d & i & childApis & st2 & Hm & Hf & Hloop & _ & ->)]])])];
    try by left.
  - simpl in Hg. apply elem_of_union in Hg as [Hg|Hg]; [|by left].
    apply elem_of_singleton in Hg as ->. by right.
  - simpl in Hg. left. set_solver.
  - injection Hm as <-. simpl in Hg.
    apply elem_of_difference in Hg as [Hg Hne].
    pose (P := fun s : WalkState =>
      ∀ h, h ∈ processingStack s →
           h ∈ {[f]} ∪ processingStack st ∨ fs !! h = None).
    assert (P st2) as HP.
    { refine (proj1 (forEachImport_inv P _ _ _ _ _ _ _ Hloop)).
      - intros c s a s' HPs Hc' h Hh.
        destruct (IH _ _ _ _ _ Hc' h Hh) as [?|?]; [by apply HPs|by right].
      - intros h Hh. by left. }
    destruct (HP g Hg) as [Hin|?]; [|by right]. left. set_solver.
Qed.

(** The entry a call stores for a file begins with the direct descriptors
    of the file: if that holds of the cache before, it holds after. *)
Lemma walk_holdsDirect fs g dg ig n :
  fs !! g = Some (Component dg ig) →
  ∀ f visited st apis st',
    holdsDirect g dg st →
    walkAt fs n f visited st = Some (apis, st') →
    holdsDirect g dg st'.
Proof.
  intros Hg. induction n as [|n IH]; intros f visited st apis st' HP Hw; [done|].
  apply walk_cases in Hw
    as [(_ & -> & _)|(Hv & Hs & [[_ ->]|(Hc & [(Hf & _ & ->)|[(Hf & _ & ->)|
         (m & d & i & childApis & st2 & Hm & Hf & Hloop & -> & ->)]])])];
    try done.
  injection Hm as <-.
  assert (holdsDirect g dg st2) as HP2.
  { refine (proj1 (forEachImport_inv (holdsDirect g dg) _ _ _ _ _ _ _ Hloop)).
    - intros c s a s' HPs Hc'. by eapply IH.
    - done. }
  intros a Ha. simpl in Ha.
  destruct (decide (f = g)) as [->|Hne].
  - rewrite lookup_insert_eq in Ha. injection Ha as <-.
    rewrite Hg in Hf. injection Hf as <- <-.
    intros x Hx. apply elem_of_app. by left.
  - rewrite lookup_insert_ne in Ha by done. by apply HP2.
Qed.

(** The result for a component that is not blocked holds its direct
    descriptors, and is what the cache holds for it afterwards. *)
Lemma walk_direct fs n f d i visited st apis st' :
  fs !! f = Some (Component d i) →
  f ∉ visited → f ∉ processingStack st → holdsDirect f d st →
  walkAt fs n f visited st = Some (apis, st') →
  d ⊆ apis ∧ componentCache st' !! f = Some apis.
Proof.
  intros Hf Hv Hs HP Hw.
  apply walk_cases in Hw
    as [(_ & _ & [?|?])|(_ & _ & [[Hc ->]|(Hc & [(Hf' & _)|[(Hf' & _)|
         (m & d' & i' & childApis & st2 & Hm & Hf' & Hloop & -> & ->)]])])];
    try done; try congruence.
  - split; [by apply HP|done].
  - rewrite Hf in Hf'. injection Hf' as <- <-. split.
    + intros x Hx. apply elem_of_app. by left.
    + simpl. by rewrite lookup_insert_eq.
Qed.

(** A call never removes a path that was on the stack, and never changes an
    entry of the cache. *)
Lemma walk_stack_mono fs n :
  ∀ f visited st apis st',
    walkAt fs n f visited st = Some (apis, st') →
    processingStack st ⊆ processingStack st'.
Proof.
  induction n as [|n IH]; intros f visited st apis st' Hw; [done|].
  apply walk_cases in Hw
    as [(_ & -> & _)|(Hv & Hs & [[_ ->]|(Hc & [(Hf & _ & ->)|[(Hf & _ & ->)|
         (m & d & i & childApis & st2 & Hm & Hf & Hloop & _ & ->)]])])];
    try reflexivity.
  { simpl. set_solver. }
  { simpl. intros g Hg. apply elem_of_difference. split; [set_solver|].
    intros ->%elem_of_singleton. done. }
  injection Hm as <-.
  pose (P := fun s : WalkState => {[f]} ∪ processingStack st ⊆ processingStack s).
  assert (P st2) as HP.
  { refine (proj1 (forEachImport_inv P _ _ _ _ _ _ _ Hloop)).
    - intros c s a s' HPs Hc'. unfold P in *.
      pose proof (IH _ _ _ _ _ Hc'). set_solver.
    - unfold P. simpl. set_solver. }
  unfold P in HP. simpl. intros g Hg. apply elem_of_difference.
  split; [set_solver|]. intros ->%elem_of_singleton. done.
Qed.

Lemma walk_cache_mono fs n :
  ∀ f visited st apis st',
    walkAt fs n f visited st = Some (apis, st') → cacheKept st st'.
Proof.
  induction n as [|n IH]; intros f visited st apis st' Hw; [done|].
  apply walk_cases in Hw
    as [(_ & -> & _)|(Hv & Hs & [[_ ->]|(Hc & [(Hf & _ & ->)|[(Hf & _ & ->)|
         (m & d & i & childApis & st2 & Hm & Hf & Hloop & _ & ->)]])])];
    try (by intros ? ? ?).
  injection Hm as <-.
  assert (cacheKept st st2) as HP.
  { refine (proj1 (forEachImport_inv (cacheKept st) _ _ _ _ _ _ _ Hloop)).
    - intros c s a s' HPs Hc' g m' Hg. by eapply IH, HPs.
    - by intros ? ? ?. }
  intros g m' Hg. simpl. rewrite lookup_insert_ne; [by apply HP|].
  intros ->. congruence.
Qed.

(** *** Exit paths of one call *)

(** C6 (the code departs from it).  The visiting set is to be the same after
    a call as before it on every exit path.  For a path that is missing on
    disk the call returns from inside [try], after [processingStack.add] and
    without [processingStack.delete]: the path stays on the stack. *)
Theorem missing_file_stays_on_stack fs n f visited st :
  fs !! f = None → f ∉ visited → f ∉ processingStack st →
  componentCache st !! f = None →
  ∃ st', extractApisFromComponentWithConfig fs (S n) f visited st = Some ([], st')
         ∧ processingStack st' = {[f]} ∪ processingStack st
         ∧ processingStack st' ≠ processingStack st.
Proof.
  intros Hf Hv Hs Hc. exists (stackAdd f st).
  split; [by apply walk_missing|]. split; [done|].
  simpl. intros Heq. apply Hs. rewrite <- Heq. set_solver.
Qed.

Lemma missing_file_stays_on_stack_witness :
  (∅ : FileSystem) !! "/src/views/Gone.vue" = None
  ∧ ∃ st', walk ∅ "/src/views/Gone.vue" initial = Some ([], st')
           ∧ processingStack st' = {["/src/views/Gone.vue"]} ∪ ∅
           ∧ processingStack st' ≠ ∅.
Proof.
  split; [reflexivity|].
  apply (missing_file_stays_on_stack ∅ 0 "/src/views/Gone.vue" ∅ initial);
    [reflexivity | apply not_elem_of_empty | apply not_elem_of_empty
    | reflexivity].
Defined.

(** C2, as the code has it.  A file whose read or detection throws gives the
    empty list and leaves the stack as it was, but nothing is stored in
    [componentCache] for it: a later walk of the same path reads the file
    again. *)
Theorem failing_file_is_not_memoized fs n m f visited visited' st :
  fs !! f = Some Failing → f ∉ visited → f ∉ visited' →
  f ∉ processingStack st → componentCache st !! f = None →
  ∃ st1 st2,
    extractApisFromComponentWithConfig fs (S n) f visited st = Some ([], st1)
    ∧ componentCache st1 = componentCache st
    ∧ processingStack st1 = processingStack st
    ∧ reads st1 = reads st ++ [f]
    ∧ extractApisFromComponentWithConfig fs (S m) f visited' st1 = Some ([], st2)
    ∧ componentCache st2 = componentCache st
    ∧ reads st2 = reads st ++ [f; f].
Proof.
  intros Hf Hv Hv' Hs Hc.
  set (st1 := stackDelete f (readFileSync f (stackAdd f st))).
  assert (processingStack st1 = processingStack st) as Hst1
    by (simpl; by apply stack_add_delete).
  exists st1, (stackDelete f (readFileSync f (stackAdd f st1))).
  split; [by apply walk_failing|]. do 3 (split; [done|]).
  split; [apply walk_failing; try done; by rewrite Hst1|].
  split; [done|]. simpl. by rewrite <- app_assoc.
Qed.

Lemma failing_file_is_not_memoized_witness :
  brokenOnly !! "/src/components/Broken.vue" = Some Failing
  ∧ ∃ st1 st2,
      walk brokenOnly "/src/components/Broken.vue" initial = Some ([], st1)
      ∧ componentCache st1 = ∅
      ∧ processingStack st1 = ∅
      ∧ reads st1 = [] ++ ["/src/components/Broken.vue"]
      ∧ walk brokenOnly "/src/components/Broken.vue" st1 = Some ([], st2)
      ∧ componentCache st2 = ∅
      ∧ reads st2
        = [] ++ ["/src/components/Broken.vue"; "/src/components/Broken.vue"].
Proof.
  split; [reflexivity|].
  apply (failing_file_is_not_memoized brokenOnly 1 1
           "/src/components/Broken.vue" ∅ ∅ initial);
    [reflexivity | apply not_elem_of_empty | apply not_elem_of_empty
    | apply not_elem_of_empty | reflexivity].
Defined.

(** C2 as the specification states it fails: after the walk of a failing
    file the cache holds no entry for it, and the next walk is no cache hit,
    it reads the file a second time. *)
Lemma failing_file_cache_counterexample :
  ∃ st1 st2,
    walk brokenOnly "/src/components/Broken.vue" initial = Some ([], st1)
    ∧ componentCache st1 !! "/src/components/Broken.vue" ≠ Some []
    ∧ walk brokenOnly "/src/components/Broken.vue" st1 = Some ([], st2)
    ∧ reads st2 = ["/src/components/Broken.vue"; "/src/components/Broken.vue"].
Proof.
  eexists _, _. split; [vm_compute; reflexivity|].
  split; [vm_compute; discriminate|].
  split; vm_compute; reflexivity.
Qed.

(** *** Import cycles *)

(** C1, as the code has it.  Entry [A] imports [B] and [B] imports [A]
    back; both exist and are processed without error, and neither has been
    memoized or left on the stack when the walk of [A] begins.  Then the walk
    of [A] returns, and its result, which is what the cache records for
    [A], holds every direct descriptor of [A] and of [B]. *)
Theorem cycle_pair_walked_first fs A B dA iA dB iB st :
  fs !! A = Some (Component dA iA) → B ∈ iA →
  fs !! B = Some (Component dB iB) → A ∈ iB →
  A ∉ processingStack st → B ∉ processingStack st →
  componentCache st !! A = None → componentCache st !! B = None →
  ∃ apis st',
    walk fs A st = Some (apis, st')
    ∧ dA ⊆ apis ∧ dB ⊆ apis
    ∧ componentCache st' !! A = Some apis.
Proof.
  intros HA HBin HB _ HsA HsB HcA HcB.
  destruct (walk_returns fs A st) as (apis & st' & Hw).
  exists apis, st'. split; [done|]. unfold walk in Hw.
  assert (holdsDirect A dA st) as HdA by (intros a Ha; congruence).
  destruct (walk_direct _ _ _ _ _ _ _ _ _ HA (not_elem_of_empty A) HsA HdA Hw)
    as [HsubA HcA'].
  split; [done|]. split; [|done].
  destruct (decide (B = A)) as [->|Hne].
  { rewrite HA in HB. injection HB as <- <-. done. }
  apply walk_cases in Hw
    as [(_ & _ & [?|?])|(_ & _ & [[Hc _]|(_ & [(Hf & _)|[(Hf & _)|
         (m & d & i & childApis & st2 & Hm & Hf & Hloop & -> & ->)]])])];
    try done; try congruence.
  rewrite HA in Hf. injection Hf as <- <-.
  pose (P := fun s : WalkState =>
    holdsDirect B dB s ∧ B ∉ processingStack s).
  assert (∃ s a s', P s ∧ walkAt fs m B ({[A]} ∪ ∅) s = Some (a, s')
                    ∧ a ⊆ childApis) as (s & a & s' & [HPd HPs] & HwB & Hsub).
  { refine (proj2 (forEachImport_inv P _ _ _ _ _ _ _ Hloop) B HBin).
    - intros c s a s' [HPd HPs] Hc. split.
      + by eapply walk_holdsDirect.
      + intros Hin. destruct (walk_stack _ _ _ _ _ _ _ Hc B Hin); [done|congruence].
    - split; [intros a Ha; simpl in Ha; congruence|]. simpl. set_solver. }
  assert (B ∉ ({[A]} ∪ ∅ : gset string)) as HvB by set_solver.
  destruct (walk_direct _ _ _ _ _ _ _ _ _ HB HvB HPs HPd HwB) as [HsubB _].
  intros x Hx. apply elem_of_app. right. by apply Hsub, HsubB.
Qed.

(** *** Import graphs without cycles *)

(** The loop over the imports with an invariant that knows the imports
    already walked, and a function that gives the result of each. *)
Lemma forEachImport_exact (R : list string → WalkState → Prop)
  (F : string → list ApiInfo) (rec : string → WalkState → Result) :
  ∀ imports walked st apis st',
    (∀ before c s a s', c ∈ imports → R before s → rec c s = Some (a, s') →
       R (before ++ [c]) s' ∧ a = F c) →
    R walked st → forEachImport rec imports st = Some (apis, st') →
    R (walked ++ imports) st' ∧ apis = flat_map F imports.
Proof.
  intros l. induction l as [|c more IH]; intros walked st apis st' Hrec HR Hrun;
    simpl in Hrun.
  - injection Hrun as <- <-. by rewrite app_nil_r.
  - destruct (rec c st) as [[a s1]|] eqn:Hc; [|done].
    destruct (forEachImport rec more s1) as [[b s2]|] eqn:Hm; [|done].
    injection Hrun as <- <-.
    destruct (Hrec walked c st a s1) as (HR1 & ->); [by left|done|done|].
    destruct (IH (walked ++ [c]) s1 b s2) as (HR2 & ->); [|done|done|].
    { intros before c' s a' s' Hin. apply Hrec. by right. }
    rewrite <- app_assoc in HR2. done.
Qed.

Section Acyclic.
Variable fs : FileSystem.
Variable rank : string → nat.

Local Abbreviation acyclic := (Walker.acyclic fs rank).
Local Abbreviation fullApis := (Walker.fullApis fs rank).
Local Abbreviation reachableApis := (Walker.reachableApis fs).
Local Abbreviation imports := (Walker.imports fs).
Local Abbreviation isComponent := (Walker.isComponent fs).
Local Abbreviation declaredBelow := (Walker.declaredBelow fs).
Local Abbreviation consistent := (Walker.consistent fs rank).
Local Abbreviation settled := (Walker.settled fs rank).
Local Abbreviation topLevel := (Walker.topLevel fs).


Hypothesis Hacyclic : acyclic.

Lemma import_rank f d i c :
  fs !! f = Some (Component d i) → c ∈ i → rank c < rank f.
Proof.
  intros Hf Hc. pose proof (Hacyclic f _ Hf) as H. simpl in H.
  rewrite Forall_forall in H. by apply H.
Qed.


Lemma flat_map_agree {A B} (F G : A → list B) l :
  (∀ x, x ∈ l → F x = G x) → flat_map F l = flat_map G l.
Proof.
  induction l as [|x l IH]; intros H; simpl; [done|].
  rewrite H by (by left). rewrite IH; [done|]. intros y Hy. apply H. by right.
Qed.

Lemma reachableApis_fuel n : ∀ m f,
  rank f < n → rank f < m → reachableApis n f = reachableApis m f.
Proof.
  induction n as [|n IH]; intros m f Hn Hm; [lia|].
  destruct m as [|m]; [lia|]. simpl.
  destruct (fs !! f) as [[|d i]|] eqn:Hf; try done.
  f_equal. apply flat_map_agree. intros c Hc.
  pose proof (import_rank _ _ _ _ Hf Hc). apply IH; lia.
Qed.

Lemma fullApis_component f d i :
  fs !! f = Some (Component d i) → fullApis f = d ++ flat_map fullApis i.
Proof.
  intros Hf. unfold Walker.fullApis at 1. simpl. rewrite Hf. f_equal.
  apply flat_map_agree. intros c Hc.
  pose proof (import_rank _ _ _ _ Hf Hc). apply reachableApis_fuel; lia.
Qed.

Lemma fullApis_other f :
  (∀ d i, fs !! f ≠ Some (Component d i)) → fullApis f = [].
Proof.
  intros Hf. unfold Walker.fullApis. simpl.
  destruct (fs !! f) as [[|d i]|] eqn:E; try done. by destruct (Hf d i).
Qed.


Lemma fullApis_reaches f g dg ig x :
  rtc imports f g → fs !! g = Some (Component dg ig) → x ∈ dg →
  x ∈ fullApis f.
Proof.
  intros Hr Hg Hx. induction Hr as [f|f c g (d & i & Hf & Hc) _ IH].
  - rewrite (fullApis_component _ _ _ Hg). apply elem_of_app. by left.
  - rewrite (fullApis_component _ _ _ Hf). apply elem_of_app. right.
    apply list_elem_of_In, in_flat_map. exists c. split.
    + by apply list_elem_of_In.
    + apply list_elem_of_In. by apply IH.
Qed.



Lemma consistent_initial : consistent initial.
Proof.
  split; simpl.
  - intros g m H. by rewrite lookup_empty in H.
  - intros g _ [[m H]|H]; [by rewrite lookup_empty in H|set_solver].
  - done.
  - intros g h [m H]. by rewrite lookup_empty in H.
Qed.

Lemma readCount_read g f st :
  readCount g (readFileSync f st)
  = readCount g st + (if decide (f = g) then 1 else 0).
Proof.
  unfold readCount. simpl. rewrite filter_app, length_app. f_equal.
  rewrite filter_cons. by destruct (decide (f = g)).
Qed.

Lemma not_component_blocked f (visited : gset string) st :
  (∀ g, g ∈ visited → rank f < rank g) →
  (∀ g, g ∈ processingStack st → fs !! g = None ∨ rank f < rank g) →
  f ∈ visited ∨ f ∈ processingStack st →
  ∀ d i, fs !! f ≠ Some (Component d i).
Proof.
  intros Hvis Hstack [Hb|Hb] d i Hf.
  - apply Hvis in Hb. lia.
  - apply Hstack in Hb as [?|?]; [congruence|lia].
Qed.

Lemma walk_acyclic n : ∀ f visited st apis st',
  consistent st →
  (∀ g, g ∈ visited → rank f < rank g) →
  (∀ g, g ∈ processingStack st → fs !! g = None ∨ rank f < rank g) →
  walkAt fs n f visited st = Some (apis, st') →
  consistent st' ∧ apis = fullApis f
  ∧ (isComponent f → is_Some (componentCache st' !! f)).
Proof.
  induction n as [|n IH]; intros f visited st apis st' Hst Hvis Hstack Hw;
    [done|].
  apply walk_cases in Hw
    as [(-> & -> & Hb)|(Hv & Hs & [[Hc ->]|(Hc & [(Hf & -> & ->)|[(Hf & -> & ->)|
         (m & d & i & childApis & st2 & Hm & Hf & Hloop & -> & ->)]])])].
  - (* blocked *)
    pose proof (not_component_blocked _ _ _ Hvis Hstack Hb) as Hno.
    split; [done|]. split; [by rewrite fullApis_other|].
    intros (d & i & Hf). by destruct (Hno d i).
  - (* cache hit *)
    destruct (cached_full _ Hst _ _ Hc) as (_ & -> & _). eauto.
  - (* missing on disk *)
    split; [|split; [by rewrite fullApis_other by congruence|]].
    + split; simpl.
      * intros g m' Hg. destruct (cached_full _ Hst _ _ Hg) as ((d & i & Hd) & ? & ?).
        split; [by exists d, i|]. split; [done|].
        assert (g ≠ f) by congruence. set_solver.
      * intros g (d & i & Hd) Hg. apply (read_once _ Hst); [by exists d, i|].
        destruct Hg as [?|Hg]; [by left|right].
        assert (g ≠ f) by congruence. set_solver.
      * intros g Hg Hcg Hsg. apply (read_never _ Hst); [done|done|set_solver].
      * apply (cached_closed _ Hst).
    + intros (d & i & ?). congruence.
  - (* throws *)
    split; [|split; [by rewrite fullApis_other by congruence|]].
    + split; simpl.
      * intros g m' Hg. destruct (cached_full _ Hst _ _ Hg) as (? & ? & ?).
        split; [done|]. split; [done|]. set_solver.
      * intros g (d & i & Hd) Hg. assert (f ≠ g) by congruence.
        change (readCount g (readFileSync f (stackAdd f st)) = 1).
        rewrite readCount_read, decide_False by done.
        change (readCount g (stackAdd f st)) with (readCount g st).
        rewrite (read_once _ Hst); [done|by exists d, i|].
        destruct Hg as [?|Hg]; [by left|right]. set_solver.
      * intros g (d & i & Hd) Hcg Hsg. assert (f ≠ g) by congruence.
        change (readCount g (readFileSync f (stackAdd f st)) = 0).
        rewrite readCount_read, decide_False by done.
        change (readCount g (stackAdd f st)) with (readCount g st).
        rewrite (read_never _ Hst); [done|by exists d, i|done|]. set_solver.
      * apply (cached_closed _ Hst).
    + intros (d & i & ?). congruence.
  - (* a component *)
    injection Hm as <-.
    pose (R := fun (walked : list string) (s : WalkState) =>
      consistent s ∧ f ∈ processingStack s
      ∧ (∀ g, g ∈ processingStack s → fs !! g = None ∨ rank f ≤ rank g)
      ∧ ∀ c, c ∈ walked → isComponent c → is_Some (componentCache s !! c)).
    assert (R ([] ++ i) st2 ∧ childApis = flat_map fullApis i)
      as [(Hst2 & Hfs2 & _ & Hwalked) ->].
    { apply (forEachImport_exact R fullApis _ i [] _ _ _) with (3 := Hloop).
      - intros before c s a s' Hc' (Hcs & Hfs & Hrk & Hbefore) Hwc.
        pose proof (import_rank _ _ _ _ Hf Hc') as Hlt.
        destruct (IH c ({[f]} ∪ visited) s a s') as (Hcs' & -> & Hcached);
          [done| | |done|].
        { intros g [Hg|Hg]%elem_of_union;
            [by apply elem_of_singleton in Hg as ->|].
          apply Hvis in Hg. lia. }
        { intros g Hg. destruct (Hrk g Hg) as [?|?]; [by left|right; lia]. }
        split; [|done]. split; [done|].
        split; [by apply (walk_stack_mono _ _ _ _ _ _ _ Hwc)|].
        split.
        { intros g Hg.
          destruct (walk_stack _ _ _ _ _ _ _ Hwc g Hg) as [?|?]; [by apply Hrk|by left]. }
        intros c' [Hin|Hin]%elem_of_app Hcomp;
          [|apply list_elem_of_singleton in Hin as ->; by apply Hcached].
        destruct (Hbefore c' Hin Hcomp) as [m' Hm'].
        exists m'. by apply (walk_cache_mono _ _ _ _ _ _ _ Hwc).
      - split.
        + split; simpl.
          * intros g m' Hg. destruct (cached_full _ Hst _ _ Hg) as (? & ? & ?).
            split; [done|]. split; [done|].
            assert (g ≠ f) by congruence. set_solver.
          * intros g Hcomp Hg.
            change (readCount g (readFileSync f (stackAdd f st)) = 1).
            rewrite readCount_read.
            change (readCount g (stackAdd f st)) with (readCount g st).
            destruct (decide (f = g)) as [<-|Hne].
            -- by rewrite (read_never _ Hst).
            -- rewrite (read_once _ Hst); [done|done|].
               destruct Hg as [?|Hg]; [by left|right]. set_solver.
          * intros g Hcomp Hcg Hsg.
            change (readCount g (readFileSync f (stackAdd f st)) = 0).
            rewrite readCount_read, decide_False by set_solver.
            change (readCount g (stackAdd f st)) with (readCount g st).
            rewrite (read_never _ Hst); [done|done|done|set_solver].
          * apply (cached_closed _ Hst).
        + split; [simpl; set_solver|]. split.
          * simpl. intros g [Hg|Hg]%elem_of_union;
              [apply elem_of_singleton in Hg as ->; by right|].
            destruct (Hstack g Hg) as [?|?]; [by left|right; lia].
          * intros c Hc'. by apply elem_of_nil in Hc'. }
    simpl in Hwalked.
    assert (∀ h, rtc imports f h → isComponent h →
                 h = f ∨ is_Some (componentCache st2 !! h)) as Hreach.
    { intros h Hr Hh. apply rtc_inv in Hr as [->|(c & (d' & i' & Hf' & Hc') & Hr)];
        [by left|right].
      rewrite Hf in Hf'. injection Hf' as <- <-.
      assert (isComponent c) as Hcc.
      { apply rtc_inv in Hr as [->|(c2 & (d2 & i2 & ? & ?) & _)]; [done|].
        by exists d2, i2. }
      by apply (cached_closed _ Hst2 c h); [apply Hwalked| |]. }
    split; [|split].
    + split; simpl.
      * intros g m' Hg. destruct (decide (f = g)) as [<-|Hne].
        -- rewrite lookup_insert_eq in Hg. injection Hg as <-.
           split; [by exists d, i|]. split; [by rewrite (fullApis_component _ _ _ Hf)|].
           set_solver.
        -- rewrite lookup_insert_ne in Hg by done.
           destruct (cached_full _ Hst2 _ _ Hg) as (? & ? & ?). set_solver.
      * intros g Hcomp Hg.
        change (readCount g st2 = 1). apply (read_once _ Hst2); [done|].
        destruct (decide (f = g)) as [<-|Hne]; [by right|].
        rewrite lookup_insert_ne in Hg by done.
        destruct Hg as [?|Hg]; [by left|right]. set_solver.
      * intros g Hcomp Hcg Hsg.
        change (readCount g st2 = 0).
        destruct (decide (f = g)) as [<-|Hne];
          [by rewrite lookup_insert_eq in Hcg|].
        rewrite lookup_insert_ne in Hcg by done.
        apply (read_never _ Hst2); [done|done|set_solver].
      * intros g h Hg Hr Hh.
        assert (h = f ∨ is_Some (componentCache st2 !! h)) as [->|[m' Hm']].
        { destruct (decide (f = g)) as [<-|Hne]; [by apply Hreach|].
          rewrite lookup_insert_ne in Hg by done. right.
          by apply (cached_closed _ Hst2 g h). }
        -- rewrite lookup_insert_eq. eauto.
        -- destruct (decide (f = h)) as [<-|Hne].
           ++ rewrite lookup_insert_eq. eauto.
           ++ rewrite lookup_insert_ne by done. eauto.
    + by rewrite (fullApis_component _ _ _ Hf).
    + intros _. simpl. rewrite lookup_insert_eq. eauto.
Qed.

Lemma fullApis_sub f g : rtc imports f g → fullApis g ⊆ fullApis f.
Proof.
  intros Hr. induction Hr as [f|f c g (d & i & Hf & Hc) _ IH]; [done|].
  intros x Hx. rewrite (fullApis_component _ _ _ Hf). apply elem_of_app. right.
  apply list_elem_of_In, in_flat_map. exists c. split.
  - by apply list_elem_of_In.
  - apply list_elem_of_In. by apply IH.
Qed.


Lemma reachableApis_declared n : ∀ f x,
  x ∈ reachableApis n f → declaredBelow f x.
Proof.
  induction n as [|n IH]; intros f x Hx; simpl in Hx; [by apply elem_of_nil in Hx|].
  destruct (fs !! f) as [[|d i]|] eqn:Hf; try by apply elem_of_nil in Hx.
  apply elem_of_app in Hx as [Hx|Hx].
  - exists f, d, i. done.
  - apply list_elem_of_In, in_flat_map in Hx as (c & Hc & Hx).
    apply list_elem_of_In in Hc. apply list_elem_of_In in Hx.
    destruct (IH c x Hx) as (g & dg & ig & Hr & Hg & Hin).
    exists g, dg, ig. split; [|done].
    eapply rtc_l; [|done]. by exists d, i.
Qed.

Lemma fullApis_declared f x : x ∈ fullApis f ↔ declaredBelow f x.
Proof.
  split; [apply reachableApis_declared|].
  intros (g & dg & ig & Hr & Hg & Hx). by eapply fullApis_reaches.
Qed.


Lemma settled_initial : settled initial.
Proof. split; [apply consistent_initial|]. simpl. set_solver. Qed.

Lemma walk_settled E st a st' :
  settled st → walk fs E st = Some (a, st') →
  settled st' ∧ a = fullApis E ∧ cacheKept st st'
  ∧ ∀ h, rtc imports E h → isComponent h →
         is_Some (componentCache st' !! h).
Proof.
  intros [Hst Hstack] Hw. unfold walk in Hw.
  destruct (walk_acyclic _ _ _ _ _ _ Hst (λ g (H : g ∈ (∅ : gset string)),
              False_rect _ (not_elem_of_empty g H))
              (λ g H, or_introl (Hstack g H)) Hw) as (Hst' & -> & Hcached).
  split; [split; [done|]|].
  { intros g Hg. by destruct (walk_stack _ _ _ _ _ _ _ Hw g Hg) as [?%Hstack|?]. }
  split; [done|]. split; [by eapply walk_cache_mono|].
  intros h Hr Hh.
  assert (isComponent E) as HE.
  { apply rtc_inv in Hr as [->|(c & (d & i & ? & ?) & _)]; [done|by exists d, i]. }
  by apply (cached_closed _ Hst' E h); [apply Hcached| |].
Qed.


Lemma topLevel_settled st st' :
  topLevel st st' → settled st → settled st' ∧ cacheKept st st'.
Proof.
  induction 1 as [st|st E a st1 st2 Hw _ IH]; intros Hst.
  - split; [done|]. by intros ? ? ?.
  - destruct (walk_settled _ _ _ _ Hst Hw) as (Hst1 & _ & Hk & _).
    destruct (IH Hst1) as [Hst2 Hk2]. split; [done|].
    intros g m Hg. by apply Hk2, Hk.
Qed.

End Acyclic.

Lemma shop_acyclic : acyclic shop shopRank.
Proof.
  apply (bool_decide_unpack (map_Forall (importsBelow shopRank) shop)).
  vm_compute. reflexivity.
Qed.

(** C9 as the specification states it fails for a shared component whose
    read throws: nothing is memoized for it, and the pass over the two pages
    that import it reads it twice. *)
Lemma shared_failing_component_counterexample :
  acyclic shopBroken shopRank
  ∧ imports shopBroken "/app/src/views/cart.vue" "/app/src/components/Price.vue"
  ∧ imports shopBroken "/app/src/views/orders.vue" "/app/src/components/Price.vue"
  ∧ ∃ viewApiData st,
      Aggregator.collect "src/views" shopBroken
        ["/app/src/views/cart.vue"; "/app/src/views/orders.vue"]
      = Some (viewApiData, st)
      ∧ readCount "/app/src/components/Price.vue" st = 2.
Proof.
  split.
  { apply (bool_decide_unpack (map_Forall (importsBelow shopRank) shopBroken)).
    vm_compute. reflexivity. }
  split; [eexists _, _; split; [reflexivity|apply list_elem_of_here]|].
  split; [eexists _, _; split; [reflexivity|apply list_elem_of_here]|].
  eexists _, _. split; vm_compute; reflexivity.
Qed.

Lemma cycle_pair_walked_first_witness :
  cyclePair !! "/app/src/views/orders.vue"
  = Some (Component [getOrder] ["/app/src/components/OrderList.vue"])
  ∧ cyclePair !! "/app/src/components/OrderList.vue"
    = Some (Component [listOrders] ["/app/src/views/orders.vue"])
  ∧ ∃ apis st',
      walk cyclePair "/app/src/views/orders.vue" initial = Some (apis, st')
      ∧ [getOrder] ⊆ apis ∧ [listOrders] ⊆ apis
      ∧ componentCache st' !! "/app/src/views/orders.vue" = Some apis.
Proof.
  split; [reflexivity|]. split; [reflexivity|].
  apply (cycle_pair_walked_first cyclePair
           "/app/src/views/orders.vue" "/app/src/components/OrderList.vue"
           [getOrder] ["/app/src/components/OrderList.vue"]
           [listOrders] ["/app/src/views/orders.vue"] initial);
    try reflexivity; try apply list_elem_of_here; apply not_elem_of_empty.
Defined.

(** C1 as the specification states it fails when the component was reached
    before the entry: the pass walks [cart.vue] first, which memoizes
    [orders.vue] from inside the cycle, without what [OrderList.vue]
    declares; the walk of the entry [orders.vue] is then a cache hit, and
    the set recorded for it lacks the descriptor of [OrderList.vue]. *)
Lemma cycle_pair_counterexample :
  imports cyclePair "/app/src/views/orders.vue" "/app/src/components/OrderList.vue"
  ∧ imports cyclePair "/app/src/components/OrderList.vue" "/app/src/views/orders.vue"
  ∧ cyclePair !! "/app/src/components/OrderList.vue"
    = Some (Component [listOrders] ["/app/src/views/orders.vue"])
  ∧ ∃ viewApiData st,
      Aggregator.collect "src/views" cyclePair
        ["/app/src/views/cart.vue"; "/app/src/views/orders.vue"]
      = Some (viewApiData, st)
      ∧ componentCache st !! "/app/src/views/orders.vue" = Some [getOrder]
      ∧ Obj.get "orders" viewApiData = Some [("/", [Json.stringify getOrder])]
      ∧ listOrders ∉ [getOrder].
Proof.
  split; [eexists _, _; split; [reflexivity|apply list_elem_of_here]|].
  split; [eexists _, _; split; [reflexivity|apply list_elem_of_here]|].
  split; [reflexivity|].
  eexists _, _. split; [vm_compute; reflexivity|].
  split; [vm_compute; reflexivity|]. split; [vm_compute; reflexivity|].
  intros H. apply list_elem_of_singleton in H. discriminate H.
Qed.

End WalkerFacts.

(** * Properties of the JSON texts *)

Module JsonFacts.
Import Regex Json.

Lemma parseChars_escape a t :
  parseChars (escape a ++ t)
  = match parseChars t with
    | Some (s, r) => Some (a :: s, r)
    | None => None
    end.
Proof.
  destruct a as [[] [] [] [] [] [] [] []]; reflexivity.
Qed.

Lemma parseChars_quoted s r :
  parseChars (flat_map escape s ++ dquote :: r) = Some (s, r).
Proof.
  induction s as [|a s IH]; [done|].
  simpl. rewrite <- app_assoc, parseChars_escape, IH. done.
Qed.

Lemma parseString_quote s r :
  parseString (quote s ++ r) = Some (string_of_list_ascii s, r).
Proof.
  unfold quote. simpl. rewrite <- app_assoc. simpl.
  by rewrite parseChars_quoted.
Qed.

Lemma parseMember_member kv r :
  parseMember (member kv ++ r) = Some (kv, r).
Proof.
  destruct kv as [k v]. unfold parseMember, member. cbn [fst snd].
  rewrite <- app_assoc, (parseString_quote (list_ascii_of_string k)).
  cbn [app]. change (code ":" =? 58) with true. cbv iota.
  rewrite (parseString_quote (list_ascii_of_string v)).
  by rewrite !string_of_list_ascii_of_string.
Qed.


Lemma closing_cons kv fs :
  closing (kv :: fs) = ","%char :: member kv ++ closing fs.
Proof. unfold closing. simpl. by rewrite <- app_assoc. Qed.

Lemma members_closing kv fs :
  members (kv :: fs) ++ ["}"%char] = member kv ++ closing fs.
Proof.
  revert kv. induction fs as [|kv' fs IH]; intros kv; [done|].
  change (members (kv :: kv' :: fs)) with (member kv ++ ","%char :: members (kv' :: fs)).
  rewrite <- app_assoc. cbn [app]. by rewrite IH, closing_cons.
Qed.

Lemma parseMore_closing fs : ∀ n, length fs < n →
  parseMore n (closing fs) = Some fs.
Proof.
  induction fs as [|kv fs IH]; intros n Hn; (destruct n as [|n]; [lia|]).
  - reflexivity.
  - rewrite closing_cons. cbn [parseMore].
    destruct (member kv ++ closing fs) as [|b t] eqn:E.
    { destruct kv; discriminate E. }
    rewrite <- E. change (code "," =? 44) with true. cbv iota.
    rewrite parseMember_member, IH by (simpl in Hn; lia). done.
Qed.

(** [JSON.parse] gives back the object [JSON.stringify] was given. *)
Lemma parse_stringify fs : parseFields (stringifyFields fs) = Some fs.
Proof.
  unfold parseFields, stringifyFields.
  rewrite list_ascii_of_string_of_list_ascii.
  destruct fs as [|kv fs]; [reflexivity|].
  rewrite members_closing.
  destruct (member kv ++ closing fs) as [|b t] eqn:E.
  { destruct kv; discriminate E. }
  assert (b = dquote) as -> by (destruct kv; by injection E).
  change (code "{" =? 123) with true. change (code dquote =? 125) with false.
  cbv iota. simpl andb. cbv iota. rewrite <- E, parseMember_member.
  rewrite parseMore_closing; [done|].
  unfold closing. rewrite length_app. simpl.
  clear. induction fs as [|x fs IH]; simpl; [lia|].
  rewrite length_app. lia.
Qed.

Lemma apiFields_inj a b : apiFields a = apiFields b → a = b.
Proof.
  destruct a as [u m [f|]], b as [u' m' [f'|]]; unfold apiFields; simpl;
    intros H; try discriminate H; injection H; intros; by subst.
Qed.

Lemma stringify_inj a b : stringify a = stringify b → a = b.
Proof.
  intros H. apply apiFields_inj.
  assert (Some (apiFields a) = Some (apiFields b)) as Heq
    by (rewrite <- !parse_stringify; unfold stringify in H; by rewrite H).
  congruence.
Qed.

End JsonFacts.

(** * Properties of the aggregation *)

Module ObjFacts.
Import Obj.

Section Facts.
Context {V : Type}.
Implicit Types (o : list (string * V)) (k : string).

Lemma get_set_eq k x o : get k (set k x o) = Some x.
Proof.
  induction o as [|[k' v'] o IH]; simpl.
  - by rewrite decide_True.
  - destruct (decide (k' = k)) as [->|Hne]; simpl.
    + by rewrite decide_True.
    + by rewrite decide_False.
Qed.

Lemma get_set_ne k k' x o : k' ≠ k → get k' (set k x o) = get k' o.
Proof.
  intros Hne. induction o as [|[k0 v0] o IH]; simpl.
  - by rewrite decide_False.
  - destruct (decide (k0 = k)) as [->|Hk]; simpl.
    + by rewrite !decide_False.
    + destruct (decide (k0 = k')); [done|apply IH].
Qed.

Lemma set_Forall (P : string * V → Prop) k x o :
  Forall P o → P (k, x) → Forall P (set k x o).
Proof.
  intros Ho Hx. induction Ho as [|[k' v'] o Hk Ho IH]; simpl.
  - by constructor.
  - destruct (decide (k' = k)); constructor; done.
Qed.

Lemma get_elem k x o : get k o = Some x → (k, x) ∈ o.
Proof.
  induction o as [|[k' v'] o IH]; simpl; [done|].
  destruct (decide (k' = k)) as [->|Hne].
  - intros [= ->]. by left.
  - intros H. right. by apply IH.
Qed.

Lemma get_Forall (P : string * V → Prop) k x o :
  Forall P o → get k o = Some x → P (k, x).
Proof.
  intros Ho Hg. rewrite Forall_forall in Ho. by apply Ho, get_elem.
Qed.

Lemma get_is_Some k o : is_Some (get k o) ↔ k ∈ map fst o.
Proof.
  induction o as [|[k' v'] o IH]; simpl.
  - split; [by intros [? ?]|by intros ?%elem_of_nil].
  - destruct (decide (k' = k)) as [->|Hne].
    + split; [intros _; by left|eauto].
    + rewrite IH. split; [by right|]. intros [?|?]%elem_of_cons; [congruence|done].
Qed.

Lemma insertIndex_elem n k (l : list (N * string)) x :
  x ∈ insertIndex n k l ↔ x = (n, k) ∨ x ∈ l.
Proof.
  induction l as [|[m k'] l IH]; simpl.
  - rewrite list_elem_of_singleton. set_solver.
  - destruct (n <? m)%N.
    + by rewrite elem_of_cons.
    + rewrite !elem_of_cons, IH. tauto.
Qed.

Lemma keys_elem k o : k ∈ keys o ↔ k ∈ map fst o.
Proof.
  unfold keys. rewrite elem_of_app. induction o as [|[k' v'] o IH]; simpl.
  - rewrite !elem_of_nil. tauto.
  - rewrite elem_of_cons, <- IH. clear IH.
    destruct (arrayIndex k') as [n|] eqn:E.
    + rewrite !list_elem_of_fmap. split.
      * intros [([m k2] & -> & Hin)|?]; [|tauto].
        apply insertIndex_elem in Hin as [[= -> ->]|Hin]; [by left|].
        right. left. by exists (m, k2).
      * intros [->|[([m k2] & -> & Hin)|?]].
        -- left. exists (n, k'). split; [done|]. apply insertIndex_elem. by left.
        -- left. exists (m, k2). split; [done|]. apply insertIndex_elem. by right.
        -- by right.
    + rewrite elem_of_cons. tauto.
Qed.

Lemma keys_get k o : k ∈ keys o ↔ is_Some (get k o).
Proof. by rewrite keys_elem, get_is_Some. Qed.

Lemma keys_nonempty o : o ≠ [] → keys o ≠ [].
Proof.
  destruct o as [|[k v] o]; [done|]. intros _ Hnil.
  assert (k ∈ keys ((k, v) :: o)) as Hin by (apply keys_elem; by left).
  rewrite Hnil in Hin. by apply elem_of_nil in Hin.
Qed.

End Facts.
End ObjFacts.

Module SortFacts.
Import Json Aggregator.

Section Sorting.
Variable localeCompare : string → string → Z.

(** The comparator is total: of two texts one does not come after the
    other. *)
Hypothesis compare_total :
  ∀ a b, (localeCompare a b ≤ 0)%Z ∨ (localeCompare b a ≤ 0)%Z.


Local Abbreviation insertSorted := (Aggregator.insertSorted localeCompare).
Local Abbreviation stableSort := (Aggregator.stableSort localeCompare).
Local Abbreviation sortByUrl := (Aggregator.sortByUrl localeCompare).
Local Abbreviation byUrl := (Aggregator.byUrl localeCompare).

Lemma insertSorted_perm a l : insertSorted a l ≡ₚ a :: l.
Proof.
  induction l as [|b l IH]; simpl; [done|].
  destruct (before localeCompare a b); [done|].
  rewrite IH. apply Permutation_swap.
Qed.

Lemma stableSort_perm l : stableSort l ≡ₚ l.
Proof.
  induction l as [|a l IH]; simpl; [done|].
  by rewrite insertSorted_perm, IH.
Qed.

Lemma insertSorted_sorted a l :
  Sorted byUrl l → Sorted byUrl (insertSorted a l).
Proof.
  induction 1 as [|b l Hl IH Hb]; simpl.
  - by repeat constructor.
  - unfold before. destruct (Z.leb_spec (localeCompare (urlOf a) (urlOf b)) 0).
    + constructor; [by constructor|]. by constructor.
    + constructor; [done|].
      assert (byUrl b a) as Hba.
      { unfold Aggregator.byUrl. destruct (compare_total (urlOf a) (urlOf b)); [lia|done]. }
      destruct Hb as [|c l Hbc]; simpl.
      * by constructor.
      * unfold before.
        destruct (Z.leb_spec (localeCompare (urlOf a) (urlOf c)) 0);
          by constructor.
Qed.

Lemma stableSort_sorted l : Sorted byUrl (stableSort l).
Proof.
  induction l as [|a l IH]; simpl; [constructor|]. by apply insertSorted_sorted.
Qed.

(** The sort is stable: the entries of one url keep their order. *)
Lemma insertSorted_filter u a l :
  filter (λ o, urlOf o = u) (insertSorted a l)
  = filter (λ o, urlOf o = u) (a :: l).
Proof.
  induction l as [|b l IH]; simpl; [done|].
  unfold before. destruct (Z.leb_spec (localeCompare (urlOf a) (urlOf b)) 0) as [Hle|Hgt];
    [done|].
  rewrite (filter_cons _ b), IH, !filter_cons.
  destruct (decide (urlOf b = u)) as [Hb|Hb], (decide (urlOf a = u)) as [Ha|Ha];
    try done.
  exfalso. rewrite Ha, Hb in Hgt. destruct (compare_total u u); lia.
Qed.

Lemma stableSort_filter u l :
  filter (λ o, urlOf o = u) (stableSort l) = filter (λ o, urlOf o = u) l.
Proof.
  induction l as [|a l IH]; simpl; [done|].
  by rewrite insertSorted_filter, !filter_cons, IH.
Qed.

Lemma sortByUrl_stable u l arr :
  sortByUrl l = Some arr →
  filter (λ o, urlOf o = u) arr = filter (λ o, urlOf o = u) l.
Proof.
  unfold Aggregator.sortByUrl. destruct l as [|a [|b l]]; try by intros [= <-].
  destruct (forallb hasUrl (a :: b :: l)); [|done]. intros [= <-].
  apply (stableSort_filter u (a :: b :: l)).
Qed.

Lemma sortByUrl_spec l arr :
  sortByUrl l = Some arr → arr ≡ₚ l ∧ Sorted byUrl arr.
Proof.
  unfold Aggregator.sortByUrl. destruct l as [|a [|b l]].
  - intros [= <-]. split; [done|constructor].
  - intros [= <-]. split; [done|]. by repeat constructor.
  - destruct (forallb hasUrl (a :: b :: l)); [|done]. intros [= <-].
    split; [apply (stableSort_perm (a :: b :: l))
           |apply (stableSort_sorted (a :: b :: l))].
Qed.

End Sorting.
End SortFacts.

Module AggFacts.
Import Regex Json Walker Aggregator WalkerFacts JsonFacts ObjFacts SortFacts.


Lemma split_first_no_sep sep l : sep ∉ fst (split sep l).
Proof.
  induction l as [|a l IH]; simpl; [apply not_elem_of_nil|].
  destruct (split sep l) as [first more]. simpl in IH.
  destruct (Ascii.eqb_spec a sep) as [->|Hne]; simpl; [apply not_elem_of_nil|].
  intros [?|?]%elem_of_cons; [congruence|done].
Qed.

Lemma str_inj a b : str a = str b → a = b.
Proof.
  unfold str. intros H.
  by rewrite <- (list_ascii_of_string_of_list_ascii a),
             <- (list_ascii_of_string_of_list_ascii b), H.
Qed.

(** A file of the category [/] is on the page [/]. *)
Lemma labels_root viewsDir filePath p :
  labels viewsDir filePath = Some ("/", p) → p = "/".
Proof.
  unfold labels.
  destruct (exec _ _) as [viewsMatch|]; [|done].
  destruct (group 1 _) as [m|]; [|done].
  pose proof (split_first_no_sep "/" (map (fun a => if Ascii.eqb a backslash then "/"%char else a) m)) as Hno.
  destruct (split "/" _) as [top [|second [|third more]]]; simpl in Hno.
  - destruct (decide _); intros H; by simplify_eq.
  - intros H. injection H as Hc Hp. by rewrite <- Hp.
  - intros H. injection H as Hc Hp. exfalso. apply Hno.
    change "/" with (str ["/"%char]) in Hc. apply str_inj in Hc as ->. by left.
Qed.

Lemma setAdd_elem x y s : y ∈ setAdd x s ↔ y = x ∨ y ∈ s.
Proof.
  unfold setAdd. destruct (decide (x ∈ s)).
  - split; [by right|]. by intros [->|?].
  - rewrite elem_of_app, list_elem_of_singleton. tauto.
Qed.

Lemma setAdd_NoDup x s : NoDup s → NoDup (setAdd x s).
Proof.
  intros H. unfold setAdd. destruct (decide (x ∈ s)); [done|].
  apply NoDup_app. split; [done|]. split; [|apply NoDup_singleton].
  intros y Hy ->%list_elem_of_singleton. done.
Qed.

Lemma addAll_elem apis : ∀ s y,
  y ∈ addAll apis s ↔ (∃ api, api ∈ apis ∧ y = stringify api) ∨ y ∈ s.
Proof.
  unfold addAll. induction apis as [|a apis IH]; intros s y; simpl.
  - split; [by right|]. intros [(api & ?%elem_of_nil & _)|?]; done.
  - rewrite IH, setAdd_elem. split.
    + intros [(api & ? & ?)|[->|?]].
      * left. exists api. split; [by right|done].
      * left. exists a. split; [by left|done].
      * by right.
    + intros [(api & [->|?]%elem_of_cons & ->)|?].
      * right. by left.
      * left. by exists api.
      * right. by right.
Qed.

Lemma addAll_NoDup apis : ∀ s, NoDup s → NoDup (addAll apis s).
Proof.
  unfold addAll. induction apis as [|a apis IH]; intros s H; simpl; [done|].
  by apply IH, setAdd_NoDup.
Qed.

Lemma addAll_wfSet apis s :
  apis ≠ [] → (s = [] ∨ wfSet s) → wfSet (addAll apis s).
Proof.
  intros Hne Hs. split; [|split].
  - destruct apis as [|a apis]; [done|]. intros Hnil.
    assert (stringify a ∈ addAll (a :: apis) s) as Hin
      by (apply addAll_elem; left; exists a; split; [by left|done]).
    rewrite Hnil in Hin. by apply elem_of_nil in Hin.
  - apply addAll_NoDup. destruct Hs as [->|(_ & ? & _)]; [constructor|done].
  - apply Forall_forall. intros y [(api & _ & ->)|Hy]%addAll_elem; [by exists api|].
    destruct Hs as [->|(_ & _ & Hall)]; [by apply elem_of_nil in Hy|].
    rewrite Forall_forall in Hall. by apply Hall.
Qed.

Section Pass.
Variable viewsDir : string.
Variable fs : FileSystem.

Local Abbreviation labels := (Aggregator.labels viewsDir).
Local Abbreviation processFileWithConfig :=
  (Aggregator.processFileWithConfig viewsDir fs).
Local Abbreviation forEachFile := (Aggregator.forEachFile viewsDir fs).
Local Abbreviation collect := (Aggregator.collect viewsDir fs).


Lemma processFile_cases filePath v st v' st' :
  processFileWithConfig filePath (v, st) = Some (v', st') →
  (labels filePath = None ∧ v' = v ∧ st' = st)
  ∨ ∃ c p apis,
      labels filePath = Some (c, p)
      ∧ walk fs filePath st = Some (apis, st')
      ∧ ((apis = [] ∧ v' = v) ∨ (apis ≠ [] ∧ v' = stored c p apis v)).
Proof.
  unfold Aggregator.processFileWithConfig.
  destruct (labels filePath) as [[c p]|]; [|intros [= <- <-]; by left].
  destruct (walk fs filePath st) as [[apis st1]|]; [|done].
  intros H. right. exists c, p, apis. split; [done|].
  destruct apis as [|a apis]; injection H as <- <-; (split; [done|]).
  - by left.
  - by right.
Qed.

Lemma processFile_returns filePath v st :
  ∃ v' st', processFileWithConfig filePath (v, st) = Some (v', st').
Proof.
  unfold Aggregator.processFileWithConfig.
  destruct (labels filePath) as [[c p]|]; [|by eexists _, _].
  destruct (walk_returns fs filePath st) as (apis & st' & ->).
  destruct apis; by eexists _, _.
Qed.

Lemma forEachFile_cons f files state :
  forEachFile (f :: files) state
  = match processFileWithConfig f state with
    | Some state' => forEachFile files state'
    | None => None
    end.
Proof. reflexivity. Qed.

Lemma forEachFile_returns files : ∀ v st,
  ∃ v' st', forEachFile files (v, st) = Some (v', st').
Proof.
  induction files as [|f files IH]; intros v st; [by eexists _, _|].
  rewrite forEachFile_cons.
  destruct (processFile_returns f v st) as (v1 & st1 & ->). apply IH.
Qed.

Lemma forEachFile_app files1 files2 state :
  forEachFile (files1 ++ files2) state
  = match forEachFile files1 state with
    | Some state' => forEachFile files2 state'
    | None => None
    end.
Proof.
  revert state. induction files1 as [|f files1 IH]; intros state; [done|].
  rewrite <- app_comm_cons, !forEachFile_cons.
  destruct (processFileWithConfig f state); [apply IH|done].
Qed.

Lemma set_nonempty {V} k (x : V) o : Obj.set k x o ≠ [].
Proof. destruct o as [|[k' v'] o]; simpl; [done|]. by destruct (decide (k' = k)). Qed.

Lemma stored_wf c p apis v :
  wfData v → apis ≠ [] → (c = "/" → p = "/") → wfData (stored c p apis v).
Proof.
  intros Hv Hne Hroot. unfold stored.
  set (pages := default [] (Obj.get c v)).
  assert (Forall (λ ps, wfSet (snd ps) ∧ (c = "/" → fst ps = "/")) pages) as Hpages.
  { unfold pages. destruct (Obj.get c v) as [pages0|] eqn:E; simpl; [|constructor].
    by destruct (get_Forall _ _ _ _ Hv E). }
  apply set_Forall; [done|]. split; [apply set_nonempty|].
  apply set_Forall; [done|]. split; [|done]. simpl.
  apply addAll_wfSet; [done|].
  destruct (Obj.get p pages) as [s|] eqn:E; simpl; [right|by left].
  by destruct (get_Forall _ _ _ _ Hpages E).
Qed.

Lemma stored_holds c p apis v c' p' t :
  holds v c' p' t → holds (stored c p apis v) c' p' t.
Proof.
  intros (pages & s & Hc & Hp & Ht). unfold holds, stored.
  destruct (decide (c' = c)) as [->|Hnc].
  - rewrite get_set_eq, Hc. simpl.
    destruct (decide (p' = p)) as [->|Hnp].
    + rewrite Hp. simpl. eexists _, _. split; [done|]. rewrite get_set_eq.
      split; [done|]. apply addAll_elem. by right.
    + eexists _, _. split; [done|]. rewrite get_set_ne by done. done.
  - rewrite get_set_ne by done. by exists pages, s.
Qed.

Lemma stored_records c p apis v d :
  d ∈ apis → holds (stored c p apis v) c p (stringify d).
Proof.
  intros Hd. unfold holds, stored. rewrite get_set_eq.
  eexists _, _. split; [done|]. rewrite get_set_eq. split; [done|].
  apply addAll_elem. left. by exists d.
Qed.

Lemma processFile_wf filePath v st v' st' :
  wfData v → processFileWithConfig filePath (v, st) = Some (v', st') →
  wfData v'.
Proof.
  intros Hv [(_ & -> & _)|(c & p & apis & Hl & _ & [[_ ->]|[Hne ->]])]%processFile_cases;
    try done.
  apply stored_wf; [done|done|]. intros ->. by eapply labels_root.
Qed.

Lemma processFile_holds filePath v st v' st' c p t :
  holds v c p t → processFileWithConfig filePath (v, st) = Some (v', st') →
  holds v' c p t.
Proof.
  intros Hv [(_ & -> & _)|(c0 & p0 & apis & Hl & _ & [[_ ->]|[Hne ->]])]%processFile_cases;
    try done.
  by apply stored_holds.
Qed.

Lemma forEachFile_wf files : ∀ v st v' st',
  wfData v → forEachFile files (v, st) = Some (v', st') → wfData v'.
Proof.
  induction files as [|f files IH]; intros v st v' st' Hv;
    [by intros [= <- <-]|rewrite forEachFile_cons].
  - destruct (processFileWithConfig f (v, st)) as [[v1 st1]|] eqn:E; [|done].
    apply IH. by eapply processFile_wf.
Qed.

Lemma forEachFile_holds files : ∀ v st v' st' c p t,
  holds v c p t → forEachFile files (v, st) = Some (v', st') → holds v' c p t.
Proof.
  induction files as [|f files IH]; intros v st v' st' c p t Hv;
    [by intros [= <- <-]|rewrite forEachFile_cons].
  - destruct (processFileWithConfig f (v, st)) as [[v1 st1]|] eqn:E; [|done].
    apply IH. by eapply processFile_holds.
Qed.

Lemma forEachFile_topLevel files : ∀ v st v' st',
  forEachFile files (v, st) = Some (v', st') → topLevel fs st st'.
Proof.
  induction files as [|f files IH]; intros v st v' st';
    [intros [= <- <-]; apply top_done|rewrite forEachFile_cons].
  - destruct (processFileWithConfig f (v, st)) as [[v1 st1]|] eqn:E; [|done].
    intros Hrest. apply IH in Hrest.
    apply processFile_cases in E as [(_ & _ & ->)|(c & p & apis & _ & Hw & _)];
      [done|by eapply top_walk].
Qed.

End Pass.

Section Output.
Variable localeCompare : string → string → Z.

Local Abbreviation sortByUrl := (Aggregator.sortByUrl localeCompare).
Local Abbreviation sortedApis := (Aggregator.sortedApis localeCompare).
Local Abbreviation nestedPages := (Aggregator.nestedPages localeCompare).
Local Abbreviation categoryOutput := (Aggregator.categoryOutput localeCompare).
Local Abbreviation outputOf := (Aggregator.outputOf localeCompare).
Local Abbreviation generateApiFile := (Aggregator.generateApiFile localeCompare).
Local Abbreviation fromSet := (Aggregator.fromSet localeCompare).
Local Abbreviation fromData := (Aggregator.fromData localeCompare).

Lemma parseAll_stringify l : parseAll (map stringify l) = Some (map apiFields l).
Proof.
  induction l as [|a l IH]; simpl; [done|].
  unfold stringify at 1. by rewrite parse_stringify, IH.
Qed.

Lemma texts_of_apis s :
  Forall (λ t, ∃ api, t = stringify api) s → ∃ l, s = map stringify l.
Proof.
  induction 1 as [|t s [a ->] _ [l ->]]; [by exists []|]. by exists (a :: l).
Qed.

Lemma hasUrl_apiFields l : forallb hasUrl (map apiFields l) = true.
Proof. induction l as [|a l IH]; simpl; [done|]. by rewrite IH. Qed.

Lemma sortByUrl_perm l arr : sortByUrl l = Some arr → arr ≡ₚ l.
Proof.
  unfold Aggregator.sortByUrl. destruct l as [|a [|b l]]; try by intros [= <-].
  destruct (forallb hasUrl (a :: b :: l)); [|done]. intros [= <-].
  apply (stableSort_perm localeCompare (a :: b :: l)).
Qed.

(** The array of a set: the objects of its texts, each once. *)
Lemma sortedApis_wf s :
  wfSet s →
  ∃ l arr, s = map stringify l ∧ sortedApis s = Some arr
           ∧ arr ≡ₚ map apiFields l ∧ NoDup arr ∧ arr ≠ [].
Proof.
  intros (Hne & Hnd & Hall). destruct (texts_of_apis _ Hall) as [l ->].
  assert (∃ arr, sortByUrl (map apiFields l) = Some arr) as [arr Harr].
  { unfold Aggregator.sortByUrl.
    destruct (map apiFields l) as [|a [|b t]] eqn:E; [by eexists..|].
    rewrite <- E, hasUrl_apiFields. by eexists. }
  exists l, arr. split; [done|].
  unfold Aggregator.sortedApis. rewrite parseAll_stringify.
  split; [done|]. pose proof (sortByUrl_perm _ _ Harr) as Hperm.
  split; [done|]. split.
  - rewrite Hperm. apply (NoDup_fmap_1 stringify) in Hnd.
    apply NoDup_fmap_2; [|done]. intros a b. apply apiFields_inj.
  - intros ->. apply Permutation_nil_l in Hperm.
    destruct l; [by apply Hne|done].
Qed.



Lemma nestedPages_spec pages : ∀ pageKeys,
  (∀ k, k ∈ pageKeys → ∃ s, Obj.get k pages = Some s ∧ wfSet s) →
  ∃ out, nestedPages pages pageKeys = Some out
         ∧ (∀ arr, arr ∈ map snd out → fromSet pages arr)
         ∧ ∀ p s, p ∈ pageKeys → Obj.get p pages = Some s →
                  Obj.get p out = sortedApis s.
Proof.
  induction pageKeys as [|k pageKeys IH]; intros Hk; simpl.
  - exists []. split; [done|]. split; [by intros ? ?%elem_of_nil|].
    by intros ? ? ?%elem_of_nil.
  - destruct (Hk k) as (s & Hs & Hwf); [by left|]. rewrite Hs.
    destruct (sortedApis_wf s Hwf) as (l & arr & _ & Harr & _).
    rewrite Harr.
    destruct IH as (out & -> & Harrs & Hget); [intros; apply Hk; by right|].
    exists ((k, arr) :: out). split; [done|]. split.
    + intros a [->|?]%elem_of_cons; [by exists k, s|by apply Harrs].
    + intros p s' Hp Hs'. simpl. destruct (decide (k = p)) as [->|Hne].
      * rewrite Hs in Hs'. by injection Hs' as <-.
      * apply elem_of_cons in Hp as [->|Hp]; [done|by apply Hget].
Qed.

Lemma pages_keys c pages k :
  wfPages c pages → k ∈ Obj.keys pages →
  ∃ s, Obj.get k pages = Some s ∧ wfSet s.
Proof.
  intros [_ Hall] [s Hs]%keys_get. exists s. split; [done|].
  by destruct (get_Forall _ _ _ _ Hall Hs).
Qed.

Lemma categoryOutput_spec c pages :
  wfPages c pages →
  ∃ o, categoryOutput c pages = Some o
       ∧ (∀ arr, arr ∈ arraysOf o → fromSet pages arr)
       ∧ ∀ p s, Obj.get p pages = Some s → arrayOf o p = sortedApis s.
Proof.
  intros Hwf. unfold Aggregator.categoryOutput.
  destruct (shouldFlatten c (Obj.keys pages)) eqn:Hflat.
  - destruct (Obj.keys pages) as [|p0 rest] eqn:Hkeys.
    { by destruct (keys_nonempty pages (proj1 Hwf)). }
    destruct (pages_keys c pages p0 Hwf) as (s0 & Hs0 & Hwf0);
      [rewrite Hkeys; by left|].
    rewrite Hs0. destruct (sortedApis_wf s0 Hwf0) as (l & arr & _ & Harr & _).
    rewrite Harr. exists (Flat arr). split; [done|]. split.
    + intros a ->%list_elem_of_singleton. by exists p0, s0.
    + intros p s Hs. simpl. rewrite <- Harr.
      assert (p = p0) as ->; [|by rewrite Hs in Hs0; injection Hs0 as ->].
      assert (p ∈ p0 :: rest) as Hp by (rewrite <- Hkeys; apply keys_get; eauto).
      unfold shouldFlatten in Hflat.
      apply orb_true_iff in Hflat as [[Hroot|Hone]%orb_true_iff|Hone].
      * apply bool_decide_eq_true in Hroot.
        destruct Hwf as [_ Hall].
        destruct (get_Forall _ _ _ _ Hall Hs) as [_ Hp1].
        destruct (get_Forall _ _ _ _ Hall Hs0) as [_ Hp2].
        simpl in *. by rewrite Hp1, Hp2.
      * apply bool_decide_eq_true in Hone. injection Hone as -> ->.
        by apply list_elem_of_singleton in Hp.
      * apply bool_decide_eq_true in Hone. injection Hone as -> ->.
        by apply list_elem_of_singleton in Hp.
  - destruct (nestedPages_spec pages (Obj.keys pages))
      as (out & -> & Harrs & Hget); [intros; by eapply pages_keys|].
    exists (Nested out). split; [done|]. split; [done|].
    intros p s Hs. simpl. apply Hget; [|done]. apply keys_get. eauto.
Qed.


Lemma outputOf_spec v : wfData v → ∀ cats,
  (∀ c, c ∈ cats → is_Some (Obj.get c v)) →
  ∃ out, outputOf v cats = Some out
         ∧ (∀ arr, arr ∈ outputArrays out → fromData v arr)
         ∧ ∀ c pages, c ∈ cats → Obj.get c v = Some pages →
             ∃ o, Obj.get c out = Some o ∧ categoryOutput c pages = Some o.
Proof.
  intros Hv. induction cats as [|c cats IH]; intros Hc; simpl.
  - exists []. split; [done|]. split; [by intros ? ?%elem_of_nil|].
    by intros ? ? ?%elem_of_nil.
  - destruct (Hc c) as [pages Hpages]; [by left|]. rewrite Hpages.
    pose proof (get_Forall _ _ _ _ Hv Hpages) as Hwf. simpl in Hwf.
    destruct (categoryOutput_spec c pages Hwf) as (o & Ho & Harrs & _).
    rewrite Ho.
    destruct IH as (out & -> & Houts & Hget); [intros; apply Hc; by right|].
    exists ((c, o) :: out). split; [done|]. split.
    + intros arr Harr. unfold outputArrays in Harr. simpl in Harr.
      apply elem_of_app in Harr as [Harr|Harr].
      * exists c, pages. split; [done|]. by apply Harrs.
      * by apply Houts.
    + intros c' pages' Hc' Hp'. simpl. destruct (decide (c = c')) as [->|Hne].
      * rewrite Hpages in Hp'. injection Hp' as <-. by exists o.
      * apply elem_of_cons in Hc' as [->|Hc']; [done|by apply Hget].
Qed.

(** [generateApiFile] on what a pass collects: it returns, every array comes
    from a set, and the array of a category and a page is the sorted set. *)
Lemma generateApiFile_spec v :
  wfData v →
  ∃ out, generateApiFile v = Some out
         ∧ (∀ arr, arr ∈ outputArrays out → fromData v arr)
         ∧ ∀ c p pages s, Obj.get c v = Some pages → Obj.get p pages = Some s →
             outputArray out c p = sortedApis s.
Proof.
  intros Hv. unfold Aggregator.generateApiFile.
  destruct (outputOf_spec v Hv (Obj.keys v)) as (out & Hout & Harrs & Hget).
  { intros c. apply keys_get. }
  exists out. split; [done|]. split; [done|].
  intros c p pages s Hc Hp.
  destruct (Hget c pages) as (o & Ho & Hcat); [apply keys_get; eauto|done|].
  pose proof (get_Forall _ _ _ _ Hv Hc) as Hwf. simpl in Hwf.
  destruct (categoryOutput_spec c pages Hwf) as (o' & Ho' & _ & Harr).
  rewrite Hcat in Ho'. injection Ho' as <-.
  unfold outputArray. rewrite Ho. rewrite <- (Harr p s Hp). by destruct o.
Qed.

End Output.

Import Scenarios.

(** C3, as the code has it.  The comparator of the sort reads [url] only:
    every array of the output of a pass, flat or nested, is non-decreasing
    by [url] in the order [localeCompare] decides (taken to be total).
    Nothing orders the entries of one [url] by [method]: the array is the
    stable sort of a set of [viewApiData], and entries with the same [url]
    stand in the order in which the set received them. *)
Theorem output_sorted_by_url viewsDir localeCompare fs files :
  (∀ a b, (localeCompare a b ≤ 0)%Z ∨ (localeCompare b a ≤ 0)%Z) →
  ∃ viewApiData st out,
    collect viewsDir fs files = Some (viewApiData, st)
    ∧ buildStart viewsDir localeCompare fs files = Some out
    ∧ ∀ arr, arr ∈ outputArrays out →
        Sorted (byUrl localeCompare) arr
        ∧ ∃ c pages p s,
            Obj.get c viewApiData = Some pages ∧ Obj.get p pages = Some s
            ∧ inSetOrder s arr.
Proof.
  intros Htotal. unfold buildStart, collect.
  destruct (forEachFile_returns viewsDir fs files [] initial) as (v & st & Hrun).
  rewrite Hrun.
  assert (wfData v) as Hv by (eapply forEachFile_wf; [|done]; constructor).
  destruct (generateApiFile_spec localeCompare v Hv) as (out & Hout & Harrs & _).
  exists v, st, out. split; [done|]. split; [done|]. intros arr Harr.
  destruct (Harrs arr Harr) as (c & pages & Hc & p & s & Hp & _ & Hs).
  unfold sortedApis in Hs. destruct (parseAll s) as [l|] eqn:Hl; [|done].
  split; [by destruct (sortByUrl_spec localeCompare Htotal l arr Hs)|].
  exists c, pages, p, s. split; [done|]. split; [done|].
  exists l. split; [done|]. intros u.
  by apply (sortByUrl_stable localeCompare Htotal).
Qed.

Lemma compareCodeUnits_total a b :
  (compareCodeUnits a b ≤ 0)%Z ∨ (compareCodeUnits b a ≤ 0)%Z.
Proof.
  unfold compareCodeUnits. rewrite (String.compare_antisym a b).
  destruct (String.compare b a); simpl; lia.
Qed.

Lemma output_sorted_by_url_witness :
  (∀ a b, (compareCodeUnits a b ≤ 0)%Z ∨ (compareCodeUnits b a ≤ 0)%Z)
  ∧ ∃ viewApiData st out,
      collect "src/views" cyclePair
        ["/app/src/views/cart.vue"; "/app/src/views/orders.vue"]
      = Some (viewApiData, st)
      ∧ buildStart "src/views" compareCodeUnits cyclePair
          ["/app/src/views/cart.vue"; "/app/src/views/orders.vue"] = Some out
      ∧ ∀ arr, arr ∈ outputArrays out →
          Sorted (byUrl compareCodeUnits) arr
          ∧ ∃ c pages p s,
              Obj.get c viewApiData = Some pages ∧ Obj.get p pages = Some s
              ∧ inSetOrder s arr.
Proof.
  split; [exact compareCodeUnits_total|].
  apply (output_sorted_by_url "src/views" compareCodeUnits cyclePair
           ["/app/src/views/cart.vue"; "/app/src/views/orders.vue"]).
  exact compareCodeUnits_total.
Defined.

(** C3 as the specification states it fails: the two entries of the array
    have the same [url], and [POST] stands before [GET]. *)
Lemma method_order_counterexample :
  buildStart "src/views" compareCodeUnits carPage ["/app/src/views/car.vue"]
  = Some [("car", Flat [apiFields saveCar; apiFields getCar])]
  ∧ url saveCar = url getCar
  ∧ (compareCodeUnits (method saveCar) (method getCar) > 0)%Z.
Proof. split; [vm_compute; reflexivity|]. split; reflexivity. Qed.




(** C10.  A file under the views directory whose walk yields no descriptor
    leaves [viewApiData] as it was, so no category or page is created for
    it; and no array of the output of the pass is empty. *)
Theorem empty_walk_leaves_no_entry viewsDir localeCompare fs
  before E after v0 st0 st1 c p :
  forEachFile viewsDir fs before ([], initial) = Some (v0, st0) →
  labels viewsDir E = Some (c, p) →
  walk fs E st0 = Some ([], st1) →
  processFileWithConfig viewsDir fs E (v0, st0) = Some (v0, st1)
  ∧ ∃ out,
      buildStart viewsDir localeCompare fs (before ++ E :: after) = Some out
      ∧ ∀ arr, arr ∈ outputArrays out → arr ≠ [].
Proof.
  intros Hbefore Hl Hw.
  assert (processFileWithConfig viewsDir fs E (v0, st0) = Some (v0, st1)) as HE
    by (unfold processFileWithConfig; by rewrite Hl, Hw).
  split; [done|]. unfold buildStart, collect.
  destruct (forEachFile_returns viewsDir fs (before ++ E :: after) [] initial)
    as (v & st & Hrun).
  rewrite Hrun.
  assert (wfData v) as Hv by (eapply forEachFile_wf; [|done]; constructor).
  destruct (generateApiFile_spec localeCompare v Hv) as (out & Hout & Harrs & _).
  exists out. split; [done|]. intros arr Harr.
  destruct (Harrs arr Harr) as (c' & pages & _ & p' & s & _ & Hs & Hsorted).
  destruct (sortedApis_wf localeCompare s Hs) as (l & arr' & _ & Harr' & _ & _ & Hne).
  rewrite Hsorted in Harr'. by injection Harr' as <-.
Qed.

Lemma empty_walk_leaves_no_entry_witness :
  forEachFile "src/views" quietPage ["/app/src/views/car.vue"] ([], initial)
  = Some ([("car", [("/", [stringify saveCar; stringify getCar])])],
          mkState (<["/app/src/views/car.vue" := [saveCar; getCar]]> ∅) ∅
                  ["/app/src/views/car.vue"])
  ∧ processFileWithConfig "src/views" quietPage "/app/src/views/about.vue"
      ([("car", [("/", [stringify saveCar; stringify getCar])])],
       mkState (<["/app/src/views/car.vue" := [saveCar; getCar]]> ∅) ∅
               ["/app/src/views/car.vue"])
    = Some ([("car", [("/", [stringify saveCar; stringify getCar])])],
            mkState (<["/app/src/views/about.vue" := []]>
                       (<["/app/src/views/car.vue" := [saveCar; getCar]]> ∅)) ∅
                    ["/app/src/views/car.vue"; "/app/src/views/about.vue"])
  ∧ ∃ out,
      buildStart "src/views" compareCodeUnits quietPage
        (["/app/src/views/car.vue"] ++ "/app/src/views/about.vue" :: [])
      = Some out
      ∧ ∀ arr, arr ∈ outputArrays out → arr ≠ [].
Proof.
  split; [vm_compute; reflexivity|].
  eapply (empty_walk_leaves_no_entry "src/views" compareCodeUnits quietPage
            ["/app/src/views/car.vue"] "/app/src/views/about.vue" []).
  - vm_compute. reflexivity.
  - vm_compute. reflexivity.
  - vm_compute. reflexivity.
Defined.

(** C4 (the code departs from it).  The output is to hold objects with the
    fields [url] and [method] only.  A descriptor that comes from the
    catalogue carries [functionName]; [JSON.stringify] writes it into the
    set, [JSON.parse] reads it back and the document holds it. *)
Theorem function_name_is_emitted :
  option_map document
    (buildStart "src/views" compareCodeUnits userPage ["/app/src/views/user.vue"])
  = Some (JObject
            [("user",
              JArray
                [JObject [("url", JString "/user/");
                          ("method", JString "GET");
                          ("functionName", JString "getUser")]])]).
Proof. vm_compute. reflexivity. Qed.

End AggFacts.

(** * Properties of the regular expressions *)

Module RegexFacts.
Import Regex.

Lemma star_loop_some {A} body greedy (k : cursor → option A) n :
  (∀ c k' x, body c k' = Some x → ∃ c', k' c' = Some x) →
  ∀ c x, star_loop body greedy k n c = Some x → ∃ c', k c' = Some x.
Proof.
  intros Hbody. induction n as [|n IH]; intros c x; simpl; [by eauto|].
  destruct greedy.
  - destruct (body c _) as [y|] eqn:E; [|by eauto].
    intros [= ->]. apply Hbody in E as (c' & Hc').
    destruct (_ <? _); [by eapply IH|done].
  - destruct (k c) as [y|] eqn:E; [intros [= ->]; by eauto|].
    intros (c' & Hc')%Hbody.
    destruct (_ <? _); [by eapply IH|done].
Qed.

(** A successful run ends in a successful call of the continuation. *)
Lemma run_some {A} r : ∀ c (k : cursor → option A) x,
  run r c k = Some x → ∃ c', k c' = Some x.
Proof.
  induction r as [|a|p|r1 IH1 r2 IH2|r1 IH1 r2 IH2|g r IH|i r IH|];
    intros c k x; simpl.
  - eauto.
  - destruct (step c) as [[y c']|]; [|done]. destruct (Ascii.eqb y a); [eauto|done].
  - destruct (step c) as [[y c']|]; [|done]. destruct (p y); [eauto|done].
  - intros (c1 & H1)%IH1. by apply IH2 in H1.
  - destruct (run r1 c k) as [y|] eqn:E; [intros [= ->]; by eapply IH1|apply IH2].
  - apply star_loop_some. intros c0 k' y. apply IH.
  - intros (c1 & H1)%IH. eauto.
  - destruct (rest c); [eauto|done].
Qed.

Lemma match_here_length r before after n cs :
  match_here r before after = Some (n, cs) → n ≤ length after.
Proof.
  unfold match_here. intros (c' & [= <- _])%run_some. lia.
Qed.

(** A literal matches exactly when it is what comes next. *)
Lemma run_Lit {A} l : ∀ b t cs (k : cursor → option A),
  run (Lit l) (Cursor b (l ++ t) cs) k = k (Cursor (rev l ++ b) t cs).
Proof.
  induction l as [|a l IH]; intros b t cs k; simpl; [done|].
  unfold step. simpl. rewrite Ascii.eqb_refl, IH. by rewrite <- app_assoc.
Qed.

Lemma run_Lit_fail {A} l : ∀ c (k : cursor → option A),
  (∀ t, rest c ≠ l ++ t) → run (Lit l) c k = None.
Proof.
  induction l as [|a l IH]; intros c k Hno; simpl.
  - by destruct (Hno (rest c)).
  - unfold step. destruct c as [b [|y t] cs]; simpl in *; [done|].
    destruct (Ascii.eqb_spec y a) as [->|Hne]; [|done].
    apply IH. simpl. intros t' ->. by apply (Hno t').
Qed.

(** A greedy repetition of a class takes the whole run of characters of the
    class when the continuation accepts what follows it. *)
Lemma star_class_greedy {A} P (k : cursor → option A) x sp t :
  Forall (λ a, P a = true) sp →
  match t with [] => True | a :: _ => P a = false end →
  ∀ n b cs, length sp ≤ n →
    k (Cursor (rev sp ++ b) t cs) = Some x →
    star_loop (λ c k', run (Class P) c k') true k n (Cursor b (sp ++ t) cs)
    = Some x.
Proof.
  intros Hsp Ht. induction Hsp as [|a sp Ha Hsp IH]; intros n b cs Hn Hk.
  - destruct n as [|n]; simpl; [done|]. unfold step. simpl.
    destruct t as [|y t]; [done|]. simpl. by rewrite Ht.
  - destruct n as [|n]; [simpl in Hn; lia|]. simpl. unfold step. simpl.
    rewrite Ha. simpl. rewrite (proj2 (Nat.ltb_lt _ _)) by lia.
    rewrite IH; [done|simpl in Hn; lia|].
    simpl in Hk. by rewrite <- app_assoc in Hk.
Qed.

Lemma run_ws {A} (k : cursor → option A) x sp t b cs :
  Forall (λ a, is_space a = true) sp →
  match t with [] => True | a :: _ => is_space a = false end →
  k (Cursor (rev sp ++ b) t cs) = Some x →
  run ws (Cursor b (sp ++ t) cs) k = Some x.
Proof.
  intros Hsp Ht Hk. unfold ws. simpl.
  apply star_class_greedy; try done. rewrite length_app. lia.
Qed.

End RegexFacts.

(** * Properties of the usage detection *)

Module UsageFacts.
Import Regex Usage Scenarios RegexFacts.



Lemma quote2_cases q : quote2 q = true → q = dquote ∨ q = squote.
Proof.
  unfold quote2, one_of. simpl. rewrite !orb_true_iff.
  intros [H|[H|H]]; [left|right|done]; by apply Ascii.eqb_eq in H.
Qed.

Lemma quote2_not_space q : quote2 q = true → is_space q = false.
Proof. by intros [->| ->]%quote2_cases. Qed.

Lemma quote2_not_quote2 q : quote2 q = true → not_quote2 q = false.
Proof. unfold not_quote2, none_of, quote2. by intros ->. Qed.

Lemma between_app b b' l t cs cs' :
  between (Cursor b (l ++ t) cs) (Cursor b' t cs') = l.
Proof.
  unfold between. simpl. rewrite length_app, Nat.add_sub.
  by rewrite take_app_length.
Qed.

Lemma run_Seq {A} r1 r2 c (k : cursor → option A) :
  run (Seq r1 r2) c k = run r1 c (λ c', run r2 c' k).
Proof. done. Qed.

Lemma run_Empty {A} c (k : cursor → option A) : run Empty c k = k c.
Proof. done. Qed.

Lemma run_Class_cons {A} P b a t cs (k : cursor → option A) :
  run (Class P) (Cursor b (a :: t) cs) k
  = if P a then k (Cursor (a :: b) t cs) else None.
Proof. done. Qed.

Lemma run_Class_nil {A} P b cs (k : cursor → option A) :
  run (Class P) (Cursor b [] cs) k = None.
Proof. done. Qed.

Lemma run_Char_cons {A} x b a t cs (k : cursor → option A) :
  run (Char x) (Cursor b (a :: t) cs) k
  = if Ascii.eqb a x then k (Cursor (a :: b) t cs) else None.
Proof. done. Qed.

Lemma run_Group {A} i r c (k : cursor → option A) :
  run (Group i r) c k = run r c (λ c', k (capture i c c')).
Proof. done. Qed.

Lemma run_Star {A} g r c (k : cursor → option A) :
  run (Star g r) c k
  = star_loop (λ c' k', run r c' k') g k (length (rest c)) c.
Proof. done. Qed.

Lemma run_Alt {A} r1 r2 c (k : cursor → option A) :
  run (Alt r1 r2) c k
  = match run r1 c k with Some x => Some x | None => run r2 c k end.
Proof. done. Qed.

Section Literal.
Variables (sp p post : list ascii) (q1 q2 a0 : ascii).
Hypothesis Hsp : Forall (λ a, is_space a = true) sp.
Hypothesis Hq1 : quote2 q1 = true.
Hypothesis Hq2 : quote2 q2 = true.
Hypothesis Hp : Forall (λ a, not_quote2 a = true) (a0 :: p).

Let path : list ascii := "/"%char :: a0 :: p.
Let occ : list ascii := urlLiteral sp q1 path q2.

Lemma occ_shape :
  occ ++ post = chars "url:" ++ sp ++ q1 :: "/"%char :: a0 :: p ++ q2 :: post.
Proof.
  unfold occ, urlLiteral, path. rewrite <- !app_assoc. simpl.
  by rewrite <- !app_assoc.
Qed.

Lemma run_urlLiteral {A} (k : cursor → option A) b cs x :
  k (Cursor (rev occ ++ b) post ((1, path) :: cs)) = Some x →
  run urlLiteralRe (Cursor b (occ ++ post) cs) k = Some x.
Proof.
  intros Hk. rewrite occ_shape. unfold urlLiteralRe, seqs, lit.
  change (list_ascii_of_string "url:") with (chars "url:").
  rewrite run_Seq, run_Lit, run_Seq.
  apply run_ws; [done|by apply quote2_not_space|].
  rewrite run_Seq, run_Class_cons, Hq1, run_Seq, run_Group.
  unfold Plus. rewrite run_Seq, run_Char_cons, Ascii.eqb_refl.
  inversion Hp as [|? ? Ha0 Hp']; subst.
  rewrite run_Seq, run_Class_cons, Ha0, run_Star.
  apply star_class_greedy; [done|by apply quote2_not_quote2| |].
  { cbn [rest]. rewrite length_app. lia. }
  unfold capture. cbn [rest seen caps].
  rewrite run_Seq, run_Class_cons, Hq2, run_Empty.
  replace (between _ _) with path
    by (symmetry; apply (between_app _ _ ("/"%char :: a0 :: p) (q2 :: post))).
  rewrite <- Hk. f_equal. f_equal.
  unfold occ, urlLiteral, path, chars. simpl.
  rewrite !rev_app_distr. simpl. rewrite !rev_app_distr. simpl.
  f_equal. by repeat (rewrite <- app_assoc; simpl).
Qed.

Lemma match_here_urlLiteral b :
  match_here urlLiteralRe b (occ ++ post) = Some (length occ, [(1, path)]).
Proof.
  unfold match_here. apply run_urlLiteral. cbn [rest caps].
  by rewrite length_app, Nat.add_sub.
Qed.

End Literal.
Lemma replace_scan_skip r by_ a : ∀ before rest_,
  replace_scan r by_ (length a) before (a ++ rest_)
  = replace_scan r by_ 0 (rev a ++ before) rest_.
Proof.
  induction a as [|x a IH]; intros before rest_; [done|].
  simpl. rewrite IH. by rewrite <- app_assoc.
Qed.

Lemma url_before_quote q s t :
  quote2 q = true → s ++ [q] = chars "url:" ++ t →
  ∃ t', s = chars "url:" ++ t'.
Proof.
  intros Hq H.
  destruct s as [|c1 s]; simpl in H; injection H as -> H;
    [by vm_compute in Hq|].
  destruct s as [|c2 s]; simpl in H; injection H as -> H;
    [by vm_compute in Hq|].
  destruct s as [|c3 s]; simpl in H; injection H as -> H;
    [by vm_compute in Hq|].
  destruct s as [|c4 s]; simpl in H; injection H as -> H;
    [by vm_compute in Hq|].
  by exists s.
Qed.

Section Strip.
Variables (q2 : ascii).
Hypothesis Hq2 : quote2 q2 = true.

Lemma match_prefix_none b s x :
  not_quote2 x = true →
  (∀ t, (x :: s) ++ [q2] ≠ chars "url:" ++ t) →
  match_here urlPrefixOrQuoteRe b ((x :: s) ++ [q2]) = None.
Proof.
  intros Hx Hno. unfold match_here, urlPrefixOrQuoteRe, seqs, lit.
  rewrite run_Alt, run_Seq, run_Lit_fail by done.
  cbn [app]. rewrite run_Class_cons.
  unfold not_quote2, none_of in Hx. unfold quote2.
  by destruct (one_of [dquote; squote] x).
Qed.

Lemma match_quote b :
  ∃ cs, match_here urlPrefixOrQuoteRe b [q2] = Some (1, cs).
Proof.
  unfold match_here, urlPrefixOrQuoteRe, seqs, lit.
  rewrite run_Alt, run_Seq, run_Lit_fail.
  - rewrite run_Class_cons, Hq2. by eexists.
  - simpl. intros t H. injection H as _ H. discriminate H.
Qed.

Lemma match_end b : match_here urlPrefixOrQuoteRe b [] = None.
Proof. done. Qed.

Lemma strip_inside s : ∀ b,
  Forall (λ a, not_quote2 a = true) s →
  (∀ a t, s ≠ a ++ chars "url:" ++ t) →
  replace_scan urlPrefixOrQuoteRe [] 0 b (s ++ [q2]) = s.
Proof.
  induction s as [|x s IH]; intros b Hs Hno.
  - destruct (match_quote b) as [cs Hm]. simpl. by rewrite Hm.
  - inversion Hs as [|? ? Hx Hs']; subst.
    change (replace_scan urlPrefixOrQuoteRe [] 0 b ((x :: s) ++ [q2]))
      with (match match_here urlPrefixOrQuoteRe b ((x :: s) ++ [q2]) with
            | Some (n, _) =>
                [] ++ match n with
                      | O => x :: replace_scan urlPrefixOrQuoteRe [] 0 (x :: b) (s ++ [q2])
                      | S n' => replace_scan urlPrefixOrQuoteRe [] n' (x :: b) (s ++ [q2])
                      end
            | None => x :: replace_scan urlPrefixOrQuoteRe [] 0 (x :: b) (s ++ [q2])
            end).
    rewrite match_prefix_none; [| done |].
    + rewrite IH; [done|done|]. intros a t ->. by apply (Hno (x :: a) t).
    + intros t Ht. apply url_before_quote in Ht as [t' Ht']; [|done].
      by apply (Hno [] t').
Qed.

End Strip.

Lemma match_prefix b sp q1 t :
  Forall (λ a, is_space a = true) sp → quote2 q1 = true →
  match_here urlPrefixOrQuoteRe b (chars "url:" ++ sp ++ q1 :: t)
  = Some (length (chars "url:" ++ sp ++ [q1]), []).
Proof.
  intros Hsp Hq1. unfold match_here, urlPrefixOrQuoteRe, seqs, lit.
  rewrite run_Alt.
  change (list_ascii_of_string "url:") with (chars "url:").
  rewrite run_Seq, run_Lit, run_Seq.
  erewrite run_ws; [done|done|by apply quote2_not_space|].
  rewrite run_Seq, run_Class_cons, Hq1, run_Empty. cbn [rest caps].
  f_equal. f_equal. rewrite !length_app. simpl. lia.
Qed.

(** What [replace] leaves of a matched literal is its path, when [url:] does
    not occur inside the path. *)
Lemma stripUrl_literal sp q1 path q2 :
  Forall (λ a, is_space a = true) sp →
  quote2 q1 = true → quote2 q2 = true →
  Forall (λ a, not_quote2 a = true) path →
  (∀ a t, path ≠ a ++ chars "url:" ++ t) →
  stripUrl (urlLiteral sp q1 path q2) = path.
Proof.
  intros Hsp Hq1 Hq2 Hpath Hno. unfold stripUrl, replace_all, urlLiteral.
  pose proof (match_prefix [] sp q1 (path ++ [q2]) Hsp Hq1) as Hm.
  change (chars "url:" ++ sp ++ q1 :: path ++ [q2])
    with ("u"%char :: (chars "rl:" ++ sp ++ q1 :: path ++ [q2])) in *.
  cbn [replace_scan]. rewrite Hm.
  replace (length (chars "url:" ++ sp ++ [q1]))
    with (S (length (chars "rl:" ++ sp ++ [q1])))
    by (rewrite !length_app; simpl; lia).
  cbn [app].
  replace (chars "rl:" ++ sp ++ q1 :: path ++ [q2])
    with ((chars "rl:" ++ sp ++ [q1]) ++ (path ++ [q2]))
    by (simpl; rewrite <- app_assoc; reflexivity).
  rewrite replace_scan_skip. by apply strip_inside.
Qed.

(** The scan reaches a position that no earlier match runs over. *)
Lemma scan_reach r pre : ∀ skip before rest_,
  skip ≤ length pre →
  (∀ f, f ∈ scan r skip before (pre ++ rest_) →
        at_index f < length before + length pre →
        at_index f + length (matched f) ≤ length before + length pre) →
  ∀ f, f ∈ scan r 0 (rev pre ++ before) rest_ →
       f ∈ scan r skip before (pre ++ rest_).
Proof.
  induction pre as [|a pre IH]; intros skip before rest_ Hskip Hover f Hf.
  - simpl in Hskip. by replace skip with 0 by lia.
  - simpl in Hf. rewrite <- app_assoc in Hf. simpl in Hf.
    destruct skip as [|skip].
    + cbn [app scan] in Hover |- *.
      destruct (match_here r before (a :: pre ++ rest_)) as [[n cs]|] eqn:Hm.
      * right. apply IH; [| |done].
        -- pose proof (match_here_length _ _ _ _ _ Hm) as Hn.
           specialize (Hover _ (list_elem_of_here _ _)). simpl in Hover.
           rewrite length_take in Hover. simpl in Hn. simpl in Hover. lia.
        -- intros g Hg. simpl. intros Hlt.
           specialize (Hover g (list_elem_of_further _ _ _ Hg)).
           simpl in Hover. lia.
      * apply IH; [lia| |done].
        intros g Hg. simpl. intros Hlt. specialize (Hover g Hg).
        simpl in Hover. lia.
    + cbn [app scan] in Hover |- *. apply IH; [simpl in Hskip; lia| |done].
      intros g Hg. simpl. intros Hlt. specialize (Hover g Hg).
      simpl in Hover. lia.
Qed.

Lemma no_url_without_colon path :
  ":"%char ∉ path → ∀ a t, path ≠ a ++ chars "url:" ++ t.
Proof.
  intros Hno a t ->. apply Hno. apply elem_of_app. right.
  apply elem_of_app. left. simpl. by repeat constructor.
Qed.

(** C8, as the code has it.  A literal [url:], optional white space, a
    quote, a path and a quote yields a descriptor with that path as url and
    the method [UNKNOWN] when the path starts with a slash and has at least
    one more character, no quote and no [url:] inside, and when no earlier
    match of the pattern runs over the place where the literal starts. *)
Theorem url_literal_detected code pre sp q1 tail q2 post :
  list_ascii_of_string code
  = pre ++ urlLiteral sp q1 ("/"%char :: tail) q2 ++ post →
  Forall (λ a, is_space a = true) sp →
  quote2 q1 = true → quote2 q2 = true →
  tail ≠ [] → Forall (λ a, not_quote2 a = true) tail →
  (∀ a t, "/"%char :: tail ≠ a ++ chars "url:" ++ t) →
  (∀ f, f ∈ match_all urlLiteralRe (list_ascii_of_string code) →
        at_index f < length pre →
        at_index f + length (matched f) ≤ length pre) →
  mkApi (string_of_list_ascii ("/"%char :: tail)) "UNKNOWN" None
  ∈ extractUrlLiterals code.
Proof.
  intros Hcode Hsp Hq1 Hq2 Hne Htail Hno Hover.
  destruct tail as [|a0 p]; [done|].
  unfold extractUrlLiterals. rewrite Hcode in *.
  apply list_elem_of_fmap.
  exists (Found (length pre) (urlLiteral sp q1 ("/"%char :: a0 :: p) q2)
                [(1, "/"%char :: a0 :: p)]).
  split.
  - cbn [matched]. rewrite stripUrl_literal; try done.
    constructor; [done|done].
  - unfold match_all. apply scan_reach; [lia|exact Hover|].
    rewrite app_nil_r. 
    destruct post as [|y post'] eqn:Epost.
    + rewrite app_nil_r.
      pose proof (match_here_urlLiteral sp p [] q1 q2 a0 Hsp Hq1 Hq2 Htail (rev pre)) as Hm.
      rewrite app_nil_r in Hm.
      destruct (urlLiteral sp q1 ("/"%char :: a0 :: p) q2) as [|z occ'] eqn:Eocc;
        [done|].
      cbn [scan]. rewrite Hm. rewrite length_rev, firstn_all. by left.
    + pose proof (match_here_urlLiteral sp p (y :: post') q1 q2 a0 Hsp Hq1 Hq2 Htail (rev pre)) as Hm.
      destruct (urlLiteral sp q1 ("/"%char :: a0 :: p) q2) as [|z occ'] eqn:Eocc;
        [done|].
      cbn [scan app] in Hm |- *. rewrite Hm.
      rewrite length_rev.
      change (z :: occ' ++ y :: post') with ((z :: occ') ++ y :: post').
      rewrite take_app_length. by left.
Qed.

Lemma url_literal_detected_witness :
  list_ascii_of_string sampleCode
  = chars "data: { " ++ urlLiteral [" "%char] squote (chars "/api/list") squote
      ++ chars " }"
  ∧ mkApi "/api/list" "UNKNOWN" None ∈ extractUrlLiterals sampleCode.
Proof.
  split; [reflexivity|].
  apply (url_literal_detected sampleCode (chars "data: { ") [" "%char] squote
           (chars "api/list") squote (chars " }")).
  - reflexivity.
  - by repeat constructor.
  - reflexivity.
  - reflexivity.
  - discriminate.
  - by repeat constructor.
  - apply no_url_without_colon.
    apply (bool_decide_unpack (":"%char ∉ chars "/api/list")). vm_compute. exact I.
  - intros f Hf. vm_compute in Hf.
    apply list_elem_of_singleton in Hf as ->. simpl. lia.
Defined.

(** C8 as the specification states it fails: a literal whose path does not
    start with a slash yields no descriptor. *)
Lemma url_without_slash_counterexample :
  extractUrlLiterals "url: 'api/list'" = [].
Proof. vm_compute. reflexivity. Qed.

(** Two further limits of the pattern: a literal inside an earlier match is
    not seen, and [replace] also removes a [url:] that ends the path. *)
Lemma url_overlap_example :
  extractUrlLiterals "url: '/a url: '/b'" = [mkApi "/a " "UNKNOWN" None].
Proof. vm_compute. reflexivity. Qed.

Lemma url_inside_path_example :
  extractUrlLiterals "url: '/q?url: '" = [mkApi "/q?" "UNKNOWN" None].
Proof. vm_compute. reflexivity. Qed.

End UsageFacts.

(** * Properties of the catalogue *)

Module CatalogFacts.
Import Catalog Scenarios.

(** C5 (the code departs from it).  [analyzeApiFile] is to turn a url built
    as a literal followed by [+ id] into the literal followed by a
    placeholder.  The pattern that captures the url stops at the closing
    quote of the literal, so the replacement of [+ id] never sees the
    concatenation: the scenario's module yields the url [/user/]. *)
Theorem concatenated_url_keeps_literal :
  analyzeApiCode getUserModule = [mkApi "/user/" "GET" (Some "getUser")].
Proof. vm_compute. reflexivity. Qed.

(** Only a [+ id] inside the quotes is replaced. *)
Lemma concatenation_inside_quotes_example :
  analyzeApiCode "export const getUser = (id) => request({ url: '/user/ + id' })"
  = [mkApi "/user//{id}" "GET" (Some "getUser")].
Proof. vm_compute. reflexivity. Qed.

End CatalogFacts.

(** * Further properties of the walker *)

Module WalkerMore.
Import Walker WalkerFacts.

(** More fuel changes nothing. *)
Lemma forEachImport_more (rec rec' : string → WalkState → Result) :
  (∀ c s r, rec c s = Some r → rec' c s = Some r) →
  ∀ l st r, forEachImport rec l st = Some r → forEachImport rec' l st = Some r.
Proof.
  intros Hrec l. induction l as [|c l IH]; intros st r; simpl; [done|].
  destruct (rec c st) as [[a s1]|] eqn:E; [|done].
  rewrite (Hrec _ _ _ E).
  destruct (forEachImport rec l s1) as [[b s2]|] eqn:E2; [|done].
  by rewrite (IH _ _ E2).
Qed.

Lemma walk_fuel fs n : ∀ f visited st r,
  walkAt fs n f visited st = Some r → ∀ k, walkAt fs (n + k) f visited st = Some r.
Proof.
  induction n as [|n IH]; intros f visited st r H k; [done|].
  simpl in *.
  destruct (decide _); [done|].
  destruct (componentCache st !! f); [done|].
  destruct (fs !! f) as [[|d i]|]; [done| |done].
  destruct (forEachImport _ i _) as [[a s2]|] eqn:E; [|done].
  rewrite (forEachImport_more _ (λ c s, walkAt fs (n + k) c ({[f]} ∪ visited) s)
             (λ c s r' Hr, IH c _ s r' Hr k) _ _ _ E).
  exact H.
Qed.

Lemma offStack_bound fs st : offStack fs st < enough fs.
Proof.
  unfold offStack, enough. rewrite <- size_dom.
  apply Nat.lt_succ_r, subseteq_size. set_solver.
Qed.

(** Where the descriptors of a loop come from. *)
Lemma forEachImport_from (P : WalkState → Prop)
  (rec : string → WalkState → Result) :
  (∀ c s a s', P s → rec c s = Some (a, s') → P s') →
  ∀ imports st apis st',
    P st → forEachImport rec imports st = Some (apis, st') →
    ∀ x, x ∈ apis →
      ∃ c s a s', c ∈ imports ∧ P s ∧ rec c s = Some (a, s') ∧ x ∈ a.
Proof.
  intros Hstep l. induction l as [|c l IH]; intros st apis st' HP H x Hx; simpl in H.
  - injection H as <- <-. by apply elem_of_nil in Hx.
  - destruct (rec c st) as [[a s1]|] eqn:E; [|done].
    destruct (forEachImport rec l s1) as [[b s2]|] eqn:E2; [|done].
    injection H as <- <-.
    apply elem_of_app in Hx as [Hx|Hx].
    + exists c, st, a, s1. split_and!; [left|done..].
    + destruct (IH _ _ _ (Hstep _ _ _ _ HP E) E2 x Hx) as (c' & s & a' & s' & ? & ? & ? & ?).
      exists c', s, a', s'. split_and!; [by right|done..].
Qed.

Lemma walk_cache_origin fs n : ∀ f visited st apis st',
  walkAt fs n f visited st = Some (apis, st') →
  ∀ g m, componentCache st' !! g = Some m →
         componentCache st !! g = Some m ∨ isComponent fs g.
Proof.
  induction n as [|n IH]; intros f visited st apis st' H g m Hg; [done|].
  apply walk_cases in H
    as [(_ & -> & _)|(_ & _ & [[_ ->]|(_ & [(_ & _ & ->)|[(_ & _ & ->)|H]])])];
    try (by left).
  destruct H as (k & d & i & childApis & st2 & [= <-] & Hf & Hloop & -> & ->).
  simpl in Hg.
  destruct (decide (g = f)) as [->|Hne].
  { right. by exists d, i. }
  rewrite lookup_insert_ne in Hg by done.
  assert (HP : ∀ g m, componentCache st2 !! g = Some m →
                 componentCache st !! g = Some m ∨ isComponent fs g).
  { refine (proj1 (forEachImport_inv
      (λ s, ∀ g m, componentCache s !! g = Some m →
                   componentCache st !! g = Some m ∨ isComponent fs g)
      _ _ _ _ _ _ _ Hloop)).
    - intros c s a s' Hs Hrec g' m' Hg'.
      destruct (IH _ _ _ _ _ Hrec g' m' Hg') as [?|?]; [by apply Hs|by right].
    - intros g' m' Hg'. by left. }
  by apply HP.
Qed.

(** How often a component was read is told by the cache and the stack. *)
Lemma readCount_other g f st : f ≠ g → readCount g (readFileSync f st) = readCount g st.
Proof.
  intros Hne. unfold readCount, readFileSync. simpl.
  rewrite filter_app, length_app. simpl.
  rewrite filter_cons_False by done. simpl. lia.
Qed.

Lemma readCount_self g st : readCount g (readFileSync g st) = S (readCount g st).
Proof.
  unfold readCount, readFileSync. simpl.
  rewrite filter_app, length_app. simpl.
  rewrite filter_cons_True by done. simpl. lia.
Qed.

Local Abbreviation counted fs st :=
  (∀ g, isComponent fs g →
     (is_Some (componentCache st !! g) ∨ g ∈ processingStack st → readCount g st = 1)
     ∧ (componentCache st !! g = None → g ∉ processingStack st → readCount g st = 0)).

Lemma walk_counted fs n : ∀ f visited st apis st',
  counted fs st → walkAt fs n f visited st = Some (apis, st') → counted fs st'.
Proof.
  induction n as [|n IH]; intros f visited st apis st' Hst H; [done|].
  apply walk_cases in H
    as [(_ & -> & _)|(_ & Hstack & [[_ ->]|(Hcache & [(Hf & _ & ->)|[(Hf & _ & ->)|H]])])];
    try done.
  - intros g Hg. destruct (Hst g Hg) as [H1 H0].
    assert (g ≠ f) by (intros ->; destruct Hg as (? & ? & ?); congruence).
    split; simpl.
    + intros [?|?]; apply H1; [by left|right; set_solver].
    + intros ? ?. apply H0; [done|set_solver].
  - intros g Hg. destruct (Hst g Hg) as [H1 H0].
    assert (g ≠ f) by (intros ->; destruct Hg as (? & ? & ?); congruence).
    split; simpl.
    + intros Hin. change (readCount g (readFileSync f (stackAdd f st)) = 1).
      rewrite readCount_other by done. apply H1.
      destruct Hin as [?|?]; [by left|right; set_solver].
    + intros ? ?. change (readCount g (readFileSync f (stackAdd f st)) = 0).
      rewrite readCount_other by done. apply H0; [done|set_solver].
  - destruct H as (k & d & i & childApis & st2 & [= <-] & Hf & Hloop & -> & ->).
    set (st1 := readFileSync f (stackAdd f st)) in *.
    assert (H1 : counted fs st1).
    { intros g Hg. destruct (Hst g Hg) as [H1 H0].
      destruct (decide (g = f)) as [->|Hne].
      - split.
        + intros _. unfold st1. rewrite readCount_self.
          change (S (readCount f st) = 1). by rewrite H0.
        + simpl. set_solver.
      - split; unfold st1.
        + intros Hin. rewrite readCount_other by done. apply H1.
          destruct Hin as [?|Hin]; [by left|right]. simpl in Hin. set_solver.
        + simpl. intros ? ?. rewrite readCount_other by done.
          apply H0; [done|set_solver]. }
    assert (H2 : counted fs st2 ∧ f ∈ processingStack st2).
    { refine (proj1 (forEachImport_inv
        (λ s, counted fs s ∧ f ∈ processingStack s) _ _ _ _ _ _ _ Hloop)).
      - intros c s a s' [Hs Hin] Hrec. split; [by eapply IH|].
        by apply (walk_stack_mono _ _ _ _ _ _ _ Hrec).
      - split; [done|]. unfold st1. simpl. set_solver. }
    destruct H2 as [H2 Hin].
    intros g Hg. destruct (H2 g Hg) as [G1 G0].
    destruct (decide (g = f)) as [->|Hne]; simpl.
    + split.
      * intros _. change (readCount f st2 = 1). apply G1. by right.
      * rewrite lookup_insert_eq. done.
    + rewrite lookup_insert_ne by done. split.
      * intros Hor. change (readCount g st2 = 1). apply G1.
        destruct Hor as [?|?]; [by left|right; set_solver].
      * intros ? ?. change (readCount g st2 = 0). apply G0; [done|set_solver].
Qed.

Lemma topLevel_counted fs st st' :
  topLevel fs st st' → counted fs st → counted fs st'.
Proof.
  induction 1 as [|st E a st1 st2 Hw _ IH]; [done|].
  intros Hst. apply IH. by eapply walk_counted.
Qed.

Lemma topLevel_stack fs st st' :
  topLevel fs st st' →
  ∀ g, g ∈ processingStack st' → g ∈ processingStack st ∨ fs !! g = None.
Proof.
  induction 1 as [|st E a st1 st2 Hw _ IH]; [by left|].
  intros g Hg. destruct (IH g Hg) as [Hin|?]; [|by right].
  by eapply walk_stack.
Qed.

(** What the cache holds is declared below its key. *)
Local Abbreviation cacheSound fs st :=
  (∀ g m x, componentCache st !! g = Some m → x ∈ m → declaredBelow fs g x).

Lemma walk_sound fs n : ∀ f visited st apis st',
  cacheSound fs st → walkAt fs n f visited st = Some (apis, st') →
  cacheSound fs st' ∧ ∀ x, x ∈ apis → declaredBelow fs f x.
Proof.
  induction n as [|n IH]; intros f visited st apis st' Hst H; [done|].
  apply walk_cases in H
    as [(-> & -> & _)|(_ & Hstack & [[Hc ->]|(Hcache & [(Hf & -> & ->)|[(Hf & -> & ->)|H]])])];
    try (split; [done|by intros x ?%elem_of_nil]).
  - split; [done|]. intros x Hx. by eapply Hst.
  - destruct H as (k & d & i & childApis & st2 & [= <-] & Hf & Hloop & -> & ->).
    assert (Hstep : ∀ c s a s', cacheSound fs s →
              walkAt fs n c ({[f]} ∪ visited) s = Some (a, s') → cacheSound fs s').
    { intros c s a s' Hs Hrec. by apply (IH _ _ _ _ _ Hs Hrec). }
    assert (H2 : cacheSound fs st2).
    { refine (proj1 (forEachImport_inv (λ s, cacheSound fs s) _ Hstep _ _ _ _ _ Hloop)).
      done. }
    assert (Hall : ∀ x, x ∈ d ++ childApis → declaredBelow fs f x).
    { intros x [Hx|Hx]%elem_of_app.
      - exists f, d, i. split_and!; [apply rtc_refl|done..].
      - destruct (forEachImport_from (λ s, cacheSound fs s) _ Hstep _
                    (readFileSync f (stackAdd f st)) _ _
                    (λ g m x H, Hst g m x H) Hloop x Hx)
          as (c & s & a & s' & Hc & Hs & Hrec & Hxa).
        destruct (proj2 (IH _ _ _ _ _ Hs Hrec) x Hxa) as (g & dg & ig & Hr & Hg & Hxg).
        exists g, dg, ig. split_and!; [|done..].
        eapply rtc_l; [|exact Hr]. by exists d, i. }
    split; [|done].
    intros g m x Hg Hx. simpl in Hg.
    destruct (decide (g = f)) as [->|Hne].
    + rewrite lookup_insert_eq in Hg. injection Hg as <-. by apply Hall.
    + rewrite lookup_insert_ne in Hg by done. by eapply H2.
Qed.

Lemma topLevel_sound fs st st' :
  topLevel fs st st' → cacheSound fs st → cacheSound fs st'.
Proof.
  induction 1 as [|st E a st1 st2 Hw _ IH]; [done|].
  intros Hst. apply IH. by apply (walk_sound _ _ _ _ _ _ _ Hst Hw).
Qed.

(** X1.  The walk terminates on every disk, cycles of imports included:
    from any path, any [visited] set and any state of the cache and the
    stack, [extractApisFromComponentWithConfig] returns, and every amount
    of fuel from one more than the number of files gives the same result. *)
Theorem walk_terminates fs f visited st :
  ∃ apis st', ∀ k,
    extractApisFromComponentWithConfig fs (enough fs + k) f visited st
    = Some (apis, st').
Proof.
  destruct (walk_total fs (enough fs) f visited st (offStack_bound fs st))
    as (apis & st' & H & _).
  exists apis, st'. intros k. by apply walk_fuel.
Qed.

(** X2.  A call never changes or drops an entry of [componentCache], and
    every entry it adds is for a file that exists and was read and analysed
    without error: a missing path or a failing file is never memoized. *)
Theorem cache_gains_components_only fs f visited st :
  ∃ apis st',
    extractApisFromComponentWithConfig fs (enough fs) f visited st
    = Some (apis, st')
    ∧ (∀ g m, componentCache st !! g = Some m → componentCache st' !! g = Some m)
    ∧ (∀ g m, componentCache st' !! g = Some m →
         componentCache st !! g = Some m ∨ isComponent fs g).
Proof.
  destruct (walk_total fs (enough fs) f visited st (offStack_bound fs st))
    as (apis & st' & H & _).
  exists apis, st'. split_and!; [done| |].
  - by apply (walk_cache_mono _ _ _ _ _ _ _ H).
  - by apply (walk_cache_origin _ _ _ _ _ _ _ H).
Qed.

(** X3.  A call removes nothing from [processingStack], and whatever it
    leaves there beyond what was there is a path that does not exist on
    disk: every file that exists is popped, on the normal exit and in the
    [catch] branch. *)
Theorem stack_gains_missing_paths_only fs f visited st :
  ∃ apis st',
    extractApisFromComponentWithConfig fs (enough fs) f visited st
    = Some (apis, st')
    ∧ processingStack st ⊆ processingStack st'
    ∧ ∀ g, g ∈ processingStack st' → g ∈ processingStack st ∨ fs !! g = None.
Proof.
  destruct (walk_total fs (enough fs) f visited st (offStack_bound fs st))
    as (apis & st' & H & Hsub).
  exists apis, st'. split_and!; [done..|].
  by apply (walk_stack _ _ _ _ _ _ _ H).
Qed.

(** X4.  Over a pass, on any import graph, cycles included, a component
    file is read exactly once if the cache holds an entry for it and never
    otherwise: [readFileSync] is never called twice on a file that reads
    and analyses without error. *)
Theorem component_read_at_most_once fs st g :
  topLevel fs initial st → isComponent fs g →
  readCount g st = if decide (is_Some (componentCache st !! g)) then 1 else 0.
Proof.
  intros Htop Hg.
  assert (H0 : counted fs initial).
  { intros h _. split; [|done].
    intros [[? H]|H]; simpl in H; [by rewrite lookup_empty in H|set_solver]. }
  destruct (topLevel_counted _ _ _ Htop H0 g Hg) as [H1 H2].
  destruct (decide _) as [Hc|Hc].
  - apply H1. by left.
  - apply H2.
    + destruct (componentCache st !! g) eqn:E; [|done]. destruct Hc. by eexists.
    + intros Hin. destruct (topLevel_stack _ _ _ Htop g Hin) as [Hin'|Hnone].
      * simpl in Hin'. set_solver.
      * destruct Hg as (? & ? & ?). congruence.
Qed.

(** X5.  Over a pass, on any import graph, every descriptor a walk returns
    for an entry is declared in the entry or in a file the entry reaches
    through imports: a file that no entry reaches contributes nothing. *)
Theorem walk_result_is_declared_below fs st E :
  topLevel fs initial st →
  ∃ apis st',
    walk fs E st = Some (apis, st') ∧ ∀ x, x ∈ apis → declaredBelow fs E x.
Proof.
  intros Htop.
  destruct (walk_returns fs E st) as (apis & st' & H).
  exists apis, st'. split; [done|].
  assert (Hs : cacheSound fs st).
  { apply (topLevel_sound _ _ _ Htop). intros g m x Hg. simpl in Hg.
    by rewrite lookup_empty in Hg. }
  by apply (walk_sound _ _ _ _ _ _ _ Hs H).
Qed.

(** X6.  On an import graph without cycles the result of walking an entry
    does not depend on what the pass walked before: it is the entry's own
    descriptors followed by those of its imports, in order and depth
    first, and it holds exactly the descriptors declared in the files the
    entry reaches. *)
Theorem acyclic_walk_is_exact fs rank st E :
  acyclic fs rank → topLevel fs initial st →
  ∃ st',
    walk fs E st = Some (fullApis fs rank E, st')
    ∧ ∀ x, x ∈ fullApis fs rank E ↔ declaredBelow fs E x.
Proof.
  intros Hacyclic Htop.
  destruct (walk_returns fs E st) as (apis & st' & H).
  destruct (topLevel_settled fs rank Hacyclic _ _ Htop (settled_initial fs rank Hacyclic))
    as [Hst _].
  destruct (walk_settled fs rank Hacyclic _ _ _ _ Hst H) as (_ & -> & _).
  exists st'. split; [done|].
  intros x. by apply fullApis_declared.
Qed.

(** *** Files that reach no cycle *)

Lemma counted_initial fs : counted fs initial.
Proof.
  intros h _. split; [|done].
  intros [[? H]|H]; simpl in H; [by rewrite lookup_empty in H|set_solver].
Qed.

Lemma topLevel_app fs st1 st2 st3 :
  topLevel fs st1 st2 → topLevel fs st2 st3 → topLevel fs st1 st3.
Proof.
  induction 1 as [|st E a s1 s2 Hw _ IH]; [done|].
  intros H. eapply top_walk; [exact Hw|by apply IH].
Qed.

Lemma topLevel_kept fs st st' : topLevel fs st st' → cacheKept st st'.
Proof.
  induction 1 as [st|st E a st1 st2 Hw _ IH]; [by intros ? ? ?|].
  intros g m Hg. apply IH. by apply (walk_cache_mono _ _ _ _ _ _ _ Hw).
Qed.

Section Below.
Variable fs : FileSystem.
Variable rank : string → nat.

Local Abbreviation imports := (Walker.imports fs).
Local Abbreviation below := (acyclicBelow fs rank).

Lemma below_step f c : below f → imports f c → below c.
Proof. intros H Hi g d i Hr. apply H. by eapply rtc_l. Qed.

Lemma below_rtc f g : below f → rtc imports f g → below g.
Proof.
  intros H Hr. induction Hr as [|f c g Hi _ IH]; [done|].
  apply IH. by eapply below_step.
Qed.

Lemma below_rank f c : below f → imports f c → rank c < rank f.
Proof.
  intros H (d & i & Hf & Hc).
  pose proof (H f d i (rtc_refl _ _) Hf) as HF.
  rewrite Forall_forall in HF. by apply HF.
Qed.

Lemma below_tc f h : tc imports f h → below f → rank h < rank f.
Proof.
  induction 1 as [f h Hi|f c h Hi _ IH]; intros H.
  - by apply below_rank.
  - pose proof (below_rank _ _ H Hi). pose proof (IH (below_step _ _ H Hi)). lia.
Qed.

Lemma below_no_cycle f : below f → ¬ tc imports f f.
Proof. intros H Ht. pose proof (below_tc _ _ Ht H). lia. Qed.

(** A graph without cycles has none below any file. *)
Lemma acyclic_below f : acyclic fs rank → below f.
Proof. intros H g d i _ Hg. apply (H g _ Hg). Qed.

(** A part of the disk that is closed under imports and ranked has no
    cycle below any of its files. *)
Lemma acyclicBelow_region (region : gset string) f :
  f ∈ region → map_Forall (importsWithin rank region) fs → below f.
Proof.
  intros Hf Hall g d i Hr Hg.
  assert (Hin : g ∈ region).
  { clear Hg. induction Hr as [|f c g (d' & i' & Hf' & Hc) _ IH]; [done|].
    apply IH. pose proof (Hall f _ Hf' Hf) as H. simpl in H.
    rewrite Forall_forall in H. by apply H. }
  pose proof (Hall g _ Hg Hin) as H. simpl in H.
  eapply Forall_impl; [exact H|]. by intros c [? _].
Qed.

(** A path that is no component reaches nothing. *)
Lemma rtc_component f h :
  rtc imports f h → isComponent fs h → isComponent fs f.
Proof.
  intros Hr Hh. apply rtc_inv in Hr as [->|(c & (d & i & Hf & _) & _)]; [done|].
  by exists d, i.
Qed.

Lemma declared_component f x : declaredBelow fs f x → isComponent fs f.
Proof.
  intros (g & dg & ig & Hr & Hg & _). eapply rtc_component; [exact Hr|].
  by exists dg, ig.
Qed.

(** The cache is complete where no cycle is reached: the list of a file
    that reaches no cycle holds every descriptor declared below the file,
    and every component below it is cached as well. *)
Local Abbreviation reached st f :=
  (∀ h, rtc imports f h → isComponent fs h → is_Some (componentCache st !! h)).

Local Abbreviation complete st :=
  (∀ g m, componentCache st !! g = Some m → below g →
     (∀ x, declaredBelow fs g x → x ∈ m) ∧ reached st g).

(** What blocks a call is a missing path or a file further up. *)
Local Abbreviation ancestors f visited st :=
  (∀ h, h ∈ visited ∨ h ∈ processingStack st →
     fs !! h = None ∨ tc imports h f).

Local Abbreviation inLoop f st :=
  (complete st
   ∧ ∀ h, h ∈ processingStack st → fs !! h = None ∨ h = f ∨ tc imports h f).

Lemma loop_complete (rec : string → WalkState → Result) f :
  (∀ c s a s', imports f c → inLoop f s → rec c s = Some (a, s') →
     inLoop f s' ∧ cacheKept s s'
     ∧ (below c → (∀ x, declaredBelow fs c x → x ∈ a) ∧ reached s' c)) →
  ∀ l st apis st',
    (∀ c, c ∈ l → imports f c) → inLoop f st →
    forEachImport rec l st = Some (apis, st') →
    inLoop f st' ∧ cacheKept st st'
    ∧ ∀ c, c ∈ l → below c →
        (∀ x, declaredBelow fs c x → x ∈ apis) ∧ reached st' c.
Proof.
  intros Hrec l. induction l as [|c l IH]; intros st apis st' Hl HP H;
    simpl in H.
  - injection H as <- <-. split; [done|]. split; [by intros ? ? ?|].
    by intros c ?%elem_of_nil.
  - destruct (rec c st) as [[a s1]|] eqn:E; [|done].
    destruct (forEachImport rec l s1) as [[b s2]|] eqn:E2; [|done].
    injection H as <- <-.
    destruct (Hrec c st a s1) as (HP1 & Hk1 & Hc); [apply Hl; by left|done..|].
    destruct (IH s1 b s2) as (HP2 & Hk2 & Hmore);
      [intros ? ?; apply Hl; by right|done..|].
    split; [done|]. split; [intros g m Hg; by apply Hk2, Hk1|].
    intros c' [->|Hc']%elem_of_cons Hb.
    + destruct (Hc Hb) as [Hd Hr]. split.
      * intros x Hx. apply elem_of_app. left. by apply Hd.
      * intros h Hh Hcomp. destruct (Hr h Hh Hcomp) as [m Hm].
        exists m. by apply Hk2.
    + destruct (Hmore c' Hc' Hb) as [Hd Hr]. split; [|done].
      intros x Hx. apply elem_of_app. right. by apply Hd.
Qed.

Lemma walk_complete n : ∀ f visited st apis st',
  complete st → ancestors f visited st →
  walkAt fs n f visited st = Some (apis, st') →
  complete st'
  ∧ (below f → (∀ x, declaredBelow fs f x → x ∈ apis) ∧ reached st' f).
Proof.
  induction n as [|n IH]; intros f visited st apis st' Hst Hanc H; [done|].
  assert (Hnothing : ¬ isComponent fs f →
            ∀ s, (∀ x, declaredBelow fs f x → x ∈ @nil ApiInfo) ∧ reached s f).
  { intros Hno s. split.
    - intros x Hx. destruct Hno. by eapply declared_component.
    - intros h Hr Hh. destruct Hno. by eapply rtc_component. }
  apply walk_cases in H
    as [(-> & -> & Hb)|(Hv & Hs & [[Hc ->]|(Hcache & [(Hf & -> & ->)|[(Hf & -> & ->)|H]])])].
  - split; [done|]. intros Hbelow. apply Hnothing.
    destruct (Hanc f Hb) as [Hf|Ht]; [|by destruct (below_no_cycle f Hbelow)].
    intros (? & ? & ?). congruence.
  - split; [done|]. intros Hbelow. by apply (Hst f apis).
  - split; [exact Hst|]. intros _. apply Hnothing.
    intros (? & ? & ?). congruence.
  - split; [exact Hst|]. intros _. apply Hnothing.
    intros (? & ? & ?). congruence.
  - destruct H as (k & d & i & childApis & st2 & [= <-] & Hf & Hloop & -> & ->).
    assert (Himp : ∀ c, c ∈ i → imports f c) by (intros c Hc; by exists d, i).
    destruct (loop_complete
                (λ c s, walkAt fs n c ({[f]} ∪ visited) s) f) with
      (l := i) (st := readFileSync f (stackAdd f st)) (apis := childApis)
      (st' := st2) as ((Hc2 & Hs2) & Hk2 & Hchildren); [|done| |done|].
    { intros c s a s' Hc [Hcs Hss] Hrec.
      assert (Hanc' : ancestors c ({[f]} ∪ visited) s).
      { intros h [Hh|Hh].
        - apply elem_of_union in Hh as [->%elem_of_singleton|Hh].
          + right. by apply tc_once.
          + destruct (Hanc h (or_introl Hh)) as [?|Ht]; [by left|right].
            eapply tc_r; [exact Ht|done].
        - destruct (Hss h Hh) as [?|[->|Ht]]; [by left|right..].
          + by apply tc_once.
          + eapply tc_r; [exact Ht|done]. }
      destruct (IH _ _ _ _ _ Hcs Hanc' Hrec) as [Hcs' Hres].
      split; [|split; [by apply (walk_cache_mono _ _ _ _ _ _ _ Hrec)|done]].
      split; [done|].
      intros h Hh. destruct (walk_stack _ _ _ _ _ _ _ Hrec h Hh) as [?|?];
        [by apply Hss|by left]. }
    { split; [exact Hst|]. intros h Hh. simpl in Hh.
      apply elem_of_union in Hh as [->%elem_of_singleton|Hh];
        [right; by left|].
      destruct (Hanc h (or_intror Hh)) as [?|?]; [by left|right; by right]. }
    assert (Hfull : below f →
              (∀ x, declaredBelow fs f x → x ∈ d ++ childApis)
              ∧ reached (stackDelete f (cacheSet f (d ++ childApis) st2)) f).
    { intros Hbelow. split.
      - intros x (g & dg & ig & Hr & Hg & Hx). apply elem_of_app.
        apply rtc_inv in Hr as [->|(c & Hi & Hr)].
        + left. rewrite Hf in Hg. by injection Hg as <- _.
        + right. pose proof Hi as (d' & i' & Hf' & Hc). rewrite Hf in Hf'.
          injection Hf' as <- <-.
          apply (Hchildren c Hc (below_step _ _ Hbelow Hi)).
          by exists g, dg, ig.
      - intros h Hr Hh. simpl.
        apply rtc_inv in Hr as [->|(c & Hi & Hr)];
          [rewrite lookup_insert_eq; by eexists|].
        pose proof Hi as (d' & i' & Hf' & Hc). rewrite Hf in Hf'.
        injection Hf' as <- <-.
        destruct (proj2 (Hchildren c Hc (below_step _ _ Hbelow Hi)) h Hr Hh)
          as [m Hm].
        destruct (decide (f = h)) as [<-|Hne];
          [rewrite lookup_insert_eq|rewrite lookup_insert_ne by done]; by eexists. }
    split; [|done].
    intros g m Hg Hbelow. simpl in Hg.
    destruct (decide (f = g)) as [<-|Hne].
    + rewrite lookup_insert_eq in Hg. injection Hg as <-. by apply Hfull.
    + rewrite lookup_insert_ne in Hg by done.
      destruct (Hc2 g m Hg Hbelow) as [Hd Hr]. split; [done|].
      intros h Hh Hcomp. destruct (Hr h Hh Hcomp) as [m' Hm']. simpl.
      destruct (decide (f = h)) as [<-|Hne'];
        [rewrite lookup_insert_eq|rewrite lookup_insert_ne by done]; by eexists.
Qed.

Lemma topLevel_complete st st' :
  topLevel fs st st' → complete st →
  (∀ g, g ∈ processingStack st → fs !! g = None) →
  complete st' ∧ ∀ g, g ∈ processingStack st' → fs !! g = None.
Proof.
  induction 1 as [|st E a st1 st2 Hw _ IH]; [done|].
  intros Hst Hstack. apply IH.
  - refine (proj1 (walk_complete _ _ _ _ _ _ Hst _ Hw)).
    intros h [Hh|Hh]; [set_solver|left; by apply Hstack].
  - intros g Hg. destruct (walk_stack _ _ _ _ _ _ _ Hw g Hg); [by apply Hstack|done].
Qed.

Lemma complete_initial : complete initial.
Proof. intros g m Hg. simpl in Hg. by rewrite lookup_empty in Hg. Qed.

(** The walk of an entry that reaches no cycle, anywhere in a pass. *)
Lemma walk_below st E a st' :
  topLevel fs initial st → below E → walk fs E st = Some (a, st') →
  (∀ x, x ∈ a ↔ declaredBelow fs E x)
  ∧ ∀ h, rtc imports E h → isComponent fs h →
      ∃ m, componentCache st' !! h = Some m ∧ ∀ x, x ∈ m ↔ declaredBelow fs h x.
Proof.
  intros Htop Hbelow Hw.
  destruct (topLevel_complete _ _ Htop complete_initial) as [Hst Hstack];
    [set_solver|].
  assert (Hs : cacheSound fs st).
  { apply (topLevel_sound _ _ _ Htop). intros g m x Hg. simpl in Hg.
    by rewrite lookup_empty in Hg. }
  destruct (walk_sound _ _ _ _ _ _ _ Hs Hw) as [Hs' Hsound].
  destruct (walk_complete _ _ _ _ _ _ Hst
              (λ h Hh, match Hh with
                       | or_introl H => False_ind _ (not_elem_of_empty h H)
                       | or_intror H => or_introl (Hstack h H)
                       end) Hw) as [Hst' Hres].
  destruct (Hres Hbelow) as [Hd Hr].
  split; [intros x; split; [apply Hsound|apply Hd]|].
  intros h Hh Hcomp. destruct (Hr h Hh Hcomp) as [m Hm]. exists m.
  split; [done|]. intros x. split; [by apply (Hs' h m x)|].
  by apply (Hst' h m Hm (below_rtc _ _ Hbelow Hh)).
Qed.

End Below.

(** C9, as the code has it.  [S] is a component that exists and is
    processed without error.  Two entries of one pass import it, directly
    or through other files, each of them read and analysed without error,
    and no import cycle is among the files the two entries reach; the rest
    of the disk is arbitrary.  Then both walks return; [S] has been read
    exactly once after the first entry and still exactly once at any later
    point of the pass; the cache holds one and the same list for [S] after
    either entry, namely the descriptors declared in the files [S]
    reaches; and both entries' results include that list. *)
Theorem shared_component_read_once fs rank S E1 E2 st0 :
  acyclicBelow fs rank E1 → acyclicBelow fs rank E2 →
  isComponent fs S → tc (imports fs) E1 S → tc (imports fs) E2 S →
  topLevel fs initial st0 →
  ∃ a1 st1,
    walk fs E1 st0 = Some (a1, st1) ∧
    ∀ st2, topLevel fs st1 st2 →
      ∃ a2 st3,
        walk fs E2 st2 = Some (a2, st3) ∧
        ∀ st4, topLevel fs st3 st4 →
          readCount S st1 = 1 ∧ readCount S st4 = 1
          ∧ ∃ m, componentCache st1 !! S = Some m
                 ∧ componentCache st3 !! S = Some m
                 ∧ (∀ x, x ∈ m ↔ declaredBelow fs S x)
                 ∧ m ⊆ a1 ∧ m ⊆ a2.
Proof.
  intros Hb1 Hb2 HS H1%tc_rtc H2%tc_rtc Htop0.
  destruct (walk_returns fs E1 st0) as (a1 & st1 & Hw1).
  exists a1, st1. split; [done|]. intros st2 Htop1.
  assert (Htop01 : topLevel fs initial st1).
  { eapply topLevel_app; [exact Htop0|]. eapply top_walk; [exact Hw1|apply top_done]. }
  assert (Htop02 : topLevel fs initial st2) by (by eapply topLevel_app).
  destruct (walk_returns fs E2 st2) as (a2 & st3 & Hw2).
  exists a2, st3. split; [done|]. intros st4 Htop3.
  assert (Htop23 : topLevel fs st2 st3).
  { eapply top_walk; [exact Hw2|apply top_done]. }
  assert (Htop04 : topLevel fs initial st4).
  { eapply topLevel_app; [exact Htop02|]. by eapply topLevel_app. }
  destruct (walk_below fs rank _ _ _ _ Htop0 Hb1 Hw1) as [Ha1 Hc1].
  destruct (walk_below fs rank _ _ _ _ Htop02 Hb2 Hw2) as [Ha2 _].
  destruct (Hc1 S H1 HS) as (m & Hm & Hfull).
  assert (Hm3 : componentCache st3 !! S = Some m).
  { by apply (topLevel_kept _ _ _ Htop23), (topLevel_kept _ _ _ Htop1). }
  assert (Hm4 : componentCache st4 !! S = Some m).
  { by apply (topLevel_kept _ _ _ Htop3). }
  split.
  { apply (topLevel_counted _ _ _ Htop01 (counted_initial fs) S HS).
    left. by eexists. }
  split.
  { apply (topLevel_counted _ _ _ Htop04 (counted_initial fs) S HS).
    left. by eexists. }
  exists m. split_and!; [done..| |].
  - intros x Hx. apply Ha1. apply Hfull in Hx as (g & dg & ig & Hr & Hg & Hx).
    exists g, dg, ig. split_and!; [by etrans|done..].
  - intros x Hx. apply Ha2. apply Hfull in Hx as (g & dg & ig & Hr & Hg & Hx).
    exists g, dg, ig. split_and!; [by etrans|done..].
Qed.

End WalkerMore.

(** * Further properties of the aggregator *)

Module AggMore.
Import Regex Json Walker Aggregator WalkerFacts JsonFacts ObjFacts SortFacts
       AggFacts WalkerMore.

Lemma stored_origin c p apis v c' p' t :
  holds (stored c p apis v) c' p' t →
  holds v c' p' t ∨ (c' = c ∧ p' = p ∧ ∃ d, d ∈ apis ∧ t = stringify d).
Proof.
  unfold holds, stored. intros (pages & s & Hc & Hp & Ht).
  destruct (decide (c' = c)) as [->|Hnc].
  - rewrite get_set_eq in Hc. injection Hc as <-.
    destruct (decide (p' = p)) as [->|Hnp].
    + rewrite get_set_eq in Hp. injection Hp as <-.
      apply addAll_elem in Ht as [(d & Hd & ->)|Ht]; [right; eauto|].
      left. destruct (Obj.get c v) as [pages|]; simpl in *.
      * destruct (Obj.get p pages) as [s|] eqn:E; simpl in *;
          [eauto|by apply elem_of_nil in Ht].
      * by apply elem_of_nil in Ht.
    + rewrite get_set_ne in Hp by done. left.
      destruct (Obj.get c v) as [pages|]; simpl in *; [eauto|done].
  - rewrite get_set_ne in Hc by done. left. eauto.
Qed.

Section Origin.
Variable viewsDir : string.
Variable fs : FileSystem.

Local Abbreviation fromEntry all c p t :=
  (∃ E d, E ∈ all ∧ labels viewsDir E = Some (c, p)
          ∧ declaredBelow fs E d ∧ t = stringify d).

Lemma forEachFile_origin (all : list string) files : ∀ v st v' st',
  (∀ E, E ∈ files → E ∈ all) →
  (∀ g m x, componentCache st !! g = Some m → x ∈ m → declaredBelow fs g x) →
  (∀ c p t, holds v c p t → fromEntry all c p t) →
  forEachFile viewsDir fs files (v, st) = Some (v', st') →
  ∀ c p t, holds v' c p t → fromEntry all c p t.
Proof.
  induction files as [|f files IH]; intros v st v' st' Hall Hst Hv;
    [by intros [= <- <-]|rewrite forEachFile_cons].
  destruct (processFileWithConfig viewsDir fs f (v, st)) as [[v1 st1]|] eqn:E;
    [|done].
  apply IH; [intros ? ?; apply Hall; by right| |];
    apply processFile_cases in E
      as [(_ & -> & ->)|(c0 & p0 & apis & Hl & Hw & Hcase)]; try done.
  - by apply (walk_sound _ _ _ _ _ _ _ Hst Hw).
  - destruct Hcase as [[_ ->]|[_ ->]]; [done|].
    intros c p t [?|(-> & -> & d & Hd & ->)]%stored_origin; [by apply Hv|].
    exists f, d. split_and!; [apply Hall; by left|done| |done].
    by apply (walk_sound _ _ _ _ _ _ _ Hst Hw).
Qed.

End Origin.

(** The sets of a pass hold what the entry files reach. *)
Lemma collect_origin viewsDir fs files v st :
  collect viewsDir fs files = Some (v, st) →
  ∀ c p t, holds v c p t →
    ∃ E d, E ∈ files ∧ labels viewsDir E = Some (c, p)
           ∧ declaredBelow fs E d ∧ t = stringify d.
Proof.
  intros Hv.
  eapply (forEachFile_origin viewsDir fs files files); [done| | |exact Hv].
  - intros g m x Hg. simpl in Hg. by rewrite lookup_empty in Hg.
  - intros c p t (pages & s & Hc & _). done.
Qed.

(** The arrays of the output hold the objects of the texts of the sets. *)
Lemma arrays_origin localeCompare v out :
  wfData v → generateApiFile localeCompare v = Some out →
  ∀ arr o, arr ∈ outputArrays out → o ∈ arr →
    ∃ c p d, holds v c p (stringify d) ∧ o = apiFields d.
Proof.
  intros Hwf Hgen arr o Harr Ho.
  destruct (generateApiFile_spec localeCompare v Hwf) as (out' & Hout & Harrs & _).
  rewrite Hgen in Hout. injection Hout as <-.
  destruct (Harrs arr Harr) as (c & pages & Hc & p & s & Hp & Hs & Hsorted).
  destruct (sortedApis_wf localeCompare s Hs) as (l & arr' & -> & Harr' & Hperm & _).
  rewrite Hsorted in Harr'. injection Harr' as <-.
  rewrite Hperm in Ho. apply list_elem_of_fmap in Ho as (d & -> & Hd).
  exists c, p, d. split; [|done].
  exists pages, (map stringify l). split_and!; [done..|].
  by apply list_elem_of_fmap_2.
Qed.

(** X7.  What a pass gathers comes from its entry files: every text of a
    set of [viewApiData] is [JSON.stringify] of a descriptor declared in
    a file that an entry file with that category and page reaches through
    imports, and every object of every array of the output data that
    [generateApiFile] builds from it is the object of such a descriptor.
    Nothing is said on whether the file is written.  The name of the
    views directory holds no character with a special meaning in a regular
    expression. *)
Theorem output_comes_from_entries viewsDir localeCompare fs files
  viewApiData st :
  Forall (λ a, special a = false) (list_ascii_of_string viewsDir) →
  collect viewsDir fs files = Some (viewApiData, st) →
  (∀ c p t, holds viewApiData c p t →
     ∃ E d, E ∈ files ∧ labels viewsDir E = Some (c, p)
            ∧ declaredBelow fs E d ∧ t = stringify d)
  ∧ ∀ out, generateApiFile localeCompare viewApiData = Some out →
      ∀ arr o, arr ∈ outputArrays out → o ∈ arr →
        ∃ E d, E ∈ files ∧ is_Some (labels viewsDir E)
               ∧ declaredBelow fs E d ∧ o = apiFields d.
Proof.
  intros _ Hv.
  assert (wfData viewApiData) as Hwf
    by (eapply forEachFile_wf; [|exact Hv]; constructor).
  split; [by apply (collect_origin _ _ _ _ st)|].
  intros out Hout arr o Harr Ho.
  destruct (arrays_origin _ _ _ Hwf Hout arr o Harr Ho) as (c & p & d & Hh & ->).
  destruct (collect_origin _ _ _ _ _ Hv c p _ Hh) as (E & d' & HE & Hl & Hdecl & Heq).
  apply stringify_inj in Heq as <-.
  exists E, d. split_and!; [done|by rewrite Hl|done..].
Qed.

(** X8.  On an import graph without cycles, when the name of the views
    directory holds no character with a special meaning in a regular
    expression and no entry file has a category that [viewApiData]
    inherits from [Object.prototype], the sets of [viewApiData] after a
    pass are exact: the set of a category
    and a page holds the text of a descriptor if and only if the
    descriptor is declared in a file that some entry file with these
    labels reaches through imports. *)
Theorem acyclic_pass_is_exact viewsDir fs rank files :
  acyclic fs rank →
  Forall (λ a, special a = false) (list_ascii_of_string viewsDir) →
  Forall (λ F, ownCategory viewsDir F = true) files →
  ∃ viewApiData st,
    collect viewsDir fs files = Some (viewApiData, st)
    ∧ ∀ c p t, holds viewApiData c p t ↔
        ∃ E d, E ∈ files ∧ labels viewsDir E = Some (c, p)
               ∧ declaredBelow fs E d ∧ t = stringify d.
Proof.
  intros Hacyclic _ _.
  destruct (forEachFile_returns viewsDir fs files [] initial) as (v & st & Hv).
  exists v, st. split; [done|]. intros c p t. split.
  - eapply (forEachFile_origin viewsDir fs files files); [done| | |exact Hv].
    + intros g m x Hg. simpl in Hg. by rewrite lookup_empty in Hg.
    + intros c' p' t' (pages & s & Hc & _). done.
  - intros (E & d & HE & Hl & Hd & ->).
    apply list_elem_of_split in HE as (before & after & ->).
    rewrite forEachFile_app in Hv.
    destruct (forEachFile viewsDir fs before ([], initial)) as [[v0 st0]|] eqn:Hb;
      [|done].
    rewrite forEachFile_cons in Hv.
    destruct (walk_returns fs E st0) as (apis & st1 & Hw).
    pose proof (forEachFile_topLevel _ _ _ _ _ _ _ Hb) as Htop.
    destruct (topLevel_settled fs rank Hacyclic _ _ Htop
                (settled_initial fs rank Hacyclic)) as [Hst0 _].
    destruct (walk_settled fs rank Hacyclic _ _ _ _ Hst0 Hw) as (_ & Heq & _).
    assert (Hin : d ∈ apis) by (rewrite Heq; by apply fullApis_declared).
    assert (processFileWithConfig viewsDir fs E (v0, st0)
            = Some (stored c p apis v0, st1)) as Hproc.
    { unfold processFileWithConfig. rewrite Hl, Hw.
      destruct apis; [by apply elem_of_nil in Hin|done]. }
    rewrite Hproc in Hv.
    eapply forEachFile_holds; [|exact Hv]. by apply stored_records.
Qed.

End AggMore.

(** * The matcher and the matches of a pattern *)

Module SemanticsFacts.
Import Regex Semantics RegexFacts UsageFacts.

Lemma star_loop_sound {A} (R : cursor → cursor → Prop) body greedy
  (k : cursor → option A) n :
  (∀ c k' x, body c k' = Some x → ∃ c', R c c' ∧ k' c' = Some x) →
  ∀ c x, star_loop body greedy k n c = Some x →
    ∃ c', rtc R c c' ∧ k c' = Some x.
Proof.
  intros Hbody. induction n as [|n IH]; intros c x; simpl.
  { intros H. exists c. split; [apply rtc_refl|done]. }
  assert (Hagain : ∀ y,
    body c (λ c', if length (rest c') <? length (rest c)
                  then star_loop body greedy k n c' else None) = Some y →
    ∃ c', rtc R c c' ∧ k c' = Some y).
  { intros y (c1 & HR & H1)%Hbody.
    destruct (_ <? _); [|done].
    apply IH in H1 as (c' & Hrtc & Hk). exists c'. split; [|done].
    by eapply rtc_l. }
  destruct greedy.
  - destruct (body c _) as [y|] eqn:E.
    + intros [= ->]. by apply Hagain.
    + intros H. exists c. split; [apply rtc_refl|done].
  - destruct (k c) as [y|] eqn:E.
    + intros [= ->]. exists c. split; [apply rtc_refl|done].
    + apply Hagain.
Qed.

(** The matcher is sound: a successful run hands the continuation a cursor
    that the pattern reaches. *)
Lemma run_sound {A} r : ∀ c (k : cursor → option A) x,
  run r c k = Some x → ∃ c', reach r c c' ∧ k c' = Some x.
Proof.
  induction r as [|a|p|r1 IH1 r2 IH2|r1 IH1 r2 IH2|g r IH|i r IH|];
    intros c k x; simpl.
  - eauto.
  - destruct (step c) as [[y c']|]; [|done].
    destruct (Ascii.eqb_spec y a) as [->|]; [eauto|done].
  - destruct (step c) as [[y c']|]; [|done].
    destruct (p y) eqn:E; [eauto|done].
  - intros (c1 & H1 & H2)%IH1. apply IH2 in H2 as (c' & H2 & Hk). eauto.
  - destruct (run r1 c k) as [y|] eqn:E.
    + intros [= ->]. apply IH1 in E as (c' & ? & ?). eauto.
    + intros (c' & ? & ?)%IH2. eauto.
  - apply star_loop_sound. intros c0 k' y. apply IH.
  - intros (c1 & H1 & Hk)%IH. eauto.
  - destruct (rest c) eqn:E; [eauto|done].
Qed.

Lemma ahead_refl c : ahead [] c c.
Proof. done. Qed.

Lemma ahead_trans s1 s2 c c1 c2 :
  ahead s1 c c1 → ahead s2 c1 c2 → ahead (s1 ++ s2) c c2.
Proof.
  intros [H1 H1'] [H2 H2']. split.
  - by rewrite H1, H2, app_assoc.
  - by rewrite H2', H1', rev_app_distr, app_assoc.
Qed.

Lemma ahead_unique s1 s2 c c' : ahead s1 c c' → ahead s2 c c' → s1 = s2.
Proof.
  intros [H1 _] [H2 _]. rewrite H1 in H2. by apply app_inv_tail in H2.
Qed.

Lemma step_ahead c a c' : step c = Some (a, c') → ahead [a] c c' ∧ caps c' = caps c.
Proof.
  unfold step. destruct c as [b [|y t] cs]; simpl; [done|].
  intros [= <- <-]. done.
Qed.

(** What a pattern reaches lies ahead in the same subject. *)
Lemma reach_ahead r : ∀ c c', reach r c c' → ∃ s, ahead s c c'.
Proof.
  induction r as [|a|p|r1 IH1 r2 IH2|r1 IH1 r2 IH2|g r IH|i r IH|];
    intros c c'; simpl.
  - intros ->. by exists [].
  - intros [H _]%step_ahead. eauto.
  - intros (x & _ & [H _]%step_ahead). eauto.
  - intros (c1 & (s1 & H1)%IH1 & (s2 & H2)%IH2).
    exists (s1 ++ s2). by eapply ahead_trans.
  - intros [H|H]; [by apply IH1|by apply IH2].
  - induction 1 as [|c0 c1 c2 H1 _ (s2 & H2)]; [by exists []|].
    apply IH in H1 as (s1 & H1). exists (s1 ++ s2). by eapply ahead_trans.
  - intros (c1 & (s & H)%IH & ->). exists s. done.
  - intros [_ ->]. by exists [].
Qed.

Lemma reach_groupless r : groupless r = true →
  ∀ c c', reach r c c' → caps c' = caps c.
Proof.
  induction r as [|a|p|r1 IH1 r2 IH2|r1 IH1 r2 IH2|g r IH|i r IH|];
    intros Hg c c'; simpl in *; try done.
  - by intros ->.
  - by intros [_ H]%step_ahead.
  - by intros (x & _ & [_ H]%step_ahead).
  - apply andb_true_iff in Hg as [Hg1 Hg2].
    intros (c1 & H1 & H2). rewrite (IH2 Hg2 _ _ H2). by apply IH1.
  - apply andb_true_iff in Hg as [Hg1 Hg2].
    intros [H|H]; [by apply IH1|by apply IH2].
  - induction 1 as [|c0 c1 c2 H1 _ IH']; [done|].
    rewrite IH'. by apply IH.
  - by intros [_ ->].
Qed.

Lemma ahead_between s c c' : ahead s c c' → between c c' = s.
Proof.
  intros [H _]. unfold between. rewrite H, length_app.
  replace (length s + length (rest c') - length (rest c')) with (length s) by lia.
  by rewrite take_app_length.
Qed.

Lemma ahead_length s c c' : ahead s c c' → length (rest c) = length s + length (rest c').
Proof. intros [H _]. by rewrite H, length_app. Qed.

(** A repetition of a class passes characters of the class only. *)
Lemma reach_star_class g P c c' :
  reach (Star g (Class P)) c c' →
  ∃ s, ahead s c c' ∧ Forall (λ a, P a = true) s ∧ caps c' = caps c.
Proof.
  simpl. induction 1 as [c|c0 c1 c2 (x & Hx & [H1 Hc]%step_ahead) _ (s & H2 & Hs & Hc2)].
  - by exists [].
  - exists ([x] ++ s). split_and!.
    + by eapply ahead_trans.
    + by constructor.
    + by rewrite Hc2.
Qed.

Lemma reach_plus_class g P c c' :
  reach (Plus g (Class P)) c c' →
  ∃ s, s ≠ [] ∧ ahead s c c' ∧ Forall (λ a, P a = true) s ∧ caps c' = caps c.
Proof.
  unfold Plus. intros (c1 & (x & Hx & [H1 Hc]%step_ahead) & H).
  apply reach_star_class in H as (s & H2 & Hs & Hc2).
  exists ([x] ++ s). split_and!.
  - done.
  - by eapply ahead_trans.
  - by constructor.
  - by rewrite Hc2.
Qed.

Lemma reach_Lit l : ∀ c c', reach (Lit l) c c' → ahead l c c' ∧ caps c' = caps c.
Proof.
  induction l as [|a l IH]; intros c c'; simpl.
  - by intros ->.
  - intros (c1 & [H1 Hc]%step_ahead & [H2 Hc2]%IH). split.
    + by apply (ahead_trans [a] l _ c1).
    + by rewrite Hc2.
Qed.

(** One attempt at one position. *)
Lemma match_here_sound r before after n cs :
  match_here r before after = Some (n, cs) →
  ∃ c' s, reach r (Cursor before after []) c' ∧ ahead s (Cursor before after []) c'
          ∧ n = length s ∧ cs = caps c'.
Proof.
  unfold match_here. intros (c' & Hr & [= <- <-])%run_sound.
  destruct (reach_ahead _ _ _ Hr) as (s & Hs).
  exists c', s. split_and!; [done..| |done].
  apply ahead_length in Hs. simpl in Hs. lia.
Qed.

(** Every match of a scan is a match of the pattern somewhere in the
    subject. *)
Lemma scan_sound r : ∀ after skip before f,
  f ∈ scan r skip before after →
  ∃ pre post c',
    after = pre ++ matched f ++ post
    ∧ at_index f = length before + length pre
    ∧ reach r (Cursor (rev pre ++ before) (matched f ++ post) []) c'
    ∧ ahead (matched f) (Cursor (rev pre ++ before) (matched f ++ post) []) c'
    ∧ groups f = caps c'.
Proof.
  assert (Hshift : ∀ a t before f,
    (∃ pre post c',
       t = pre ++ matched f ++ post
       ∧ at_index f = length (a :: before) + length pre
       ∧ reach r (Cursor (rev pre ++ a :: before) (matched f ++ post) []) c'
       ∧ ahead (matched f) (Cursor (rev pre ++ a :: before) (matched f ++ post) []) c'
       ∧ groups f = caps c') →
    ∃ pre post c',
      a :: t = pre ++ matched f ++ post
      ∧ at_index f = length before + length pre
      ∧ reach r (Cursor (rev pre ++ before) (matched f ++ post) []) c'
      ∧ ahead (matched f) (Cursor (rev pre ++ before) (matched f ++ post) []) c'
      ∧ groups f = caps c').
  { intros a t before f (pre & post & c' & -> & Hi & Hr & Ha & Hg).
    exists (a :: pre), post, c'. simpl. rewrite <- app_assoc. simpl.
    split_and!; try done; simpl in Hi; lia. }
  induction after as [|a t IH]; intros skip before f.
  - destruct skip as [|skip]; simpl; [|by intros ?%elem_of_nil].
    destruct (match_here r before []) as [[n cs]|] eqn:E;
      [|by intros ?%elem_of_nil].
    intros ->%list_elem_of_singleton. simpl.
    apply match_here_sound in E as (c' & s & Hr & Ha & -> & ->).
    pose proof Ha as [Hs _]. simpl in Hs.
    destruct s; [|done]. simpl.
    exists [], [], c'. simpl. split_and!; try done; lia.
  - destruct skip as [|skip]; simpl.
    + destruct (match_here r before (a :: t)) as [[n cs]|] eqn:E.
      * intros [->|Hin]%elem_of_cons.
        -- apply match_here_sound in E as (c' & s & Hr & Ha & -> & ->).
           pose proof Ha as [Hs _]. simpl in Hs. simpl.
           rewrite Hs, take_app_length.
           exists [], (rest c'), c'. simpl. rewrite <- Hs.
           split_and!; try done; lia.
        -- apply Hshift. by eapply IH.
      * intros Hin. apply Hshift. by eapply IH.
    + intros Hin. apply Hshift. by eapply IH.
Qed.

Lemma match_all_sound r s f :
  f ∈ match_all r s →
  ∃ pre post c',
    s = pre ++ matched f ++ post
    ∧ at_index f = length pre
    ∧ reach r (Cursor (rev pre) (matched f ++ post) []) c'
    ∧ ahead (matched f) (Cursor (rev pre) (matched f ++ post) []) c'
    ∧ groups f = caps c'.
Proof.
  intros (pre & post & c' & H)%scan_sound.
  exists pre, post, c'. by rewrite app_nil_r in H.
Qed.

Lemma exec_from_sound r : ∀ after before f,
  exec_from r before after = Some f →
  ∃ pre post c',
    after = pre ++ matched f ++ post
    ∧ at_index f = length before + length pre
    ∧ reach r (Cursor (rev pre ++ before) (matched f ++ post) []) c'
    ∧ ahead (matched f) (Cursor (rev pre ++ before) (matched f ++ post) []) c'
    ∧ groups f = caps c'.
Proof.
  induction after as [|a t IH]; intros before f; simpl.
  - destruct (match_here r before []) as [[n cs]|] eqn:E; [|done].
    intros [= <-]. simpl.
    apply match_here_sound in E as (c' & s & Hr & Ha & -> & ->).
    pose proof Ha as [Hs _]. simpl in Hs. destruct s; [|done]. simpl.
    exists [], [], c'. simpl. split_and!; try done; lia.
  - destruct (match_here r before (a :: t)) as [[n cs]|] eqn:E.
    + intros [= <-].
      apply match_here_sound in E as (c' & s & Hr & Ha & -> & ->).
      pose proof Ha as [Hs _]. simpl in Hs. simpl.
      rewrite Hs, take_app_length.
      exists [], (rest c'), c'. simpl. rewrite <- Hs.
      split_and!; try done; lia.
    + intros (pre & post & c' & -> & Hi & Hr & Ha & Hg)%IH.
      exists (a :: pre), post, c'. simpl. rewrite <- app_assoc. simpl.
      split_and!; try done; simpl in Hi; lia.
Qed.

(** The matcher is complete: where the pattern reaches a cursor that the
    continuation accepts, the run succeeds (with the first success in the
    order of the language, which may be another one). *)
Lemma star_class_complete {A} P g (k : cursor → option A) c c' x :
  rtc (reach (Class P)) c c' → k c' = Some x →
  ∀ n, length (rest c) ≤ n →
    ∃ y, star_loop (λ c0 k', run (Class P) c0 k') g k n c = Some y.
Proof.
  intros Hrtc Hk. induction Hrtc as [c|c c1 c' (a & Ha & Hstep) _ IH]; intros n Hn.
  - destruct n; cbn [star_loop]; [eauto|]. destruct g.
    + destruct (run (Class P) c _); [eauto|]. rewrite Hk. eauto.
    + rewrite Hk. eauto.
  - specialize (IH Hk).
    pose proof (step_ahead _ _ _ Hstep) as [Hahead _].
    apply ahead_length in Hahead. simpl in Hahead.
    destruct n as [|n]; [lia|]. destruct (IH n) as [y Hy]; [lia|].
    assert (Hrun : ∀ k0 : cursor → option A, run (Class P) c k0 = k0 c1).
    { intros k0. simpl. by rewrite Hstep, Ha. }
    cbn [star_loop]. rewrite Hrun.
    rewrite (proj2 (Nat.ltb_lt _ _)) by lia. rewrite Hy.
    destruct g; [eauto|]. destruct (k c); eauto.
Qed.

Lemma run_complete {A} r : classStars r = true →
  ∀ c c' (k : cursor → option A) x,
    reach r c c' → k c' = Some x → ∃ y, run r c k = Some y.
Proof.
  induction r as [|a|p|r1 IH1 r2 IH2|r1 IH1 r2 IH2|g r IH|i r IH|];
    intros Hcs c c' k x; simpl in *.
  - intros -> Hk. eauto.
  - intros -> Hk. rewrite Ascii.eqb_refl. eauto.
  - intros (a & Ha & ->) Hk. rewrite Ha. eauto.
  - apply andb_true_iff in Hcs as [H1 H2].
    intros (c1 & Hr1 & Hr2) Hk.
    destruct (IH2 H2 _ _ _ _ Hr2 Hk) as [y Hy].
    by apply (IH1 H1 _ _ _ _ Hr1 Hy).
  - apply andb_true_iff in Hcs as [H1 H2].
    intros [Hr|Hr] Hk.
    + destruct (IH1 H1 _ _ _ _ Hr Hk) as [y ->]. eauto.
    + destruct (run r1 c k); [eauto|]. by apply (IH2 H2 _ _ _ _ Hr Hk).
  - destruct r; try done. intros Hr Hk.
    by apply (star_class_complete _ _ _ _ _ _ Hr Hk).
  - intros (c1 & Hr & ->) Hk. by apply (IH Hcs _ _ _ _ Hr Hk).
  - intros [Hrest ->] Hk. rewrite Hrest. eauto.
Qed.

Lemma match_here_complete r before after c' :
  classStars r = true → reach r (Cursor before after []) c' →
  is_Some (match_here r before after).
Proof.
  intros Hcs Hr. unfold match_here.
  destruct (run_complete r Hcs _ _
              (λ c', Some (length after - length (rest c'), caps c')) _
              Hr eq_refl) as [y Hy].
  by exists y.
Qed.

Lemma in_flat_map_iff {A B} (f : A → list B) l x :
  x ∈ flat_map f l ↔ ∃ y, y ∈ l ∧ x ∈ f y.
Proof.
  rewrite list_elem_of_In, in_flat_map. split.
  - intros (y & ?%list_elem_of_In & ?%list_elem_of_In). eauto.
  - intros (y & ?%list_elem_of_In & ?%list_elem_of_In). eauto.
Qed.

End SemanticsFacts.

(** * Further properties of the catalogue *)

Module CatalogMore.
Import Regex Catalog Semantics RegexFacts UsageFacts SemanticsFacts Scenarios.

Lemma match1_sound r s v :
  match1 r s = Some v →
  ∃ pre m post c',
    s = pre ++ m ++ post
    ∧ reach r (Cursor (rev pre) (m ++ post) []) c'
    ∧ group 1 (caps c') = Some v.
Proof.
  unfold match1, exec. destruct (exec_from r [] s) as [f|] eqn:E; [|done].
  apply exec_from_sound in E as (pre & post & c' & -> & _ & Hr & _ & Hg).
  rewrite app_nil_r in Hr. rewrite Hg. eauto 10.
Qed.

(** A pattern of pieces without groups around one captured run of a
    class: the capture is a non-empty run of the class. *)
Lemma reach_skip p r c c' :
  groupless p = true → reach (Seq p r) c c' →
  ∃ c1, caps c1 = caps c ∧ reach r c1 c'.
Proof.
  intros Hp (c1 & H1 & H2). exists c1. split; [|done].
  by apply (reach_groupless p Hp).
Qed.

Lemma reach_captured i g P post c c' :
  groupless post = true →
  reach (Seq (Group i (Plus g (Class P))) post) c c' →
  ∃ s, s ≠ [] ∧ Forall (λ a, P a = true) s ∧ caps c' = (i, s) :: caps c.
Proof.
  intros Hpost (c1 & (c0 & H0 & ->) & H2).
  apply reach_plus_class in H0 as (s & Hne & Ha & Hs & Hc).
  exists s. split_and!; [done..|].
  rewrite (reach_groupless post Hpost _ _ H2). simpl.
  by rewrite (ahead_between _ _ _ Ha), Hc.
Qed.

Lemma declaration_name kw last s v :
  match1 (seqs [lit "export"; ws1; lit kw; ws1; Group 1 word1; ws; Char last]) s
  = Some v →
  v ≠ [] ∧ Forall (λ a, is_word a = true) v.
Proof.
  intros (pre & m & post & c' & _ & Hr & Hg)%match1_sound.
  unfold seqs in Hr.
  assert (Hl : ∀ x, groupless (lit x) = true).
  { intros x. unfold lit. induction (list_ascii_of_string x); simpl; auto. }
  apply reach_skip in Hr as (c1 & Hc1 & Hr); [|apply Hl].
  apply reach_skip in Hr as (c2 & Hc2 & Hr); [|done].
  apply reach_skip in Hr as (c3 & Hc3 & Hr); [|apply Hl].
  apply reach_skip in Hr as (c4 & Hc4 & Hr); [|done].
  apply reach_captured in Hr as (w & Hne & Hw & Hc); [|done].
  rewrite Hc in Hg. simpl in Hg. by injection Hg as <-.
Qed.

Lemma field_value name s v :
  match1 (fieldRe name) s = Some v →
  v ≠ [] ∧ Forall (λ a, not_quote3 a = true) v.
Proof.
  intros (pre & m & post & c' & _ & Hr & Hg)%match1_sound.
  unfold fieldRe, seqs in Hr.
  assert (Hl : ∀ x, groupless (lit x) = true).
  { intros x. unfold lit. induction (list_ascii_of_string x); simpl; auto. }
  apply reach_skip in Hr as (c1 & Hc1 & Hr); [|apply Hl].
  apply reach_skip in Hr as (c2 & Hc2 & Hr); [|done].
  apply reach_skip in Hr as (c3 & Hc3 & Hr); [|done].
  apply reach_skip in Hr as (c4 & Hc4 & Hr); [|done].
  apply reach_captured in Hr as (w & Hne & Hw & Hc); [|done].
  rewrite Hc in Hg. simpl in Hg. by injection Hg as <-.
Qed.

(** [replace] builds its result from the subject and the replacement. *)
Lemma replace_scan_Forall (Q : ascii → Prop) r by_ : ∀ after skip before,
  Forall Q by_ → Forall Q after → Forall Q (replace_scan r by_ skip before after).
Proof.
  induction after as [|a t IH]; intros skip before Hby Ha.
  - destruct skip; simpl; [|done].
    destruct (match_here r before []) as [[n cs]|]; [|done].
    by rewrite app_nil_r.
  - inversion Ha; subst. destruct skip as [|skip]; simpl; [|by apply IH].
    destruct (match_here r before (a :: t)) as [[n cs]|].
    + apply Forall_app. split; [done|].
      destruct n; [constructor; [done|]|]; by apply IH.
    + constructor; [done|by apply IH].
Qed.

Lemma replace_scan_nonempty r by_ after before :
  by_ ≠ [] → after ≠ [] → replace_scan r by_ 0 before after ≠ [].
Proof.
  intros Hby Ha. destruct after as [|a t]; [done|]. simpl.
  destruct (match_here r before (a :: t)) as [[n cs]|]; [|done].
  destruct by_; done.
Qed.

(** Where nothing matches, [replace] changes nothing. *)
Lemma replace_scan_none r by_ : ∀ after before,
  (∀ pre post b, after = pre ++ post → match_here r b post = None) →
  replace_scan r by_ 0 before after = after.
Proof.
  induction after as [|a t IH]; intros before Hno; simpl.
  - by rewrite (Hno [] [] before).
  - rewrite (Hno [] (a :: t) before) by done. f_equal. apply IH.
    intros pre post b ->. by apply (Hno (a :: pre) post b).
Qed.

Lemma concat_needs_plus b s n cs :
  match_here concatRe b s = Some (n, cs) → "+"%char ∈ s.
Proof.
  intros (c' & m & Hr & _)%match_here_sound.
  destruct Hr as (c1 & (s1 & [H1 _])%reach_ahead & c2 & [[H2 _] _]%step_ahead & _).
  simpl in H1, H2. rewrite H1, H2. set_solver.
Qed.

Lemma upper_upper a : upper (upper a) = upper a.
Proof.
  destruct a as [[] [] [] [] [] [] [] []]; vm_compute; reflexivity.
Qed.

Lemma chars_str l : chars (str l) = l.
Proof. apply list_ascii_of_string_of_list_ascii. Qed.

Lemma analyzeMatch_shape kw last m d :
  d ∈ analyzeMatch
        (seqs [lit "export"; ws1; lit kw; ws1; Group 1 word1; ws; Char last]) m →
  (∃ name, functionName d = Some (str name) ∧ name ≠ []
           ∧ Forall (λ a, is_word a = true) name)
  ∧ chars (url d) ≠ []
  ∧ Forall (λ a, not_quote3 a = true) (chars (url d))
  ∧ toUpperCase (chars (method d)) = chars (method d).
Proof.
  unfold analyzeMatch.
  destruct (match1 _ m) as [name|] eqn:Hname; [|by intros ?%elem_of_nil].
  destruct (match1 requestRe m) as [body|]; [|by intros ?%elem_of_nil].
  destruct (match1 urlRe body) as [u|] eqn:Hu; [|by intros ?%elem_of_nil].
  intros ->%list_elem_of_singleton. simpl.
  apply declaration_name in Hname as [Hne Hw].
  apply field_value in Hu as [Hune Hu].
  split_and!.
  - by exists name.
  - rewrite chars_str. unfold cleanUrl, replace_all.
    by apply replace_scan_nonempty.
  - rewrite chars_str. apply replace_scan_Forall; [|done].
    by repeat constructor.
  - rewrite chars_str.
    destruct (match1 methodRe body) as [x|]; [|done].
    unfold toUpperCase. rewrite map_map. apply map_ext. intros a. apply upper_upper.
Qed.

(** X9.  Every descriptor of the catalogue carries a function name, a
    non-empty run of word characters; its url is not empty and holds none
    of the three quote characters; its method holds no lower-case letter
    ([toUpperCase] leaves it as it is). *)
Theorem catalogued_descriptor_shape code d :
  d ∈ analyzeApiCode code →
  (∃ name, functionName d = Some (str name) ∧ name ≠ []
           ∧ Forall (λ a, is_word a = true) name)
  ∧ chars (url d) ≠ []
  ∧ Forall (λ a, not_quote3 a = true) (chars (url d))
  ∧ toUpperCase (chars (method d)) = chars (method d).
Proof.
  unfold analyzeApiCode.
  intros [(f & _ & Hd)%in_flat_map_iff|(f & _ & Hd)%in_flat_map_iff]%elem_of_app.
  - by apply (analyzeMatch_shape "const" "="%char (matched f)).
  - by apply (analyzeMatch_shape "function" "("%char (matched f)).
Qed.

Lemma catalogued_descriptor_shape_witness :
  mkApi "/user/" "GET" (Some "getUser") ∈ analyzeApiCode getUserModule
  ∧ (∃ name, Some "getUser" = Some (str name) ∧ name ≠ []
             ∧ Forall (λ a, is_word a = true) name)
  ∧ chars "/user/" ≠ []
  ∧ Forall (λ a, not_quote3 a = true) (chars "/user/")
  ∧ toUpperCase (chars "GET") = chars "GET".
Proof.
  assert (H : mkApi "/user/" "GET" (Some "getUser") ∈ analyzeApiCode getUserModule).
  { vm_compute. apply list_elem_of_here. }
  split; [exact H|].
  exact (catalogued_descriptor_shape getUserModule _ H).
Defined.

(** X10.  A url without the character [+] is catalogued as it is written:
    [cleanUrl] changes nothing where there is no concatenation. *)
Theorem plain_url_is_unchanged u :
  "+"%char ∉ u → cleanUrl u = u.
Proof.
  intros Hno. unfold cleanUrl, replace_all. apply replace_scan_none.
  intros pre post b -> .
  destruct (match_here concatRe b post) as [[n cs]|] eqn:E; [|done].
  apply concat_needs_plus in E. destruct Hno. set_solver.
Qed.

Lemma plain_url_is_unchanged_witness :
  "+"%char ∉ chars "/system/user/list"
  ∧ cleanUrl (chars "/system/user/list") = chars "/system/user/list".
Proof.
  assert (H : "+"%char ∉ chars "/system/user/list").
  { intros H. vm_compute in H. repeat (apply elem_of_cons in H as [H|H]; [discriminate H|]).
    by apply elem_of_nil in H. }
  split; [exact H|]. exact (plain_url_is_unchanged _ H).
Defined.

End CatalogMore.

(** * Further properties of the usage detection *)

Module UsageMore.
Import Regex Catalog Usage Semantics RegexFacts UsageFacts SemanticsFacts Scenarios.

(** The text of a match of the literal pattern. *)
Lemma urlLiteral_matched c c' m :
  reach urlLiteralRe c c' → ahead m c c' →
  ∃ sp q1 p q2,
    m = urlLiteral sp q1 ("/"%char :: p) q2
    ∧ Forall (λ a, is_space a = true) sp ∧ quote2 q1 = true ∧ quote2 q2 = true
    ∧ p ≠ [] ∧ Forall (λ a, not_quote2 a = true) p.
Proof.
  intros Hr Hm. unfold urlLiteralRe, seqs in Hr.
  destruct Hr as (c1 & [H1 _]%reach_Lit & c2 & (sp & H2 & Hsp & _)%reach_star_class
                  & c3 & (q1 & Hq1 & [H3 _]%step_ahead)
                  & c4 & (c4' & (c40 & [H4 _]%step_ahead
                                 & (p & Hne & H5 & Hp & _)%reach_plus_class) & ->)
                  & c5 & (q2 & Hq2 & [H6 _]%step_ahead) & ->).
  exists sp, q1, p, q2. split_and!; try done.
  eapply ahead_unique; [exact Hm|].
  unfold urlLiteral.
  replace (chars "url:" ++ sp ++ q1 :: ("/"%char :: p) ++ [q2])
    with (list_ascii_of_string "url:" ++ sp ++ [q1] ++ (["/"%char] ++ p) ++ [q2])
    by done.
  eapply ahead_trans; [exact H1|].
  eapply ahead_trans; [exact H2|].
  eapply ahead_trans; [exact H3|].
  eapply ahead_trans; [|exact H6].
  destruct (ahead_trans _ _ _ _ _ H4 H5) as [G1 G2]. split; done.
Qed.

(** X11.  Every descriptor of the literal detection has the method
    [UNKNOWN], no function name and a url that starts with a slash. *)
Theorem literal_descriptor_shape code d :
  d ∈ extractUrlLiterals code →
  method d = "UNKNOWN" ∧ functionName d = None
  ∧ ∃ t, Usage.chars (url d) = "/"%char :: t.
Proof.
  unfold extractUrlLiterals.
  intros (f & -> & (pre & post & c' & _ & _ & Hr & Hm & _)%match_all_sound)%list_elem_of_fmap.
  split_and!; [done..|]. simpl.
  destruct (urlLiteral_matched _ _ _ Hr Hm)
    as (sp & q1 & p & q2 & -> & Hsp & Hq1 & Hq2 & Hne & Hp).
  unfold Usage.chars. rewrite list_ascii_of_string_of_list_ascii.
  unfold stripUrl, replace_all, urlLiteral.
  pose proof (match_prefix [] sp q1 (("/"%char :: p) ++ [q2]) Hsp Hq1) as Hmp.
  change (Usage.chars "url:" ++ sp ++ q1 :: ("/"%char :: p) ++ [q2])
    with ("u"%char :: (Usage.chars "rl:" ++ sp ++ q1 :: ("/"%char :: p) ++ [q2])) in *.
  cbn [replace_scan]. rewrite Hmp.
  replace (length (Usage.chars "url:" ++ sp ++ [q1]))
    with (S (length (Usage.chars "rl:" ++ sp ++ [q1])))
    by (rewrite !length_app; simpl; lia).
  cbn [app].
  replace (Usage.chars "rl:" ++ sp ++ q1 :: "/"%char :: p ++ [q2])
    with ((Usage.chars "rl:" ++ sp ++ [q1]) ++ (("/"%char :: p) ++ [q2]))
    by (simpl; rewrite <- app_assoc; reflexivity).
  rewrite replace_scan_skip.
  change (replace_scan urlPrefixOrQuoteRe [] 0
            (rev (Usage.chars "rl:" ++ sp ++ [q1]) ++ ["u"%char])
            (("/"%char :: p) ++ [q2]))
    with (match match_here urlPrefixOrQuoteRe
                  (rev (Usage.chars "rl:" ++ sp ++ [q1]) ++ ["u"%char])
                  (("/"%char :: p) ++ [q2]) with
          | Some (n, _) =>
              [] ++ match n with
                    | O => "/"%char :: replace_scan urlPrefixOrQuoteRe [] 0
                             ("/"%char :: rev (Usage.chars "rl:" ++ sp ++ [q1]) ++ ["u"%char])
                             (p ++ [q2])
                    | S n' => replace_scan urlPrefixOrQuoteRe [] n'
                             ("/"%char :: rev (Usage.chars "rl:" ++ sp ++ [q1]) ++ ["u"%char])
                             (p ++ [q2])
                    end
          | None => "/"%char :: replace_scan urlPrefixOrQuoteRe [] 0
                      ("/"%char :: rev (Usage.chars "rl:" ++ sp ++ [q1]) ++ ["u"%char])
                      (p ++ [q2])
          end).
  rewrite (match_prefix_none q2); [eauto|done|].
  intros t Ht. discriminate Ht.
Qed.

Lemma literal_descriptor_shape_witness :
  mkApi "/api/list" "UNKNOWN" None ∈ extractUrlLiterals sampleCode
  ∧ "UNKNOWN" = "UNKNOWN" ∧ (None : option string) = None
  ∧ ∃ t, Usage.chars "/api/list" = "/"%char :: t.
Proof.
  assert (H : mkApi "/api/list" "UNKNOWN" None ∈ extractUrlLiterals sampleCode).
  { vm_compute. apply list_elem_of_here. }
  split; [exact H|].
  exact (literal_descriptor_shape sampleCode _ H).
Defined.

(** X12.  [findApiByFunctionName] returns the first descriptor of the list
    whose function name is the given name, and nothing when no descriptor
    has it: the comparison is exact and a descriptor without a function
    name is never returned. *)
Theorem findApiByFunctionName_first apis name :
  match findApiByFunctionName apis name with
  | Some api =>
      ∃ pre post, apis = pre ++ api :: post
                  ∧ functionName api = Some name
                  ∧ Forall (λ a, functionName a ≠ Some name) pre
  | None => Forall (λ a, functionName a ≠ Some name) apis
  end.
Proof.
  induction apis as [|api t IH]; simpl; [done|].
  destruct (decide (functionName api = Some name)) as [Heq|Hne].
  - by exists [], t.
  - destruct (findApiByFunctionName t name) as [x|].
    + destruct IH as (pre & post & -> & Hx & Hpre).
      exists (api :: pre), post. split_and!; [done..|by constructor].
    + by constructor.
Qed.

End UsageMore.

(** * Properties of the string methods *)

Module StrFacts.
Import Regex Str.

Lemma startsWith_spec s p : startsWith s p = true ↔ ∃ t, s = p ++ t.
Proof.
  revert s. induction p as [|a p IH]; intros s; simpl.
  - destruct s; simpl; (split; [intros _; by eexists|done]).
  - destruct s as [|b s]; simpl.
    + split; [done|by intros (t & ?)].
    + rewrite andb_true_iff, IH. split.
      * intros [->%Ascii.eqb_eq (t & ->)]. by exists t.
      * intros (t & [= -> ->]). split; [apply Ascii.eqb_refl|by exists t].
Qed.

Lemma startsWith_app p t : startsWith (p ++ t) p = true.
Proof. apply startsWith_spec. by exists t. Qed.

Lemma firstAt_here s p : startsWith s p = true → firstAt s p = Some 0.
Proof. intros H. destruct s; cbn [firstAt]; by rewrite H. Qed.

Lemma firstAt_Some s p : ∀ j,
  firstAt s p = Some j → j ≤ length s ∧ startsWith (skipn j s) p = true.
Proof.
  induction s as [|a s IH]; intros j; cbn [firstAt].
  - destruct (startsWith [] p) eqn:E; [|done]. by intros [= <-].
  - destruct (startsWith (a :: s) p) eqn:E.
    + intros [= <-]. split; [simpl; lia|done].
    + destruct (firstAt s p) as [i|]; [|done]. intros [= <-].
      destruct (IH i eq_refl). split; [simpl; lia|done].
Qed.

Lemma lastAt_None s p :
  lastAt s p = None → ∀ j, j ≤ length s → startsWith (skipn j s) p = false.
Proof.
  induction s as [|a s IH]; cbn [lastAt].
  - destruct (startsWith [] p) eqn:E; [done|]. intros _ j Hj.
    simpl in Hj. by replace j with 0 by lia.
  - destruct (lastAt s p) as [i|]; [done|].
    destruct (startsWith (a :: s) p) eqn:E; [done|].
    intros _ [|j] Hj; [done|]. cbn [skipn]. apply IH; [done|simpl in Hj; lia].
Qed.

Lemma lastAt_Some s p : ∀ i,
  lastAt s p = Some i →
  i ≤ length s ∧ startsWith (skipn i s) p = true
  ∧ ∀ j, i < j → j ≤ length s → startsWith (skipn j s) p = false.
Proof.
  induction s as [|a s IH]; intros i; cbn [lastAt].
  - destruct (startsWith [] p) eqn:E; [|done]. intros [= <-].
    split_and!; [done..|]. simpl. intros; lia.
  - destruct (lastAt s p) as [i'|] eqn:El.
    + intros [= <-]. destruct (IH i' eq_refl) as (? & ? & Hlast).
      split_and!; [simpl; lia|done|].
      intros [|j] ? Hj; [lia|]. cbn [skipn]. apply Hlast; [lia|simpl in Hj; lia].
    + destruct (startsWith (a :: s) p) eqn:E; [|done]. intros [= <-].
      split_and!; [simpl; lia|done|].
      intros [|j] ? Hj; [lia|]. cbn [skipn]. apply (lastAt_None _ _ El).
      simpl in Hj. lia.
Qed.

(** [includes] is true exactly where [lastIndexOf] finds an index. *)
Lemma includes_lastAt s p : includes s p = true → ∃ i, lastAt s p = Some i.
Proof.
  unfold includes, indexOf. destruct (firstAt s p) as [j|] eqn:E; [|done].
  intros _. apply firstAt_Some in E as [Hj Hs].
  destruct (lastAt s p) as [i|] eqn:El; [by exists i|].
  by rewrite (lastAt_None _ _ El j Hj) in Hs.
Qed.

Lemma includes_false s p :
  includes s p = false → ∀ j, j ≤ length s → startsWith (skipn j s) p = false.
Proof.
  unfold includes, indexOf. intros H.
  assert (Hnone : firstAt s p = None).
  { destruct (firstAt s p); [|done]. simpl in H. apply Z.leb_gt in H. lia. }
  clear H. induction s as [|a s IH]; cbn [firstAt] in Hnone.
  - destruct (startsWith [] p) eqn:E; [done|]. intros j Hj.
    simpl in Hj. by replace j with 0 by lia.
  - destruct (startsWith (a :: s) p) eqn:E; [done|].
    destruct (firstAt s p); [done|].
    intros [|j] Hj; [done|]. cbn [skipn]. apply IH; [done|simpl in Hj; lia].
Qed.

Lemma includes_true s p j :
  j ≤ length s → startsWith (skipn j s) p = true → includes s p = true.
Proof.
  intros Hj Hs. destruct (includes s p) eqn:E; [done|].
  by rewrite (includes_false _ _ E j Hj) in Hs.
Qed.

End StrFacts.

(** * Properties of [resolveApiPath] *)

Module ResolverFacts.
Import Regex Str Catalog Resolver StrFacts.

Lemma replace_prefix p rest : replace (p ++ rest) p [] = rest.
Proof.
  unfold replace. rewrite firstAt_here by apply startsWith_app.
  simpl. by rewrite drop_app_length.
Qed.

(** What follows the last occurrence of the segment holds no occurrence. *)
Lemma afterLastSegment_spec path name :
  includes path (segment name) = true →
  ∃ pre t, path = pre ++ segment name ++ t
           ∧ afterLastSegment path name = t
           ∧ includes t (segment name) = false.
Proof.
  intros (i & Hi)%includes_lastAt.
  pose proof (lastAt_Some _ _ _ Hi) as (Hle & (t & Ht)%startsWith_spec & Hlast).
  exists (firstn i path), t.
  assert (Hpath : path = firstn i path ++ segment name ++ t).
  { by rewrite <- Ht, take_drop. }
  assert (Hlen : length (segment name) = length name + 2).
  { unfold segment. simpl. rewrite length_app. simpl. lia. }
  assert (Hafter : afterLastSegment path name = t).
  { unfold afterLastSegment, lastIndexOf, substring. rewrite Hi. simpl.
    replace (Z.to_nat (Z.of_nat i + Z.of_nat (length name) + 2))
      with (i + length (segment name)) by lia.
    rewrite <- drop_drop, Ht. by rewrite drop_app_length. }
  split_and!; [done..|].
  destruct (includes t (segment name)) eqn:E; [|done].
  unfold includes, indexOf in E.
  destruct (firstAt t (segment name)) as [j|] eqn:Ej; [|done].
  apply firstAt_Some in Ej as [Hj Hs].
  assert (Hlt : length path = i + length (segment name) + length t).
  { rewrite Hpath at 1. rewrite !length_app, length_take. lia. }
  rewrite <- (Hlast (i + length (segment name) + j)); [|lia|lia].
  symmetry. rewrite <- Hs. f_equal.
  rewrite <- !drop_drop, Ht. by rewrite drop_app_length.
Qed.

(** X13.  An import path that starts with [@/], the last segment of
    [apiDir] and a slash resolves to everything after that prefix, also
    when further segments of that name follow. *)
Theorem at_prefix_is_stripped config rest :
  resolveApiPath ("@"%char :: segment (apiDirName (apiDir config)) ++ rest) config
  = Some rest.
Proof.
  unfold resolveApiPath.
  change ("@"%char :: segment (apiDirName (apiDir config)) ++ rest)
    with (("@"%char :: segment (apiDirName (apiDir config))) ++ rest).
  by rewrite startsWith_app, replace_prefix.
Qed.

(** X14.  Any other import path that holds the segment of the API
    directory resolves to what follows the last occurrence of the segment,
    whatever stands in front of it; the result holds no further
    occurrence.  The alias tables are not consulted. *)
Theorem path_after_last_segment config importPath :
  startsWith importPath ("@"%char :: segment (apiDirName (apiDir config))) = false →
  includes importPath (segment (apiDirName (apiDir config))) = true →
  ∃ pre t,
    importPath = pre ++ segment (apiDirName (apiDir config)) ++ t
    ∧ resolveApiPath importPath config = Some t
    ∧ includes t (segment (apiDirName (apiDir config))) = false.
Proof.
  intros Hprefix Hinc. unfold resolveApiPath. rewrite Hprefix, Hinc.
  destruct (afterLastSegment_spec _ _ Hinc) as (pre & t & Hp & -> & Ht).
  by exists pre, t.
Qed.

Lemma path_after_last_segment_witness :
  startsWith (chars "../../api/car/api/x")
    ("@"%char :: segment (apiDirName (apiDir defaultAliases))) = false
  ∧ includes (chars "../../api/car/api/x")
      (segment (apiDirName (apiDir defaultAliases))) = true
  ∧ ∃ pre t,
      chars "../../api/car/api/x"
      = pre ++ segment (apiDirName (apiDir defaultAliases)) ++ t
      ∧ resolveApiPath (chars "../../api/car/api/x") defaultAliases = Some t
      ∧ includes t (segment (apiDirName (apiDir defaultAliases))) = false.
Proof.
  split; [reflexivity|]. split; [reflexivity|].
  apply (path_after_last_segment defaultAliases (chars "../../api/car/api/x"));
    reflexivity.
Defined.

(** With the default alias the replaced path holds the segment only if the
    import path does. *)
Lemma default_alias_adds_nothing rest :
  includes (chars "src" ++ rest) (chars "/api/")
  = includes ("@"%char :: rest) (chars "/api/").
Proof.
  unfold includes, indexOf. simpl.
  destruct (firstAt rest _); simpl; [|done].
  apply eq_true_iff_eq. rewrite !Z.leb_le. lia.
Qed.

(** X15.  With the default options the alias table resolves nothing: an
    import path resolves if and only if it holds [/api/]. *)
Theorem default_options_need_the_segment importPath :
  resolveApiPath importPath defaultAliases = None
  ↔ includes importPath (chars "/api/") = false.
Proof.
  unfold resolveApiPath.
  change (apiDirName (apiDir defaultAliases)) with (chars "api").
  change (segment (chars "api")) with (chars "/api/").
  destruct (startsWith importPath ("@"%char :: chars "/api/")) eqn:Hp.
  { apply startsWith_spec in Hp as (t & ->). split; [done|].
    intros H. exfalso.
    rewrite (includes_true _ (chars "/api/") 1) in H; [done|simpl; lia|].
    simpl. apply startsWith_spec. by exists t. }
  destruct (includes importPath (chars "/api/")) eqn:Hi; [done|].
  split; [done|intros _].
  change (viteAlias defaultAliases) with (@None (list (string * option string))).
  change (map _ (entries (alias defaultAliases))) with [("@", Some "src")]%string.
  cbn [aliasLoop].
  destruct (startsWith importPath (chars "@")) eqn:Ha; [|done].
  apply startsWith_spec in Ha as (rest & ->).
  assert (replace (chars "@" ++ rest) (chars "@") (chars "src") = chars "src" ++ rest) as ->.
  { unfold replace. by rewrite firstAt_here by apply startsWith_app. }
  change (chars "@" ++ rest) with ("@"%char :: rest) in Hi.
  by rewrite default_alias_adds_nothing, Hi.
Qed.

End ResolverFacts.

(** * Properties of [scanDirectory] *)

Module ScannerFacts.
Import Regex Str Path Scanner SemanticsFacts.

Lemma nodeAt_cons items i below node :
  below ≠ [] →
  nodeAt items (i :: below) node
  ↔ ∃ sub, (i, Dir sub) ∈ items ∧ nodeAt sub below node.
Proof. by destruct below. Qed.

Section Facts.
Variables (extensions exclude include : list (list ascii)).

Local Abbreviation scanItem := (Scanner.scanItem extensions exclude include).
Local Abbreviation scan := (Scanner.scan extensions exclude include).
Local Abbreviation passes := (Scanner.passes exclude include).
Local Abbreviation hasExtension := (Scanner.hasExtension extensions).

Lemma scanItem_Dir currentDir item items :
  scanItem currentDir item (Dir items)
  = if passes (join [currentDir; item])
    then scan (join [currentDir; item]) items else [].
Proof.
  unfold Scanner.passes. cbn [Scanner.scanItem].
  destruct (excluded exclude _); [done|].
  destruct (notIncluded include _); [done|]. simpl.
  unfold Scanner.scan. induction items as [|[i n] more IH]; [done|].
  simpl. by rewrite IH.
Qed.

Lemma scanItem_File currentDir item :
  scanItem currentDir item File
  = if passes (join [currentDir; item]) && hasExtension item
    then [join [currentDir; item]] else [].
Proof.
  unfold Scanner.passes. cbn [Scanner.scanItem].
  destruct (excluded exclude _); [done|].
  by destruct (notIncluded include _).
Qed.

(** A custom induction over the tree. *)
Lemma Tree_ind' (P : Tree → Prop) :
  P File → (∀ items, Forall (λ e, P (snd e)) items → P (Dir items)) →
  ∀ t, P t.
Proof.
  intros HF HD. fix IH 1. intros [|items]; [exact HF|].
  apply HD. induction items as [|[i n] more IHl]; constructor; [apply IH|exact IHl].
Qed.

Lemma scanItem_spec node : ∀ currentDir item p,
  p ∈ scanItem currentDir item node ↔
  passes (join [currentDir; item]) = true
  ∧ ((node = File ∧ hasExtension item = true ∧ p = join [currentDir; item])
     ∨ ∃ sub names last,
         node = Dir sub ∧ nodeAt sub (names ++ [last]) File
         ∧ hasExtension last = true
         ∧ p = pathOf (join [currentDir; item]) (names ++ [last])
         ∧ ∀ k, k ≤ length names →
             passes (pathOf (join [currentDir; item]) (firstn (S k) (names ++ [last])))
             = true).
Proof.
  induction node as [|items IH] using Tree_ind'; intros currentDir item p.
  - rewrite scanItem_File. destruct (passes _); simpl.
    + destruct (hasExtension item); simpl.
      * rewrite list_elem_of_singleton. split.
        -- intros ->. split; [done|]. by left.
        -- intros [_ [(_ & _ & ->)|(? & ? & ? & ? & _)]]; done.
      * split; [by intros ?%elem_of_nil|].
        intros [_ [(_ & ? & _)|(? & ? & ? & ? & _)]]; done.
    + split; [by intros ?%elem_of_nil|]. by intros [? _].
  - rewrite scanItem_Dir. destruct (passes _) eqn:Hadm; simpl.
    2:{ split; [by intros ?%elem_of_nil|]. by intros [? _]. }
    set (d := join [currentDir; item]) in *.
    unfold Scanner.scan. rewrite in_flat_map_iff. split.
    + intros ([i n] & Hin & Hp). simpl in Hp. split; [done|]. right.
      rewrite Forall_forall in IH.
      pose proof (IH _ Hin) as IHn. simpl in IHn.
      apply IHn in Hp as [Hadm' [(-> & Hext & ->)|(sub & names & last & -> & Hat & Hext & -> & Hall)]].
      * exists items, [], i. simpl. split_and!; try done.
        intros k Hk. by replace k with 0 by lia.
      * exists items, (i :: names), last. split_and!; try done.
        -- apply nodeAt_cons; [by destruct names|]. by exists sub.
        -- intros [|k] Hk; [done|]. simpl in Hk. simpl.
           apply (Hall k). lia.
    + intros [_ [(? & _)|(sub & names & last & [= <-] & Hat & Hext & -> & Hall)]]; [done|].
      rewrite Forall_forall in IH.
      destruct names as [|i names].
      * simpl in Hat. exists (last, File). split; [done|]. simpl.
        apply (IH _ Hat). split; [apply (Hall 0); simpl; lia|]. by left.
      * apply nodeAt_cons in Hat as (sub & Hin & Hat); [|by destruct names].
        exists (i, Dir sub). split; [done|]. simpl.
        apply (IH _ Hin). split; [apply (Hall 0); simpl; lia|]. right.
        exists sub, names, last. split_and!; try done.
        intros k Hk. apply (Hall (S k)). simpl. lia.
Qed.

End Facts.

(** X16.  [scanDirectory] returns exactly the files of the tree whose
    name ends with one of the extensions and for which the path of every
    entry on the way from the scanned directory down to the file, the file
    included, holds no exclude pattern and, when the include list is not
    empty, holds one of its patterns.  The include list is applied to
    directories as well: a file below a directory whose path holds no
    include pattern is not found, whatever its own path. *)
Theorem scanDirectory_finds extensions exclude include dir items p :
  p ∈ default [] (scanDirectory extensions exclude include (Some (Dir items)) dir)
  ↔ ∃ names last,
      nodeAt items (names ++ [last]) File
      ∧ hasExtension extensions last = true
      ∧ p = pathOf dir (names ++ [last])
      ∧ ∀ k, k ≤ length names →
          passes exclude include (pathOf dir (firstn (S k) (names ++ [last])))
          = true.
Proof.
  change (default [] _) with (flat_map (λ e, scanItem extensions exclude include dir e.1 e.2) items).
  rewrite in_flat_map_iff. split.
  - intros ([i n] & Hin & Hp). cbn [fst snd] in Hp.
    apply scanItem_spec in Hp
      as [Hadm [(-> & Hext & ->)|(sub & names & last & -> & Hat & Hext & -> & Hall)]].
    + exists [], i. simpl. split_and!; try done.
      intros k Hk. by replace k with 0 by lia.
    + exists (i :: names), last. split_and!; try done.
      * apply nodeAt_cons; [by destruct names|]. by exists sub.
      * intros [|k] Hk; [done|]. simpl in Hk. simpl. apply (Hall k). lia.
  - intros (names & last & Hat & Hext & -> & Hall).
    destruct names as [|i names].
    + simpl in Hat. exists (last, File). split; [done|]. cbn [fst snd].
      apply scanItem_spec. split; [apply (Hall 0); simpl; lia|]. by left.
    + apply nodeAt_cons in Hat as (sub & Hin & Hat); [|by destruct names].
      exists (i, Dir sub). split; [done|]. cbn [fst snd].
      apply scanItem_spec. split; [apply (Hall 0); simpl; lia|]. right.
      exists sub, names, last. split_and!; try done.
      intros k Hk. apply (Hall (S k)). simpl. lia.
Qed.

End ScannerFacts.

(** * Properties of [findComponentImports] *)

Module ComponentsFacts.
Import Regex Str Path Usage Catalog Components Semantics RegexFacts UsageFacts SemanticsFacts UsageMore.

Lemma groupless_lit x : groupless (lit x) = true.
Proof. unfold lit. induction (list_ascii_of_string x); simpl; auto. Qed.

(** A piece without groups in front of a pattern. *)
Lemma reach_past p r c c' :
  groupless p = true → reach (Seq p r) c c' →
  ∃ s c1, ahead s c c1 ∧ caps c1 = caps c ∧ reach r c1 c'.
Proof.
  intros Hp (c1 & H1 & H2). destruct (reach_ahead _ _ _ H1) as (s & Hs).
  exists s, c1. split_and!; [done| |done]. by apply (reach_groupless p Hp).
Qed.

Lemma reach_class P r c c' :
  reach (Seq (Class P) r) c c' →
  ∃ x c1, P x = true ∧ ahead [x] c c1 ∧ caps c1 = caps c ∧ reach r c1 c'.
Proof.
  intros (c1 & (x & Hx & [H1 Hc]%step_ahead) & H2). by exists x, c1.
Qed.

(** The specifier between its quotes, and what follows. *)
Lemma relative_specifier_reach suffix c c' :
  groupless (seqs suffix) = true →
  reach (seqs (Class quote2 :: relativeSpecifier ++ Class quote2 :: suffix)) c c' →
  ∃ q v q' t,
    quote2 q = true ∧ quote2 q' = true
    ∧ ahead (q :: "."%char :: v ++ chars ".vue" ++ q' :: t) c c'
    ∧ caps c' = (1, v) :: caps c.
Proof.
  intros Hsuffix Hr. unfold relativeSpecifier in Hr. cbn [app seqs] in Hr.
  apply reach_class in Hr as (q & c1 & Hq & H1 & Hc1 & Hr).
  destruct Hr as (c2 & [H2 Hc2]%step_ahead & c3 & (c3' & Hlazy & ->) & Hr).
  apply reach_star_class in Hlazy as (v & H3 & _ & Hc3).
  destruct Hr as (c4 & [H4 Hc4]%reach_Lit & Hr).
  apply reach_class in Hr as (q' & c5 & Hq' & H5 & Hc5 & Hr).
  destruct (reach_ahead _ _ _ Hr) as (t & H6).
  exists q, v, q', t. split_and!; [done..| |].
  - change (q :: "."%char :: v ++ chars ".vue" ++ q' :: t)
      with ([q] ++ ["."%char] ++ v ++ chars ".vue" ++ [q'] ++ t).
    eapply ahead_trans; [exact H1|].
    eapply ahead_trans; [exact H2|].
    eapply ahead_trans; [exact H3|].
    eapply ahead_trans; [exact H4|].
    eapply ahead_trans; [exact H5|exact H6].
  - rewrite (reach_groupless _ Hsuffix _ _ Hr), Hc5, Hc4. simpl.
    by rewrite (ahead_between _ _ _ H3), Hc3, Hc2, Hc1.
Qed.

Lemma relativeFromRe_reach c c' :
  reach relativeFromRe c c' →
  ∃ a q v q' t,
    quote2 q = true ∧ quote2 q' = true
    ∧ ahead (a ++ q :: "."%char :: v ++ chars ".vue" ++ q' :: t) c c'
    ∧ caps c' = (1, v) :: caps c.
Proof.
  unfold relativeFromRe, fromRe. cbn [app seqs]. intros Hr.
  apply reach_past in Hr as (s1 & c1 & H1 & Hc1 & Hr); [|apply groupless_lit].
  apply reach_past in Hr as (s2 & c2 & H2 & Hc2 & Hr); [|done].
  apply (relative_specifier_reach []) in Hr
    as (q & v & q' & t & Hq & Hq' & H3 & Hc3); [|done].
  exists (s1 ++ s2), q, v, q', t. split_and!; [done..| |].
  - rewrite <- app_assoc.
    eapply ahead_trans; [exact H1|]. eapply ahead_trans; [exact H2|exact H3].
  - by rewrite Hc3, Hc2, Hc1.
Qed.

Lemma dynamicImportRe_reach c c' :
  reach dynamicImportRe c c' →
  ∃ a q v q' t,
    quote2 q = true ∧ quote2 q' = true
    ∧ ahead (a ++ q :: "."%char :: v ++ chars ".vue" ++ q' :: t) c c'
    ∧ caps c' = (1, v) :: caps c.
Proof.
  unfold dynamicImportRe. cbn [app seqs]. intros Hr.
  apply reach_past in Hr as (s1 & c1 & H1 & Hc1 & Hr); [|apply groupless_lit].
  apply reach_past in Hr as (s2 & c2 & H2 & Hc2 & Hr); [|done].
  apply reach_past in Hr as (s3 & c3 & H3 & Hc3 & Hr); [|done].
  apply reach_past in Hr as (s4 & c4 & H4 & Hc4 & Hr); [|done].
  apply (relative_specifier_reach [ws; Char ")"]) in Hr
    as (q & v & q' & t & Hq & Hq' & H5 & Hc5); [|done].
  exists (s1 ++ s2 ++ s3 ++ s4), q, v, q', t. split_and!; [done..| |].
  - rewrite <- !app_assoc.
    eapply ahead_trans; [exact H1|]. eapply ahead_trans; [exact H2|].
    eapply ahead_trans; [exact H3|]. eapply ahead_trans; [exact H4|exact H5].
  - by rewrite Hc5, Hc4, Hc3, Hc2, Hc1.
Qed.

Lemma forEachMatch_elem re pathRe code body p :
  p ∈ forEachMatch re pathRe code body →
  ∃ m pm c,
    m ∈ match_all re code ∧ exec pathRe (matched m) = Some pm
    ∧ group 1 (groups pm) = Some c ∧ p ∈ body c.
Proof.
  unfold forEachMatch. intros (m & Hm & Hp)%in_flat_map_iff.
  destruct (exec pathRe (matched m)) as [pm|] eqn:E; [|by apply elem_of_nil in Hp].
  destruct (group 1 (groups pm)) as [c|] eqn:Eg; [|by apply elem_of_nil in Hp].
  by exists m, pm, c.
Qed.

(** The capture of a match of [pathRe] inside a match of the text. *)
Lemma forEachMatch_quoted re pathRe code body p :
  (∀ c c', reach pathRe c c' →
     ∃ a q v q' t,
       quote2 q = true ∧ quote2 q' = true
       ∧ ahead (a ++ q :: "."%char :: v ++ chars ".vue" ++ q' :: t) c c'
       ∧ caps c' = (1, v) :: caps c) →
  p ∈ forEachMatch re pathRe code body →
  ∃ pre q v q' post,
    code = pre ++ q :: "."%char :: v ++ chars ".vue" ++ q' :: post
    ∧ quote2 q = true ∧ quote2 q' = true ∧ p ∈ body v.
Proof.
  intros Hshape (m & pm & c & Hm & Hpm & Hg & Hp)%forEachMatch_elem.
  apply match_all_sound in Hm as (pre & post & _ & -> & _).
  apply exec_from_sound in Hpm as (pre' & post' & c' & Hmm & _ & Hr & Ha & Hgs).
  apply Hshape in Hr as (a & q & v & q' & t & Hq & Hq' & Ha' & Hc).
  rewrite Hgs, Hc in Hg. simpl in Hg. injection Hg as <-.
  rewrite (ahead_unique _ _ _ _ Ha Ha') in Hmm.
  exists (pre ++ pre' ++ a), q, v, q', (t ++ post' ++ post).
  split_and!; [|done..].
  rewrite Hmm. by simplify_list_eq.
Qed.

(** Resolving an absolute path ignores what stands before it. *)
Lemma resolve_absolute cwd cwd' dir dir' p :
  isAbsolute p = true → resolve cwd [dir; p] = resolve cwd' [dir'; p].
Proof.
  intros Hp. unfold resolve. cbn [resolveFrom].
  destruct p as [|x p]; [done|]. by rewrite Hp.
Qed.

(** X17.  A relative import of a component, static or dynamic, is resolved
    without the first dot of its specifier: for the specifier [.c.vue]
    between quotes the path is [c.vue] resolved against the directory of
    the importing file.  For a specifier that starts with [./] this is an
    absolute path, so the result is the same whatever file imports it. *)
Theorem relative_import_loses_its_dot cwd code currentDir p :
  p ∈ relativeImports cwd code currentDir ++ dynamicImports cwd code currentDir →
  ∃ pre q c q' post,
    code = pre ++ q :: "."%char :: c ++ chars ".vue" ++ q' :: post
    ∧ quote2 q = true ∧ quote2 q' = true
    ∧ p = resolve cwd [currentDir; c ++ chars ".vue"]
    ∧ (isAbsolute c = true →
       ∀ cwd' dir', p = resolve cwd' [dir'; c ++ chars ".vue"]).
Proof.
  intros [Hp|Hp]%elem_of_app.
  - apply forEachMatch_quoted in Hp
      as (pre & q & c & q' & post & -> & Hq & Hq' & ->%list_elem_of_singleton);
      [|apply relativeFromRe_reach].
    exists pre, q, c, q', post. split_and!; [done..|].
    intros Hc cwd' dir'. apply resolve_absolute. by destruct c.
  - apply forEachMatch_quoted in Hp
      as (pre & q & c & q' & post & -> & Hq & Hq' & ->%list_elem_of_singleton);
      [|apply dynamicImportRe_reach].
    exists pre, q, c, q', post. split_and!; [done..|].
    intros Hc cwd' dir'. apply resolve_absolute. by destruct c.
Qed.

(** The matcher reads its continuation pointwise. *)
Lemma star_loop_ext {A} body greedy (k k' : cursor → option A) n :
  (∀ c k1 k2, (∀ c', k1 c' = k2 c') → body c k1 = body c k2) →
  (∀ c, k c = k' c) →
  ∀ c, star_loop body greedy k n c = star_loop body greedy k' n c.
Proof.
  intros Hbody Hk. induction n as [|n IH]; intros c; simpl; [apply Hk|].
  rewrite (Hbody c _ (λ c', if length (rest c') <? length (rest c)
                            then star_loop body greedy k' n c' else None)).
  - by rewrite Hk.
  - intros c'. destruct (_ <? _); [apply IH|done].
Qed.

Lemma run_ext {A} r : ∀ c (k k' : cursor → option A),
  (∀ c', k c' = k' c') → run r c k = run r c k'.
Proof.
  induction r as [|a|p|r1 IH1 r2 IH2|r1 IH1 r2 IH2|g r IH|i r IH|];
    intros c k k' Hk; simpl.
  - apply Hk.
  - destruct (step c) as [[y c']|]; [|done]. by rewrite Hk.
  - destruct (step c) as [[y c']|]; [|done]. by rewrite Hk.
  - apply IH1. intros c'. by apply IH2.
  - by rewrite (IH1 c k k' Hk), (IH2 c k k' Hk).
  - apply star_loop_ext; [|done]. intros c0 k1 k2 H. by apply IH.
  - apply IH. intros c'. apply Hk.
  - destruct (rest c); [apply Hk|done].
Qed.

(** The matcher on a sequence of pieces. *)
Lemma run_seqs_app {A} l1 l2 c (k : cursor → option A) :
  run (seqs (l1 ++ l2)) c k = run (seqs l1) c (λ c', run (seqs l2) c' k).
Proof.
  revert c k. induction l1 as [|r l1 IH]; intros c k; [done|].
  cbn [app seqs]. rewrite !run_Seq. apply run_ext. intros c'. apply IH.
Qed.

(** A greedy run of a class, one character at least. *)
Lemma run_plus_class {A} P (k : cursor → option A) x s t b cs :
  s ≠ [] → Forall (λ a, P a = true) s →
  match t with [] => True | a :: _ => P a = false end →
  k (Cursor (rev s ++ b) t cs) = Some x →
  run (Plus true (Class P)) (Cursor b (s ++ t) cs) k = Some x.
Proof.
  intros Hne Hs Ht Hk. destruct s as [|a s]; [done|].
  inversion Hs as [|? ? Ha Hs']; subst.
  unfold Plus. rewrite run_Seq. cbn [app]. rewrite run_Class_cons, Ha, run_Star.
  apply star_class_greedy; [done|done|simpl; rewrite length_app; lia|].
  simpl in Hk. by rewrite <- app_assoc in Hk.
Qed.

(** A lazy run of a class stops at the first place where what follows
    matches. *)
Lemma star_class_lazy {A} P (K : cursor → option A) x t cs : ∀ s b n,
  Forall (λ a, P a = true) s → length s ≤ n →
  (∀ s1 s2, s = s1 ++ s2 → s2 ≠ [] →
     K (Cursor (rev s1 ++ b) (s2 ++ t) cs) = None) →
  K (Cursor (rev s ++ b) t cs) = Some x →
  star_loop (λ c k', run (Class P) c k') false K n (Cursor b (s ++ t) cs)
  = Some x.
Proof.
  induction s as [|a s IH]; intros b n Hs Hn Hfail Hk.
  - destruct n; simpl in *; by rewrite Hk.
  - destruct n as [|n]; [simpl in Hn; lia|].
    inversion Hs as [|? ? Ha Hs']; subst.
    pose proof (Hfail [] (a :: s) eq_refl) as H0. cbn [rev app] in H0.
    cbn [star_loop app]. rewrite H0 by done.
    rewrite run_Class_cons, Ha. cbn [rest].
    rewrite (proj2 (Nat.ltb_lt _ _)) by (simpl; lia).
    apply IH; [done|simpl in Hn; lia| |].
    + intros s1 s2 -> Hne. specialize (Hfail (a :: s1) s2 eq_refl Hne).
      simpl in Hfail. by rewrite <- app_assoc in Hfail.
    + simpl in Hk. by rewrite <- app_assoc in Hk.
Qed.

Lemma space_not_word a : is_space a = true → is_word a = false.
Proof. destruct a as [[] [] [] [] [] [] [] []]; vm_compute; congruence. Qed.

Lemma word_not_space a : is_word a = true → is_space a = false.
Proof. destruct a as [[] [] [] [] [] [] [] []]; vm_compute; congruence. Qed.

Lemma space_not_quote a : is_space a = true → not_quote2 a = true.
Proof. destruct a as [[] [] [] [] [] [] [] []]; vm_compute; congruence. Qed.


(** Where the quotes of a text with two quotes are. *)
Lemma last_quote B q2 P q R :
  Forall (λ a, not_quote2 a = true) B → quote2 q = true →
  B ++ [q2] = P ++ q :: R → P = B ∧ R = [].
Proof.
  intros HB Hq. revert P. induction HB as [|x B Hx HB IH]; intros P H.
  - destruct P as [|y P]; simpl in H; [by injection H as _ <-|].
    injection H as _ H. by destruct P.
  - destruct P as [|y P]; simpl in H.
    + injection H as -> _. by rewrite (quote2_not_quote2 _ Hq) in Hx.
    + injection H as -> H. by destruct (IH _ H) as [-> ->].
Qed.

Lemma first_quote A B q1 q2 P q R :
  Forall (λ a, not_quote2 a = true) A → Forall (λ a, not_quote2 a = true) B →
  quote2 q = true → R ≠ [] →
  A ++ q1 :: B ++ [q2] = P ++ q :: R → P = A ∧ R = B ++ [q2].
Proof.
  intros HA HB Hq HR. revert P. induction HA as [|x A Hx HA IH]; intros P H.
  - destruct P as [|y P]; simpl in H; [by injection H as _ <-|].
    injection H as _ H. by destruct (last_quote _ _ _ _ _ HB Hq H) as [_ ->].
  - destruct P as [|y P]; simpl in H.
    + injection H as -> _. by rewrite (quote2_not_quote2 _ Hq) in Hx.
    + injection H as -> H. by destruct (IH _ H) as [-> ->].
Qed.


(** A match that no earlier match runs over is found by the scan. *)
Lemma scan_found r pre occ post cs :
  occ ≠ [] →
  match_here r (rev pre) (occ ++ post) = Some (length occ, cs) →
  (∀ f, f ∈ match_all r (pre ++ occ ++ post) →
        at_index f < length pre →
        at_index f + length (matched f) ≤ length pre) →
  Found (length pre) occ cs ∈ match_all r (pre ++ occ ++ post).
Proof.
  intros Hne Hm Hover. unfold match_all. apply scan_reach; [lia|exact Hover|].
  rewrite app_nil_r. destruct occ as [|z occ]; [done|].
  cbn [app scan] in Hm |- *. rewrite Hm, length_rev.
  change (z :: occ ++ post) with ((z :: occ) ++ post).
  rewrite take_app_length. by left.
Qed.

Section Relative.
Variables (sp1 name sp2 sp3 v : list ascii) (q1 q2 : ascii).
Hypothesis Hsp1 : sp1 ≠ [] ∧ Forall (λ a, is_space a = true) sp1.
Hypothesis Hname : name ≠ [] ∧ Forall (λ a, is_word a = true) name.
Hypothesis Hsp2 : sp2 ≠ [] ∧ Forall (λ a, is_space a = true) sp2.
Hypothesis Hsp3 : sp3 ≠ [] ∧ Forall (λ a, is_space a = true) sp3.
Hypothesis Hq1 : quote2 q1 = true.
Hypothesis Hq2 : quote2 q2 = true.
Hypothesis Hv : Forall (λ a, is_dot a = true) v.
Hypothesis Hvq : Forall (λ a, not_quote2 a = true) v.

Let fromText : list ascii :=
  chars "from" ++ sp3 ++ q1 :: "."%char :: v ++ chars ".vue" ++ [q2].
Let statement : list ascii := chars "import" ++ sp1 ++ name ++ sp2 ++ fromText.





End Relative.


End ComponentsFacts.

(** * Properties of the import detections *)

Module DetectionFacts.
Import Regex Str Usage Catalog Resolver Detection Semantics RegexFacts
       UsageFacts SemanticsFacts.

Lemma forEach_elem {X} (body : X → option (list ApiInfo)) l : ∀ r d,
  forEach body l = Some r → d ∈ r →
  ∃ x r', x ∈ l ∧ body x = Some r' ∧ d ∈ r'.
Proof.
  induction l as [|x l IH]; intros r d; simpl.
  - intros [= <-] ?%elem_of_nil. done.
  - destruct (body x) as [a|] eqn:E; [|done].
    destruct (forEach body l) as [b|] eqn:E2; [|done].
    intros [= <-] [Hd|Hd]%elem_of_app.
    + exists x, a. split_and!; [left|done..].
    + destruct (IH _ _ eq_refl Hd) as (y & r' & ? & ? & ?).
      exists y, r'. split_and!; [by right|done..].
Qed.

Lemma find_elem apis name api :
  findApiByFunctionName apis name = Some api →
  api ∈ apis ∧ functionName api = Some name.
Proof.
  induction apis as [|a t IH]; simpl; [done|].
  destruct (decide (functionName a = Some name)) as [Heq|Hne].
  - intros [= <-]. split; [left|done].
  - intros [? ?]%IH. split; [by right|done].
Qed.

Section Host.
Variable hostTest : list ascii → list ascii → option bool.
Variable config : Aliases.
Variable apiDefinitions : ApiDefinitions.

Local Abbreviation fromCatalogue d :=
  (∃ key apis name,
     Obj.get key apiDefinitions = Some apis ∧ d ∈ apis
     ∧ functionName d = Some name).

Lemma importedApi_origin apiPath funcName code r d :
  importedApi hostTest apiDefinitions apiPath funcName code = Some r → d ∈ r →
  fromCatalogue d.
Proof.
  unfold importedApi.
  destruct (funcCallTest _ _ _) as [[|]|]; [|by intros [= <-] ?%elem_of_nil|done].
  destruct (Obj.get _ _) as [apis|] eqn:Eg; [|by intros [= <-] ?%elem_of_nil].
  destruct (findApiByFunctionName _ _) as [api|] eqn:Ef;
    [|by intros [= <-] ?%elem_of_nil].
  intros [= <-] ->%list_elem_of_singleton.
  apply find_elem in Ef as [? ?]. by eexists _, _, _.
Qed.

Lemma bracesImports_origin code r d :
  bracesImports hostTest config apiDefinitions code = Some r → d ∈ r →
  fromCatalogue d.
Proof.
  unfold bracesImports. intros H Hd.
  destruct (forEach_elem _ _ _ _ H Hd) as (m & r' & _ & Hm & Hd').
  destruct (exec importsRe _) as [im|]; [|injection Hm as <-; by apply elem_of_nil in Hd'].
  destruct (exec apiFromRe _) as [pm|]; [|injection Hm as <-; by apply elem_of_nil in Hd'].
  destruct (group 1 (groups im)) as [names|]; [|injection Hm as <-; by apply elem_of_nil in Hd'].
  destruct (group 1 (groups pm)) as [importPath|]; [|injection Hm as <-; by apply elem_of_nil in Hd'].
  destruct (resolved _) as [apiPath|]; [|injection Hm as <-; by apply elem_of_nil in Hd'].
  destruct (forEach_elem _ _ _ _ Hm Hd') as (funcName & r'' & _ & Hf & Hd'').
  by eapply importedApi_origin.
Qed.

Lemma singleImports_origin code r d :
  singleImports hostTest config apiDefinitions code = Some r → d ∈ r →
  fromCatalogue d.
Proof.
  unfold singleImports. intros H Hd.
  destruct (forEach_elem _ _ _ _ H Hd) as (m & r' & _ & Hm & Hd').
  destruct (exec funcNameRe _) as [im|]; [|injection Hm as <-; by apply elem_of_nil in Hd'].
  destruct (exec apiFromRe _) as [pm|]; [|injection Hm as <-; by apply elem_of_nil in Hd'].
  destruct (group 1 (groups im)) as [names|]; [|injection Hm as <-; by apply elem_of_nil in Hd'].
  destruct (group 1 (groups pm)) as [importPath|]; [|injection Hm as <-; by apply elem_of_nil in Hd'].
  destruct (resolved _) as [apiPath|]; [|injection Hm as <-; by apply elem_of_nil in Hd'].
  by eapply importedApi_origin.
Qed.

End Host.

(** X19.  Whatever [extractDirectApisWithConfig] returns is either a
    descriptor of the literal detection or a descriptor of the catalogue,
    found under some module key and carrying a function name: the imports
    never make up a descriptor. *)
Theorem direct_apis_come_from_the_catalogue hostTest config apiDefinitions
  code apis d :
  extractDirectApisWithConfig hostTest config apiDefinitions code = Some apis →
  d ∈ apis →
  d ∈ extractUrlLiterals code
  ∨ ∃ key l name,
      Obj.get key apiDefinitions = Some l ∧ d ∈ l ∧ functionName d = Some name.
Proof.
  unfold extractDirectApisWithConfig.
  destruct (bracesImports _ _ _ _) as [braces|] eqn:Eb; [|done].
  destruct (singleImports _ _ _ _) as [single|] eqn:Es; [|done].
  intros [= <-] [Hd|[Hd|Hd]%elem_of_app]%elem_of_app.
  - by left.
  - right. by eapply bracesImports_origin.
  - right. by eapply singleImports_origin.
Qed.

(** The pattern of a name without special characters is the name. *)
Lemma namePattern_plain n :
  Forall (λ a, special a = false) n → namePattern n = Some (Lit n).
Proof.
  induction 1 as [|a n Ha _ IH]; simpl; [done|]. rewrite IH.
  destruct (Ascii.eqb_spec a "$") as [->|_]; [done|].
  destruct (Ascii.eqb_spec a ".") as [->|_]; [done|].
  by rewrite Ha.
Qed.

Lemma testAtBoundary_spec r : ∀ after before,
  testAtBoundary r before after = true ↔
  ∃ pre post, after = pre ++ post
    ∧ wordBoundary (rev pre ++ before) post = true
    ∧ is_Some (match_here r (rev pre ++ before) post).
Proof.
  induction after as [|a t IH]; intros before; cbn [testAtBoundary].
  - rewrite orb_false_r, andb_true_iff. split.
    + intros [Hb Hm]. exists [], []. cbn [rev app]. split_and!; [done..|].
      destruct (match_here r before []); [by eexists|done].
    + intros (pre & post & Heq & Hb & [y Hm]).
      symmetry in Heq. apply app_eq_nil in Heq as [-> ->].
      cbn [rev app] in *. by rewrite Hm.
  - rewrite orb_true_iff, andb_true_iff, IH. split.
    + intros [[Hb Hm]|(pre & post & -> & Hb & Hm)].
      * exists [], (a :: t). cbn [rev app]. split_and!; [done..|].
        destruct (match_here r before (a :: t)); [by eexists|done].
      * exists (a :: pre), post. cbn [rev app]. rewrite <- app_assoc. done.
    + intros ([|x pre] & post & Heq & Hb & [y Hm]); cbn [rev app] in *.
      * subst post. left. by rewrite Hm.
      * injection Heq as -> ->. right. exists pre, post.
        rewrite <- app_assoc in Hb, Hm. cbn [app] in *.
        split_and!; [done..|by eexists].
Qed.

(** A match of the name, white space and a parenthesis. *)
Lemma call_here n b t :
  is_Some (match_here (seqs [Lit n; ws; Char "("%char]) b t) ↔
  ∃ sp post, t = n ++ sp ++ "("%char :: post
             ∧ Forall (λ a, is_space a = true) sp.
Proof.
  split.
  - intros [[k cs] (c' & s & Hr & _)%match_here_sound].
    cbn [seqs] in Hr.
    destruct Hr as (c1 & [[H1 _] _]%reach_Lit
                    & c2 & (sp & [H2 _] & Hsp & _)%reach_star_class
                    & c3 & [[H3 _] _]%step_ahead & _).
    exists sp, (rest c3). split; [|done].
    cbn [rest] in H1. by rewrite H1, H2, H3.
  - intros (sp & post & -> & Hsp). unfold match_here. cbn [seqs].
    rewrite run_Seq, run_Lit, run_Seq.
    erewrite run_ws; [by eexists|done|done|].
    by rewrite run_Seq, run_Char_cons.
Qed.

(** X20.  For a function name without special characters the call test
    is true exactly when the code holds the name at a word boundary,
    followed by optional white space and an opening parenthesis.  Nothing
    else is looked at: not the receiver of the call, not a comment or a
    string around it. *)
Theorem call_test_is_textual hostTest funcName code :
  Forall (λ a, special a = false) funcName →
  ∃ b, funcCallTest hostTest funcName code = Some b
       ∧ (b = true ↔
          ∃ pre sp post,
            code = pre ++ funcName ++ sp ++ "("%char :: post
            ∧ Forall (λ a, is_space a = true) sp
            ∧ wordBoundary (rev pre) (funcName ++ sp ++ "("%char :: post) = true).
Proof.
  intros Hplain. unfold funcCallTest. rewrite (namePattern_plain _ Hplain).
  eexists. split; [done|].
  rewrite testAtBoundary_spec. split.
  - intros (pre & t & -> & Hb & (sp & post & -> & Hsp)%call_here).
    rewrite app_nil_r in Hb. by exists pre, sp, post.
  - intros (pre & sp & post & -> & Hsp & Hb).
    exists pre, (funcName ++ sp ++ "("%char :: post).
    rewrite app_nil_r. split_and!; [done..|].
    apply call_here. by exists sp, post.
Qed.

(** After a dollar nothing is ahead. *)
Lemma namePattern_dollar n : ∀ r c c',
  namePattern n = Some r → "$"%char ∈ n → reach r c c' → rest c' = [].
Proof.
  induction n as [|a n IH]; intros r c c'; simpl; [by intros _ ?%elem_of_nil|].
  destruct (namePattern n) as [r'|] eqn:E; [|done].
  assert (Hkeep : ∀ c1 c2, rest c1 = [] → reach r' c1 c2 → rest c2 = []).
  { intros c1 c2 H1 (s & [H2 _])%reach_ahead. rewrite H1 in H2.
    symmetry in H2. by apply app_eq_nil in H2 as [_ ?]. }
  destruct (Ascii.eqb_spec a "$") as [->|Hne].
  - intros [= <-] _ (c1 & [H1 ->] & Hr). by eapply Hkeep.
  - destruct (Ascii.eqb a "."); [|destruct (special a); [done|]];
      intros [= <-] [?|Hin]%elem_of_cons (c1 & _ & Hr); try done;
      by eapply IH.
Qed.

(** X21.  An imported function whose name holds a dollar is never taken as
    called: in the pattern built from the name the dollar is the end of
    the input, and the parenthesis cannot follow it. *)
Theorem dollar_name_is_never_called hostTest funcName code :
  Forall (λ a, special a = false ∨ a = "$"%char ∨ a = "."%char) funcName →
  "$"%char ∈ funcName →
  funcCallTest hostTest funcName code = Some false.
Proof.
  intros Hchars Hin. unfold funcCallTest.
  assert (∃ r, namePattern funcName = Some r) as [r Hr].
  { clear Hin. induction Hchars as [|a n Ha _ [r IH]]; simpl; [by eexists|].
    rewrite IH. destruct (Ascii.eqb_spec a "$"); [by eexists|].
    destruct (Ascii.eqb_spec a "."); [by eexists|].
    destruct Ha as [->|[?|?]]; [by eexists|done..]. }
  rewrite Hr. f_equal.
  destruct (testAtBoundary _ _ _) eqn:E; [|done]. exfalso.
  apply testAtBoundary_spec in E
    as (pre & post & _ & _ & [[k cs] (c' & s & Hreach & _)%match_here_sound]).
  cbn [seqs] in Hreach.
  destruct Hreach as (c1 & H1 & c2 & (sp & [H2 _] & _)%reach_star_class
                      & c3 & [[H3 _] _]%step_ahead & _).
  rewrite (namePattern_dollar _ _ _ _ Hr Hin H1) in H2.
  symmetry in H2. apply app_eq_nil in H2 as [_ H2]. by rewrite H2 in H3.
Qed.

End DetectionFacts.

(** * Properties of [scanApiDefinitions] *)

Module ApiScanFacts.
Import Regex Str Path Catalog Scanner Detection ApiScan Semantics RegexFacts
       UsageFacts SemanticsFacts ObjFacts StrFacts ComponentsFacts.

Lemma groupless_dirPattern l : ∀ b, groupless (Aggregator.dirPattern b l) = true.
Proof.
  induction l as [|a l IH]; intros b; simpl; [done|].
  destruct (negb b && Ascii.eqb a "/"); simpl; apply IH.
Qed.



Section Host.
Variable read : list ascii → option string.
Variable config : ScanConfig.

Local Abbreviation registered all key apis :=
  (apis ≠ []
   ∧ ∃ filePath, filePath ∈ all
       ∧ apis = analyzeApiFile (read filePath)
       ∧ apiModule (apiDir config) filePath = Some key).


End Host.


(** Building a match by hand. *)
Lemma reach_Lit_intro l : ∀ b t cs,
  reach (Lit l) (Cursor b (l ++ t) cs) (Cursor (rev l ++ b) t cs).
Proof.
  induction l as [|a l IH]; intros b t cs; simpl; [done|].
  eexists. split; [done|]. rewrite <- app_assoc. apply IH.
Qed.

Lemma reach_Lit_end l b cs :
  reach (Lit l) (Cursor b l cs) (Cursor (rev l ++ b) [] cs).
Proof.
  pose proof (reach_Lit_intro l b [] cs) as H. by rewrite app_nil_r in H.
Qed.

Lemma reach_star_intro g P s : ∀ b t cs,
  Forall (λ a, P a = true) s →
  reach (Star g (Class P)) (Cursor b (s ++ t) cs) (Cursor (rev s ++ b) t cs).
Proof.
  induction s as [|a s IH]; intros b t cs Hs; simpl.
  - apply rtc_refl.
  - inversion Hs; subst. eapply rtc_l.
    + exists a. split; [done|]. done.
    + rewrite <- app_assoc. by apply IH.
Qed.

Lemma reach_plus_intro g P s b t cs :
  s ≠ [] → Forall (λ a, P a = true) s →
  reach (Plus g (Class P)) (Cursor b (s ++ t) cs) (Cursor (rev s ++ b) t cs).
Proof.
  intros Hne Hs. destruct s as [|a s]; [done|]. inversion Hs; subst.
  exists (Cursor (a :: b) (s ++ t) cs). split.
  - exists a. split; done.
  - simpl. rewrite <- app_assoc. by apply reach_star_intro.
Qed.

Lemma reach_dirPattern_intro l : ∀ flag b t cs,
  reach (Aggregator.dirPattern flag l) (Cursor b (l ++ t) cs)
        (Cursor (rev l ++ b) t cs).
Proof.
  induction l as [|a l IH]; intros flag b t cs; simpl; [done|].
  destruct (negb flag && Ascii.eqb a "/") eqn:E.
  - apply andb_true_iff in E as [_ ->%Ascii.eqb_eq].
    eexists. split; [exists "/"%char; split; done|].
    rewrite <- app_assoc. apply IH.
  - eexists. split; [done|]. rewrite <- app_assoc. apply IH.
Qed.

(** The text of a match of the directory pattern. *)
Lemma reach_slashes c c' :
  reach Aggregator.slashes c c' →
  ∃ x, ahead [x] c c' ∧ caps c' = caps c ∧ (x = "/"%char ∨ x = Json.backslash).
Proof.
  intros (x & Hx & [H Hc]%step_ahead). exists x. split_and!; [done..|].
  unfold one_of in Hx. simpl in Hx.
  destruct (Ascii.eqb_spec x "/"); [by left|].
  destruct (Ascii.eqb_spec x Json.backslash); [by right|done].
Qed.

Lemma reach_dirPattern l : ∀ flag c c',
  reach (Aggregator.dirPattern flag l) c c' →
  ∃ d, ahead d c c' ∧ length d = length l ∧ (Json.backslash ∉ d → d = l).
Proof.
  induction l as [|a l IH]; intros flag c c'; simpl.
  - intros ->. by exists [].
  - destruct (negb flag && Ascii.eqb a "/") eqn:E.
    + apply andb_true_iff in E as [_ ->%Ascii.eqb_eq].
      intros (c1 & (x & H1 & _ & Hx)%reach_slashes & (d & H2 & Hlen & Hd)%IH).
      exists ([x] ++ d). split_and!; [by eapply ahead_trans|simpl; lia|].
      intros Hno. destruct Hx as [-> | ->]; [|set_solver].
      simpl. f_equal. apply Hd. set_solver.
    + intros (c1 & [H1 _]%step_ahead & (d & H2 & Hlen & Hd)%IH).
      exists ([a] ++ d). split_and!; [by eapply ahead_trans|simpl; lia|].
      intros Hno. simpl. f_equal. apply Hd. set_solver.
Qed.

Lemma firstAt_first s p : ∀ i,
  firstAt s p = Some i → ∀ j, j < i → startsWith (skipn j s) p = false.
Proof.
  induction s as [|a s IH]; intros i; cbn [firstAt].
  - destruct (startsWith [] p); [|done]. intros [= <-] j Hj. lia.
  - destruct (startsWith (a :: s) p) eqn:E; [intros [= <-] j Hj; lia|].
    destruct (firstAt s p) as [i'|] eqn:Ef; [|done]. intros [= <-] [|j] Hj; [done|].
    cbn [skipn]. apply (IH i' eq_refl). lia.
Qed.

(** The search of [exec] stops at the first position with a match. *)
Lemma exec_from_first r t : ∀ a b,
  is_Some (match_here r (rev a ++ b) t) →
  ∃ f, exec_from r b (a ++ t) = Some f ∧ at_index f ≤ length b + length a.
Proof.
  induction a as [|x a IH]; intros b [y H].
  - simpl in *. destruct t; simpl; rewrite H; destruct y;
      eexists; (split; [done|simpl; lia]).
  - cbn [app exec_from].
    destruct (match_here r b (x :: a ++ t)) as [[n cs]|].
    + eexists. split; [done|]. simpl. lia.
    + destruct (IH (x :: b)) as (f & Hf & Hle).
      { simpl in H. rewrite <- app_assoc in H. by eexists. }
      exists f. split; [done|]. simpl in *. lia.
Qed.

Lemma classStars_dirPattern l : ∀ b, classStars (Aggregator.dirPattern b l) = true.
Proof.
  induction l as [|a l IH]; intros b; simpl; [done|].
  destruct (negb b && Ascii.eqb a "/"); simpl; apply IH.
Qed.

Lemma apiModuleRe_reach apiDir rel ext b :
  rel ≠ [] → Forall (λ a, is_dot a = true) rel →
  ext = chars "js" ∨ ext = chars "ts" →
  reach (apiModuleRe apiDir)
    (Cursor b ("/"%char :: chars apiDir ++ "/"%char :: rel ++ "."%char :: ext) [])
    (Cursor (rev ext ++ "."%char :: rev rel ++ "/"%char :: rev (chars apiDir)
             ++ "/"%char :: b) [] [(2, ext); (1, rel)]).
Proof.
  intros Hne Hrel Hext. unfold apiModuleRe. cbn [seqs].
  exists (Cursor ("/"%char :: b) (chars apiDir ++ "/"%char :: rel ++ "."%char :: ext) []).
  split; [exists "/"%char; split; done|].
  exists (Cursor (rev (chars apiDir) ++ "/"%char :: b)
                 ("/"%char :: rel ++ "."%char :: ext) []).
  split; [apply reach_dirPattern_intro|].
  exists (Cursor ("/"%char :: rev (chars apiDir) ++ "/"%char :: b)
                 (rel ++ "."%char :: ext) []).
  split; [exists "/"%char; split; done|].
  exists (Cursor (rev rel ++ "/"%char :: rev (chars apiDir) ++ "/"%char :: b)
                 ("."%char :: ext) [(1, rel)]).
  split.
  { eexists. split; [by apply reach_plus_intro|].
    unfold capture. cbn [seen rest caps]. by rewrite between_app. }
  exists (Cursor ("."%char :: rev rel ++ "/"%char :: rev (chars apiDir) ++ "/"%char :: b)
                 ext [(1, rel)]).
  split; [done|].
  exists (Cursor (rev ext ++ "."%char :: rev rel ++ "/"%char :: rev (chars apiDir)
                  ++ "/"%char :: b) [] [(2, ext); (1, rel)]).
  split.
  { exists (Cursor (rev ext ++ "."%char :: rev rel ++ "/"%char :: rev (chars apiDir)
                    ++ "/"%char :: b) [] [(1, rel)]).
    split.
    - destruct Hext as [-> | ->]; [left|right]; apply reach_Lit_end.
    - unfold capture. cbn [seen rest caps].
      pose proof (between_app ("."%char :: rev rel ++ "/"%char :: rev (chars apiDir) ++ "/"%char :: b)
                    (rev ext ++ "."%char :: rev rel ++ "/"%char :: rev (chars apiDir) ++ "/"%char :: b)
                    ext [] [(1, rel)] [(1, rel)]) as Hb.
      rewrite app_nil_r in Hb. by rewrite Hb. }
  exists (Cursor (rev ext ++ "."%char :: rev rel ++ "/"%char :: rev (chars apiDir)
                  ++ "/"%char :: b) [] [(2, ext); (1, rel)]).
  split; done.
Qed.

Lemma prefix_cut {A} (l1 l2 k1 k2 : list A) :
  l1 ++ l2 = k1 ++ k2 → length k1 ≤ length l1 → ∃ u, l1 = k1 ++ u.
Proof.
  intros H Hle. exists (skipn (length k1) l1).
  apply (f_equal (firstn (length k1))) in H.
  rewrite take_app_length, take_app_le in H by lia.
  rewrite <- (take_drop (length k1) l1) at 1. by rewrite H.
Qed.

(** X23.  The module key of an API file is its path below the API
    directory without the extension: for a path made of a root, the
    directory between slashes, a relative path and [.js] or [.ts], where
    the directory holds no character with a special meaning in a regular
    expression, root and directory hold no backslash and the directory
    between slashes does not occur earlier, the key is the relative path
    with every backslash turned into a slash. *)
Theorem api_module_key apiDir root rel ext :
  Forall (λ a, special a = false) (chars apiDir) →
  Json.backslash ∉ root ++ "/"%char :: chars apiDir ++ ["/"%char] →
  firstAt (root ++ "/"%char :: chars apiDir ++ ["/"%char])
          ("/"%char :: chars apiDir ++ ["/"%char]) = Some (length root) →
  rel ≠ [] → Forall (λ a, is_dot a = true) rel →
  ext = chars "js" ∨ ext = chars "ts" →
  apiModule apiDir
    (root ++ "/"%char :: chars apiDir ++ "/"%char :: rel ++ "."%char :: ext)
  = Some (str (unixSeparators rel)).
Proof.
  intros _ Hback Hfirst Hne Hrel Hext.
  set (tail := "/"%char :: chars apiDir ++ "/"%char :: rel ++ "."%char :: ext).
  assert (Hhere : is_Some (match_here (apiModuleRe apiDir) (rev root ++ []) tail)).
  { eapply match_here_complete; [|by apply apiModuleRe_reach].
    unfold apiModuleRe. cbn [seqs classStars].
    by rewrite classStars_dirPattern. }
  destruct (exec_from_first _ _ _ _ Hhere) as (f & Hf & Hle).
  unfold apiModule, exec. rewrite Hf.
  apply exec_from_sound in Hf as (pre' & post' & c' & Heq & Hat & Hr & Ha & Hg).
  simpl in Hle, Hat.
  unfold apiModuleRe in Hr. cbn [seqs] in Hr.
  destruct Hr as (c1 & (x1 & H1 & Hc1 & Hx1)%reach_slashes & Hr).
  destruct Hr as (c2 & Hdir & Hr).
  pose proof (reach_groupless _ (groupless_dirPattern _ _) _ _ Hdir) as Hc2.
  apply reach_dirPattern in Hdir as (d & H2 & Hlen & Hd).
  destruct Hr as (c3 & (x3 & H3 & Hc3 & Hx3)%reach_slashes & Hr).
  destruct Hr as (c4 & (c4' & (g1 & Hne1 & H4 & _ & Hc4)%reach_plus_class & ->)
                  & c5 & [H5 Hc5]%step_ahead
                  & c6 & (c6' & Hext' & ->) & c7 & [Hend ->] & ->).
  assert (∃ e, ahead e c5 c6' ∧ caps c6' = caps c5 ∧ length e = 2)
    as (e & H6 & Hc6 & He).
  { destruct Hext' as [[H Hc]%reach_Lit|[H Hc]%reach_Lit];
      [exists (chars "js")|exists (chars "ts")]; done. }
  (* the captures *)
  rewrite Hg. cbn [capture caps group Nat.eqb]. rewrite Hc6, Hc5.
  cbn [capture caps group Nat.eqb]. rewrite (ahead_between _ _ _ H4).
  do 3 f_equal.
  (* the texts *)
  assert (Hm : matched f = [x1] ++ d ++ [x3] ++ g1 ++ ["."%char] ++ e).
  { eapply ahead_unique; [exact Ha|].
    eapply ahead_trans; [exact H1|]. eapply ahead_trans; [exact H2|].
    eapply ahead_trans; [exact H3|].
    eapply ahead_trans; [split; [apply H4|apply H4]|].
    eapply ahead_trans; [exact H5|]. split; [apply H6|apply H6]. }
  assert (Hpost : post' = []).
  { destruct Ha as [G _]. cbn [rest capture] in G, Hend.
    rewrite Hend, app_nil_r in G.
    apply (f_equal length) in G. rewrite length_app in G.
    destruct post'; [done|simpl in G; lia]. }
  rewrite Hm, Hpost, app_nil_r in Heq.
  set (seg := "/"%char :: chars apiDir ++ ["/"%char]) in *.
  assert (Htail : tail = seg ++ rel ++ "."%char :: ext).
  { unfold tail, seg. by simplify_list_eq. }
  rewrite Htail in Heq.
  assert (Hlen' : length ([x1] ++ d ++ [x3]) = length seg).
  { unfold seg. simpl. rewrite !length_app. simpl. unfold chars in *. lia. }
  assert (Hpre : length pre' = length root).
  { destruct (decide (length pre' < length root)) as [Hlt|]; [exfalso|lia].
    destruct (prefix_cut (root ++ seg) (rel ++ "."%char :: ext)
                (pre' ++ [x1] ++ d ++ [x3]) (g1 ++ ["."%char] ++ e))
      as [u Hcut].
    { rewrite <- !app_assoc. rewrite Heq. by simplify_list_eq. }
    { rewrite (length_app pre'), (length_app root). lia. }
    assert (Hno : Json.backslash ∉ [x1] ++ d ++ [x3]).
    { intros Hin. apply Hback. rewrite Hcut. set_solver. }
    assert (x1 = "/"%char) as -> by (destruct Hx1 as [-> | ->]; [done|set_solver]).
    assert (x3 = "/"%char) as -> by (destruct Hx3 as [-> | ->]; [done|set_solver]).
    assert (d = chars apiDir) as -> by (apply Hd; set_solver).
    pose proof (firstAt_first _ _ _ Hfirst (length pre') Hlt) as Hfail.
    rewrite Hcut in Hfail. rewrite <- app_assoc in Hfail.
    rewrite drop_app_length in Hfail.
    change (["/"%char] ++ chars apiDir ++ ["/"%char]) with seg in Hfail.
    by rewrite startsWith_app in Hfail. }
  apply app_inj_1 in Heq as [_ Heq]; [|done].
  replace (seg ++ rel ++ "."%char :: ext)
    with (["/"%char] ++ chars apiDir ++ ["/"%char] ++ (rel ++ ["."%char]) ++ ext)
    in Heq by (unfold seg; by simplify_list_eq).
  replace ([x1] ++ d ++ [x3] ++ g1 ++ ["."%char] ++ e)
    with ([x1] ++ d ++ [x3] ++ (g1 ++ ["."%char]) ++ e)
    in Heq by (by simplify_list_eq).
  apply app_inj_1 in Heq as [_ Heq]; [|done].
  apply app_inj_1 in Heq as [_ Heq]; [|unfold chars in *; lia].
  apply app_inj_1 in Heq as [_ Heq]; [|done].
  apply app_inj_2 in Heq as [Heq _].
  2:{ rewrite He. by destruct Hext as [-> | ->]. }
  by apply app_inj_2 in Heq as [-> _].
Qed.

End ApiScanFacts.

(** * Imports that are detected *)

Module DetectionMore.
Import Regex Str Usage Catalog Resolver Detection Semantics RegexFacts
       UsageFacts SemanticsFacts ComponentsFacts ApiScanFacts DetectionFacts.

(** Where a run of a class ends is determined by the text. *)
Lemma span_unique (P : ascii → bool) l1 : ∀ l2 x y r1 r2,
  Forall (λ a, P a = true) l1 → Forall (λ a, P a = true) l2 →
  P x = false → P y = false →
  l1 ++ x :: r1 = l2 ++ y :: r2 → l1 = l2 ∧ x = y ∧ r1 = r2.
Proof.
  induction l1 as [|a l1 IH]; intros l2 x y r1 r2 H1 H2 Hx Hy Heq.
  - destruct l2 as [|b l2]; simpl in Heq.
    + by injection Heq as -> ->.
    + injection Heq as -> _. inversion H2; subst. congruence.
  - inversion H1; subst. destruct l2 as [|b l2]; simpl in Heq.
    + injection Heq as -> _. congruence.
    + injection Heq as -> Heq. inversion H2; subst.
      by destruct (IH _ _ _ _ _ ltac:(done) ltac:(done) Hx Hy Heq) as (-> & -> & ->).
Qed.

(** What the body gives for one element is part of the result of a loop
    that returns. *)
Lemma forEach_part {X} (body : X → option (list ApiInfo)) l x : ∀ r,
  forEach body l = Some r → x ∈ l →
  ∃ r', body x = Some r' ∧ ∀ d, d ∈ r' → d ∈ r.
Proof.
  induction l as [|y l IH]; intros r H Hx; [by apply elem_of_nil in Hx|].
  simpl in H.
  destruct (body y) as [a|] eqn:E; [|done].
  destruct (forEach body l) as [b|] eqn:E2; [|done].
  injection H as <-.
  apply elem_of_cons in Hx as [->|Hx].
  - exists a. split; [done|]. intros d Hd. apply elem_of_app. by left.
  - destruct (IH b eq_refl Hx) as (r' & Hr' & Hsub). exists r'.
    split; [done|]. intros d Hd. apply elem_of_app. right. by apply Hsub.
Qed.

(** The text and the captures of a match of the patterns. *)
Lemma apiPathGroup_reach i c c' :
  reach (apiPathGroup i) c c' →
  ∃ p, ahead p c c' ∧ Forall (λ a, not_quote2 a = true) p
       ∧ caps c' = (i, p) :: caps c.
Proof.
  unfold apiPathGroup. cbn [seqs].
  intros (c3 & (c1 & (a & H1 & Ha & Hc1)%reach_star_class
               & c2 & [H2 Hc2]%reach_Lit
               & c3' & (b & _ & H3 & Hb & Hc3)%reach_plus_class & ->) & ->).
  pose proof (ahead_trans _ _ _ _ _ H1 (ahead_trans _ _ _ _ _ H2 H3)) as Hall.
  exists (a ++ list_ascii_of_string "/api/" ++ b). split_and!; [done| |].
  - rewrite !Forall_app. split_and!; [done|by repeat constructor|done].
  - unfold capture. cbn [caps]. rewrite (ahead_between _ _ _ Hall).
    by rewrite Hc3, Hc2, Hc1.
Qed.

Lemma apiFromRe_reach c c' :
  reach apiFromRe c c' →
  ∃ s q p q',
    ahead (chars "from" ++ s ++ q :: p ++ [q']) c c'
    ∧ quote2 q = true ∧ quote2 q' = true
    ∧ Forall (λ a, not_quote2 a = true) p
    ∧ caps c' = (1, p) :: caps c.
Proof.
  unfold apiFromRe. cbn [seqs].
  intros (c1 & [H1 Hc1]%reach_Lit
          & c2 & (s & _ & H2 & _ & Hc2)%reach_plus_class
          & c3 & (q & Hq & [H3 Hc3]%step_ahead)
          & c4 & (p & H4 & Hp & Hc4)%apiPathGroup_reach
          & c5 & (q' & Hq' & [H5 Hc5]%step_ahead) & ->).
  exists s, q, p, q'. split_and!; [|done..|].
  - change (chars "from" ++ s ++ q :: p ++ [q'])
      with (chars "from" ++ s ++ [q] ++ p ++ [q']).
    eapply ahead_trans; [exact H1|]. eapply ahead_trans; [exact H2|].
    eapply ahead_trans; [exact H3|]. eapply ahead_trans; [exact H4|exact H5].
  - by rewrite Hc5, Hc4, Hc3, Hc2, Hc1.
Qed.

Lemma importsRe_reach c c' :
  reach importsRe c c' →
  ∃ s n,
    ahead (chars "import" ++ s ++ "{"%char :: n ++ ["}"%char]) c c'
    ∧ Forall (λ a, is_space a = true) s
    ∧ Forall (λ a, none_of ["}"%char] a = true) n
    ∧ caps c' = (1, n) :: caps c.
Proof.
  unfold importsRe, bracesGroup. cbn [seqs].
  intros (c1 & [H1 Hc1]%reach_Lit
          & c2 & (s & _ & H2 & Hs & Hc2)%reach_plus_class
          & c3 & [H3 Hc3]%step_ahead
          & c4 & (c4' & (n & _ & H4 & Hn & Hc4)%reach_plus_class & ->)
          & c5 & [H5 Hc5]%step_ahead & ->).
  exists s, n. split_and!; [|done..|].
  - change (chars "import" ++ s ++ "{"%char :: n ++ ["}"%char])
      with (chars "import" ++ s ++ ["{"%char] ++ n ++ ["}"%char]).
    eapply ahead_trans; [exact H1|]. eapply ahead_trans; [exact H2|].
    eapply ahead_trans; [exact H3|].
    eapply ahead_trans; [split; [apply H4|apply H4]|exact H5].
  - rewrite Hc5. unfold capture. cbn [caps].
    by rewrite (ahead_between _ _ _ H4), Hc4, Hc3, Hc2, Hc1.
Qed.

Lemma importBracesRe_reach c c' :
  reach importBracesRe c c' →
  ∃ s1 n s2 s3 q p q',
    ahead (chars "import" ++ s1 ++ "{"%char :: n ++ "}"%char :: s2
           ++ chars "from" ++ s3 ++ q :: p ++ [q']) c c'
    ∧ Forall (λ a, is_space a = true) s1
    ∧ Forall (λ a, none_of ["}"%char] a = true) n
    ∧ Forall (λ a, is_space a = true) s2
    ∧ Forall (λ a, is_space a = true) s3
    ∧ quote2 q = true ∧ Forall (λ a, not_quote2 a = true) p
    ∧ quote2 q' = true.
Proof.
  unfold importBracesRe, bracesGroup. cbn [seqs].
  intros (c1 & [H1 Hc1]%reach_Lit
          & c2 & (s1 & _ & H2 & Hs1 & Hc2)%reach_plus_class
          & c3 & [H3 Hc3]%step_ahead
          & c4 & (c4' & (n & _ & H4 & Hn & Hc4)%reach_plus_class & ->)
          & c5 & [H5 Hc5]%step_ahead
          & c6 & (s2 & _ & H6 & Hs2 & Hc6)%reach_plus_class
          & c7 & [H7 Hc7]%reach_Lit
          & c8 & (s3 & _ & H8 & Hs3 & Hc8)%reach_plus_class
          & c9 & (q & Hq & [H9 Hc9]%step_ahead)
          & c10 & (p & H10 & Hp & Hc10)%apiPathGroup_reach
          & c11 & (q' & Hq' & [H11 Hc11]%step_ahead) & ->).
  exists s1, n, s2, s3, q, p, q'. split_and!; [|done..].
  change (chars "import" ++ s1 ++ "{"%char :: n ++ "}"%char :: s2
          ++ chars "from" ++ s3 ++ q :: p ++ [q'])
    with (chars "import" ++ s1 ++ ["{"%char] ++ n ++ ["}"%char] ++ s2
          ++ chars "from" ++ s3 ++ [q] ++ p ++ [q']).
  eapply ahead_trans; [exact H1|]. eapply ahead_trans; [exact H2|].
  eapply ahead_trans; [exact H3|].
  eapply ahead_trans; [split; [apply H4|apply H4]|].
  eapply ahead_trans; [exact H5|]. eapply ahead_trans; [exact H6|].
  eapply ahead_trans; [exact H7|]. eapply ahead_trans; [exact H8|].
  eapply ahead_trans; [exact H9|]. eapply ahead_trans; [exact H10|exact H11].
Qed.

(** A pattern passes over a text, wherever the text stands. *)
Local Abbreviation spans r s :=
  (∀ b t cs, ∃ cs', reach r (Cursor b (s ++ t) cs) (Cursor (rev s ++ b) t cs')).

Lemma spans_Lit l : spans (Lit l) l.
Proof. intros b t cs. exists cs. apply reach_Lit_intro. Qed.

Lemma spans_Char a : spans (Char a) [a].
Proof. intros b t cs. by exists cs. Qed.

Lemma spans_Class P a : P a = true → spans (Class P) [a].
Proof. intros Ha b t cs. exists cs. by exists a. Qed.

Lemma spans_star g P s : Forall (λ a, P a = true) s → spans (Star g (Class P)) s.
Proof. intros Hs b t cs. exists cs. by apply reach_star_intro. Qed.

Lemma spans_plus g P s :
  s ≠ [] → Forall (λ a, P a = true) s → spans (Plus g (Class P)) s.
Proof. intros Hne Hs b t cs. exists cs. by apply reach_plus_intro. Qed.

Lemma spans_Group i r s : spans r s → spans (Group i r) s.
Proof.
  intros H b t cs. destruct (H b t cs) as [cs' Hr].
  eexists. eexists. split; [exact Hr|]. reflexivity.
Qed.

Lemma spans_Seq r1 r2 s1 s2 :
  spans r1 s1 → spans r2 s2 → spans (Seq r1 r2) (s1 ++ s2).
Proof.
  intros H1 H2 b t cs. destruct (H1 b (s2 ++ t) cs) as [cs1 Hr1].
  destruct (H2 (rev s1 ++ b) t cs1) as [cs2 Hr2].
  exists cs2. rewrite <- app_assoc, rev_app_distr, <- app_assoc.
  by exists (Cursor (rev s1 ++ b) (s2 ++ t) cs1).
Qed.

Lemma spans_Empty : spans Empty [].
Proof. intros b t cs. by exists cs. Qed.

Lemma spans_match r s b t :
  classStars r = true → spans r s → is_Some (match_here r b (s ++ t)).
Proof.
  intros Hcs H. destruct (H b t []) as [cs' Hr].
  by eapply match_here_complete.
Qed.

Lemma brace_not_space : is_space "{"%char = false.
Proof. done. Qed.

Section Braces.
Variables (sp1 names sp2 sp3 importPath : list ascii) (q1 q2 : ascii).
Hypothesis Hsp1 : sp1 ≠ [] ∧ Forall (λ a, is_space a = true) sp1.
Hypothesis Hnames : names ≠ [] ∧ Forall (λ a, none_of ["}"%char] a = true) names.
Hypothesis Hnq : Forall (λ a, not_quote2 a = true) names.
Hypothesis Hsp2 : sp2 ≠ [] ∧ Forall (λ a, is_space a = true) sp2.
Hypothesis Hsp3 : sp3 ≠ [] ∧ Forall (λ a, is_space a = true) sp3.
Hypothesis Hq1 : quote2 q1 = true.
Hypothesis Hq2 : quote2 q2 = true.
Hypothesis Hpath : Forall (λ a, not_quote2 a = true) importPath.
Hypothesis Hapi : ∃ A B, importPath = A ++ chars "/api/" ++ B ∧ B ≠ [].

Let head : list ascii := chars "import" ++ sp1 ++ "{"%char :: names ++ ["}"%char].
Let fromText : list ascii := chars "from" ++ sp3 ++ q1 :: importPath ++ [q2].
Let statement : list ascii := head ++ sp2 ++ fromText.

Lemma spans_apiPathGroup i : spans (apiPathGroup i) importPath.
Proof.
  destruct Hapi as (A & B & -> & HB).
  apply Forall_app in Hpath as [HA [_ HB']%Forall_app].
  unfold apiPathGroup. apply spans_Group. cbn [seqs].
  apply spans_Seq; [by apply spans_star|].
  rewrite <- (app_nil_r B).
  apply spans_Seq; [apply spans_Lit|].
  apply spans_Seq; [by apply spans_plus|apply spans_Empty].
Qed.

Lemma spans_fromText : spans apiFromRe fromText.
Proof.
  unfold apiFromRe, fromText. cbn [seqs]. destruct Hsp3 as [? ?].
  apply spans_Seq; [apply spans_Lit|].
  apply spans_Seq; [by apply spans_plus|].
  apply (spans_Seq _ _ [q1]); [by apply spans_Class|].
  apply spans_Seq; [apply spans_apiPathGroup|].
  apply (spans_Seq _ _ [q2] []); [by apply spans_Class|apply spans_Empty].
Qed.

Lemma spans_head : spans importsRe head.
Proof.
  unfold importsRe, head, bracesGroup. cbn [seqs].
  destruct Hsp1 as [? ?], Hnames as [? ?].
  apply spans_Seq; [apply spans_Lit|].
  apply spans_Seq; [by apply spans_plus|].
  apply (spans_Seq _ _ ["{"%char]); [apply spans_Char|].
  apply spans_Seq; [by apply spans_Group, spans_plus|].
  apply (spans_Seq _ _ ["}"%char] []); [apply spans_Char|apply spans_Empty].
Qed.

Lemma spans_statement : spans importBracesRe statement.
Proof.
  unfold importBracesRe, statement, head, fromText, bracesGroup. cbn [seqs].
  rewrite <- !app_assoc. cbn [app]. rewrite <- !app_assoc. cbn [app].
  destruct Hsp1 as [? ?], Hnames as [? ?], Hsp2 as [? ?], Hsp3 as [? ?].
  apply spans_Seq; [apply spans_Lit|].
  apply spans_Seq; [by apply spans_plus|].
  apply (spans_Seq _ _ ["{"%char]); [apply spans_Char|].
  apply spans_Seq; [by apply spans_Group, spans_plus|].
  apply (spans_Seq _ _ ["}"%char]); [apply spans_Char|].
  apply spans_Seq; [by apply spans_plus|].
  apply spans_Seq; [apply spans_Lit|].
  apply spans_Seq; [by apply spans_plus|].
  apply (spans_Seq _ _ [q1]); [by apply spans_Class|].
  apply spans_Seq; [apply spans_apiPathGroup|].
  apply (spans_Seq _ _ [q2] []); [by apply spans_Class|apply spans_Empty].
Qed.

(** The statement is read in one way only. *)
Lemma head_unique s n t t' :
  Forall (λ a, is_space a = true) s →
  Forall (λ a, none_of ["}"%char] a = true) n →
  head ++ t = (chars "import" ++ s ++ "{"%char :: n ++ ["}"%char]) ++ t' →
  s = sp1 ∧ n = names ∧ t = t'.
Proof.
  intros Hs Hn Heq. unfold head in Heq. rewrite <- !app_assoc in Heq.
  apply app_inv_head in Heq. cbn [app] in Heq. rewrite <- !app_assoc in Heq.
  cbn [app] in Heq.
  destruct Hsp1 as [_ Hs1], Hnames as [_ Hn1].
  apply (span_unique is_space) in Heq as (-> & _ & Heq); [|done..].
  apply (span_unique (none_of ["}"%char])) in Heq as (-> & _ & Heq); [|done..].
  done.
Qed.

Lemma statement_unique s1 n s2 s3 q p q' t t' :
  Forall (λ a, is_space a = true) s1 →
  Forall (λ a, none_of ["}"%char] a = true) n →
  Forall (λ a, is_space a = true) s2 →
  Forall (λ a, is_space a = true) s3 →
  quote2 q = true → Forall (λ a, not_quote2 a = true) p → quote2 q' = true →
  statement ++ t
  = (chars "import" ++ s1 ++ "{"%char :: n ++ "}"%char :: s2
     ++ chars "from" ++ s3 ++ q :: p ++ [q']) ++ t' →
  chars "import" ++ s1 ++ "{"%char :: n ++ "}"%char :: s2
     ++ chars "from" ++ s3 ++ q :: p ++ [q'] = statement.
Proof.
  intros Hs1 Hn Hs2 Hs3 Hq Hp Hq' Heq.
  assert (Heq' : head ++ (sp2 ++ fromText ++ t)
                 = (chars "import" ++ s1 ++ "{"%char :: n ++ ["}"%char])
                   ++ (s2 ++ chars "from" ++ s3 ++ q :: p ++ q' :: t')).
  { etrans; [|etrans; [exact Heq|]]; unfold statement; by simplify_list_eq. }
  clear Heq. apply head_unique in Heq' as (-> & -> & Heq); [|done..].
  unfold statement.
  replace (chars "import" ++ sp1 ++ "{"%char :: names ++ "}"%char :: s2
           ++ chars "from" ++ s3 ++ q :: p ++ [q'])
    with (head ++ s2 ++ chars "from" ++ s3 ++ q :: p ++ [q'])
    by (unfold head; by simplify_list_eq).
  f_equal.
  unfold fromText in *. rewrite <- !app_assoc in Heq.
  destruct Hsp2 as [_ Hs2'], Hsp3 as [_ Hs3'].
  change (chars "from") with ("f"%char :: chars "rom") in *.
  cbn [app] in Heq.
  apply (span_unique is_space) in Heq as (-> & _ & Heq); [|done..].
  apply app_inv_head in Heq.
  apply (span_unique is_space) in Heq as (-> & -> & Heq);
    [|done|done|by apply quote2_not_space..].
  rewrite <- !app_assoc in Heq. cbn [app] in Heq.
  apply (span_unique not_quote2) in Heq as (-> & -> & Heq);
    [|done|done|by apply quote2_not_quote2..].
  done.
Qed.

Lemma match_here_braces b t :
  ∃ cs, match_here importBracesRe b (statement ++ t) = Some (length statement, cs).
Proof.
  destruct (spans_match importBracesRe statement b t) as [[n cs] Hm];
    [done|apply spans_statement|].
  exists cs. rewrite Hm. do 2 f_equal.
  apply match_here_sound in Hm as (c' & m & Hr & Ha & -> & _).
  apply importBracesRe_reach in Hr
    as (s1 & n & s2 & s3 & q & p & q' & Ha' & Hs1 & Hn & Hs2 & Hs3 & Hq & Hp & Hq').
  rewrite (ahead_unique _ _ _ _ Ha Ha').
  destruct Ha' as [Heq _]. cbn [rest] in Heq.
  by rewrite (statement_unique _ _ _ _ _ _ _ _ _ Hs1 Hn Hs2 Hs3 Hq Hp Hq' Heq).
Qed.

Lemma exec_imports :
  ∃ im, exec importsRe statement = Some im ∧ group 1 (groups im) = Some names.
Proof.
  destruct (spans_match importsRe head [] (sp2 ++ fromText)) as [[n cs] Hm];
    [done|apply spans_head|].
  unfold exec, statement.
  assert (Hex : ∀ s, match_here importsRe [] s = Some (n, cs) →
            exec_from importsRe [] s = Some (Found 0 (firstn n s) cs)).
  { intros s H. destruct s; cbn [exec_from]; by rewrite H. }
  rewrite (Hex _ Hm). eexists. split; [done|]. cbn [groups].
  apply match_here_sound in Hm as (c' & m & Hr & Ha & _ & ->).
  apply importsRe_reach in Hr as (s & n' & Ha' & Hs & Hn & Hc).
  rewrite Hc. cbn [group caps Nat.eqb]. f_equal.
  destruct Ha' as [Heq _]. cbn [rest] in Heq.
  by apply head_unique in Heq as (_ & -> & _).
Qed.

Lemma exec_apiFrom :
  ∃ pm, exec apiFromRe statement = Some pm
        ∧ group 1 (groups pm) = Some importPath.
Proof.
  destruct (exec_from_first apiFromRe fromText (head ++ sp2) []) as (pm & Hpm & _).
  { rewrite <- (app_nil_r fromText). apply spans_match; [done|apply spans_fromText]. }
  unfold exec, statement. rewrite <- app_assoc in Hpm.
  exists pm. split; [done|].
  apply exec_from_sound in Hpm as (pre' & post' & c' & Hst & _ & Hr & Ha & Hg).
  apply apiFromRe_reach in Hr as (s & q & p & q' & Ha' & Hq & Hq' & Hp & Hc).
  rewrite Hg, Hc. cbn [group caps Nat.eqb]. f_equal.
  rewrite (ahead_unique _ _ _ _ Ha Ha') in Hst.
  destruct Hsp1 as [_ Hs1], Hnames as [_ Hn], Hsp2 as [_ Hs2], Hsp3 as [_ Hs3].
  assert (HA : Forall (λ a, not_quote2 a = true)
                 (head ++ sp2 ++ chars "from" ++ sp3)).
  { unfold head. rewrite !Forall_app. split_and!.
    - by repeat constructor.
    - eapply Forall_impl; [exact Hs1|]. apply space_not_quote.
    - constructor; [done|]. apply Forall_app. split; [done|by repeat constructor].
    - eapply Forall_impl; [exact Hs2|]. apply space_not_quote.
    - by repeat constructor.
    - eapply Forall_impl; [exact Hs3|]. apply space_not_quote. }
  destruct (first_quote _ _ q1 q2 (pre' ++ chars "from" ++ s) q
              (p ++ q' :: post') HA Hpath Hq) as [_ HR].
  { by destruct p. }
  { unfold fromText in Hst. rewrite <- !app_assoc in Hst. cbn [app] in Hst.
    rewrite <- !app_assoc. cbn [app]. rewrite Hst. by simplify_list_eq. }
  by destruct (last_quote importPath q2 p q' post' Hpath Hq') as [-> _].
Qed.

End Braces.

(** X24.  A function that is imported with braces from a path holding
    [/api/] and is called in the file is attributed to the file: when the
    import path resolves to a module key of the catalogue and the module
    declares the function, its descriptor is among the direct descriptors
    whenever the extraction returns, that is, whenever none of the
    patterns built from the imported names throws.  The import statement
    has to be within reach of the scan: no earlier match of the pattern
    runs over its start. *)
Theorem imported_call_is_detected hostTest config apiDefinitions code
  pre sp1 names sp2 sp3 q1 importPath q2 post funcName apiPath l d :
  chars code
  = pre ++ (chars "import" ++ sp1 ++ "{"%char :: names ++ "}"%char :: sp2
            ++ chars "from" ++ sp3 ++ q1 :: importPath ++ [q2]) ++ post →
  sp1 ≠ [] ∧ Forall (λ a, is_space a = true) sp1 →
  names ≠ [] ∧ Forall (λ a, none_of ["}"%char] a = true) names →
  Forall (λ a, not_quote2 a = true) names →
  sp2 ≠ [] ∧ Forall (λ a, is_space a = true) sp2 →
  sp3 ≠ [] ∧ Forall (λ a, is_space a = true) sp3 →
  quote2 q1 = true → quote2 q2 = true →
  Forall (λ a, not_quote2 a = true) importPath →
  (∃ A B, importPath = A ++ chars "/api/" ++ B ∧ B ≠ []) →
  (∀ f, f ∈ match_all importBracesRe (chars code) →
        at_index f < length pre →
        at_index f + length (matched f) ≤ length pre) →
  funcName ∈ importedFunctions names →
  funcCallTest hostTest funcName (chars code) = Some true →
  resolveApiPath importPath config = Some apiPath → apiPath ≠ [] →
  Obj.get (str apiPath) apiDefinitions = Some l →
  findApiByFunctionName l (str funcName) = Some d →
  ∀ apis,
    extractDirectApisWithConfig hostTest config apiDefinitions code = Some apis →
    d ∈ apis.
Proof.
  intros Hcode Hsp1 Hnames Hnq Hsp2 Hsp3 Hq1 Hq2 Hpath Hapi Hover
    Hfn Hcall Hres Hne Hget Hfind apis.
  set (statement := (chars "import" ++ sp1 ++ "{"%char :: names ++ ["}"%char])
                    ++ sp2 ++ chars "from" ++ sp3 ++ q1 :: importPath ++ [q2]).
  assert (Hcode' : chars code = pre ++ statement ++ post).
  { rewrite Hcode. unfold statement. by simplify_list_eq. }
  unfold extractDirectApisWithConfig.
  destruct (bracesImports hostTest config apiDefinitions (chars code))
    as [braces|] eqn:Eb; [|done].
  destruct (singleImports hostTest config apiDefinitions (chars code))
    as [single|]; [|done].
  intros [= <-]. apply elem_of_app. right. apply elem_of_app. left.
  destruct (match_here_braces sp1 names sp2 sp3 importPath q1 q2
              Hsp1 Hnames Hnq Hsp2 Hsp3 Hq1 Hq2 Hpath Hapi (rev pre) post)
    as [cs Hm].
  destruct (exec_imports sp1 names sp2 sp3 importPath q1 q2
              Hsp1 Hnames Hnq) as (im & Him & Hg1).
  destruct (exec_apiFrom sp1 names sp2 sp3 importPath q1 q2
              Hsp1 Hnames Hnq Hsp2 Hsp3 Hq1 Hq2 Hpath Hapi) as (pm & Hpm & Hg2).
  cbv zeta in Hm, Him, Hpm. fold statement in Hm, Him, Hpm.
  unfold bracesImports in Eb.
  destruct (forEach_part _ _ (Found (length pre) statement cs) _ Eb)
    as (inner & Hinner & Hsub).
  { rewrite Hcode'. apply scan_found; [unfold statement; simpl; discriminate|done|].
    by rewrite <- Hcode'. }
  apply Hsub. cbn [matched] in Hinner.
  rewrite Him, Hpm, Hg1, Hg2, Hres in Hinner.
  assert (resolved (Some apiPath) = Some apiPath) as Hr by (by destruct apiPath).
  rewrite Hr in Hinner.
  destruct (forEach_part _ _ funcName _ Hinner Hfn) as (r' & Hr' & Hsub').
  apply Hsub'. unfold importedApi in Hr'. rewrite Hcall, Hget, Hfind in Hr'.
  injection Hr' as <-. apply list_elem_of_here.
Qed.

End DetectionMore.

(** * Properties of a run *)

Module PluginFacts.
Import Regex Str Path Catalog Usage Walker Scanner Resolver Components
       Detection Json Aggregator Plugin.
Import WalkerFacts JsonFacts AggFacts WalkerMore AggMore DetectionFacts ApiScanFacts.


End PluginFacts.

(** * The labels of a page *)

Module LabelsFacts.
Import Regex Str Catalog Json Aggregator Semantics.
Import RegexFacts UsageFacts SemanticsFacts StrFacts ComponentsFacts ApiScanFacts.

Lemma run_slash {A} b t cs (k : cursor → option A) :
  run slashes (Cursor b ("/"%char :: t) cs) k = k (Cursor ("/"%char :: b) t cs).
Proof. done. Qed.

Lemma run_dirPattern {A} l : ∀ flag b t cs (k : cursor → option A),
  run (dirPattern flag l) (Cursor b (l ++ t) cs) k = k (Cursor (rev l ++ b) t cs).
Proof.
  induction l as [|a l IH]; intros flag b t cs k; cbn [dirPattern app rev];
    [done|].
  destruct (negb flag && Ascii.eqb a "/") eqn:E.
  - apply andb_true_iff in E as [_ ->%Ascii.eqb_eq].
    rewrite run_Seq, run_slash, IH. by rewrite <- app_assoc.
  - rewrite run_Seq, run_Char_cons, Ascii.eqb_refl, IH.
    by rewrite <- app_assoc.
Qed.

(** The pattern of a directory name that is not empty. *)
Lemma viewsPattern_dir viewsDir :
  chars viewsDir ≠ [] →
  viewsPattern viewsDir
  = seqs [slashes; dirPattern false (chars viewsDir); slashes;
          Group 1 (Plus true (Class is_dot))].
Proof.
  unfold viewsPattern, chars. destruct (list_ascii_of_string viewsDir) as [|a l]; [done|].
  intros _. simpl. by destruct (Ascii.eqb a "/").
Qed.

(** The pattern matches at the directory and takes all that follows. *)
Lemma match_here_views viewsDir b rel :
  chars viewsDir ≠ [] → rel ≠ [] → Forall (λ a, is_dot a = true) rel →
  match_here (viewsPattern viewsDir) b
    ("/"%char :: chars viewsDir ++ "/"%char :: rel)
  = Some (length ("/"%char :: chars viewsDir ++ "/"%char :: rel), [(1, rel)]).
Proof.
  intros Hne Hrel Hdot. rewrite viewsPattern_dir by done.
  unfold match_here. cbn [seqs].
  rewrite run_Seq, run_slash, run_Seq, run_dirPattern, run_Seq, run_slash.
  rewrite run_Seq, run_Group.
  pose proof (run_plus_class is_dot
    (λ c', run Empty
             (capture 1 (Cursor ("/"%char :: rev (chars viewsDir) ++ "/"%char :: b) rel []) c')
             (λ c'0, Some (length ("/"%char :: chars viewsDir ++ "/"%char :: rel)
                           - length (rest c'0), caps c'0)))
    (length ("/"%char :: chars viewsDir ++ "/"%char :: rel), [(1, rel)])
    rel [] ("/"%char :: rev (chars viewsDir) ++ "/"%char :: b) [] Hrel Hdot I) as H.
  rewrite app_nil_r in H. apply H.
  rewrite run_Empty. unfold capture. cbn [rest caps seen].
  pose proof (between_app ("/"%char :: rev (chars viewsDir) ++ "/"%char :: b)
                (rev rel ++ "/"%char :: rev (chars viewsDir) ++ "/"%char :: b)
                rel [] [] []) as Hb.
  rewrite app_nil_r in Hb. rewrite Hb. cbn [length]. by rewrite Nat.sub_0_r.
Qed.

(** Where the pattern matches, the text is the directory between two
    separators. *)
Lemma match_here_views_text viewsDir b after y :
  chars viewsDir ≠ [] →
  match_here (viewsPattern viewsDir) b after = Some y →
  ∃ x1 d x3 more,
    after = [x1] ++ d ++ [x3] ++ more
    ∧ length d = length (chars viewsDir)
    ∧ (x1 = "/"%char ∨ x1 = backslash) ∧ (x3 = "/"%char ∨ x3 = backslash)
    ∧ (backslash ∉ d → d = chars viewsDir).
Proof.
  intros Hne. rewrite viewsPattern_dir by done. destruct y as [n cs].
  intros (c' & s & Hr & _ & _ & _)%match_here_sound.
  cbn [seqs] in Hr.
  destruct Hr as (c1 & (x1 & H1 & _ & Hx1)%reach_slashes & c2 & Hdir & Hr).
  apply reach_dirPattern in Hdir as (d & H2 & Hlen & Hd).
  destruct Hr as (c3 & (x3 & H3 & _ & Hx3)%reach_slashes & _).
  pose proof (ahead_trans _ _ _ _ _ H1 (ahead_trans _ _ _ _ _ H2 H3)) as [Ha _].
  cbn [rest] in Ha. exists x1, d, x3, (rest c3).
  split_and!; [|done..]. rewrite Ha. by simplify_list_eq.
Qed.

(** The leftmost match is the first position at which the pattern
    matches. *)
Lemma exec_from_at r t n cs : ∀ a b,
  (∀ a1 a2, a = a1 ++ a2 → a2 ≠ [] →
     match_here r (rev a1 ++ b) (a2 ++ t) = None) →
  match_here r (rev a ++ b) t = Some (n, cs) →
  exec_from r b (a ++ t) = Some (Found (length b + length a) (firstn n t) cs).
Proof.
  induction a as [|x a IH]; intros b Hnone Hm.
  - simpl in *. destruct t; cbn [exec_from]; rewrite Hm;
      by rewrite Nat.add_0_r.
  - cbn [app exec_from].
    pose proof (Hnone [] (x :: a) eq_refl) as H0. cbn [rev app] in H0.
    rewrite H0 by done.
    rewrite (IH (x :: b)).
    + do 2 f_equal. simpl. lia.
    + intros a1 a2 -> Ha2.
      pose proof (Hnone (x :: a1) a2 eq_refl Ha2) as H.
      simpl in H. by rewrite <- app_assoc in H.
    + simpl in Hm. by rewrite <- app_assoc in Hm.
Qed.

(** The path below the views directory, as [processFileWithConfig] cuts
    it. *)
Lemma exec_views viewsDir root rel :
  chars viewsDir ≠ [] →
  backslash ∉ root ++ "/"%char :: chars viewsDir ++ ["/"%char] →
  firstAt (root ++ "/"%char :: chars viewsDir ++ ["/"%char])
          ("/"%char :: chars viewsDir ++ ["/"%char]) = Some (length root) →
  rel ≠ [] → Forall (λ a, is_dot a = true) rel →
  ∃ f, exec (viewsPattern viewsDir)
         (root ++ "/"%char :: chars viewsDir ++ "/"%char :: rel) = Some f
       ∧ group 1 (groups f) = Some rel.
Proof.
  intros Hne Hback Hfirst Hrel Hdot.
  eexists. split.
  - unfold exec. apply exec_from_at.
    + intros a1 a2 -> Ha2.
      destruct (match_here _ _ _) as [y|] eqn:E; [exfalso|done].
      apply match_here_views_text in E
        as (x1 & d & x3 & more & Heq & Hlen & Hx1 & Hx3 & Hd); [|done].
      set (seg := "/"%char :: chars viewsDir ++ ["/"%char]) in *.
      assert (Hlen' : length ([x1] ++ d ++ [x3]) = length seg).
      { unfold seg. simpl. rewrite !length_app. simpl. lia. }
      assert (Heq' : (a1 ++ a2) ++ seg ++ rel
                     = (a1 ++ [x1] ++ d ++ [x3]) ++ more).
      { rewrite <- !app_assoc. f_equal.
        replace (seg ++ rel) with ("/"%char :: chars viewsDir ++ "/"%char :: rel)
          by (unfold seg; by simplify_list_eq).
        rewrite Heq. by simplify_list_eq. }
      destruct (prefix_cut ((a1 ++ a2) ++ seg) rel
                  (a1 ++ [x1] ++ d ++ [x3]) more) as [u Hcut].
      { by rewrite <- app_assoc. }
      { rewrite !(length_app a1), (length_app (a1 ++ a2)), (length_app a1).
        destruct a2; [done|]. simpl in *. lia. }
      assert (Hno : backslash ∉ [x1] ++ d ++ [x3]).
      { intros Hin. apply Hback. fold seg. rewrite Hcut. set_solver. }
      assert (x1 = "/"%char) as -> by (destruct Hx1 as [-> | ->]; [done|set_solver]).
      assert (x3 = "/"%char) as -> by (destruct Hx3 as [-> | ->]; [done|set_solver]).
      assert (d = chars viewsDir) as -> by (apply Hd; set_solver).
      assert (Hlt : length a1 < length (a1 ++ a2)).
      { rewrite length_app. destruct a2; [done|]. simpl. lia. }
      pose proof (firstAt_first _ _ _ Hfirst (length a1) Hlt) as Hfail.
      fold seg in Hfail. rewrite Hcut in Hfail. rewrite <- app_assoc in Hfail.
      rewrite drop_app_length in Hfail.
      change (["/"%char] ++ chars viewsDir ++ ["/"%char]) with seg in Hfail.
      by rewrite startsWith_app in Hfail.
    + rewrite app_nil_r. by apply match_here_views.
  - done.
Qed.

Lemma split_cons_sep sep top rest :
  sep ∉ top →
  split sep (top ++ sep :: rest)
  = (top, fst (split sep rest) :: snd (split sep rest)).
Proof.
  induction top as [|a top IH]; intros Hno; simpl.
  - rewrite Ascii.eqb_refl. by destruct (split sep rest).
  - rewrite IH by set_solver.
    destruct (Ascii.eqb_spec a sep) as [->|]; [set_solver|done].
Qed.

Lemma split_no_sep sep l : sep ∉ l → split sep l = (l, []).
Proof.
  induction l as [|a l IH]; intros Hno; simpl; [done|].
  rewrite IH by set_solver.
  destruct (Ascii.eqb_spec a sep) as [->|]; [set_solver|done].
Qed.

Lemma unix_app l1 l2 :
  ApiScan.unixSeparators (l1 ++ l2)
  = ApiScan.unixSeparators l1 ++ ApiScan.unixSeparators l2.
Proof. apply map_app. Qed.

Lemma unix_plain l : backslash ∉ l → ApiScan.unixSeparators l = l.
Proof.
  induction l as [|a l IH]; intros Hno; simpl; [done|].
  rewrite IH by set_solver.
  destruct (Ascii.eqb_spec a backslash) as [->|]; [set_solver|done].
Qed.

Lemma unix_no_slash l :
  "/"%char ∉ l → backslash ∉ l → "/"%char ∉ ApiScan.unixSeparators l.
Proof. intros ? ?. by rewrite unix_plain. Qed.

(** X26.  The category of a page in a directory below the views directory
    is the first directory of its path below the views directory, and the
    page is that directory for a file right in it and the first two
    directories for a file further down, whichever separator the path
    below the views directory uses.  The path is a root, the views
    directory between slashes and the path below; the views directory
    holds no character with a special meaning in a regular expression,
    root and views directory hold no backslash and the directory between
    slashes does not occur earlier. *)
Theorem labels_of_nested_page viewsDir root top below :
  Forall (λ a, special a = false) (chars viewsDir) →
  chars viewsDir ≠ [] →
  backslash ∉ root ++ "/"%char :: chars viewsDir ++ ["/"%char] →
  firstAt (root ++ "/"%char :: chars viewsDir ++ ["/"%char])
          ("/"%char :: chars viewsDir ++ ["/"%char]) = Some (length root) →
  "/"%char ∉ top → backslash ∉ top →
  Forall (λ a, is_dot a = true) (top ++ below) →
  ∀ sep, sep = "/"%char ∨ sep = backslash →
    ("/"%char ∉ below → backslash ∉ below →
     labels viewsDir
       (str (root ++ "/"%char :: chars viewsDir ++ "/"%char :: top ++ sep :: below))
     = Some (str top, str top))
    ∧ ∀ second sep' rest,
        below = second ++ sep' :: rest →
        "/"%char ∉ second → backslash ∉ second →
        sep' = "/"%char ∨ sep' = backslash →
        labels viewsDir
          (str (root ++ "/"%char :: chars viewsDir ++ "/"%char :: top ++ sep :: below))
        = Some (str top, str (top ++ "/"%char :: second)).
Proof.
  intros _ Hne Hback Hfirst Htop Htop' Hdot sep Hsep.
  assert (Hsepdot : is_dot sep = true) by (by destruct Hsep as [-> | ->]).
  assert (Hsepunix : ∀ x, x = "/"%char ∨ x = backslash →
            ApiScan.unixSeparators [x] = ["/"%char]).
  { by intros x [-> | ->]. }
  destruct (exec_views viewsDir root (top ++ sep :: below) Hne Hback Hfirst)
    as (f & Hf & Hg).
  { by destruct top. }
  { apply Forall_app in Hdot as [? ?]. apply Forall_app. split; [done|].
    by constructor. }
  assert (Hl : ∀ r, labels viewsDir
             (str (root ++ "/"%char :: chars viewsDir ++ "/"%char :: top ++ sep :: below))
           = r ↔
           match split "/" (ApiScan.unixSeparators (top ++ sep :: below)) with
           | (fileName, []) =>
               if decide (str fileName = "index.vue"
                          ∨ str fileName = "defaultIndex.vue")
               then Some ("/", "/")
               else Some (str (replace_first vueSuffixRe [] fileName), "/")
           | (top, [_]) => Some (str top, str top)
           | (top, second :: _) =>
               Some (str top, str (top ++ "/"%char :: second))
           end = r).
  { intros r. unfold labels, str. rewrite list_ascii_of_string_of_list_ascii.
    unfold chars in *. rewrite Hf, Hg. done. }
  assert (Hsplit : split "/" (ApiScan.unixSeparators (top ++ sep :: below))
                   = (top, fst (split "/" (ApiScan.unixSeparators below))
                           :: snd (split "/" (ApiScan.unixSeparators below)))).
  { change (top ++ sep :: below) with (top ++ [sep] ++ below).
    rewrite !unix_app, Hsepunix, (unix_plain top) by done.
    by apply split_cons_sep. }
  split.
  - intros Hb Hb'. apply Hl. rewrite Hsplit.
    rewrite (unix_plain below), split_no_sep by done. done.
  - intros second sep' rest -> Hs Hs' Hsep'. apply Hl. rewrite Hsplit.
    change (second ++ sep' :: rest) with (second ++ [sep'] ++ rest).
    rewrite !unix_app, (Hsepunix sep'), (unix_plain second) by done.
    cbn [app]. rewrite split_cons_sep by done. done.
Qed.

Lemma labels_of_nested_page_witness :
  labels "src/views"
    (str (chars "/proj" ++ "/"%char :: chars "src/views" ++ "/"%char
          :: chars "system" ++ "/"%char :: chars "user/index.vue"))
  = Some (str (chars "system"), str (chars "system" ++ "/"%char :: chars "user")).
Proof.
  apply (labels_of_nested_page "src/views" (chars "/proj") (chars "system")
           (chars "user/index.vue")) with (sep := "/"%char) (sep' := "/"%char)
           (rest := chars "index.vue").
  - by repeat constructor.
  - discriminate.
  - apply (bool_decide_unpack _). vm_compute. exact I.
  - reflexivity.
  - apply (bool_decide_unpack _). vm_compute. exact I.
  - apply (bool_decide_unpack _). vm_compute. exact I.
  - by repeat constructor.
  - by left.
  - reflexivity.
  - apply (bool_decide_unpack _). vm_compute. exact I.
  - apply (bool_decide_unpack _). vm_compute. exact I.
  - by left.
Defined.

(** [/\.vue$/] finds the suffix and nothing before it. *)
Lemma exec_vueSuffix name :
  exec vueSuffixRe (name ++ chars ".vue")
  = Some (Found (length name) (chars ".vue") []).
Proof.
  unfold exec.
  rewrite (exec_from_at vueSuffixRe (chars ".vue") 4 [] name []);
    [done| |by rewrite app_nil_r].
  intros a1 a2 -> Ha2. rewrite app_nil_r.
  destruct (match_here _ _ _) as [[n cs]|] eqn:E; [exfalso|done].
  apply match_here_sound in E as (c' & s & Hr & Ha & _ & _).
  unfold vueSuffixRe in Hr. cbn [seqs] in Hr.
  destruct Hr as (c1 & [H1 _]%step_ahead & c2 & [H2 _]%reach_Lit
                  & c3 & [Hend ->] & ->).
  pose proof (ahead_trans _ _ _ _ _ H1 H2) as [H3 _]. cbn [rest] in H3.
  rewrite Hend, app_nil_r in H3. apply (f_equal length) in H3.
  rewrite !length_app in H3. destruct a2; [done|]. simpl in H3. lia.
Qed.

Lemma replace_vueSuffix name :
  replace_first vueSuffixRe [] (name ++ chars ".vue") = name.
Proof.
  unfold replace_first. rewrite exec_vueSuffix. cbn [at_index matched app].
  rewrite take_app_length, drop_ge, app_nil_r; [done|].
  rewrite length_app. lia.
Qed.

(** X27.  A file right in the views directory whose name ends with [.vue]
    has the page [/] and its name without the suffix as category, except
    [index.vue] and [defaultIndex.vue], whose category is [/] as well.  The
    path is a root, the views directory between slashes and the file name;
    the views directory holds no character with a special meaning in a
    regular expression, root and views directory hold no backslash, the
    directory between slashes does not occur earlier, and the name holds no
    separator and no line terminator. *)
Theorem labels_of_root_page viewsDir root name :
  Forall (λ a, special a = false) (chars viewsDir) →
  chars viewsDir ≠ [] →
  backslash ∉ root ++ "/"%char :: chars viewsDir ++ ["/"%char] →
  firstAt (root ++ "/"%char :: chars viewsDir ++ ["/"%char])
          ("/"%char :: chars viewsDir ++ ["/"%char]) = Some (length root) →
  "/"%char ∉ name → backslash ∉ name →
  Forall (λ a, is_dot a = true) name →
  labels viewsDir
    (str (root ++ "/"%char :: chars viewsDir ++ "/"%char :: name ++ chars ".vue"))
  = Some (if decide (name = chars "index" ∨ name = chars "defaultIndex")
          then ("/", "/") else (str name, "/")).
Proof.
  intros _ Hne Hback Hfirst Hs Hs' Hdot.
  destruct (exec_views viewsDir root (name ++ chars ".vue") Hne Hback Hfirst)
    as (f & Hf & Hg).
  { by destruct name. }
  { apply Forall_app. split; [done|]. by repeat constructor. }
  unfold labels, str. rewrite list_ascii_of_string_of_list_ascii.
  unfold chars in *. rewrite Hf, Hg.
  change (map _ (name ++ list_ascii_of_string ".vue"))
    with (ApiScan.unixSeparators (name ++ chars ".vue")).
  rewrite unix_plain, split_no_sep.
  - fold (chars ".vue"). rewrite replace_vueSuffix.
    destruct (decide (name = _ ∨ name = _)) as [Hn|Hn].
    + rewrite decide_True; [done|].
      destruct Hn as [-> | ->]; [by left|by right].
    + rewrite decide_False; [done|].
      intros [H|H]; apply Hn; [left|right];
        apply (f_equal list_ascii_of_string) in H;
        rewrite list_ascii_of_string_of_list_ascii in H.
      * exact (app_inv_tail (chars ".vue") name (chars "index") H).
      * exact (app_inv_tail (chars ".vue") name (chars "defaultIndex") H).
  - intros [?|Hin]%elem_of_app; [done|]. vm_compute in Hin.
    by repeat (apply elem_of_cons in Hin as [Hin|Hin]; [done|]);
       apply elem_of_nil in Hin.
  - intros [?|Hin]%elem_of_app; [done|]. vm_compute in Hin.
    by repeat (apply elem_of_cons in Hin as [Hin|Hin]; [done|]);
       apply elem_of_nil in Hin.
Qed.

Lemma labels_of_root_page_witness :
  labels "src/views"
    (str (chars "/proj" ++ "/"%char :: chars "src/views" ++ "/"%char
          :: chars "login" ++ chars ".vue"))
  = Some (if decide (chars "login" = chars "index"
                     ∨ chars "login" = chars "defaultIndex")
          then ("/", "/") else (str (chars "login"), "/")).
Proof.
  apply (labels_of_root_page "src/views" (chars "/proj") (chars "login")).
  - by repeat constructor.
  - discriminate.
  - apply (bool_decide_unpack _). vm_compute. exact I.
  - reflexivity.
  - apply (bool_decide_unpack _). vm_compute. exact I.
  - apply (bool_decide_unpack _). vm_compute. exact I.
  - by repeat constructor.
Defined.

End LabelsFacts.

(** * Declarations that are catalogued *)

Module CatalogFound.
Import Regex Str Catalog Semantics Declarations.
Import RegexFacts UsageFacts SemanticsFacts StrFacts CatalogMore
       ComponentsFacts ApiScanFacts LabelsFacts.

Ltac rev_norm :=
  repeat (rewrite ?rev_app_distr, <- ?app_assoc; cbn [rev app]).

Ltac app_norm := repeat (progress (rewrite <- ?app_assoc; cbn [app])).

(** A greedy run of a class. *)
Lemma run_star_class {A} P (k : cursor → option A) x s t b cs :
  Forall (λ a, P a = true) s →
  match t with [] => True | a :: _ => P a = false end →
  k (Cursor (rev s ++ b) t cs) = Some x →
  run (Star true (Class P)) (Cursor b (s ++ t) cs) k = Some x.
Proof.
  intros Hs Ht Hk. rewrite run_Star.
  apply star_class_greedy; try done. cbn [rest]. rewrite length_app. lia.
Qed.

(** A lazy run of any characters stops at the first place where what
    follows matches. *)
Lemma run_lazy_any {A} (K : cursor → option A) x s t b cs :
  (∀ s1 s2, s = s1 ++ s2 → s2 ≠ [] →
     K (Cursor (rev s1 ++ b) (s2 ++ t) cs) = None) →
  K (Cursor (rev s ++ b) t cs) = Some x →
  run lazy_any (Cursor b (s ++ t) cs) K = Some x.
Proof.
  intros Hfail Hk. unfold lazy_any. rewrite run_Star.
  apply star_class_lazy; try done.
  - by apply Forall_forall.
  - cbn [rest]. rewrite length_app. lia.
Qed.

Lemma quote3_not_space q : quote3 q = true → is_space q = false.
Proof. destruct q as [[] [] [] [] [] [] [] []]; vm_compute; congruence. Qed.

Lemma quote3_not_quote3 q : quote3 q = true → not_quote3 q = false.
Proof. unfold not_quote3, none_of, quote3. by intros ->. Qed.

Lemma run_field {A} name sp q v q' b t cs (k : cursor → option A) x :
  Forall (λ a, is_space a = true) sp →
  quote3 q = true → quote3 q' = true →
  v ≠ [] → Forall (λ a, not_quote3 a = true) v →
  k (Cursor (rev (fieldText name sp q v q') ++ b) t ((1, v) :: cs)) = Some x →
  run (fieldRe name) (Cursor b (fieldText name sp q v q' ++ t) cs) k = Some x.
Proof.
  intros Hsp Hq Hq' Hne Hv Hk. unfold fieldRe, fieldText, lit in *. cbn [seqs].
  fold (chars name).
  rewrite <- !app_assoc. rewrite run_Seq, run_Lit. cbn [app].
  rewrite run_Seq, run_Char_cons, Ascii.eqb_refl, run_Seq.
  rewrite <- app_assoc.
  apply run_ws; [done|by apply quote3_not_space|]. cbn [app].
  rewrite run_Seq, run_Class_cons, Hq, run_Seq, run_Group.
  rewrite <- app_assoc.
  apply run_plus_class; [done|done|by apply quote3_not_quote3|].
  cbn [app]. unfold capture. cbn [seen rest caps].
  rewrite run_Seq, run_Class_cons, Hq', run_Empty.
  rewrite <- Hk. f_equal. f_equal.
  - by rev_norm.
  - by rewrite between_app.
Qed.

Lemma fieldRe_text name b s y :
  match_here (fieldRe name) b s = Some y →
  ∃ t, s = chars name ++ ":"%char :: t.
Proof.
  destruct y as [n cs]. intros (c' & m & Hr & _)%match_here_sound.
  unfold fieldRe in Hr. cbn [seqs] in Hr.
  destruct Hr as (c1 & [[H1 _] _]%reach_Lit & c2 & [[H2 _] _]%step_ahead & _).
  cbn [rest] in H1. exists (rest c2). rewrite H1, H2. done.
Qed.

(** The first field of a name in a text is what [match] finds. *)
Lemma match1_field name body pre sp q v q' post :
  body = pre ++ fieldText name sp q v q' ++ post →
  firstAt body (chars name ++ [":"%char]) = Some (length pre) →
  Forall (λ a, is_space a = true) sp →
  quote3 q = true → quote3 q' = true →
  v ≠ [] → Forall (λ a, not_quote3 a = true) v →
  match1 (fieldRe name) body = Some v.
Proof.
  intros -> Hfirst Hsp Hq Hq' Hne Hv. unfold match1, exec.
  rewrite (exec_from_at (fieldRe name) (fieldText name sp q v q' ++ post)
             (length (fieldText name sp q v q')) [(1, v)] pre []); [done| |].
  - intros a1 a2 -> Ha2.
    destruct (match_here _ _ _) as [y|] eqn:E; [exfalso|done].
    apply fieldRe_text in E as (t & Ht).
    assert (Hlt : length a1 < length (a1 ++ a2)).
    { rewrite length_app. destruct a2; [done|]. simpl. lia. }
    pose proof (firstAt_first _ _ _ Hfirst (length a1) Hlt) as Hfail.
    rewrite <- !app_assoc, drop_app_length, Ht in Hfail.
    assert (startsWith (chars name ++ ":"%char :: t) (chars name ++ [":"%char])
            = true) as Hs.
    { apply startsWith_spec. exists t. by rewrite <- app_assoc. }
    by rewrite Hs in Hfail.
  - unfold match_here. apply run_field; try done. cbn [rest caps].
    do 2 f_equal. rewrite length_app. lia.
Qed.

Lemma fieldRe_none name body :
  includes body (chars name ++ [":"%char]) = false →
  match1 (fieldRe name) body = None.
Proof.
  intros Hno. unfold match1, exec.
  destruct (exec_from (fieldRe name) [] body) as [f|] eqn:E; [exfalso|done].
  apply exec_from_sound in E as (pre & post & c' & Heq & _ & Hr & _).
  unfold fieldRe in Hr. cbn [seqs] in Hr.
  destruct Hr as (c1 & [[H1 _] _]%reach_Lit & c2 & [[H2 _] _]%step_ahead & _).
  cbn [rest] in H1.
  assert (Hj : length pre ≤ length body) by (rewrite Heq, length_app; lia).
  pose proof (includes_false _ _ Hno (length pre) Hj) as Hfail.
  rewrite Heq, drop_app_length, H1, H2 in Hfail.
  assert (startsWith (list_ascii_of_string name ++ [":"%char] ++ rest c2)
            (chars name ++ [":"%char]) = true) as Hs.
  { apply startsWith_spec. exists (rest c2). by rewrite <- app_assoc. }
  by rewrite Hs in Hfail.
Qed.

Lemma startsWith_app_l u w p :
  startsWith (u ++ w) p = true → length p ≤ length u → startsWith u p = true.
Proof.
  intros (t & Ht)%startsWith_spec Hlen. apply startsWith_spec.
  destruct (prefix_cut u w p t Ht Hlen) as [v ->]. by exists v.
Qed.

(** The match of a call of [request]; [wrap] tells whether the body is
    captured. *)
Lemma run_request_call {A} (wrap : bool) sp4 sp5 body sp6 b t cs
  (k : cursor → option A) x :
  Forall (λ a, is_space a = true) sp4 → Forall (λ a, is_space a = true) sp5 →
  Forall (λ a, is_space a = true) sp6 → "}"%char ∉ body →
  k (Cursor (rev (callText sp4 sp5 body sp6) ++ b) t
       (if wrap then (1, body) :: cs else cs)) = Some x →
  run (request_call (if wrap then Group 1 lazy_any else lazy_any))
      (Cursor b (callText sp4 sp5 body sp6 ++ t) cs) k = Some x.
Proof.
  intros H4 H5 H6 Hbody Hk. unfold request_call, callText, lit in *.
  cbn [seqs]. fold (chars "request").
  app_norm. rewrite run_Seq, run_Lit, run_Seq.
  apply run_ws; [done|done|].
  rewrite run_Seq, run_Char_cons, Ascii.eqb_refl, run_Seq.
  apply run_ws; [done|done|]. cbn [app].
  rewrite run_Seq, run_Char_cons, Ascii.eqb_refl, run_Seq.
  destruct wrap.
  - rewrite run_Group. apply run_lazy_any.
    + intros s1 s2 -> Hs2. destruct s2 as [|a s2]; [done|].
      unfold capture. cbn [seen rest caps app].
      rewrite run_Seq, run_Char_cons.
      destruct (Ascii.eqb_spec a "}") as [->|]; [|done].
      exfalso. apply Hbody. apply elem_of_app. right. by left.
    + unfold capture. cbn [seen rest caps].
      rewrite run_Seq, run_Char_cons, Ascii.eqb_refl, run_Seq.
      apply run_ws; [done|done|]. cbn [app].
      rewrite run_Seq, run_Char_cons, Ascii.eqb_refl, run_Empty.
      rewrite between_app. rewrite <- Hk. do 2 f_equal. by rev_norm.
  - apply run_lazy_any.
    + intros s1 s2 -> Hs2. destruct s2 as [|a s2]; [done|]. cbn [app].
      rewrite run_Seq, run_Char_cons.
      destruct (Ascii.eqb_spec a "}") as [->|]; [|done].
      exfalso. apply Hbody. apply elem_of_app. right. by left.
    + rewrite run_Seq, run_Char_cons, Ascii.eqb_refl, run_Seq.
      apply run_ws; [done|done|]. cbn [app].
      rewrite run_Seq, run_Char_cons, Ascii.eqb_refl, run_Empty.
      rewrite <- Hk. do 2 f_equal. by rev_norm.
Qed.

Lemma run_declaration {A} kw last sp1 sp2 name sp3 b t cs
  (k : cursor → option A) x :
  sp1 ≠ [] ∧ Forall (λ a, is_space a = true) sp1 →
  sp2 ≠ [] ∧ Forall (λ a, is_space a = true) sp2 →
  name ≠ [] ∧ Forall (λ a, is_word a = true) name →
  Forall (λ a, is_space a = true) sp3 →
  match chars kw with a :: _ => is_space a = false | [] => False end →
  is_space last = false → is_word last = false →
  k (Cursor (rev (declText kw sp1 sp2 name sp3 last) ++ b) t ((1, name) :: cs))
  = Some x →
  run (seqs (declRe kw last))
      (Cursor b (declText kw sp1 sp2 name sp3 last ++ t) cs) k = Some x.
Proof.
  intros [Hn1 H1] [Hn2 H2] [Hnn Hname] H3 Hkw Hl Hl' Hk.
  unfold declRe, declText, lit in *. cbn [seqs].
  fold (chars "export"). fold (chars kw).
  app_norm. rewrite run_Seq, run_Lit, run_Seq.
  apply run_plus_class; [done|done| |].
  { destruct (chars kw) as [|a l]; [done|]. done. }
  rewrite run_Seq, run_Lit, run_Seq.
  apply run_plus_class; [done|done| |].
  { destruct name as [|a l]; [done|]. inversion Hname; subst.
    by apply word_not_space. }
  rewrite run_Seq, run_Group.
  apply run_plus_class; [done|done| |].
  { destruct sp3 as [|a l]; [done|]. inversion H3; subst.
    by apply space_not_word. }
  unfold capture. cbn [seen rest caps]. rewrite between_app, run_Seq.
  apply run_ws; [done|done|]. cbn [app].
  rewrite run_Seq, run_Char_cons, Ascii.eqb_refl, run_Empty.
  rewrite <- Hk. do 2 f_equal. by rev_norm.
Qed.

Section Declared.
Variables (hd : list regex) (head mid sp4 sp5 body sp6 name : list ascii).

Hypothesis Hhd : ∀ A b t (k : cursor → option A) x,
  k (Cursor (rev head ++ b) t [(1, name)]) = Some x →
  run (seqs hd) (Cursor b (head ++ t) []) k = Some x.
Hypothesis H4 : Forall (λ a, is_space a = true) sp4.
Hypothesis H5 : Forall (λ a, is_space a = true) sp5.
Hypothesis H6 : Forall (λ a, is_space a = true) sp6.
Hypothesis Hbody : "}"%char ∉ body.
Hypothesis Hfirst :
  firstAt (head ++ mid ++ callText sp4 sp5 body sp6) (chars "request")
  = Some (length (head ++ mid)).

Lemma no_request_before a1 a2 t t' :
  head ++ mid = a1 ++ a2 → a2 ≠ [] →
  a2 ++ callText sp4 sp5 body sp6 ++ t ≠ chars "request" ++ t'.
Proof.
  intros Heq Hne Habs.
  assert (Hlt : length a1 < length (head ++ mid)).
  { rewrite Heq, length_app. destruct a2; [done|]. simpl. lia. }
  pose proof (firstAt_first _ _ _ Hfirst (length a1) Hlt) as Hfail.
  rewrite app_assoc, Heq, <- app_assoc, drop_app_length in Hfail.
  rewrite (startsWith_app_l (a2 ++ callText sp4 sp5 body sp6) t) in Hfail;
    [done| |].
  - apply startsWith_spec. exists t'. by rewrite <- app_assoc.
  - rewrite length_app. unfold callText. rewrite length_app. simpl. lia.
Qed.

(** The pattern of a declaration matches the declaration and no more. *)
Lemma match_here_declared b post :
  match_here (seqs (hd ++ [lazy_any; request_call lazy_any])) b
    ((head ++ mid ++ callText sp4 sp5 body sp6) ++ post)
  = Some (length (head ++ mid ++ callText sp4 sp5 body sp6), [(1, name)]).
Proof.
  unfold match_here. rewrite run_seqs_app. rewrite <- !app_assoc.
  apply Hhd. cbn [seqs]. rewrite run_Seq. apply run_lazy_any.
  - intros s1 s2 Heq Hs2. rewrite run_Seq. unfold request_call. cbn [seqs].
    rewrite run_Seq. apply run_Lit_fail. cbn [rest]. intros t'.
    apply (no_request_before (head ++ s1) s2); [|done].
    by rewrite Heq, app_assoc.
  - rewrite run_Seq.
    apply (run_request_call false); try done.
    rewrite run_Empty. cbn [rest caps]. do 2 f_equal.
    rewrite !length_app. lia.
Qed.

(** The call that [match] finds in the declaration, and its body. *)
Lemma match1_request :
  match1 requestRe (head ++ mid ++ callText sp4 sp5 body sp6) = Some body.
Proof.
  unfold match1, exec.
  rewrite app_assoc.
  rewrite (exec_from_at requestRe (callText sp4 sp5 body sp6)
             (length (callText sp4 sp5 body sp6)) [(1, body)] (head ++ mid) []);
    [done| |].
  - intros a1 a2 Heq Ha2. unfold match_here, requestRe, request_call.
    cbn [seqs]. rewrite run_Seq. apply run_Lit_fail. cbn [rest]. intros t'.
    pose proof (no_request_before a1 a2 [] t' Heq Ha2) as H.
    by rewrite app_nil_r in H.
  - unfold match_here, requestRe.
    pose proof (run_request_call true sp4 sp5 body sp6 (rev (head ++ mid) ++ [])
                  [] []
                  (λ c', Some (length (callText sp4 sp5 body sp6)
                               - length (rest c'), caps c'))
                  (length (callText sp4 sp5 body sp6), [(1, body)])
                  H4 H5 H6 Hbody) as H.
    rewrite !app_nil_r in H. rewrite app_nil_r. apply H. cbn [rest caps length].
    by rewrite Nat.sub_0_r.
Qed.

End Declared.

(** The descriptor of a declaration whose name, call and url are found. *)
Lemma analyzeMatch_found nameRe m name body u :
  match1 nameRe m = Some name → match1 requestRe m = Some body →
  match1 urlRe body = Some u →
  analyzeMatch nameRe m
  = [mkApi (str (cleanUrl u))
       (str match match1 methodRe body with
            | Some x => toUpperCase x
            | None => chars "GET"
            end)
       (Some (str name))].
Proof. unfold analyzeMatch. by intros -> -> ->. Qed.

(** The name that [match] finds in a declaration. *)
Lemma match1_declaration kw last sp1 sp2 name sp3 t :
  sp1 ≠ [] ∧ Forall (λ a, is_space a = true) sp1 →
  sp2 ≠ [] ∧ Forall (λ a, is_space a = true) sp2 →
  name ≠ [] ∧ Forall (λ a, is_word a = true) name →
  Forall (λ a, is_space a = true) sp3 →
  match chars kw with a :: _ => is_space a = false | [] => False end →
  is_space last = false → is_word last = false →
  match1 (seqs (declRe kw last)) (declText kw sp1 sp2 name sp3 last ++ t)
  = Some name.
Proof.
  intros H1 H2 Hn H3 Hkw Hl Hl'. unfold match1, exec.
  pose proof (exec_from_at (seqs (declRe kw last))
                (declText kw sp1 sp2 name sp3 last ++ t)
                (length (declText kw sp1 sp2 name sp3 last)) [(1, name)] [] [])
    as H.
  cbn [app rev] in H. rewrite H; [done|by intros [|? ?] [|? ?]|].
  unfold match_here. apply run_declaration; try done.
  cbn [rest caps]. do 2 f_equal. rewrite length_app. lia.
Qed.

(** The heads of the two patterns on the heads of the two declarations. *)
Lemma run_constHead {A} sp1 sp2 name sp3 b t (k : cursor → option A) x :
  sp1 ≠ [] ∧ Forall (λ a, is_space a = true) sp1 →
  sp2 ≠ [] ∧ Forall (λ a, is_space a = true) sp2 →
  name ≠ [] ∧ Forall (λ a, is_word a = true) name →
  Forall (λ a, is_space a = true) sp3 →
  k (Cursor (rev (declText "const" sp1 sp2 name sp3 "=") ++ b) t [(1, name)])
  = Some x →
  run (seqs constHead) (Cursor b (declText "const" sp1 sp2 name sp3 "=" ++ t) [])
      k = Some x.
Proof. intros. by apply run_declaration. Qed.

Lemma run_functionHead {A} sp1 sp2 name sp3 params b t (k : cursor → option A) x :
  sp1 ≠ [] ∧ Forall (λ a, is_space a = true) sp1 →
  sp2 ≠ [] ∧ Forall (λ a, is_space a = true) sp2 →
  name ≠ [] ∧ Forall (λ a, is_word a = true) name →
  Forall (λ a, is_space a = true) sp3 →
  Forall (λ a, none_of [")"%char] a = true) params →
  k (Cursor (rev (declText "function" sp1 sp2 name sp3 "(" ++ params ++ [")"%char])
             ++ b) t [(1, name)]) = Some x →
  run (seqs functionHead)
      (Cursor b ((declText "function" sp1 sp2 name sp3 "(" ++ params ++ [")"%char])
                 ++ t) []) k = Some x.
Proof.
  intros H1 H2 Hn H3 Hp Hk. unfold functionHead. rewrite run_seqs_app.
  rewrite <- !app_assoc. apply run_declaration; try done.
  cbn [seqs app]. rewrite run_Seq.
  apply run_star_class; [done|done|].
  rewrite run_Seq, run_Char_cons, Ascii.eqb_refl, run_Empty.
  rewrite <- Hk. do 2 f_equal. by rev_norm.
Qed.

(** The method of a descriptor, read off the body of the call. *)
Lemma method_found body :
  (includes body (chars "method:") = false →
   match1 methodRe body = None)
  ∧ ∀ c1 sp8 p M p' c2,
      body = c1 ++ fieldText "method" sp8 p M p' ++ c2 →
      firstAt body (chars "method:") = Some (length c1) →
      Forall (λ a, is_space a = true) sp8 →
      quote3 p = true → quote3 p' = true →
      M ≠ [] → Forall (λ a, not_quote3 a = true) M →
      match1 methodRe body = Some M.
Proof.
  split.
  - apply (fieldRe_none "method").
  - intros c1 sp8 p M p' c2. apply (match1_field "method").
Qed.

(** A declaration that the scan reaches gives its descriptor. *)
Lemma declaration_found hd nameRe code pre head mid sp4 sp5 body sp6 post name
  b1 sp7 q U q' b2 :
  (∀ A b t (k : cursor → option A) x,
     k (Cursor (rev head ++ b) t [(1, name)]) = Some x →
     run (seqs hd) (Cursor b (head ++ t) []) k = Some x) →
  match1 nameRe (head ++ mid ++ callText sp4 sp5 body sp6) = Some name →
  code = pre ++ (head ++ mid ++ callText sp4 sp5 body sp6) ++ post →
  Forall (λ a, is_space a = true) sp4 → Forall (λ a, is_space a = true) sp5 →
  Forall (λ a, is_space a = true) sp6 → "}"%char ∉ body →
  firstAt (head ++ mid ++ callText sp4 sp5 body sp6) (chars "request")
  = Some (length (head ++ mid)) →
  body = b1 ++ fieldText "url" sp7 q U q' ++ b2 →
  firstAt body (chars "url:") = Some (length b1) →
  Forall (λ a, is_space a = true) sp7 →
  quote3 q = true → quote3 q' = true →
  U ≠ [] → Forall (λ a, not_quote3 a = true) U →
  (∀ f, f ∈ match_all (seqs (hd ++ [lazy_any; request_call lazy_any])) code →
        at_index f < length pre →
        at_index f + length (matched f) ≤ length pre) →
  ∃ f, f ∈ match_all (seqs (hd ++ [lazy_any; request_call lazy_any])) code
       ∧ analyzeMatch nameRe (matched f)
         = [mkApi (str (cleanUrl U))
              (str match match1 methodRe body with
                   | Some x => toUpperCase x
                   | None => chars "GET"
                   end)
              (Some (str name))].
Proof.
  intros Hhd Hname -> H4 H5 H6 Hbody Hfirst Hb Hurl H7 Hq Hq' HU HU' Hover.
  exists (Found (length pre) (head ++ mid ++ callText sp4 sp5 body sp6)
            [(1, name)]).
  split.
  - apply scan_found; [|by apply match_here_declared|done].
    unfold callText. intros H. apply (f_equal length) in H.
    rewrite !length_app in H. simpl in H. lia.
  - cbn [matched]. apply analyzeMatch_found; [done|by apply match1_request|].
    by apply (match1_field "url" body b1 sp7 q U q' b2).
Qed.

(** X28.  An exported function that calls [request] on an object literal
    with a [url] field is catalogued under its name with the url between
    the quotes (concatenations replaced), when the scan reaches the
    declaration (no earlier match of the pattern runs over its start), the
    parameter list holds no closing parenthesis, [request] does not occur
    in the declaration before the call, the object literal holds no
    closing brace, and the field is the first [url:] of the literal.  The
    method is [GET] when the literal holds no [method:], and the value of
    the first [method:] field in upper case when it has one and the value
    is made of ASCII characters. *)
Theorem exported_function_is_catalogued code pre sp1 sp2 name sp3 params mid
  sp4 sp5 body sp6 post b1 sp7 q U q' b2 :
  chars code
  = pre ++ functionText sp1 sp2 name sp3 params mid (callText sp4 sp5 body sp6)
    ++ post →
  sp1 ≠ [] ∧ Forall (λ a, is_space a = true) sp1 →
  sp2 ≠ [] ∧ Forall (λ a, is_space a = true) sp2 →
  name ≠ [] ∧ Forall (λ a, is_word a = true) name →
  Forall (λ a, is_space a = true) sp3 →
  Forall (λ a, none_of [")"%char] a = true) params →
  Forall (λ a, is_space a = true) sp4 → Forall (λ a, is_space a = true) sp5 →
  Forall (λ a, is_space a = true) sp6 → "}"%char ∉ body →
  firstAt (functionText sp1 sp2 name sp3 params mid (callText sp4 sp5 body sp6))
          (chars "request")
  = Some (length (functionText sp1 sp2 name sp3 params mid [])) →
  body = b1 ++ fieldText "url" sp7 q U q' ++ b2 →
  firstAt body (chars "url:") = Some (length b1) →
  Forall (λ a, is_space a = true) sp7 →
  quote3 q = true → quote3 q' = true →
  U ≠ [] → Forall (λ a, not_quote3 a = true) U →
  (∀ f, f ∈ match_all exportFunctionRe (chars code) →
        at_index f < length pre →
        at_index f + length (matched f) ≤ length pre) →
  ∃ m, mkApi (str (cleanUrl U)) m (Some (str name)) ∈ analyzeApiCode code
       ∧ (includes body (chars "method:") = false → m = "GET")
       ∧ ∀ c1 sp8 p M p' c2,
           body = c1 ++ fieldText "method" sp8 p M p' ++ c2 →
           firstAt body (chars "method:") = Some (length c1) →
           Forall (λ a, is_space a = true) sp8 →
           quote3 p = true → quote3 p' = true →
           M ≠ [] → Forall (λ a, not_quote3 a = true) M →
           Forall (λ a, Regex.code a < 128) M →
           m = str (toUpperCase M).
Proof.
  intros Hcode H1 H2 Hn H3 Hp H4 H5 H6 Hbody Hfirst Hb Hurl H7 Hq Hq' HU HU'
    Hover.
  unfold functionText in Hcode, Hfirst. rewrite app_nil_r in Hfirst.
  destruct (declaration_found functionHead functionNameRe (chars code) pre
              (declText "function" sp1 sp2 name sp3 "(" ++ params ++ [")"%char])
              mid sp4 sp5 body sp6 post name b1 sp7 q U q' b2)
    as (f & Hf & Ha); try done.
  { intros. by apply run_functionHead. }
  { change functionNameRe with (seqs (declRe "function" "(")).
    rewrite <- !app_assoc. by apply match1_declaration. }
  destruct (method_found body) as [Hnone Hsome].
  eexists. split_and!.
  - unfold analyzeApiCode. apply elem_of_app. right.
    apply in_flat_map_iff. exists f. split; [exact Hf|].
    rewrite Ha. by left.
  - intros Hno. by rewrite (Hnone Hno).
  - intros c1 sp8 p M p' c2 Hc Hm H8 Hp1 Hp2 HM HM' _.
    by rewrite (Hsome c1 sp8 p M p' c2 Hc Hm H8 Hp1 Hp2 HM HM').
Qed.

(** X29.  An exported constant whose initializer calls [request] on an
    object literal with a [url] field is catalogued under its name with the
    url between the quotes (concatenations replaced), when the scan reaches
    the declaration (no earlier match of the pattern runs over its start),
    [request] does not occur in the declaration before the call, the
    object literal holds no closing brace, and the field is the first
    [url:] of the literal.  The method is [GET] when the literal holds no
    [method:], and the value of the first [method:] field in upper case
    when it has one and the value is made of ASCII characters. *)
Theorem exported_constant_is_catalogued code pre sp1 sp2 name sp3 mid
  sp4 sp5 body sp6 post b1 sp7 q U q' b2 :
  chars code
  = pre ++ constText sp1 sp2 name sp3 mid (callText sp4 sp5 body sp6) ++ post →
  sp1 ≠ [] ∧ Forall (λ a, is_space a = true) sp1 →
  sp2 ≠ [] ∧ Forall (λ a, is_space a = true) sp2 →
  name ≠ [] ∧ Forall (λ a, is_word a = true) name →
  Forall (λ a, is_space a = true) sp3 →
  Forall (λ a, is_space a = true) sp4 → Forall (λ a, is_space a = true) sp5 →
  Forall (λ a, is_space a = true) sp6 → "}"%char ∉ body →
  firstAt (constText sp1 sp2 name sp3 mid (callText sp4 sp5 body sp6))
          (chars "request")
  = Some (length (constText sp1 sp2 name sp3 mid [])) →
  body = b1 ++ fieldText "url" sp7 q U q' ++ b2 →
  firstAt body (chars "url:") = Some (length b1) →
  Forall (λ a, is_space a = true) sp7 →
  quote3 q = true → quote3 q' = true →
  U ≠ [] → Forall (λ a, not_quote3 a = true) U →
  (∀ f, f ∈ match_all exportConstRe (chars code) →
        at_index f < length pre →
        at_index f + length (matched f) ≤ length pre) →
  ∃ m, mkApi (str (cleanUrl U)) m (Some (str name)) ∈ analyzeApiCode code
       ∧ (includes body (chars "method:") = false → m = "GET")
       ∧ ∀ c1 sp8 p M p' c2,
           body = c1 ++ fieldText "method" sp8 p M p' ++ c2 →
           firstAt body (chars "method:") = Some (length c1) →
           Forall (λ a, is_space a = true) sp8 →
           quote3 p = true → quote3 p' = true →
           M ≠ [] → Forall (λ a, not_quote3 a = true) M →
           Forall (λ a, Regex.code a < 128) M →
           m = str (toUpperCase M).
Proof.
  intros Hcode H1 H2 Hn H3 H4 H5 H6 Hbody Hfirst Hb Hurl H7 Hq Hq' HU HU' Hover.
  unfold constText in Hcode, Hfirst. rewrite app_nil_r in Hfirst.
  destruct (declaration_found constHead constNameRe (chars code) pre
              (declText "const" sp1 sp2 name sp3 "=")
              mid sp4 sp5 body sp6 post name b1 sp7 q U q' b2)
    as (f & Hf & Ha); try done.
  { intros. by apply run_constHead. }
  { change constNameRe with (seqs (declRe "const" "=")).
    by apply match1_declaration. }
  destruct (method_found body) as [Hnone Hsome].
  eexists. split_and!.
  - unfold analyzeApiCode. apply elem_of_app. left.
    apply in_flat_map_iff. exists f. split; [exact Hf|].
    rewrite Ha. by left.
  - intros Hno. by rewrite (Hnone Hno).
  - intros c1 sp8 p M p' c2 Hc Hm H8 Hp1 Hp2 HM HM' _.
    by rewrite (Hsome c1 sp8 p M p' c2 Hc Hm H8 Hp1 Hp2 HM HM').
Qed.

End CatalogFound.

(** * Worked examples *)

Module Examples.
Import Regex Str Path Catalog Usage Walker Scanner Resolver Components
       Detection ApiScan Scenarios Samples Aggregator.
Import WalkerFacts WalkerMore AggMore CatalogMore UsageMore ResolverFacts
       ScannerFacts ComponentsFacts DetectionFacts ApiScanFacts DetectionMore.

Lemma topLevel_stateAfter fs E st : topLevel fs st (stateAfter fs E st).
Proof.
  unfold stateAfter. destruct (walk fs E st) as [[a st']|] eqn:H.
  - eapply top_walk; [exact H|apply top_done].
  - apply top_done.
Qed.

Lemma component_read_at_most_once_witness :
  topLevel cyclePair initial
    (stateAfter cyclePair "/app/src/views/cart.vue" initial)
  ∧ isComponent cyclePair "/app/src/components/OrderList.vue"
  ∧ readCount "/app/src/components/OrderList.vue"
      (stateAfter cyclePair "/app/src/views/cart.vue" initial)
    = if decide (is_Some (componentCache
                            (stateAfter cyclePair "/app/src/views/cart.vue" initial)
                          !! "/app/src/components/OrderList.vue"))
      then 1 else 0.
Proof.
  assert (Htop := topLevel_stateAfter cyclePair "/app/src/views/cart.vue" initial).
  assert (Hc : isComponent cyclePair "/app/src/components/OrderList.vue").
  { by exists [listOrders], ["/app/src/views/orders.vue"]. }
  split; [exact Htop|]. split; [exact Hc|].
  exact (component_read_at_most_once _ _ _ Htop Hc).
Defined.

Lemma walk_result_is_declared_below_witness :
  topLevel cyclePair initial
    (stateAfter cyclePair "/app/src/views/cart.vue" initial)
  ∧ ∃ apis st',
      walk cyclePair "/app/src/views/orders.vue"
        (stateAfter cyclePair "/app/src/views/cart.vue" initial)
      = Some (apis, st')
      ∧ ∀ x, x ∈ apis → declaredBelow cyclePair "/app/src/views/orders.vue" x.
Proof.
  assert (Htop := topLevel_stateAfter cyclePair "/app/src/views/cart.vue" initial).
  split; [exact Htop|].
  exact (walk_result_is_declared_below _ _ "/app/src/views/orders.vue" Htop).
Defined.

Lemma acyclic_walk_is_exact_witness :
  acyclic shop shopRank
  ∧ topLevel shop initial (stateAfter shop "/app/src/views/cart.vue" initial)
  ∧ ∃ st',
      walk shop "/app/src/views/orders.vue"
        (stateAfter shop "/app/src/views/cart.vue" initial)
      = Some (fullApis shop shopRank "/app/src/views/orders.vue", st')
      ∧ ∀ x, x ∈ fullApis shop shopRank "/app/src/views/orders.vue"
             ↔ declaredBelow shop "/app/src/views/orders.vue" x.
Proof.
  assert (Htop := topLevel_stateAfter shop "/app/src/views/cart.vue" initial).
  split; [exact shop_acyclic|]. split; [exact Htop|].
  exact (acyclic_walk_is_exact _ _ _ "/app/src/views/orders.vue" shop_acyclic Htop).
Defined.

Lemma acyclic_pass_is_exact_witness :
  acyclic shop shopRank
  ∧ Forall (λ a, special a = false) (list_ascii_of_string "src/views")
  ∧ Forall (λ F, ownCategory "src/views" F = true)
      ["/app/src/views/cart.vue"; "/app/src/views/orders.vue"]
  ∧ ∃ viewApiData st,
      collect "src/views" shop
        ["/app/src/views/cart.vue"; "/app/src/views/orders.vue"]
      = Some (viewApiData, st)
      ∧ ∀ c p t, holds viewApiData c p t ↔
          ∃ E d, E ∈ ["/app/src/views/cart.vue"; "/app/src/views/orders.vue"]
                 ∧ labels "src/views" E = Some (c, p)
                 ∧ declaredBelow shop E d ∧ t = Json.stringify d.
Proof.
  assert (Hown : Forall (λ F, ownCategory "src/views" F = true)
            ["/app/src/views/cart.vue"; "/app/src/views/orders.vue"]).
  { repeat (constructor; [vm_compute; reflexivity|]). constructor. }
  assert (Hplain : Forall (λ a, special a = false)
                      (list_ascii_of_string "src/views")).
  { by repeat constructor. }
  split; [exact shop_acyclic|]. split; [exact Hplain|]. split; [exact Hown|].
  exact (acyclic_pass_is_exact "src/views" shop shopRank _ shop_acyclic
           Hplain Hown).
Defined.

Lemma output_comes_from_entries_witness :
  Forall (λ a, special a = false) (list_ascii_of_string "src/views")
  ∧ ∃ viewApiData st,
    collect "src/views" cyclePair
      ["/app/src/views/cart.vue"; "/app/src/views/orders.vue"]
    = Some (viewApiData, st)
    ∧ (∀ c p t, holds viewApiData c p t →
         ∃ E d, E ∈ ["/app/src/views/cart.vue"; "/app/src/views/orders.vue"]
                ∧ labels "src/views" E = Some (c, p)
                ∧ declaredBelow cyclePair E d ∧ t = Json.stringify d)
    ∧ ∀ out, generateApiFile compareCodeUnits viewApiData = Some out →
        ∀ arr o, arr ∈ outputArrays out → o ∈ arr →
          ∃ E d, E ∈ ["/app/src/views/cart.vue"; "/app/src/views/orders.vue"]
                 ∧ is_Some (labels "src/views" E)
                 ∧ declaredBelow cyclePair E d ∧ o = Json.apiFields d.
Proof.
  assert (Hplain : Forall (λ a, special a = false)
                      (list_ascii_of_string "src/views")).
  { by repeat constructor. }
  split; [exact Hplain|].
  eexists _, _. split; [vm_compute; reflexivity|].
  eapply (output_comes_from_entries "src/views" compareCodeUnits cyclePair);
    [exact Hplain|].
  vm_compute. reflexivity.
Defined.

Lemma shared_component_read_once_witness :
  acyclicBelow shopLoop shopRank "/app/src/views/cart.vue"
  ∧ acyclicBelow shopLoop shopRank "/app/src/views/orders.vue"
  ∧ topLevel shopLoop initial (stateAfter shopLoop "/app/src/views/a.vue" initial)
  ∧ ∃ a1 st1,
      walk shopLoop "/app/src/views/cart.vue"
        (stateAfter shopLoop "/app/src/views/a.vue" initial) = Some (a1, st1) ∧
      ∀ st2, topLevel shopLoop st1 st2 →
        ∃ a2 st3,
          walk shopLoop "/app/src/views/orders.vue" st2 = Some (a2, st3) ∧
          ∀ st4, topLevel shopLoop st3 st4 →
            readCount "/app/src/components/Price.vue" st1 = 1
            ∧ readCount "/app/src/components/Price.vue" st4 = 1
            ∧ ∃ m, componentCache st1 !! "/app/src/components/Price.vue" = Some m
                   ∧ componentCache st3 !! "/app/src/components/Price.vue" = Some m
                   ∧ (∀ x, x ∈ m
                        ↔ declaredBelow shopLoop "/app/src/components/Price.vue" x)
                   ∧ m ⊆ a1 ∧ m ⊆ a2.
Proof.
  assert (Hregion : map_Forall (importsWithin shopRank shopRegion) shopLoop).
  { apply (bool_decide_unpack _). vm_compute. reflexivity. }
  assert (H1 : acyclicBelow shopLoop shopRank "/app/src/views/cart.vue").
  { apply (acyclicBelow_region shopLoop shopRank shopRegion); [|exact Hregion].
    apply (bool_decide_unpack _). vm_compute. reflexivity. }
  assert (H2 : acyclicBelow shopLoop shopRank "/app/src/views/orders.vue").
  { apply (acyclicBelow_region shopLoop shopRank shopRegion); [|exact Hregion].
    apply (bool_decide_unpack _). vm_compute. reflexivity. }
  assert (Htop := topLevel_stateAfter shopLoop "/app/src/views/a.vue" initial).
  split; [exact H1|]. split; [exact H2|]. split; [exact Htop|].
  apply (shared_component_read_once shopLoop shopRank
           "/app/src/components/Price.vue"
           "/app/src/views/cart.vue" "/app/src/views/orders.vue" _ H1 H2).
  - eexists _, _. reflexivity.
  - apply tc_once. eexists _, _. split; [reflexivity|]. apply list_elem_of_here.
  - apply tc_once. eexists _, _. split; [reflexivity|]. apply list_elem_of_here.
  - exact Htop.
Defined.

Lemma relative_import_loses_its_dot_witness :
  chars "/Price.vue"
  ∈ relativeImports (chars "/app") (chars siblingImport) (chars "/app/src/views")
    ++ dynamicImports (chars "/app") (chars siblingImport) (chars "/app/src/views")
  ∧ ∃ pre q c q' post,
      chars siblingImport = pre ++ q :: "."%char :: c ++ chars ".vue" ++ q' :: post
      ∧ quote2 q = true ∧ quote2 q' = true
      ∧ chars "/Price.vue"
        = resolve (chars "/app") [chars "/app/src/views"; c ++ chars ".vue"]
      ∧ (isAbsolute c = true →
         ∀ cwd' dir',
           chars "/Price.vue" = resolve cwd' [dir'; c ++ chars ".vue"]).
Proof.
  assert (H : chars "/Price.vue"
    ∈ relativeImports (chars "/app") (chars siblingImport) (chars "/app/src/views")
      ++ dynamicImports (chars "/app") (chars siblingImport) (chars "/app/src/views")).
  { vm_compute. apply list_elem_of_here. }
  split; [exact H|].
  exact (relative_import_loses_its_dot _ _ _ _ H).
Defined.


Lemma direct_apis_come_from_the_catalogue_witness :
  extractDirectApisWithConfig noHost defaultAliases carCatalogue userList
  = Some [mkApi "/system/user/list" "GET" (Some "listUser")]
  ∧ (mkApi "/system/user/list" "GET" (Some "listUser") ∈ extractUrlLiterals userList
     ∨ ∃ key l name,
         Obj.get key carCatalogue = Some l
         ∧ mkApi "/system/user/list" "GET" (Some "listUser") ∈ l
         ∧ functionName (mkApi "/system/user/list" "GET" (Some "listUser"))
           = Some name).
Proof.
  assert (H : extractDirectApisWithConfig noHost defaultAliases carCatalogue userList
              = Some [mkApi "/system/user/list" "GET" (Some "listUser")]).
  { vm_compute. reflexivity. }
  split; [exact H|].
  apply (direct_apis_come_from_the_catalogue _ _ _ _ _ _ H).
  apply list_elem_of_here.
Defined.

Lemma call_test_is_textual_witness :
  Forall (λ a, special a = false) (chars "listUser")
  ∧ ∃ b, funcCallTest noHost (chars "listUser") (chars userList) = Some b
         ∧ (b = true ↔
            ∃ pre sp post,
              chars userList = pre ++ chars "listUser" ++ sp ++ "("%char :: post
              ∧ Forall (λ a, is_space a = true) sp
              ∧ wordBoundary (rev pre)
                  (chars "listUser" ++ sp ++ "("%char :: post) = true).
Proof.
  assert (H : Forall (λ a, special a = false) (chars "listUser")).
  { by repeat constructor. }
  split; [exact H|].
  exact (call_test_is_textual noHost _ (chars userList) H).
Defined.

Lemma dollar_name_is_never_called_witness :
  Forall (λ a, special a = false ∨ a = "$"%char ∨ a = "."%char) (chars "$emit")
  ∧ "$"%char ∈ chars "$emit"
  ∧ funcCallTest noHost (chars "$emit") (chars "this.$emit('x'); $emit(1)")
    = Some false.
Proof.
  assert (H : Forall (λ a, special a = false ∨ a = "$"%char ∨ a = "."%char)
                (chars "$emit")).
  { constructor; [by right; left|]. repeat constructor; by left. }
  assert (Hin : "$"%char ∈ chars "$emit") by apply list_elem_of_here.
  split; [exact H|]. split; [exact Hin|].
  exact (dollar_name_is_never_called noHost _ _ H Hin).
Defined.


Lemma api_module_key_witness :
  apiModule "src/api" (chars "/proj/src/api/system/user.js")
  = Some "system/user".
Proof.
  apply (api_module_key "src/api" (chars "/proj") (chars "system/user") (chars "js")).
  - by repeat constructor.
  - apply (bool_decide_unpack _). vm_compute. exact I.
  - reflexivity.
  - discriminate.
  - by repeat constructor.
  - by left.
Defined.

Lemma imported_call_is_detected_witness :
  extractDirectApisWithConfig quietHost defaultAliases carCatalogue userList
  = Some [mkApi "/system/user/list" "GET" (Some "listUser")]
  ∧ ∀ apis,
      extractDirectApisWithConfig quietHost defaultAliases carCatalogue userList
      = Some apis →
      mkApi "/system/user/list" "GET" (Some "listUser") ∈ apis.
Proof.
  split; [vm_compute; reflexivity|].
  apply (imported_call_is_detected quietHost defaultAliases carCatalogue userList
           [] [" "%char] (chars " listUser, addUser ") [" "%char] [" "%char]
           squote (chars "@/api/system/user") squote (chars "; listUser(query)")
           (chars "listUser") (chars "system/user")
           [mkApi "/system/user/list" "GET" (Some "listUser");
            mkApi "/system/user" "POST" (Some "addUser")]).
  - reflexivity.
  - split; [discriminate|by repeat constructor].
  - split; [discriminate|by repeat constructor].
  - by repeat constructor.
  - split; [discriminate|by repeat constructor].
  - split; [discriminate|by repeat constructor].
  - reflexivity.
  - reflexivity.
  - by repeat constructor.
  - exists (chars "@"), (chars "system/user"). split; [reflexivity|discriminate].
  - intros f _ Hlt. simpl in Hlt. lia.
  - vm_compute. apply list_elem_of_here.
  - vm_compute. reflexivity.
  - vm_compute. reflexivity.
  - discriminate.
  - reflexivity.
  - reflexivity.
Defined.

Lemma exported_function_is_catalogued_witness :
  ∃ m, mkApi (Catalog.str (cleanUrl (Catalog.chars "/system/user/list"))) m
         (Some (Catalog.str (Catalog.chars "listUser"))) ∈ analyzeApiCode listUserModule
       ∧ (includes (Catalog.chars " url: '/system/user/list', method: 'get', params: query ")
            (Catalog.chars "method:") = false → m = "GET")
       ∧ ∀ c1 sp8 p M p' c2,
           Catalog.chars " url: '/system/user/list', method: 'get', params: query "
           = c1 ++ Declarations.fieldText "method" sp8 p M p' ++ c2 →
           firstAt (Catalog.chars " url: '/system/user/list', method: 'get', params: query ")
             (Catalog.chars "method:") = Some (length c1) →
           Forall (λ a, is_space a = true) sp8 →
           quote3 p = true → quote3 p' = true →
           M ≠ [] → Forall (λ a, not_quote3 a = true) M →
           Forall (λ a, Regex.code a < 128) M →
           m = Catalog.str (toUpperCase M).
Proof.
  apply (CatalogFound.exported_function_is_catalogued listUserModule
           [] [" "%char] [" "%char] (Catalog.chars "listUser") [] (Catalog.chars "query")
           (Catalog.chars " { return ") [] []
           (Catalog.chars " url: '/system/user/list', method: 'get', params: query ")
           [] (Catalog.chars " }") [" "%char] [" "%char] squote
           (Catalog.chars "/system/user/list") squote
           (Catalog.chars ", method: 'get', params: query ")).
  - vm_compute; reflexivity.
  - split; [discriminate|by repeat constructor].
  - split; [discriminate|by repeat constructor].
  - split; [discriminate|by repeat constructor].
  - constructor.
  - by repeat constructor.
  - constructor.
  - constructor.
  - constructor.
  - apply (bool_decide_unpack _). vm_compute. exact I.
  - vm_compute; reflexivity.
  - vm_compute; reflexivity.
  - vm_compute; reflexivity.
  - by repeat constructor.
  - vm_compute; reflexivity.
  - vm_compute; reflexivity.
  - discriminate.
  - by repeat constructor.
  - intros f _ Hlt. simpl in Hlt. lia.
Defined.

Lemma exported_constant_is_catalogued_witness :
  ∃ m, mkApi (Catalog.str (cleanUrl (Catalog.chars "/getInfo"))) m
         (Some (Catalog.str (Catalog.chars "getInfo"))) ∈ analyzeApiCode getInfoModule
       ∧ (includes (Catalog.chars " url: '/getInfo' ") (Catalog.chars "method:") = false →
          m = "GET")
       ∧ ∀ c1 sp8 p M p' c2,
           Catalog.chars " url: '/getInfo' "
           = c1 ++ Declarations.fieldText "method" sp8 p M p' ++ c2 →
           firstAt (Catalog.chars " url: '/getInfo' ") (Catalog.chars "method:")
           = Some (length c1) →
           Forall (λ a, is_space a = true) sp8 →
           quote3 p = true → quote3 p' = true →
           M ≠ [] → Forall (λ a, not_quote3 a = true) M →
           Forall (λ a, Regex.code a < 128) M →
           m = Catalog.str (toUpperCase M).
Proof.
  apply (CatalogFound.exported_constant_is_catalogued getInfoModule
           [] [" "%char] [" "%char] (Catalog.chars "getInfo") [" "%char]
           (Catalog.chars " () => ") [] [] (Catalog.chars " url: '/getInfo' ") [] []
           [" "%char] [" "%char] squote (Catalog.chars "/getInfo") squote [" "%char]).
  - vm_compute; reflexivity.
  - split; [discriminate|by repeat constructor].
  - split; [discriminate|by repeat constructor].
  - split; [discriminate|by repeat constructor].
  - by repeat constructor.
  - constructor.
  - constructor.
  - constructor.
  - apply (bool_decide_unpack _). vm_compute. exact I.
  - vm_compute; reflexivity.
  - vm_compute; reflexivity.
  - vm_compute; reflexivity.
  - by repeat constructor.
  - vm_compute; reflexivity.
  - vm_compute; reflexivity.
  - discriminate.
  - by repeat constructor.
  - intros f _ Hlt. simpl in Hlt. lia.
Defined.


End Examples.
